(** * block2: contraction engine and sweep driver

    A shallow embedding of [parallel_tensor_functions.hpp] and
    [sweep_algorithm.hpp].  Numeric kernels, the ownership rule and the
    moving environment are collaborators of these two files: every call to
    them is recorded, in program order, in a log of calls; whatever the code
    reads back from them (a solver estimate, whether a tensor slot is
    loaded) is a function of that log. *)

From Stdlib Require Import ZArith QArith Qabs List Bool Ascii String Lia.
From stdpp Require Import base option list gmap.
Import ListNotations.

#[local] Open Scope Z_scope.

(** ** Outcomes of a run *)

(** The exceptions the sources can raise: the [runtime_error] thrown by
    the drivers, the [out_of_range] of [map::at] and the [length_error] of
    [vector::resize]. *)
Inductive exn : Type :=
| runtime_error (what : string)
| out_of_range
| length_error.

(** A computation over a state [St] either returns, throws (the state at
    the throw is still there for a handler), stops the process on a failed
    [assert], or leaves defined behaviour (an index outside a vector or a
    string, a null pointer). *)
Inductive outcome (St A : Type) : Type :=
| Ok (a : A) (s : St)
| Thrown (e : exn) (s : St)
| AssertFail
| Undefined.

Arguments Ok {St A} a s.
Arguments Thrown {St A} e s.
Arguments AssertFail {St A}.
Arguments Undefined {St A}.

Definition M (St A : Type) : Type := St -> outcome St A.

Definition ret {St A} (a : A) : M St A := fun s => Ok a s.

Definition bind {St A B} (m : M St A) (k : A -> M St B) : M St B :=
  fun s =>
    match m s with
    | Ok a s' => k a s'
    | Thrown e s' => Thrown e s'
    | AssertFail => AssertFail
    | Undefined => Undefined
    end.

Definition throw {St A} (e : exn) : M St A := fun s => Thrown e s.

(** [assert(c)] *)
Definition assert {St} (c : bool) : M St unit :=
  fun s => if c then Ok tt s else AssertFail.

Definition undefined {St A} : M St A := fun _ => Undefined.

(** Reading through an index or a pointer that may be invalid. *)
Definition deref {St A} (o : option A) : M St A :=
  match o with
  | Some a => ret a
  | None => undefined
  end.

(** [map::at] *)
Definition map_at {St A} (o : option A) : M St A :=
  match o with
  | Some a => ret a
  | None => throw out_of_range
  end.

Declare Scope run_scope.
Delimit Scope run_scope with run.

Notation "'do' x <- m ; k" := (bind m (fun x => k))
  (at level 10, x name, m at level 100, k at level 200) : run_scope.
Notation "'do' ' p <- m ; k" := (bind m (fun x => match x with p => k end))
  (at level 10, p pattern, m at level 100, k at level 200) : run_scope.
Notation "m1 >> m2" := (bind m1 (fun _ => m2))
  (at level 100, m2 at level 200, right associativity) : run_scope.

#[local] Open Scope run_scope.

(** [for (auto &x : xs) body(x);] *)
Fixpoint for_each {St A} (xs : list A) (body : A -> M St unit) : M St unit :=
  match xs with
  | [] => ret tt
  | x :: xs' => body x >> for_each xs' body
  end.

(** [when c m] is [if (c) m;] *)
Definition when {St} (c : bool) (m : M St unit) : M St unit :=
  if c then m else ret tt.

(** [len] consecutive integers from [start]. *)
Fixpoint zseq (start : Z) (len : nat) : list Z :=
  match len with
  | O => []
  | S len' => start :: zseq (start + 1) len'
  end.

(** [for (int k = 0; k < n; k++)] iterates over [zrange n]. *)
Definition zrange (n : Z) : list Z := zseq 0 (Z.to_nat n).

(** [hoare P m Q]: from a state in [P], whenever [m] returns it leaves a
    state in [Q]. *)
Definition hoare {St A} (P : St -> Prop) (m : M St A) (Q : St -> Prop)
  : Prop :=
  forall s a s', P s -> m s = Ok a s' -> Q s'.

(** A loop asked for [n] sweeps that made [m] of them stopped exactly when
    [rule] says so: no sweep before the last one made met the rule, and
    if fewer sweeps were made than asked for, the last one met it. *)
Definition stops_exactly_when (n m : nat) (rule : nat -> bool) : Prop :=
  (m <= n)%nat
  /\ (forall iw, (S iw < m)%nat -> rule iw = false)
  /\ ((m < n)%nat -> exists iw, m = S iw /\ rule iw = true).

(** [returns m R]: whatever [m] returns is in [R]. *)
Definition returns {St A} (m : M St A) (R : A -> Prop) : Prop :=
  forall s a s', m s = Ok a s' -> R a.

(** [preserves f m]: whenever [m] returns, the part [f] of the state is
    as before. *)
Definition preserves {St A X} (f : St -> X) (m : M St A) : Prop :=
  forall s a s', m s = Ok a s' -> f s' = f s.

(** [completes R m]: [m] never throws, and whenever it returns, the
    states before and after are related by [R]. *)
Definition completes {St A} (R : St -> St -> Prop) (m : M St A) : Prop :=
  forall s,
    match m s with
    | Ok _ s' => R s s'
    | Thrown _ _ => False
    | AssertFail | Undefined => True
    end.

(** ** Arithmetic of [double] and [long double]

    The drivers only add, subtract, multiply, divide and compare
    floating-point numbers; the partition weights are computed in
    [long double], with [expl].  The operations are an interface: the
    results below hold for every interpretation of it, IEEE-754 included.
    A [double] converts to [long double] without change of value, so one
    type [D] holds the values of both, with the operations of [double]
    ([dadd], ...) and those of [long double] ([ladd], ...) side by side;
    [to_double] is the conversion back, which rounds.  An [int] converts
    to either type without change, by [of_Z]; the literals [0.0L] and
    [1.0L] are those of [0.0] and [1.0]. *)
Class Numeric (D : Type) : Type := {
  of_Q : Q -> D;            (* a literal *)
  of_Z : Z -> D;            (* conversion of an [int] *)
  dadd : D -> D -> D;
  dsub : D -> D -> D;
  dmul : D -> D -> D;
  ddiv : D -> D -> D;
  dneg : D -> D;
  dabs : D -> D;
  dltb : D -> D -> bool;    (* [<] *)
  deqb : D -> D -> bool;    (* [==] *)
  ladd : D -> D -> D;       (* [long double]: [+] *)
  lsub : D -> D -> D;
  lmul : D -> D -> D;
  ldiv : D -> D -> D;
  lneg : D -> D;
  lexp : D -> D;            (* [expl] *)
  to_double : D -> D        (* [(double)x] *)
}.

(** ** Operator expressions *)

(** Modelled from the spec: the declaration of [SeqTypes] is outside these
    sources.  The code names the batching modes [Simple] and [Auto]; every
    other mode is [Other]. *)
Module SeqTypes.
Inductive t : Type := Other | Simple | Auto.

Definition eqb (x y : t) : bool :=
  match x, y with
  | Other, Other | Simple, Simple | Auto, Auto => true
  | _, _ => false
  end.
End SeqTypes.

Section Expr.
(** [Op] is [OpElement<S>], an elementary operator; [D] the type of its
    scalar factor. *)
Context {Op D : Type}.

(** [OpString<S>]: the product [a * b] (with [b] possibly null), the
    conjugation bits and the scalar factor. *)
Record OpString : Type := mkOpString {
  a : Op;
  b : option Op;
  conj : Z;
  factor : D
}.

(** [OpExpr<S>] by its [get_type()]: [Zero], [Elem], [Prod], [Sum] (whose
    [strings] are [OpString]s) and [ExprRef] (with [is_local] and the
    inner [op]). *)
Inductive OpExpr : Type :=
| Zero
| Elem (e : Op)
| Prod (s : OpString)
| Sum (strings : list OpString)
| ExprRef (is_local : bool) (op : OpExpr).

Definition is_Zero (e : OpExpr) : bool :=
  match e with Zero => true | _ => false end.

Definition is_ExprRef (e : OpExpr) : bool :=
  match e with ExprRef _ _ => true | _ => false end.
End Expr.

Arguments OpString : clear implicits.
Arguments OpExpr : clear implicits.

(** ** parallel_tensor_functions.hpp *)

Module ParallelTensorFunctions.
Section Engine.
(** [S] is the quantum label, [Mat] the identity of a [SparseMatrix]
    (or of a matrix of a [SparseMatrixGroup]), [CInfo] a
    [ConnectionInfo]. *)
Context {Op D S Mat CInfo : Type}.
Context `{Countable Op}.

(** The calls the engine makes to [opf], [opf->seq] and [rule->comm], and
    its writes to [cmat->info->cinfo]. *)
Inductive Call : Type :=
| opf_tensor_product_multiply
    (conj : Z) (lmat rmat cmat vmat : Mat) (opdq : S) (factor : D)
| comm_allreduce_sum (vmat : Mat)
| comm_reduce_sum_group (vmats : list Mat) (root : Z)
| comm_reduce_sum (mat : Mat) (root : Z)
| opf_iadd (a b : Mat) (scale : D) (conj : bool)
| seq_simple_perform
| seq_auto_perform
| allocate (mat : Mat)
| set_cinfo (cmat : Mat) (c : CInfo).

(** What the engine changes: the connection info currently installed in
    [cmat], and the log. *)
Record World : Type := mkWorld {
  cinfo : CInfo;
  calls : list Call
}.

Definition call (c : Call) : M World unit :=
  fun w => Ok tt {| cinfo := cinfo w; calls := calls w ++ [c] |}.

Definition get_cinfo : M World CInfo := fun w => Ok (cinfo w) w.

(** [cmat->info->cinfo = c] *)
Definition put_cinfo (cmat : Mat) (c : CInfo) : M World unit :=
  fun w => Ok tt {| cinfo := c; calls := calls w ++ [set_cinfo cmat c] |}.

(** The all-reduces in a log. *)
Definition is_allreduce (c : Call) : bool :=
  match c with comm_allreduce_sum _ => true | _ => false end.

Definition allreduces (l : list Call) : list Call :=
  List.filter is_allreduce l.

(** [m.count(k) != 0] *)
Definition mem (m : gmap Op Mat) (k : Op) : bool :=
  bool_decide (is_Some (m !! k)).

Variable lop rop : gmap Op Mat.

(** *** tensor_product_multiply *)

(** The [Prod] case. *)
Definition multiply_prod (op : OpString Op D) (cmat vmat : Mat) (opdq : S)
  : M World unit :=
  match b op with
  | None => assert false
  | Some bo =>
      assert (negb (negb (mem lop (a op)) || negb (mem rop bo))) >>
      do lmat <- map_at (lop !! a op);
      do rmat <- map_at (rop !! bo);
      call (opf_tensor_product_multiply (conj op) lmat rmat cmat vmat opdq
              (factor op))
  end.

Fixpoint tensor_product_multiply (expr : OpExpr Op D) (cmat vmat : Mat)
    (opdq : S) (all_reduce : bool) {struct expr} : M World unit :=
  match expr with
  | Prod op => multiply_prod op cmat vmat opdq
  | Sum strings =>
      (* [tensor_product_multiply(x, ..., false)] for each [x]: every
         [x] is an [OpString], so the call lands in the case above *)
      for_each strings (fun x => multiply_prod x cmat vmat opdq)
  | ExprRef _ op =>
      tensor_product_multiply op cmat vmat opdq false >>
      when all_reduce (call (comm_allreduce_sum vmat))
  | Zero => ret tt
  | Elem _ => assert false
  end.

(** *** tensor_product_partial_multiply *)

(** The quantum label [S]: negation, fusion [a + b] with its [count()]
    and [operator[]], and the order used by [lower_bound]. *)
Class QLabel : Type := {
  qneg : S -> S;
  qadd : S -> S -> S;
  qcount : S -> Z;
  qget : S -> Z -> S;
  qltb : S -> S -> bool
}.
Context `{QLabel}.

(** [lower_bound(l.begin(), l.end(), v) - l.begin()] on a range that is
    partitioned with respect to [v], as the standard requires. *)
Fixpoint lower_bound {A} (lt : A -> A -> bool) (l : list A) (v : A) : Z :=
  match l with
  | [] => 0
  | x :: l' => if lt x v then 1 + lower_bound lt l' v else 0
  end.

(** [operator<] of [pair<uint8_t, S>] *)
Definition pair_ltb (x y : Z * S) : bool :=
  (x.1 <? y.1) || (negb (y.1 <? x.1) && qltb x.2 y.2).

(** Parameters standing for declarations outside these sources: the label
    of an operator, the identity operator [i_op], the batching mode
    [opf->seq->mode] and [rule->comm->root]. *)
Variable q_label : Op -> S.
Variable i_op : Op.
Variable mode : SeqTypes.t.
Variable root : Z.

Definition partial_multiply_prod (op : OpString Op D) (trace_right : bool)
    (cmat : Mat) (delta_quantum : S) (psubsl : list (Z * S))
    (cinfos : list (list CInfo)) (vdqs : list S) (vmats : list Mat)
  : M World unit :=
  match b op with
  | None => assert false
  | Some bo =>
      do old_cinfo <- get_cinfo;
      (if trace_right then
         assert (mem lop (a op) && mem rop i_op) >>
         do lmat <- map_at (lop !! a op);
         do rmat <- map_at (rop !! i_op);
         let opdq := if Z.land (conj op) 1 =? 0 then q_label (a op)
                     else qneg (q_label (a op)) in
         let pks := qadd delta_quantum opdq in
         let ij := lower_bound pair_ltb psubsl (Z.land (conj op) 1, opdq) in
         for_each (zrange (qcount pks)) (fun k =>
           let vdq := qget pks k in
           let iv := lower_bound qltb vdqs vdq in
           do vmat <- deref (vmats !! Z.to_nat iv);
           do ci <- deref (cinfos !! Z.to_nat ij ≫= (.!! Z.to_nat k));
           put_cinfo cmat ci >>
           call (opf_tensor_product_multiply (Z.land (conj op) 1) lmat rmat
                   cmat vmat opdq (factor op)))
       else
         assert (mem lop i_op && mem rop bo) >>
         do lmat <- map_at (lop !! i_op);
         do rmat <- map_at (rop !! bo);
         let opdq := if Z.land (conj op) 2 =? 0 then q_label bo
                     else qneg (q_label bo) in
         let pks := qadd delta_quantum opdq in
         let ij := lower_bound pair_ltb psubsl
                     (if Z.land (conj op) 2 =? 0 then 0 else 1, opdq) in
         for_each (zrange (qcount pks)) (fun k =>
           let vdq := qget pks k in
           let iv := lower_bound qltb vdqs vdq in
           do vmat <- deref (vmats !! Z.to_nat iv);
           do ci <- deref (cinfos !! Z.to_nat ij ≫= (.!! Z.to_nat k));
           put_cinfo cmat ci >>
           call (opf_tensor_product_multiply (Z.land (conj op) 2) lmat rmat
                   cmat vmat opdq (factor op)))) >>
      put_cinfo cmat old_cinfo
  end.

Fixpoint tensor_product_partial_multiply (expr : OpExpr Op D)
    (trace_right : bool) (cmat : Mat) (delta_quantum : S)
    (psubsl : list (Z * S)) (cinfos : list (list CInfo)) (vdqs : list S)
    (vmats : list Mat) {struct expr} : M World unit :=
  match expr with
  | Prod op =>
      partial_multiply_prod op trace_right cmat delta_quantum psubsl cinfos
        vdqs vmats
  | Sum strings =>
      for_each strings (fun x =>
        partial_multiply_prod x trace_right cmat delta_quantum psubsl
          cinfos vdqs vmats)
  | ExprRef _ op =>
      tensor_product_partial_multiply op trace_right cmat delta_quantum
        psubsl cinfos vdqs vmats >>
      when (negb (SeqTypes.eqb mode SeqTypes.Auto))
        (call (comm_reduce_sum_group vmats root))
  | Zero => ret tt
  | Elem _ => assert false
  end.

(** *** numerical_transform *)

(** A [SparseMatrix] held by an operator tensor: its identity, and
    whether [data] is allocated. *)
Record SparseMatrix : Type := mkSparseMatrix {
  mat : Mat;
  has_data : bool
}.

(** [OperatorTensor<S>]: the two symbolic vectors (either may be null)
    and the map [ops], in the order of its keys. *)
Record OperatorTensor : Type := mkOperatorTensor {
  lmat : option (list Op);
  rmat : option (list Op);
  ops : list (Op * SparseMatrix)
}.

(** [ops.find(k)] *)
Fixpoint ops_find (l : list (Op * SparseMatrix)) (k : Op)
  : option SparseMatrix :=
  match l with
  | [] => None
  | (k', m) :: l' => if bool_decide (k' = k) then Some m else ops_find l' k
  end.

(** Parameters standing for declarations outside these sources:
    [abs_value] and the [factor] of an operator, the product of an
    expression by a scalar, the ownership rule's [owner] and
    [localize_expr] (which yields [is_local] and the inner [op]), and
    [get_op], the operator a summand stands for. *)
Context `{Numeric D}.
Variable abs_value : Op -> Op.
Variable op_factor : Op -> D.
Variable expr_scale : OpExpr Op D -> D -> OpExpr Op D.
Variable owner : Op -> Z.
Variable localize_expr : OpExpr Op D -> Z -> bool * OpExpr Op D.
Variable get_op : OpString Op D -> Op.

(** The expression the accumulation reads for the name [nm] with the
    defining expression [e]: scaled by [1 / factor], then localized to
    the owner unless it is an [ExprRef] already. *)
Definition local_expr (nm : Op) (e : OpExpr Op D) : OpExpr Op D :=
  let nop := abs_value nm in
  let expr := expr_scale e (ddiv (of_Z 1) (op_factor nm)) in
  match expr with
  | ExprRef _ op => op
  | _ => (localize_expr expr (owner nop)).2
  end.

(** One pass [i] of the inner loop over [k]; returns [found]. *)
Fixpoint pass (aops : list (Op * SparseMatrix)) (i : Z)
    (defs : list (Op * OpExpr Op D)) (found : bool) {struct defs}
  : M World bool :=
  match defs with
  | [] => ret found
  | (nm, e) :: rest =>
      if is_Zero e then pass aops i rest found
      else
        let nop := abs_value nm in
        match local_expr nm e with
        | Sum strings =>
            let found' := found || (i <? Z.of_nat (length strings)) in
            (if i <? Z.of_nat (length strings) then
               do x <- deref (strings !! Z.to_nat i);
               let nexpr := get_op x in
               assert (bool_decide (is_Some (ops_find aops nexpr))) >>
               do dst <- map_at (ops_find aops nop);
               do src <- map_at (ops_find aops nexpr);
               call (opf_iadd (mat dst) (mat src) (factor x)
                       (negb (conj x =? 0)))
             else ret tt) >>
            pass aops i rest found'
        | Zero => pass aops i rest found
        | _ => assert false >> pass aops i rest found
        end
  end.

(** The loop [for (i = 0; i < a->ops.size(); i++)], with [n] passes
    left; returns the number of passes entered. *)
Fixpoint passes (aops : list (Op * SparseMatrix))
    (defs : list (Op * OpExpr Op D)) (n : nat) (i : Z) {struct n}
  : M World Z :=
  match n with
  | O => ret i
  | Datatypes.S n' =>
      do found <- pass aops i defs false;
      if negb found then ret (i + 1)
      else
        when (SeqTypes.eqb mode SeqTypes.Simple) (call seq_simple_perform) >>
        passes aops defs n' (i + 1)
  end.

(** [is_local] of the closing loop: whether the result for the name [nm]
    with the defining expression [e] is complete on the owner. *)
Definition is_local_def (nm : Op) (e : OpExpr Op D) : bool :=
  match e with
  | ExprRef l _ => l
  | _ => (localize_expr e (owner (abs_value nm))).1
  end.

(** The closing loop: non-local results go to the owner. *)
Definition reduce_to_owners (aops : list (Op * SparseMatrix))
    (defs : list (Op * OpExpr Op D)) : M World unit :=
  for_each defs (fun '(nm, e) =>
    let nop := abs_value nm in
    if is_Zero e then ret tt
    else
      let is_local := is_local_def nm e in
      when (negb is_local)
        (do m <- map_at (ops_find aops nop);
         call (comm_reduce_sum (mat m) (owner nop)))).

(** Returns the tensor as the call leaves it, and the number of passes
    of the accumulation loop that were entered. *)
Definition numerical_transform (a : OperatorTensor) (names : list Op)
    (exprs : list (OpExpr Op D)) : M World (OperatorTensor * Z) :=
  for_each (ops a) (fun '(_, m) =>
    when (negb (has_data m)) (call (allocate (mat m)))) >>
  let aops := map (fun '(k, m) => (k, mkSparseMatrix (mat m) true)) (ops a) in
  assert (bool_decide (length names = length exprs)) >>
  assert (xorb (bool_decide (lmat a = None)) (bool_decide (rmat a = None))) >>
  let a' := if bool_decide (lmat a = None)
            then mkOperatorTensor (lmat a) (Some names) aops
            else mkOperatorTensor (Some names) (rmat a) aops in
  let defs := combine names exprs in
  do n <- passes aops defs (length aops) 0;
  when (SeqTypes.eqb mode SeqTypes.Auto) (call seq_auto_perform) >>
  reduce_to_owners aops defs >>
  ret (a', n).

(** The vocabulary of the properties of [numerical_transform], written
    from the description of the call and from none of the definitions
    above. *)

(** What a definition, a name with its defining expression, stands for on
    this worker: the expression divided by the factor of the name, and of
    that what the ownership rule keeps for the owner of the name; an
    expression that is an [ExprRef] once divided is localized already and
    stands for its content. *)
Definition localized (d : Op * OpExpr Op D) : OpExpr Op D :=
  match expr_scale d.2 (ddiv (of_Z 1) (op_factor d.1)) with
  | ExprRef _ content => content
  | divided => (localize_expr divided (owner (abs_value d.1))).2
  end.

(** The local summands of a definition: those of the sum it stands for
    on this worker; a [Zero] definition has none. *)
Definition summands (d : Op * OpExpr Op D) : list (OpString Op D) :=
  match d.2, localized d with
  | Zero, _ => []
  | _, Sum strings => strings
  | _, _ => []
  end.

(** Whether the local summands of a definition are all of it: the flag of
    an [ExprRef], and otherwise the flag the ownership rule gives the
    expression for the owner of the name. *)
Definition complete_on_owner (d : Op * OpExpr Op D) : bool :=
  match d.2 with
  | ExprRef is_local _ => is_local
  | e => (localize_expr e (owner (abs_value d.1))).1
  end.

(** Some definition has an [i]-th local summand. *)
Definition contributes (defs : list (Op * OpExpr Op D)) (i : Z) : bool :=
  existsb (fun d => i <? Z.of_nat (length (summands d))) defs.

(** Adding the [i]-th local summand of every definition that has one into
    its target. *)
Definition pass_calls (aops : list (Op * SparseMatrix))
    (defs : list (Op * OpExpr Op D)) (i : Z) : list Call :=
  flat_map (fun d =>
    match summands d !! Z.to_nat i with
    | Some x =>
        match ops_find aops (abs_value d.1), ops_find aops (get_op x) with
        | Some dst, Some src =>
            [opf_iadd (mat dst) (mat src) (factor x) (negb (conj x =? 0))]
        | _, _ => []
        end
    | None => []
    end) defs.

(** The calls of the passes listed in [l]: each pass adds its summands,
    and a pass that added some is followed, in [Simple] mode, by the
    flush of the batch. *)
Definition passes_calls (aops : list (Op * SparseMatrix))
    (defs : list (Op * OpExpr Op D)) (l : list Z) : list Call :=
  flat_map (fun i =>
    pass_calls aops defs i ++
    (if contributes defs i && SeqTypes.eqb mode SeqTypes.Simple
     then [seq_simple_perform] else [])) l.

(** One reduce-sum to the owner for every non-zero definition that is not
    local. *)
Definition reduce_calls (aops : list (Op * SparseMatrix))
    (defs : list (Op * OpExpr Op D)) : list Call :=
  flat_map (fun d =>
    match d.2, complete_on_owner d, ops_find aops (abs_value d.1) with
    | Zero, _, _ | _, true, _ | _, _, None => []
    | _, false, Some m => [comm_reduce_sum (mat m) (owner (abs_value d.1))]
    end) defs.

Definition allocate_calls (l : list (Op * SparseMatrix)) : list Call :=
  flat_map (fun e => if has_data e.2 then [] else [allocate (mat e.2)]) l.
End Engine.

(** The vocabulary of the properties of the two products as a whole. *)
Section EngineLog.
Context {Op D S Mat CInfo : Type} `{Countable Op}.
Variable lop rop : gmap Op Mat.

(** A product whose second factor is there and whose two factors have a
    matrix in [lop] and [rop]. *)
Definition prod_ready (op : OpString Op D) : bool :=
  match b op with
  | Some bo => mem lop (a op) && mem rop bo
  | None => false
  end.

(** An expression all of whose products are ready, with no bare operator
    where a product is expected. *)
Fixpoint all_ready (expr : OpExpr Op D) : bool :=
  match expr with
  | Zero => true
  | Elem _ => false
  | Prod op => prod_ready op
  | Sum strings => forallb prod_ready strings
  | ExprRef _ op => all_ready op
  end.

(** The block multiplication of a ready product. *)
Definition prod_call (cmat vmat : Mat) (opdq : S) (op : OpString Op D)
  : list (@Call D S Mat CInfo) :=
  match lop !! a op, b op ≫= (rop !!.) with
  | Some lmat, Some rmat =>
      [opf_tensor_product_multiply (conj op) lmat rmat cmat vmat opdq
         (factor op)]
  | _, _ => []
  end.

(** The block multiplications of an expression, from left to right. *)
Fixpoint product_calls (expr : OpExpr Op D) (cmat vmat : Mat) (opdq : S)
  : list (@Call D S Mat CInfo) :=
  match expr with
  | Prod op => prod_call cmat vmat opdq op
  | Sum strings => flat_map (prod_call cmat vmat opdq) strings
  | ExprRef _ op => product_calls op cmat vmat opdq
  | Zero | Elem _ => []
  end.

(** The number of [ExprRef]s an expression is wrapped in. *)
Fixpoint ref_depth (expr : OpExpr Op D) : nat :=
  match expr with
  | ExprRef _ op => Datatypes.S (ref_depth op)
  | _ => 0%nat
  end.

(** The reduce-sums of a group and the writes of the connection info, in
    a log. *)
Definition is_reduce_group (c : @Call D S Mat CInfo) : bool :=
  match c with comm_reduce_sum_group _ _ => true | _ => false end.

Definition is_set_cinfo (c : @Call D S Mat CInfo) : bool :=
  match c with set_cinfo _ _ => true | _ => false end.
End EngineLog.
End ParallelTensorFunctions.

(** ** parallel_tensor_functions.hpp: the diagonal, the product over a
    group of matrices and the rotations *)

Module ParallelTensorOps.
Import ParallelTensorFunctions.

Section Ops.
Context {Op D S Mat CInfo : Type} `{Countable Op}.

(** The calls of these functions: those of the engine above, and the
    calls to [opf] and [rule->comm] that only these functions make. *)
Inductive Event : Type :=
| engine (c : @Call D S Mat CInfo)
| opf_tensor_product_diagonal
    (conj : Z) (lmat rmat dmat : Mat) (opdq : S) (factor : D)
| comm_allreduce_sum_group (vmats : list Mat)
| opf_tensor_rotate (a c mpst_bra mpst_ket : Mat) (trace_right : bool)
| comm_broadcast (m : Mat) (owner : Z).

(** The connection info installed in [cmat], and the log. *)
Record Machine : Type := mkMachine {
  installed : CInfo;
  events : list Event
}.

Definition emit (e : Event) : M Machine unit :=
  fun s => Ok tt {| installed := installed s; events := events s ++ [e] |}.

(** A function of the engine above, run from here: its calls are appended
    to the log as they are made; it does not read the log. *)
Definition lift {A} (m : M (@World D S Mat CInfo) A) : M Machine A :=
  fun s =>
    match m {| cinfo := installed s; calls := [] |} with
    | Ok a w =>
        Ok a {| installed := cinfo w;
                events := events s ++ map engine (calls w) |}
    | Thrown e w =>
        Thrown e {| installed := cinfo w;
                    events := events s ++ map engine (calls w) |}
    | AssertFail => AssertFail
    | Undefined => Undefined
    end.

Variable lop rop : gmap Op Mat.

(** [opf->seq->mode] *)
Variable mode : SeqTypes.t.

(** *** tensor_product_diagonal *)

(** The [Prod] case. *)
Definition diagonal_prod (op : OpString Op D) (dmat : Mat) (opdq : S)
  : M Machine unit :=
  match b op with
  | None => assert false
  | Some bo =>
      assert (negb (negb (mem lop (a op)) || negb (mem rop bo))) >>
      do lmat <- map_at (lop !! a op);
      do rmat <- map_at (rop !! bo);
      emit (opf_tensor_product_diagonal (conj op) lmat rmat dmat opdq
              (factor op))
  end.

Fixpoint tensor_product_diagonal (expr : OpExpr Op D) (dmat : Mat)
    (opdq : S) {struct expr} : M Machine unit :=
  match expr with
  | Prod op => diagonal_prod op dmat opdq
  | Sum strings => for_each strings (fun x => diagonal_prod x dmat opdq)
  | ExprRef _ op =>
      tensor_product_diagonal op dmat opdq >>
      when (negb (SeqTypes.eqb mode SeqTypes.Auto))
        (emit (engine (comm_allreduce_sum dmat)))
  | Zero => ret tt
  | Elem _ => assert false
  end.

(** *** tensor_product_multi_multiply *)

(** [cmats] and [vmats] are the matrices of the two groups, [cmats->n]
    the length of the first. *)
Fixpoint tensor_product_multi_multiply (expr : OpExpr Op D)
    (cmats vmats : list Mat) (opdq : S) (all_reduce : bool) {struct expr}
  : M Machine unit :=
  match expr with
  | ExprRef _ op =>
      tensor_product_multi_multiply op cmats vmats opdq false >>
      when all_reduce (emit (comm_allreduce_sum_group vmats))
  | Zero => ret tt
  | _ =>
      for_each (zrange (Z.of_nat (length cmats))) (fun i =>
        do cmat <- deref (cmats !! Z.to_nat i);
        do vmat <- deref (vmats !! Z.to_nat i);
        lift (tensor_product_multiply lop rop expr cmat vmat opdq false))
  end.

(** *** left_rotate and right_rotate *)

(** Parameters standing for declarations outside these sources:
    [abs_value] of a non-zero entry of a symbolic vector, as the key of
    [ops] it stands for, and the ownership rule's [available], [own],
    [repeat] and [owner]. *)
Variable abs_value : OpExpr Op D -> Op.
Variable available own repeat : Op -> bool.
Variable owner : Op -> Z.

(** [ops.at(k)->allocate(...)]: the matrix of [k] has data afterwards. *)
Fixpoint ops_allocate (l : list (Op * SparseMatrix (Mat:=Mat))) (k : Op)
  : list (Op * SparseMatrix (Mat:=Mat)) :=
  match l with
  | [] => []
  | (k', m) :: l' =>
      if bool_decide (k' = k) then (k', mkSparseMatrix (mat m) true) :: l'
      else (k', m) :: ops_allocate l' k
  end.

(** The first loop, over the entries [data] of the symbolic vector of
    [a]; [aops] is [a->ops], [cops] is [c->ops], returned as the loop
    leaves it. *)
Fixpoint rotate_entries (trace_right : bool)
    (aops : list (Op * SparseMatrix (Mat:=Mat))) (mpst_bra mpst_ket : Mat)
    (data : list (OpExpr Op D)) (cops : list (Op * SparseMatrix (Mat:=Mat)))
  : M Machine (list (Op * SparseMatrix (Mat:=Mat))) :=
  match data with
  | [] => ret cops
  | x :: data' =>
      if is_Zero x then
        rotate_entries trace_right aops mpst_bra mpst_ket data' cops
      else
        let pa := abs_value x in
        do cops1 <-
          (if available pa then
             do m <- map_at (ops_find cops pa);
             assert (negb (has_data m)) >>
             emit (engine (allocate (mat m))) >>
             ret (ops_allocate cops pa)
           else ret cops);
        (if own pa then
           do ma <- map_at (ops_find aops pa);
           do mc <- map_at (ops_find cops1 pa);
           emit (opf_tensor_rotate (mat ma) (mat mc) mpst_bra mpst_ket
                   trace_right)
         else ret tt) >>
        rotate_entries trace_right aops mpst_bra mpst_ket data' cops1
  end.

(** The second loop. *)
Definition broadcast_entries (data : list (OpExpr Op D))
    (cops : list (Op * SparseMatrix (Mat:=Mat))) : M Machine unit :=
  for_each data (fun x =>
    if is_Zero x then ret tt
    else
      let pa := abs_value x in
      when (repeat pa)
        (do m <- map_at (ops_find cops pa);
         emit (comm_broadcast (mat m) (owner pa)))).

(** The body the two rotations share; [data] is [a->lmat->data] or
    [a->rmat->data], with [None] for a null vector. *)
Definition rotate (trace_right : bool) (data : option (list (OpExpr Op D)))
    (aops : list (Op * SparseMatrix (Mat:=Mat))) (mpst_bra mpst_ket : Mat)
    (cops : list (Op * SparseMatrix (Mat:=Mat)))
  : M Machine (list (Op * SparseMatrix (Mat:=Mat))) :=
  do data <- deref data;
  do cops' <- rotate_entries trace_right aops mpst_bra mpst_ket data cops;
  when (SeqTypes.eqb mode SeqTypes.Auto) (emit (engine seq_auto_perform)) >>
  broadcast_entries data cops' >>
  ret cops'.

(** Returns [c->ops] as the call leaves it. *)
Definition left_rotate (a_lmat : option (list (OpExpr Op D)))
    (aops : list (Op * SparseMatrix (Mat:=Mat))) (mpst_bra mpst_ket : Mat)
    (cops : list (Op * SparseMatrix (Mat:=Mat)))
  : M Machine (list (Op * SparseMatrix (Mat:=Mat))) :=
  rotate false a_lmat aops mpst_bra mpst_ket cops.

Definition right_rotate (a_rmat : option (list (OpExpr Op D)))
    (aops : list (Op * SparseMatrix (Mat:=Mat))) (mpst_bra mpst_ket : Mat)
    (cops : list (Op * SparseMatrix (Mat:=Mat)))
  : M Machine (list (Op * SparseMatrix (Mat:=Mat))) :=
  rotate true a_rmat aops mpst_bra mpst_ket cops.

(** The vocabulary of the properties of these functions. *)

(** The keys of the non-zero entries of a symbolic vector, in order. *)
Definition keys (data : list (OpExpr Op D)) : list Op :=
  map abs_value (List.filter (fun x => negb (is_Zero x)) data).

Definition is_allocate (e : Event) : bool :=
  match e with engine (allocate _) => true | _ => false end.

Definition is_rotate (e : Event) : bool :=
  match e with opf_tensor_rotate _ _ _ _ _ => true | _ => false end.

Definition is_broadcast (e : Event) : bool :=
  match e with comm_broadcast _ _ => true | _ => false end.

Definition is_diagonal (e : Event) : bool :=
  match e with
  | opf_tensor_product_diagonal _ _ _ _ _ _ => true
  | _ => false
  end.

Definition is_collective (e : Event) : bool :=
  match e with
  | engine (comm_allreduce_sum _) | comm_allreduce_sum_group _ => true
  | _ => false
  end.

(** The diagonal of a ready product. *)
Definition diagonal_call (dmat : Mat) (opdq : S) (op : OpString Op D)
  : list Event :=
  match lop !! a op, b op ≫= (rop !!.) with
  | Some lmat, Some rmat =>
      [opf_tensor_product_diagonal (conj op) lmat rmat dmat opdq (factor op)]
  | _, _ => []
  end.

(** The diagonals of the products of an expression, from left to right. *)
Fixpoint diagonal_calls (expr : OpExpr Op D) (dmat : Mat) (opdq : S)
  : list Event :=
  match expr with
  | Prod op => diagonal_call dmat opdq op
  | Sum strings => flat_map (diagonal_call dmat opdq) strings
  | ExprRef _ op => diagonal_calls op dmat opdq
  | Zero | Elem _ => []
  end.

(** The expression under the [ExprRef]s it is wrapped in. *)
Fixpoint unwrap (expr : OpExpr Op D) : OpExpr Op D :=
  match expr with
  | ExprRef _ op => unwrap op
  | _ => expr
  end.

(** The allocation of the matrix of each key in [ks], the rotation of
    each from [aops] into [cops], and the broadcast of each from its
    owner. *)
Definition allocations (cops : list (Op * SparseMatrix (Mat:=Mat)))
    (ks : list Op) : list Event :=
  flat_map (fun k =>
    match ops_find cops k with
    | Some m => [engine (allocate (mat m))]
    | None => []
    end) ks.

Definition rotations (trace_right : bool)
    (aops cops : list (Op * SparseMatrix (Mat:=Mat)))
    (mpst_bra mpst_ket : Mat) (ks : list Op) : list Event :=
  flat_map (fun k =>
    match ops_find aops k, ops_find cops k with
    | Some ma, Some mc =>
        [opf_tensor_rotate (mat ma) (mat mc) mpst_bra mpst_ket trace_right]
    | _, _ => []
    end) ks.

Definition broadcasts (cops : list (Op * SparseMatrix (Mat:=Mat)))
    (ks : list Op) : list Event :=
  flat_map (fun k =>
    match ops_find cops k with
    | Some m => [comm_broadcast (mat m) (owner k)]
    | None => []
    end) ks.
End Ops.
End ParallelTensorOps.

(** ** sweep_algorithm.hpp: what the four drivers share *)

(** A [shared_ptr]: two pointers are the same object exactly when they are
    equal. *)
Definition ptr : Type := positive.

Module DecompositionTypes.
Inductive t : Type := SVD | DensityMatrix.
End DecompositionTypes.

Module TETypes.
Inductive t : Type := TangentSpace | RK4.

Definition eqb (x y : t) : bool :=
  match x, y with
  | TangentSpace, TangentSpace | RK4, RK4 => true
  | _, _ => false
  end.
End TETypes.

Module TruncPatternTypes.
Inductive t : Type := None | TruncAfterOdd | TruncAfterEven.

Definition eqb (x y : t) : bool :=
  match x, y with
  | None, None | TruncAfterOdd, TruncAfterOdd
  | TruncAfterEven, TruncAfterEven => true
  | _, _ => false
  end.
End TruncPatternTypes.

(** Modelled from the spec: the declaration of [NoiseTypes] is outside these
    sources; these are the four kinds of noise the drivers name. *)
Module NoiseTypes.
Inductive t : Type := None | Wavefunction | DensityMatrix | Perturbative.

Definition eqb (x y : t) : bool :=
  match x, y with
  | None, None | Wavefunction, Wavefunction
  | DensityMatrix, DensityMatrix | Perturbative, Perturbative => true
  | _, _ => false
  end.
End NoiseTypes.

(** Modelled from the spec: the declaration of [TruncationTypes] is outside
    these sources; the drivers name [Physical] and only pass the value
    on. *)
Module TruncationTypes.
Inductive t : Type := Physical | Other.
End TruncationTypes.

(** Modelled from the spec: the declaration of [FuseTypes] is outside these
    sources; these are the three fusings the drivers ask for. *)
Module FuseTypes.
Inductive t : Type := FuseL | FuseR | FuseLR.
End FuseTypes.

(** What a [deallocate()] (or [deallocate_infos()]) is called on. *)
Inductive Obj : Type :=
| h_eff | k_eff | pket | pket_infos | info | dm_info | dm
| wfn_info (mps : ptr) | wfn (mps : ptr)
| old_wfns (mps : ptr) (k : Z) | old_wfns_infos (mps : ptr)
| tmp | rk4_vector (k : Z).

Section Driver.
Context {Op D S : Type}.

(** The calls the drivers make to the moving environment, the effective
    Hamiltonian, the MPS and the memory frames; [clear_tensor] is the
    assignment [tensors[i] = nullptr]. *)
Inductive Call : Type :=
| frame_activate (k : Z)
| move_to (i : Z)
| prepare
| check_signal
| contract_two_dot (i : Z) (mps : ptr) (reduced : bool)
| contract_multi_two_dot (i : Z) (mps : ptr) (reduced : bool)
| load_tensor (mps : ptr) (i : Z)
| clear_tensor (mps : ptr) (i : Z)
| eff_ham (fuse : FuseTypes.t) (compute_diag : bool)
| multi_eff_ham (fuse : FuseTypes.t) (compute_diag : bool)
| eigs (verbose : bool) (conv_thrd : D) (max_iter : Z)
| multiply
| expect
| expo_apply (beta const_e : D) (verbose : bool)
| rk4_apply (beta const_e : D) (eval_energy : bool)
| memcpy_to_tmp
| memcpy_from_tmp
| allocate_tmp
| perturbative_noise_two_dot (forward : bool) (i : Z)
| delta_quanta (root : Z)
| density_matrix (mps : ptr) (forward : bool) (noise : D)
    (noise_type : NoiseTypes.t)
| density_matrix_with_perturbative_noise (mps : ptr) (forward : bool)
    (noise : D)
| density_matrix_with_multi_target (mps : ptr) (forward : bool) (noise : D)
    (noise_type : NoiseTypes.t)
| density_matrix_with_weights (mps : ptr) (forward : bool) (noise : D)
    (pdp_first : Z) (weights : list D) (noise_type : NoiseTypes.t)
| wavefunction_add_noise (mps : ptr) (noise : D)
| split_density_matrix (mps : ptr) (i : Z) (k : Z) (forward : bool)
    (normalize : bool) (cutoff : D) (trunc_type : TruncationTypes.t)
| split_wavefunction_svd (mps : ptr) (i : Z) (k : Z) (forward : bool)
    (normalize : bool) (cutoff : D) (trunc_type : TruncationTypes.t)
| multi_split_density_matrix (mps : ptr) (i : Z) (k : Z) (forward : bool)
    (normalize : bool) (cutoff : D) (trunc_type : TruncationTypes.t)
| normalize_tensor (mps : ptr) (i : Z)
| extract_state_info (mps : ptr) (i : Z) (forward : bool)
| set_left_dims (mps : ptr) (i : Z)
| save_left_dims (mps : ptr) (i : Z)
| set_right_dims (mps : ptr) (i : Z)
| save_right_dims (mps : ptr) (i : Z)
| save_tensor (mps : ptr) (i : Z)
| unload_tensor (mps : ptr) (i : Z)
| save_wavefunction (mps : ptr) (i : Z)
| unload_wavefunction (mps : ptr) (i : Z)
| deallocate (o : Obj)
| propagate_wfn (i n_sites : Z) (mps : ptr) (forward : bool)
| propagate_multi_wfn (i n_sites : Z) (mps : ptr) (forward : bool).

(** What the drivers read of an [MPS]: the canonical form, a
    [std::string] with one tag per site, and, for a [MultiMPS], the
    number of roots. *)
Record MPS : Type := mkMPS {
  canonical_form : list ascii;
  nroots : option Z
}.

(** The objects by address, and the log. *)
Record World : Type := mkWorld {
  objs : gmap ptr MPS;
  calls : list Call
}.

(** What the drivers read back from their collaborators, as functions of
    the calls made so far: whether [tensors[i]] is loaded, the center of
    the environment, and the values the numeric kernels return. *)
Record Collaborators : Type := mkCollaborators {
  tensor_loaded : list Call -> ptr -> Z -> bool;
  center : list Call -> Z;
  eigs_result : list Call -> D * Z * Z * D;
  multi_eigs_result : list Call -> list D * Z * Z * D;
  delta_quanta_result : list Call -> list (S * D);
  split_error : list Call -> D;
  expo_apply_result : list Call -> D * D * Z * Z * D;
  rk4_apply_result : list Call -> Z * (D * D * Z * Z * D);
  multiply_result : list Call -> D * Z * D;
  expect_result : list Call -> list (OpExpr Op D * D) * Z * D;
  multi_expect_result : list Call -> list (OpExpr Op D * list D) * Z * D
}.

(** [MovingEnvironment<S>], as far as the drivers read its fields; [const_e]
    is [me->mpo->const_e]. *)
Record MovingEnvironment : Type := mkMovingEnvironment {
  n_sites : Z;
  dot : Z;
  bra : ptr;
  ket : ptr;
  const_e : D
}.

Definition call (c : Call) : M World unit :=
  fun w => Ok tt {| objs := objs w; calls := calls w ++ [c] |}.

Definition ask {A} (f : list Call -> A) : M World A :=
  fun w => Ok (f (calls w)) w.

(** [mps->canonical_form[i]], read: the position [size()] holds the
    terminating null character, anything beyond is undefined. *)
Definition get_canonical_form (mps : ptr) (i : Z) : M World ascii :=
  fun w =>
    match objs w !! mps with
    | Some o =>
        if (0 <=? i) && (i <=? Z.of_nat (length (canonical_form o))) then
          Ok (default Ascii.zero (canonical_form o !! Z.to_nat i)) w
        else Undefined
    | None => Undefined
    end.

(** [mps->canonical_form[i] = c] *)
Definition set_canonical_form (mps : ptr) (i : Z) (c : ascii)
  : M World unit :=
  fun w =>
    match objs w !! mps with
    | Some o =>
        if (0 <=? i) && (i <? Z.of_nat (length (canonical_form o))) then
          Ok tt {| objs := <[mps :=
                      mkMPS (<[Z.to_nat i := c]> (canonical_form o))
                        (nroots o)]> (objs w);
                   calls := calls w |}
        else Undefined
    | None => Undefined
    end.

(** [dynamic_pointer_cast<MultiMPS<S>>(mps)->nroots] *)
Definition get_nroots (mps : ptr) : M World Z :=
  fun w =>
    match objs w !! mps with
    | Some o => match nroots o with
                | Some n => Ok n w
                | None => Undefined
                end
    | None => Undefined
    end.

(** The two-site tensor is rebuilt from the two site tensors when both are
    loaded, and loaded from storage otherwise. *)
Definition obtain_two_dot (C : Collaborators) (mps : ptr) (i : Z)
    (reduced : bool) : M World unit :=
  do t0 <- ask (fun l => tensor_loaded C l mps i);
  do t1 <- ask (fun l => tensor_loaded C l mps (i + 1));
  if t0 && t1 then call (contract_two_dot i mps reduced)
  else call (load_tensor mps i) >> call (clear_tensor mps (i + 1)).

(** The same for a [MultiMPS]; afterwards both slots are cleared. *)
Definition obtain_multi_two_dot (C : Collaborators) (mps : ptr) (i : Z)
    (reduced : bool) : M World unit :=
  do t0 <- ask (fun l => tensor_loaded C l mps i);
  do t1 <- ask (fun l => tensor_loaded C l mps (i + 1));
  (if t0 || t1 then call (contract_multi_two_dot i mps reduced)
   else call (load_tensor mps i)) >>
  call (clear_tensor mps (i + 1)) >>
  call (clear_tensor mps i).

(** The bookkeeping after a split: the bond basis of the bond between the
    two sites, and the two tags, [c] being the tag of the new center. *)
Definition update_canonical_form (mps : ptr) (i : Z) (forward : bool)
    (c : ascii) : M World unit :=
  if forward then
    call (extract_state_info mps i forward) >>
    call (set_left_dims mps (i + 1)) >>
    call (save_left_dims mps (i + 1)) >>
    set_canonical_form mps i "L" >>
    set_canonical_form mps (i + 1) c
  else
    call (extract_state_info mps (i + 1) forward) >>
    call (set_right_dims mps (i + 1)) >>
    call (save_right_dims mps (i + 1)) >>
    set_canonical_form mps i c >>
    set_canonical_form mps (i + 1) "R".

(** [save_tensor(i + 1); save_tensor(i); unload_tensor(i + 1);
    unload_tensor(i);] *)
Definition save_two (mps : ptr) (i : Z) : M World unit :=
  call (save_tensor mps (i + 1)) >>
  call (save_tensor mps i) >>
  call (unload_tensor mps (i + 1)) >>
  call (unload_tensor mps i).

(** The same for a [MultiMPS], whose wavefunction sits on the side the
    sweep moves to. *)
Definition save_multi_two (mps : ptr) (i : Z) (forward : bool)
  : M World unit :=
  if forward then
    call (save_wavefunction mps (i + 1)) >>
    call (save_tensor mps i) >>
    call (unload_wavefunction mps (i + 1)) >>
    call (unload_tensor mps i)
  else
    call (save_tensor mps (i + 1)) >>
    call (save_wavefunction mps i) >>
    call (unload_tensor mps (i + 1)) >>
    call (unload_wavefunction mps i).

(** [for (int k = n - 1; k >= 0; k--) body(k);] *)
Definition for_down (n : Z) (body : Z -> M World unit) : M World unit :=
  for_each (rev (zrange n)) body.

(** [for (k = nroots - 1; k >= 0; k--) old_wfns[k]->deallocate();
    old_wfns[0]->deallocate_infos();] *)
Definition deallocate_old_wfns (mps : ptr) (n : Z) : M World unit :=
  for_down n (fun k => call (deallocate (old_wfns mps k))) >>
  (if 0 <? n then call (deallocate (old_wfns_infos mps)) else undefined).

(** The chain positions of a sweep. *)
Definition sweep_range (forward : bool) (center n_sites dot : Z) : list Z :=
  if forward then zseq center (Z.to_nat (n_sites - dot + 1 - center))
  else rev (zrange (center + 1)).

(** [vector::resize(n_sweeps, v.back())], made when the vector is shorter
    than [n_sweeps]; the comparison converts a negative [n_sweeps] to an
    unsigned one, too large for any vector. *)
Definition grow {A} (l : list A) (n_sweeps : Z) : M World (list A) :=
  if (n_sweeps <? 0) || (Z.of_nat (length l) <? n_sweeps) then
    do x <- deref (last l);
    if n_sweeps <? 0 then throw length_error
    else ret (l ++ replicate (Z.to_nat n_sweeps - length l) x)
  else ret l.

(** [std::min_element]: the first element that no later one is less
    than, as an index. *)
Fixpoint min_index {A} (lt : A -> A -> bool) (best_i : nat) (best : A)
    (j : nat) (l : list A) : nat :=
  match l with
  | [] => best_i
  | x :: l' =>
      if lt x best then min_index lt j x (Datatypes.S j) l'
      else min_index lt best_i best (Datatypes.S j) l'
  end.

(** Unsigned 64-bit addition of the operation counts. *)
Definition add_size_t (x y : Z) : Z := (x + y) mod 2 ^ 64.

(** The vocabulary of the properties of the drivers. *)

(** The canonical form [L...L c R...R] of a chain of [n] sites with the
    center tag [c] at position [center]. *)
Definition canonical (c : ascii) (center n : nat) : list ascii :=
  replicate center "L"%char ++ [c] ++ replicate (n - center - 1) "R"%char.

(** A canonical form in which a two-dot step at [i] may start: [L] on the
    left of the two sites and [R] on their right. *)
Definition two_dot_ready (i : nat) (cf : list ascii) : Prop :=
  forall j,
    ((j < i)%nat -> cf !! j = Some "L"%char)
    /\ ((i + 1 < j < length cf)%nat -> cf !! j = Some "R"%char).

(** The tags after a two-dot step at [i] that leaves the center tag [c]. *)
Definition step_tags (forward : bool) (c : ascii) (i : nat)
    (cf : list ascii) : list ascii :=
  if forward then <[Datatypes.S i := c]> (<[i := "L"%char]> cf)
  else <[Datatypes.S i := "R"%char]> (<[i := c]> cf).

(** The center tag a blocking step at [i] leaves: [M] when the form holds
    an [M] at one of the two sites, the test by which [blocking] takes the
    step for a state average, and [C] otherwise. *)
Definition center_tag (cf : list ascii) (i : nat) : ascii :=
  if Ascii.eqb (default Ascii.zero (cf !! i)) "M"
     || Ascii.eqb (default Ascii.zero (cf !! Datatypes.S i)) "M"
  then "M"%char else "C"%char.

(** The splits, the density matrices, the applications of the propagator,
    and the rebuilding or loading of a two-site tensor, in a log. *)
Definition is_split (c : Call) : bool :=
  match c with
  | split_density_matrix _ _ _ _ _ _ _
  | split_wavefunction_svd _ _ _ _ _ _ _
  | multi_split_density_matrix _ _ _ _ _ _ _ => true
  | _ => false
  end.

Definition is_density_matrix (c : Call) : bool :=
  match c with
  | density_matrix _ _ _ _
  | density_matrix_with_perturbative_noise _ _ _
  | density_matrix_with_multi_target _ _ _ _
  | density_matrix_with_weights _ _ _ _ _ _ => true
  | _ => false
  end.

Definition is_evolution (c : Call) : bool :=
  match c with
  | expo_apply _ _ _ | rk4_apply _ _ _ => true
  | _ => false
  end.

Definition is_obtain (c : Call) : bool :=
  match c with
  | contract_two_dot _ _ _ | contract_multi_two_dot _ _ _
  | load_tensor _ _ => true
  | _ => false
  end.

Definition is_propagate (c : Call) : bool :=
  match c with
  | propagate_wfn _ _ _ _ | propagate_multi_wfn _ _ _ _ => true
  | _ => false
  end.
End Driver.

Arguments Call : clear implicits.
Arguments World : clear implicits.
Arguments Collaborators : clear implicits.
Arguments MovingEnvironment : clear implicits.

(** ** DMRG *)

Module DMRG.
Section DMRG.
Context {Op D S : Type} `{!Numeric D}.
Variable C : Collaborators Op D S.

Record Iteration : Type := mkIteration {
  it_energies : list D;
  it_quanta : list (list (S * D));
  it_error : D;
  it_ndav : Z;
  it_tdav : D;
  it_nflop : Z
}.

Record t : Type := mkDMRG {
  me : MovingEnvironment D;
  bond_dims : list Z;
  noises : list D;
  energies : list (list D);
  mps_quanta : list (list (list (S * D)));
  davidson_conv_thrds : list D;
  davidson_max_iter : Z;
  forward : bool;
  iprint : Z;
  noise_type : NoiseTypes.t;
  trunc_type : TruncationTypes.t;
  decomp_type : DecompositionTypes.t;
  cutoff : D;
  quanta_cutoff : D
}.

(** The constructor, with the defaults of the member declarations. *)
Definition new (me : MovingEnvironment D) (bond_dims : list Z)
    (noises : list D) : t :=
  {| me := me; bond_dims := bond_dims; noises := noises;
     energies := []; mps_quanta := []; davidson_conv_thrds := [];
     davidson_max_iter := 5000; forward := false; iprint := 2;
     noise_type := NoiseTypes.DensityMatrix;
     trunc_type := TruncationTypes.Physical;
     decomp_type := DecompositionTypes.DensityMatrix;
     cutoff := of_Q (1 # 100000000000000);
     quanta_cutoff := of_Q (1 # 1000) |}.

(** [noise != 0] *)
Definition nonzero (x : D) : bool := negb (deqb x (of_Z 0)).

Definition update_two_dot (d : t) (i : Z) (forward : bool) (bond_dim : Z)
    (noise davidson_conv_thrd : D) : M (World D) Iteration :=
  let ket := ket (me d) in
  call (frame_activate 0) >>
  obtain_two_dot C ket i false >>
  call (eff_ham FuseTypes.FuseLR true) >>
  call (eigs (3 <=? iprint d) davidson_conv_thrd (davidson_max_iter d)) >>
  do '(energy, ndav, nflop, tdav) <- ask (eigs_result C);
  do '(has_dm, error) <-
    match decomp_type d with
    | DecompositionTypes.DensityMatrix =>
        (if NoiseTypes.eqb (noise_type d) NoiseTypes.Perturbative
            && nonzero noise then
           call (perturbative_noise_two_dot forward i) >>
           call (deallocate h_eff) >>
           call (density_matrix_with_perturbative_noise ket forward noise) >>
           call (frame_activate 1) >>
           call (deallocate pket) >>
           call (deallocate pket_infos) >>
           call (frame_activate 0)
         else
           call (deallocate h_eff) >>
           call (density_matrix ket forward noise (noise_type d))) >>
        call (split_density_matrix ket i bond_dim forward true (cutoff d)
                (trunc_type d)) >>
        do error <- ask (split_error C);
        ret (true, error)
    | DecompositionTypes.SVD =>
        assert (NoiseTypes.eqb (noise_type d) NoiseTypes.None
                || NoiseTypes.eqb (noise_type d) NoiseTypes.Wavefunction) >>
        call (deallocate h_eff) >>
        when (NoiseTypes.eqb (noise_type d) NoiseTypes.Wavefunction
              && nonzero noise)
          (call (wavefunction_add_noise ket noise)) >>
        call (split_wavefunction_svd ket i bond_dim forward true (cutoff d)
                (trunc_type d)) >>
        do error <- ask (split_error C);
        ret (false, error)
    end;
  update_canonical_form ket i forward "C" >>
  call (deallocate info) >>
  save_two ket i >>
  when has_dm (call (deallocate dm_info) >> call (deallocate dm)) >>
  call (deallocate (wfn_info ket)) >>
  call (deallocate (wfn ket)) >>
  call (propagate_wfn i (n_sites (me d)) ket forward) >>
  ret {| it_energies := [dadd energy (const_e (me d))]; it_quanta := [];
         it_error := error; it_ndav := ndav; it_tdav := tdav;
         it_nflop := nflop |}.

(** The loop over the roots: the quanta of each root that reach
    [quanta_cutoff]. *)
Fixpoint collect_quanta (d : t) (ks : list Z)
  : M (World D) (list (list (S * D))) :=
  match ks with
  | [] => ret []
  | k :: ks' =>
      call (delta_quanta k) >>
      do q <- ask (delta_quanta_result C);
      do qs <- collect_quanta d ks';
      ret (List.filter (fun p => negb (dltb p.2 (quanta_cutoff d))) q :: qs)
  end.

(** State-averaged. *)
Definition update_multi_two_dot (d : t) (i : Z) (forward : bool)
    (bond_dim : Z) (noise davidson_conv_thrd : D)
  : M (World D) Iteration :=
  let mket := ket (me d) in
  do nroots <- get_nroots mket;
  call (frame_activate 0) >>
  obtain_multi_two_dot C mket i false >>
  call (multi_eff_ham FuseTypes.FuseLR true) >>
  call (eigs (3 <=? iprint d) davidson_conv_thrd (davidson_max_iter d)) >>
  do '(energies, ndav, nflop, tdav) <- ask (multi_eigs_result C);
  do mps_quanta <- collect_quanta d (zrange nroots);
  assert (negb (NoiseTypes.eqb (noise_type d) NoiseTypes.Perturbative)) >>
  assert (match decomp_type d with
          | DecompositionTypes.DensityMatrix => true
          | DecompositionTypes.SVD => false
          end) >>
  call (deallocate h_eff) >>
  call (density_matrix_with_multi_target mket forward noise (noise_type d)) >>
  call (multi_split_density_matrix mket i bond_dim forward true (cutoff d)
          (trunc_type d)) >>
  do error <- ask (split_error C);
  update_canonical_form mket i forward "M" >>
  call (deallocate info) >>
  save_multi_two mket i forward >>
  call (deallocate dm_info) >>
  call (deallocate dm) >>
  deallocate_old_wfns mket nroots >>
  call (propagate_multi_wfn i (n_sites (me d)) mket forward) >>
  ret {| it_energies := map (fun x => dadd x (const_e (me d))) energies;
         it_quanta := mps_quanta; it_error := error; it_ndav := ndav;
         it_tdav := tdav; it_nflop := nflop |}.

Definition blocking (d : t) (i : Z) (forward : bool) (bond_dim : Z)
    (noise davidson_conv_thrd : D) : M (World D) Iteration :=
  call (move_to i) >>
  if dot (me d) =? 2 then
    do c0 <- get_canonical_form (ket (me d)) i;
    do multi <-
      (if Ascii.eqb c0 "M" then ret true
       else do c1 <- get_canonical_form (ket (me d)) (i + 1);
            ret (Ascii.eqb c1 "M"));
    if multi
    then update_multi_two_dot d i forward bond_dim noise davidson_conv_thrd
    else update_two_dot d i forward bond_dim noise davidson_conv_thrd
  else throw (runtime_error "1 site not yet implemented").

(** The loop of [sweep] over the chain positions; the progress lines it
    prints are left out. *)
Fixpoint sweep_steps (d : t) (forward : bool) (bond_dim : Z)
    (noise davidson_conv_thrd : D) (range : list Z)
  : M (World D) (list Iteration) :=
  match range with
  | [] => ret []
  | i :: range' =>
      call check_signal >>
      do r <- blocking d i forward bond_dim noise davidson_conv_thrd;
      do rs <- sweep_steps d forward bond_dim noise davidson_conv_thrd range';
      ret (r :: rs)
  end.

(** [x[0]] for every [x] of the list. *)
Fixpoint first_energies (l : list Iteration) : M (World D) (list D) :=
  match l with
  | [] => ret []
  | r :: l' =>
      do e <- deref (head (it_energies r));
      do es <- first_energies l';
      ret (e :: es)
  end.

(** The index [min_element] picks, comparing the first energies. *)
Definition best_index (rs : list Iteration) : M (World D) nat :=
  match rs with
  | [] => ret 0%nat
  | [_] => ret 0%nat
  | r0 :: rs' =>
      do e0 <- deref (head (it_energies r0));
      do es <- first_energies rs';
      ret (min_index dltb 0%nat e0 1%nat es)
  end.

Definition sweep (d : t) (forward : bool) (bond_dim : Z)
    (noise davidson_conv_thrd : D)
  : M (World D) (list D * list (list (S * D))) :=
  call prepare >>
  do c <- ask (center C);
  let range := sweep_range forward c (n_sites (me d)) (dot (me d)) in
  do rs <- sweep_steps d forward bond_dim noise davidson_conv_thrd range;
  do idx <- best_index rs;
  do r <- deref (rs !! idx);
  ret (it_energies r, it_quanta r).

(** The test at the end of a sweep, on the object as the sweep [iw] left
    it. *)
Definition converged (d : t) (tol : D) (iw : nat) : M (World D) bool :=
  if (2 <=? length (energies d))%nat && dltb (of_Z 0) tol then
    do e1 <- deref (energies d !! (length (energies d) - 1)%nat ≫= last);
    do e2 <- deref (energies d !! (length (energies d) - 2)%nat ≫= last);
    if dltb (dabs (dsub e1 e2)) tol then
      do n <- deref (noises d !! iw);
      do nb <- deref (last (noises d));
      if deqb n nb then
        do b <- deref (bond_dims d !! iw);
        do bb <- deref (last (bond_dims d));
        ret (b =? bb)
      else ret false
    else ret false
  else ret false.

(** The loop of [solve], with [n] sweeps left. *)
Fixpoint sweeps (tol : D) (n : nat) (iw : nat) (d : t) (forward : bool)
    {struct n} : M (World D) (t * bool) :=
  match n with
  | O => ret (d, forward)
  | Datatypes.S n' =>
      do bond_dim <- deref (bond_dims d !! iw);
      do noise <- deref (noises d !! iw);
      do thrd <- deref (davidson_conv_thrds d !! iw);
      do sweep_results <- sweep d forward bond_dim noise thrd;
      let d1 :=
        {| me := me d; bond_dims := bond_dims d; noises := noises d;
           energies := energies d ++ [sweep_results.1];
           mps_quanta := mps_quanta d ++ [sweep_results.2];
           davidson_conv_thrds := davidson_conv_thrds d;
           davidson_max_iter := davidson_max_iter d; forward := DMRG.forward d;
           iprint := iprint d; noise_type := noise_type d;
           trunc_type := trunc_type d; decomp_type := decomp_type d;
           cutoff := cutoff d; quanta_cutoff := quanta_cutoff d |} in
      do conv <- converged d1 tol iw;
      let forward := negb forward in
      if conv then ret (d1, forward)
      else sweeps tol n' (Datatypes.S iw) d1 forward
  end.

(** The thresholds [solve] derives from the noises when fewer than
    [n_sweeps] were given. *)
Definition derive_conv_thrds (thrds noises : list D) (n_sweeps : Z) (tol : D)
  : list D :=
  if Z.of_nat (length thrds) <? n_sweeps then
    thrds ++
    map (fun noise =>
           dmul (if deqb noise (of_Z 0)
                 then (if deqb tol (of_Z 0) then of_Q (1 # 1000000000)
                       else tol)
                 else noise)
                (of_Q (1 # 10)))
        (drop (length thrds) noises)
  else thrds.

(** Returns the energy and the object as [solve] leaves it. *)
Definition solve (d : t) (n_sweeps : Z) (forward : bool) (tol : D)
  : M (World D) (D * t) :=
  do bond_dims' <- grow (bond_dims d) n_sweeps;
  do noises' <- grow (noises d) n_sweeps;
  let thrds' := derive_conv_thrds (davidson_conv_thrds d) noises' n_sweeps
                  tol in
  let d0 :=
    {| me := me d; bond_dims := bond_dims'; noises := noises';
       energies := []; mps_quanta := [];
       davidson_conv_thrds := thrds';
       davidson_max_iter := davidson_max_iter d; forward := DMRG.forward d;
       iprint := iprint d; noise_type := noise_type d;
       trunc_type := trunc_type d; decomp_type := decomp_type d;
       cutoff := cutoff d; quanta_cutoff := quanta_cutoff d |} in
  do '(d1, forward') <- sweeps tol (Z.to_nat n_sweeps) 0 d0 forward;
  let d2 :=
    {| me := me d1; bond_dims := bond_dims d1; noises := noises d1;
       energies := energies d1; mps_quanta := mps_quanta d1;
       davidson_conv_thrds := davidson_conv_thrds d1;
       davidson_max_iter := davidson_max_iter d1; forward := forward';
       iprint := iprint d1; noise_type := noise_type d1;
       trunc_type := trunc_type d1; decomp_type := decomp_type d1;
       cutoff := cutoff d1; quanta_cutoff := quanta_cutoff d1 |} in
  do e <- deref (last (energies d2) ≫= head);
  ret (e, d2).

(** The stop rule the loop is shown to follow, on the energies [es] of
    the sweeps made and the schedules: the last of the energies of sweep
    [iw] is within [tol] of the last of those of the sweep before, and
    the noise and the bond dimension of sweep [iw] equal the last ones
    scheduled. *)
Definition stop_rule (tol : D) (es : list (list D)) (noises : list D)
    (bond_dims : list Z) (iw : nat) : bool :=
  match iw with
  | O => false
  | Datatypes.S iw' =>
      match es !! iw ≫= last, es !! iw' ≫= last,
            noises !! iw, last noises, bond_dims !! iw, last bond_dims with
      | Some e1, Some e2, Some n, Some nb, Some b, Some bb =>
          dltb (dabs (dsub e1 e2)) tol && deqb n nb && (b =? bb)
      | _, _, _, _, _, _ => false
      end
  end.

(** The stop rule in the words of the specification: the best energy of
    sweep [iw], which is the first of the energies a sweep reports and
    the one [solve] returns, changed by less than [tol] from the sweep
    before, and the bond dimension and the noise of the sweep are the
    final ones of their schedules. *)
Definition spec_stop_rule (tol : D) (es : list (list D))
    (noises : list D) (bond_dims : list Z) (iw : nat) : bool :=
  match iw with
  | O => false
  | Datatypes.S iw' =>
      match es !! iw ≫= head, es !! iw' ≫= head,
            noises !! iw, last noises, bond_dims !! iw, last bond_dims with
      | Some best, Some best_before, Some noise, Some final_noise,
        Some bond_dim, Some final_bond_dim =>
          dltb (dabs (dsub best best_before)) tol
          && deqb noise final_noise && (bond_dim =? final_bond_dim)
      | _, _, _, _, _, _ => false
      end
  end.
End DMRG.
End DMRG.

(** ** ImaginaryTE *)

Module ImaginaryTE.
Section ImaginaryTE.
Context {Op D S : Type} `{!Numeric D}.
Variable C : Collaborators Op D S.

Record Iteration : Type := mkIteration {
  it_energy : D;
  it_normsq : D;
  it_error : D;
  it_nexpo : Z;
  it_nexpok : Z;
  it_texpo : D;
  it_nflop : Z
}.

Record t : Type := mkImaginaryTE {
  me : MovingEnvironment D;
  bond_dims : list Z;
  noises : list D;
  errors : list D;
  energies : list D;
  normsqs : list D;
  noise_type : NoiseTypes.t;
  trunc_type : TruncationTypes.t;
  trunc_pattern : TruncPatternTypes.t;
  forward : bool;
  mode : TETypes.t;
  n_sub_sweeps : Z;
  weights : list D;
  iprint : Z;
  cutoff : D
}.

(** The constructor, with the defaults of the member declarations. *)
Definition new (me : MovingEnvironment D) (bond_dims : list Z)
    (mode : TETypes.t) (n_sub_sweeps : Z) : t :=
  {| me := me; bond_dims := bond_dims; noises := [of_Q 0];
     errors := []; energies := []; normsqs := [];
     noise_type := NoiseTypes.DensityMatrix;
     trunc_type := TruncationTypes.Physical;
     trunc_pattern := TruncPatternTypes.None;
     forward := false; mode := mode; n_sub_sweeps := n_sub_sweeps;
     weights := [ddiv (of_Q 1) (of_Q 3); ddiv (of_Q 1) (of_Q 6);
                 ddiv (of_Q 1) (of_Q 6); ddiv (of_Q 1) (of_Q 3)];
     iprint := 2; cutoff := of_Q (1 # 100000000000000) |}.

(** [(forward && i + 1 == me->n_sites - 1) || (!forward && i == 0)] *)
Definition at_boundary (n_sites i : Z) (forward : bool) : bool :=
  (forward && (i + 1 =? n_sites - 1)) || (negb forward && (i =? 0)).

(** [effective_mode] *)
Definition effective_mode (mode : TETypes.t) (n_sites i : Z) (forward : bool)
  : TETypes.t :=
  if TETypes.eqb mode TETypes.RK4 && at_boundary n_sites i forward
  then TETypes.TangentSpace
  else mode.

(** [bdim]; [%] is the remainder of the C++ division, which truncates. *)
Definition bdim (pattern : TruncPatternTypes.t) (i bond_dim : Z) : Z :=
  if (TruncPatternTypes.eqb pattern TruncPatternTypes.TruncAfterOdd
      && (Z.rem i 2 =? 0))
     || (TruncPatternTypes.eqb pattern TruncPatternTypes.TruncAfterEven
         && (Z.rem i 2 =? 1))
  then -1
  else bond_dim.

(** The Runge-Kutta step and the density matrix weighted over its
    vectors [pdp.first], which stand in the log by their number and are
    then released. *)
Definition rk4_density_matrix (te : t) (ket : ptr) (forward : bool)
    (beta noise : D) : M (World D) (D * D * Z * Z * D) :=
  call (rk4_apply (dneg beta) (const_e (me te)) false) >>
  do '(nvec, stats) <- ask (rk4_apply_result C);
  call (deallocate h_eff) >>
  call (density_matrix_with_weights ket forward noise nvec (weights te)
          (noise_type te)) >>
  call (frame_activate 1) >>
  for_down nvec (fun k => call (deallocate (rk4_vector k))) >>
  call (frame_activate 0) >>
  ret stats.

Definition update_two_dot (te : t) (i : Z) (forward advance : bool)
    (beta : D) (bond_dim : Z) (noise : D) : M (World D) Iteration :=
  let ket := ket (me te) in
  let n_sites := n_sites (me te) in
  call (frame_activate 0) >>
  obtain_two_dot C ket i false >>
  call (eff_ham FuseTypes.FuseLR true) >>
  let effective_mode := effective_mode (mode te) n_sites i forward in
  do pdi <-
    (if negb advance && at_boundary n_sites i forward then
       assert (TETypes.eqb effective_mode TETypes.TangentSpace) >>
       (* TangentSpace method does not allow multiple sweeps for one time
          step *)
       assert (TETypes.eqb (mode te) TETypes.RK4) >>
       call allocate_tmp >>
       call memcpy_to_tmp >>
       call (expo_apply (dneg beta) (const_e (me te)) (3 <=? iprint te)) >>
       do pdi <- ask (expo_apply_result C);
       call memcpy_from_tmp >>
       call (deallocate tmp) >>
       rk4_density_matrix te ket forward beta noise >>
       ret pdi
     else
       match effective_mode with
       | TETypes.TangentSpace =>
           call (expo_apply (dneg beta) (const_e (me te))
                   (3 <=? iprint te)) >>
           do pdi <- ask (expo_apply_result C);
           call (deallocate h_eff) >>
           call (density_matrix ket forward noise (noise_type te)) >>
           ret pdi
       | TETypes.RK4 => rk4_density_matrix te ket forward beta noise
       end);
  call (split_density_matrix ket i (bdim (trunc_pattern te) i bond_dim)
          forward false (cutoff te) (trunc_type te)) >>
  do error <- ask (split_error C);
  (if forward then
     when (TETypes.eqb (mode te) TETypes.RK4
           && (negb (i + 1 =? n_sites - 1) || negb advance))
       (call (normalize_tensor ket (i + 1)))
   else
     when (TETypes.eqb (mode te) TETypes.RK4
           && (negb (i =? 0) || negb advance))
       (call (normalize_tensor ket i))) >>
  update_canonical_form ket i forward "C" >>
  call (deallocate info) >>
  save_two ket i >>
  call (deallocate dm_info) >>
  call (deallocate dm) >>
  call (deallocate (wfn_info ket)) >>
  call (deallocate (wfn ket)) >>
  let '(energy, norm, nexpo, nflop, texpo) := pdi in
  do '(expok, nflop, texpo) <-
    (if TETypes.eqb (mode te) TETypes.TangentSpace && forward
        && negb (i + 1 =? n_sites - 1) then
       call (move_to (i + 1)) >>
       call (load_tensor ket (i + 1)) >>
       call (eff_ham FuseTypes.FuseR true) >>
       call (expo_apply beta (const_e (me te)) (3 <=? iprint te)) >>
       do '(_, _, nexpok, nflopk, texpok) <- ask (expo_apply_result C);
       call (deallocate k_eff) >>
       call (normalize_tensor ket (i + 1)) >>
       call (save_tensor ket (i + 1)) >>
       call (unload_tensor ket (i + 1)) >>
       ret (nexpok, add_size_t nflop nflopk, dadd texpo texpok)
     else if TETypes.eqb (mode te) TETypes.TangentSpace && negb forward
             && negb (i =? 0) then
       call (move_to (i - 1)) >>
       call (load_tensor ket i) >>
       call (eff_ham FuseTypes.FuseL true) >>
       call (expo_apply beta (const_e (me te)) (3 <=? iprint te)) >>
       do '(_, _, nexpok, nflopk, texpok) <- ask (expo_apply_result C);
       call (deallocate k_eff) >>
       call (normalize_tensor ket i) >>
       call (save_tensor ket i) >>
       call (unload_tensor ket i) >>
       ret (nexpok, add_size_t nflop nflopk, dadd texpo texpok)
     else ret (0, nflop, texpo));
  call (propagate_wfn i n_sites ket forward) >>
  ret {| it_energy := dadd energy (const_e (me te));
         it_normsq := dmul norm norm; it_error := error;
         it_nexpo := nexpo; it_nexpok := expok; it_texpo := texpo;
         it_nflop := nflop |}.

Definition blocking (te : t) (i : Z) (forward advance : bool) (beta : D)
    (bond_dim : Z) (noise : D) : M (World D) Iteration :=
  call (move_to i) >>
  if dot (me te) =? 2
  then update_two_dot te i forward advance beta bond_dim noise
  else throw (runtime_error "1 site not yet implemented").

(** [std::max] *)
Definition dmax (x y : D) : D := if dltb x y then y else x.

(** The loop of [sweep] over the chain positions; the progress lines it
    prints are left out. *)
Fixpoint sweep_steps (te : t) (forward advance : bool) (beta : D)
    (bond_dim : Z) (noise : D) (range : list Z)
  : M (World D) (list Iteration) :=
  match range with
  | [] => ret []
  | i :: range' =>
      call check_signal >>
      do r <- blocking te i forward advance beta bond_dim noise;
      do rs <- sweep_steps te forward advance beta bond_dim noise range';
      ret (r :: rs)
  end.

(** Returns [energies.back()], [normsqs.back()] and the largest error. *)
Definition sweep (te : t) (forward advance : bool) (beta : D) (bond_dim : Z)
    (noise : D) : M (World D) (D * D * D) :=
  call prepare >>
  do c <- ask (center C);
  let range := sweep_range forward c (n_sites (me te)) (dot (me te)) in
  do rs <- sweep_steps te forward advance beta bond_dim noise range;
  let largest_error :=
    fold_left (fun acc r => dmax acc (it_error r)) rs (of_Q 0) in
  do energy <- deref (last (map it_energy rs));
  do normsq <- deref (last (map it_normsq rs));
  ret (energy, normsq, largest_error).

(** [s.find(c)]: the first position of [c], [None] for [npos]. *)
Fixpoint string_find (c : ascii) (s : list ascii) : option nat :=
  match s with
  | [] => None
  | x :: s' => if Ascii.eqb x c then Some 0%nat
               else Datatypes.S <$> string_find c s'
  end.

(** [mps->canonical_form], read whole. *)
Definition read_canonical_form (mps : ptr) : M (World D) (list ascii) :=
  fun w =>
    match objs w !! mps with
    | Some o => Ok (canonical_form o) w
    | None => Undefined
    end.

Definition normalize (te : t) : M (World D) unit :=
  let ket := ket (me te) in
  do cf <- read_canonical_form ket;
  match string_find "C" cf with
  | None => assert false
  | Some center =>
      call (load_tensor ket (Z.of_nat center)) >>
      call (normalize_tensor ket (Z.of_nat center)) >>
      call (save_tensor ket (Z.of_nat center)) >>
      call (unload_tensor ket (Z.of_nat center))
  end.

(** The object after a sub-sweep that advanced the time. *)
Definition record_step (te : t) (energy normsq : D) : t :=
  {| me := me te; bond_dims := bond_dims te; noises := noises te;
     errors := errors te; energies := energies te ++ [energy];
     normsqs := normsqs te ++ [normsq]; noise_type := noise_type te;
     trunc_type := trunc_type te; trunc_pattern := trunc_pattern te;
     forward := forward te; mode := mode te;
     n_sub_sweeps := n_sub_sweeps te; weights := weights te;
     iprint := iprint te; cutoff := cutoff te |}.

(** The inner loop of [solve] over the sub-sweeps of the time step [iw],
    with [n] sub-sweeps left. *)
Fixpoint sub_sweeps (beta : D) (iw : nat) (n : nat) (isw : Z) (te : t)
    (forward : bool) {struct n} : M (World D) (t * bool) :=
  match n with
  | O => ret (te, forward)
  | Datatypes.S n' =>
      let advance := isw =? n_sub_sweeps te - 1 in
      do bond_dim <- deref (bond_dims te !! iw);
      do noise <- deref (noises te !! iw);
      do '(energy, normsq, _) <-
        sweep te forward advance beta bond_dim noise;
      let forward := negb forward in
      let te1 := if advance then record_step te energy normsq else te in
      sub_sweeps beta iw n' (isw + 1) te1 forward
  end.

(** The outer loop of [solve], with [n] time steps left. *)
Fixpoint time_steps (beta : D) (n : nat) (iw : nat) (te : t)
    (forward : bool) {struct n} : M (World D) (t * bool) :=
  match n with
  | O => ret (te, forward)
  | Datatypes.S n' =>
      do '(te1, forward1) <-
        sub_sweeps beta iw (Z.to_nat (n_sub_sweeps te)) 0 te forward;
      normalize te1 >>
      time_steps beta n' (Datatypes.S iw) te1 forward1
  end.

(** Returns the energy and the object as [solve] leaves it; [tol] is not
    read. *)
Definition solve (te : t) (n_sweeps : Z) (beta : D) (forward : bool)
    (tol : D) : M (World D) (D * t) :=
  do bond_dims' <- grow (bond_dims te) n_sweeps;
  do noises' <- grow (noises te) n_sweeps;
  let te0 :=
    {| me := me te; bond_dims := bond_dims'; noises := noises';
       errors := errors te; energies := []; normsqs := [];
       noise_type := noise_type te; trunc_type := trunc_type te;
       trunc_pattern := trunc_pattern te;
       forward := ImaginaryTE.forward te; mode := mode te;
       n_sub_sweeps := n_sub_sweeps te; weights := weights te;
       iprint := iprint te; cutoff := cutoff te |} in
  do '(te1, forward') <- time_steps beta (Z.to_nat n_sweeps) 0 te0 forward;
  let te2 :=
    {| me := me te1; bond_dims := bond_dims te1; noises := noises te1;
       errors := errors te1; energies := energies te1;
       normsqs := normsqs te1; noise_type := noise_type te1;
       trunc_type := trunc_type te1; trunc_pattern := trunc_pattern te1;
       forward := forward'; mode := mode te1;
       n_sub_sweeps := n_sub_sweeps te1; weights := weights te1;
       iprint := iprint te1; cutoff := cutoff te1 |} in
  do e <- deref (last (energies te2));
  ret (e, te2).

(** The vocabulary of the property of the truncation pattern: the split
    at site [i] is not truncated. *)
Definition no_truncation (pattern : TruncPatternTypes.t) (i : Z) : bool :=
  match pattern with
  | TruncPatternTypes.TruncAfterOdd => Z.even i
  | TruncPatternTypes.TruncAfterEven => Z.odd i
  | TruncPatternTypes.None => false
  end.
End ImaginaryTE.
End ImaginaryTE.

(** ** Compress *)

Module Compress.
Section Compress.
Context {Op D S : Type} `{!Numeric D}.
Variable C : Collaborators Op D S.

Record Iteration : Type := mkIteration {
  it_norm : D;
  it_error : D;
  it_tmult : D;
  it_nflop : Z
}.

Record t : Type := mkCompress {
  me : MovingEnvironment D;
  bra_bond_dims : list Z;
  ket_bond_dims : list Z;
  noises : list D;
  norms : list D;
  noise_type : NoiseTypes.t;
  trunc_type : TruncationTypes.t;
  forward : bool;
  iprint : Z;
  cutoff : D
}.

(** The constructor, with the defaults of the member declarations. *)
Definition new (me : MovingEnvironment D) (bra_bond_dims ket_bond_dims : list Z)
    (noises : list D) : t :=
  {| me := me; bra_bond_dims := bra_bond_dims;
     ket_bond_dims := ket_bond_dims; noises := noises; norms := [];
     noise_type := NoiseTypes.DensityMatrix;
     trunc_type := TruncationTypes.Physical;
     forward := false; iprint := 2; cutoff := of_Q 0 |}.

(** The body of the second loop over [{me->bra, me->ket}]; returns the
    truncation error. *)
Definition split_one (c : t) (i : Z) (forward : bool)
    (bra_bond_dim ket_bond_dim : Z) (noise : D) (mps : ptr)
  : M (World D) D :=
  let is_bra := Pos.eqb mps (bra (me c)) in
  call (density_matrix mps forward (if is_bra then noise else of_Q 0)
          (if is_bra then noise_type c else NoiseTypes.None)) >>
  let bond_dim := if is_bra then bra_bond_dim else ket_bond_dim in
  call (split_density_matrix mps i bond_dim forward false (cutoff c)
          (trunc_type c)) >>
  do error <- ask (split_error C);
  update_canonical_form mps i forward "C" >>
  call (deallocate info) >>
  save_two mps i >>
  call (deallocate dm_info) >>
  call (deallocate dm) >>
  call (propagate_wfn i (n_sites (me c)) mps forward) >>
  ret error.

(** The loop over [{me->bra, me->ket}], threading [bra_error]. *)
Fixpoint split_all (split : ptr -> M (World D) D) (bra : ptr)
    (l : list ptr) (bra_error : D) : M (World D) D :=
  match l with
  | [] => ret bra_error
  | mps :: l' =>
      do error <- split mps;
      split_all split bra l' (if Pos.eqb mps bra then error else bra_error)
  end.

Definition update_two_dot (c : t) (i : Z) (forward : bool)
    (bra_bond_dim ket_bond_dim : Z) (noise : D) : M (World D) Iteration :=
  let bra := bra (me c) in
  let ket := ket (me c) in
  assert (negb (Pos.eqb bra ket)) >>
  call (frame_activate 0) >>
  for_each [bra; ket] (fun mps =>
    obtain_two_dot C mps i (Pos.eqb mps ket)) >>
  call (eff_ham FuseTypes.FuseLR false) >>
  call multiply >>
  do '(norm, nflop, tmult) <- ask (multiply_result C);
  call (deallocate h_eff) >>
  do bra_error <-
    split_all (split_one c i forward bra_bond_dim ket_bond_dim noise) bra
      [bra; ket] (of_Q 0);
  for_each [ket; bra] (fun mps =>
    call (deallocate (wfn_info mps)) >> call (deallocate (wfn mps))) >>
  ret {| it_norm := norm; it_error := bra_error; it_tmult := tmult;
         it_nflop := nflop |}.

Definition blocking (c : t) (i : Z) (forward : bool)
    (bra_bond_dim ket_bond_dim : Z) (noise : D) : M (World D) Iteration :=
  call (move_to i) >>
  if dot (me c) =? 2
  then update_two_dot c i forward bra_bond_dim ket_bond_dim noise
  else throw (runtime_error "1 site not yet implemented").

(** The loop of [sweep] over the chain positions; returns the norms. *)
Fixpoint sweep_steps (c : t) (forward : bool) (bra_bond_dim ket_bond_dim : Z)
    (noise : D) (range : list Z) : M (World D) (list D) :=
  match range with
  | [] => ret []
  | i :: range' =>
      call check_signal >>
      do r <- blocking c i forward bra_bond_dim ket_bond_dim noise;
      do ns <- sweep_steps c forward bra_bond_dim ket_bond_dim noise range';
      ret (it_norm r :: ns)
  end.

Definition sweep (c : t) (forward : bool) (bra_bond_dim ket_bond_dim : Z)
    (noise : D) : M (World D) D :=
  call prepare >>
  do ctr <- ask (center C);
  let range := sweep_range forward ctr (n_sites (me c)) (dot (me c)) in
  do ns <- sweep_steps c forward bra_bond_dim ket_bond_dim noise range;
  deref (last ns).

(** The test at the end of a sweep, on the object as the sweep [iw] left
    it. *)
Definition converged (c : t) (tol : D) (iw : nat) : M (World D) bool :=
  if (2 <=? length (norms c))%nat && dltb (of_Z 0) tol then
    do n1 <- deref (norms c !! (length (norms c) - 1)%nat);
    do n2 <- deref (norms c !! (length (norms c) - 2)%nat);
    if dltb (dabs (dsub n1 n2)) tol then
      do n <- deref (noises c !! iw);
      do nb <- deref (last (noises c));
      if deqb n nb then
        do b <- deref (bra_bond_dims c !! iw);
        do bb <- deref (last (bra_bond_dims c));
        ret (b =? bb)
      else ret false
    else ret false
  else ret false.

(** The loop of [solve], with [n] sweeps left. *)
Fixpoint sweeps (tol : D) (n : nat) (iw : nat) (c : t) (forward : bool)
    {struct n} : M (World D) (t * bool) :=
  match n with
  | O => ret (c, forward)
  | Datatypes.S n' =>
      do bra_bond_dim <- deref (bra_bond_dims c !! iw);
      do noise <- deref (noises c !! iw);
      do ket_bond_dim <- deref (ket_bond_dims c !! iw);
      do norm <- sweep c forward bra_bond_dim ket_bond_dim noise;
      let c1 :=
        {| me := me c; bra_bond_dims := bra_bond_dims c;
           ket_bond_dims := ket_bond_dims c; noises := noises c;
           norms := norms c ++ [norm]; noise_type := noise_type c;
           trunc_type := trunc_type c; forward := Compress.forward c;
           iprint := iprint c; cutoff := cutoff c |} in
      do conv <- converged c1 tol iw;
      let forward := negb forward in
      if conv then ret (c1, forward)
      else sweeps tol n' (Datatypes.S iw) c1 forward
  end.

(** Returns the norm and the object as [solve] leaves it. *)
Definition solve (c : t) (n_sweeps : Z) (forward : bool) (tol : D)
  : M (World D) (D * t) :=
  do bra_bond_dims' <- grow (bra_bond_dims c) n_sweeps;
  do ket_bond_dims' <- grow (ket_bond_dims c) n_sweeps;
  do noises' <- grow (noises c) n_sweeps;
  let c0 :=
    {| me := me c; bra_bond_dims := bra_bond_dims';
       ket_bond_dims := ket_bond_dims'; noises := noises'; norms := [];
       noise_type := noise_type c; trunc_type := trunc_type c;
       forward := Compress.forward c; iprint := iprint c;
       cutoff := cutoff c |} in
  do '(c1, forward') <- sweeps tol (Z.to_nat n_sweeps) 0 c0 forward;
  let c2 :=
    {| me := me c1; bra_bond_dims := bra_bond_dims c1;
       ket_bond_dims := ket_bond_dims c1; noises := noises c1;
       norms := norms c1; noise_type := noise_type c1;
       trunc_type := trunc_type c1; forward := forward';
       iprint := iprint c1; cutoff := cutoff c1 |} in
  do norm <- deref (last (norms c2));
  ret (norm, c2).

(** The stop rule the loop is shown to follow, on the norms [ns] of the
    sweeps made and the schedules: the norm of sweep [iw] is within [tol]
    of that of the sweep before, and the noise and the bond dimension of
    the bra of sweep [iw] equal the last ones scheduled. *)
Definition stop_rule (tol : D) (ns : list D) (noises : list D)
    (bond_dims : list Z) (iw : nat) : bool :=
  match iw with
  | O => false
  | Datatypes.S iw' =>
      match ns !! iw, ns !! iw',
            noises !! iw, last noises, bond_dims !! iw, last bond_dims with
      | Some n1, Some n2, Some n, Some nb, Some b, Some bb =>
          dltb (dabs (dsub n1 n2)) tol && deqb n nb && (b =? bb)
      | _, _, _, _, _, _ => false
      end
  end.

(** The stop rule in the words of the specification: the norm changed by
    less than [tol] from the sweep before, and the bond dimensions, which
    Compress schedules for the bra and for the ket, and the noise of the
    sweep are the final ones of their schedules. *)
Definition spec_stop_rule (tol : D) (ns : list D) (noises : list D)
    (bra_bond_dims ket_bond_dims : list Z) (iw : nat) : bool :=
  match iw with
  | O => false
  | Datatypes.S iw' =>
      match ns !! iw, ns !! iw', noises !! iw, last noises,
            bra_bond_dims !! iw, last bra_bond_dims,
            ket_bond_dims !! iw, last ket_bond_dims with
      | Some norm, Some norm_before, Some noise, Some final_noise,
        Some bra_dim, Some final_bra_dim, Some ket_dim, Some final_ket_dim =>
          dltb (dabs (dsub norm norm_before)) tol
          && deqb noise final_noise && (bra_dim =? final_bra_dim)
          && (ket_dim =? final_ket_dim)
      | _, _, _, _, _, _, _, _ => false
      end
  end.
End Compress.
End Compress.

(** ** Expect *)

Section PartitionWeights.
Context {D : Type} `{!Numeric D}.




(** [long double x = 0.0; for (l = 0; l < partition_weights.size(); l++)
    x += partition_weights[l] * values[l];], [None] when [values] is too
    short. *)
Fixpoint weighted_sum (x : D) (partition_weights values : list D)
  : option D :=
  match partition_weights, values with
  | [], _ => Some x
  | w :: partition_weights', v :: values' =>
      weighted_sum (ladd x (lmul w v)) partition_weights' values'
  | _ :: _, [] => None
  end.





End PartitionWeights.

Module Expect.
Section Expect.
Context {Op D S : Type} `{!Numeric D}.
Variable C : Collaborators Op D S.

Record Iteration : Type := mkIteration {
  it_expectations : list (OpExpr Op D * D);
  it_bra_error : D;
  it_ket_error : D;
  it_tmult : D;
  it_nflop : Z
}.

Record t : Type := mkExpect {
  me : MovingEnvironment D;
  bra_bond_dim : Z;
  ket_bond_dim : Z;
  expectations : list (list (OpExpr Op D * D));
  forward : bool;
  trunc_type : TruncationTypes.t;
  iprint : Z;
  cutoff : D;
  beta : D;
  partition_weights : list D
}.

(** The first constructor.  [expectations.resize(me->n_sites - me->dot + 1)]
    takes the count as a [size_t]: a negative one is out of the reach of
    any vector, and the call throws [length_error]. *)
Definition new {St} (me : MovingEnvironment D) (bra_bond_dim ket_bond_dim : Z)
  : M St t :=
  let count := n_sites me - dot me + 1 in
  if count <? 0 then throw length_error
  else
    ret {| me := me; bra_bond_dim := bra_bond_dim;
           ket_bond_dim := ket_bond_dim;
           expectations := replicate (Z.to_nat count) [];
           forward := false; trunc_type := TruncationTypes.Physical;
           iprint := 2; cutoff := of_Q 0; beta := of_Q 0;
           partition_weights := [of_Q 1] |}.


(** [me->bra == me->ket ? {me->bra} : {me->bra, me->ket}] *)
Definition mpss (me : MovingEnvironment D) : list ptr :=
  if Pos.eqb (bra me) (ket me) then [bra me] else [bra me; ket me].

(** [me->bra == me->ket ? {bra wfn} : {ket wfn, bra wfn}] *)
Definition old_wfns_of (me : MovingEnvironment D) : list ptr :=
  if Pos.eqb (bra me) (ket me) then [bra me] else [ket me; bra me].

(** The body of the loop over [mpss] when propagating; returns the
    truncation error. *)
Definition split_one (e : t) (i : Z) (forward : bool)
    (bra_bond_dim ket_bond_dim : Z) (mps : ptr) : M (World D) D :=
  call (density_matrix mps forward (of_Q 0) NoiseTypes.None) >>
  let bond_dim := if Pos.eqb mps (bra (me e)) then bra_bond_dim
                  else ket_bond_dim in
  call (split_density_matrix mps i bond_dim forward false (cutoff e)
          (trunc_type e)) >>
  do error <- ask (split_error C);
  update_canonical_form mps i forward "C" >>
  call (deallocate info) >>
  save_two mps i >>
  call (deallocate dm_info) >>
  call (deallocate dm) >>
  call (propagate_wfn i (n_sites (me e)) mps forward) >>
  ret error.

(** The loop over [mpss], threading [bra_error] and [ket_error]. *)
Fixpoint split_all (split : ptr -> M (World D) D) (bra : ptr)
    (l : list ptr) (errors : D * D) : M (World D) (D * D) :=
  match l with
  | [] => ret errors
  | mps :: l' =>
      do error <- split mps;
      split_all split bra l'
        (if Pos.eqb mps bra then (error, errors.2) else (errors.1, error))
  end.

Definition update_two_dot (e : t) (i : Z) (forward propagate : bool)
    (bra_bond_dim ket_bond_dim : Z) : M (World D) Iteration :=
  call (frame_activate 0) >>
  for_each (mpss (me e)) (fun mps =>
    obtain_two_dot C mps i (Pos.eqb mps (ket (me e)))) >>
  call (eff_ham FuseTypes.FuseLR false) >>
  call expect >>
  do '(expectations, nflop, tmult) <- ask (expect_result C);
  call (deallocate h_eff) >>
  do '(bra_error, ket_error) <-
    (if propagate then
       split_all (split_one e i forward bra_bond_dim ket_bond_dim)
         (bra (me e)) (mpss (me e)) (of_Q 0, of_Q 0)
     else ret (of_Q 0, of_Q 0));
  for_each (old_wfns_of (me e)) (fun mps =>
    call (deallocate (wfn_info mps)) >> call (deallocate (wfn mps))) >>
  ret {| it_expectations := expectations; it_bra_error := bra_error;
         it_ket_error := ket_error; it_tmult := tmult; it_nflop := nflop |}.

(** The body of the loop over [mpss] of the multi-target update. *)
Definition multi_split_one (e : t) (i : Z) (forward : bool)
    (bra_bond_dim ket_bond_dim : Z) (mps : ptr) : M (World D) D :=
  call (density_matrix_with_multi_target mps forward (of_Q 0)
          NoiseTypes.None) >>
  let bond_dim := if Pos.eqb mps (bra (me e)) then bra_bond_dim
                  else ket_bond_dim in
  call (multi_split_density_matrix mps i bond_dim forward false (cutoff e)
          (trunc_type e)) >>
  do error <- ask (split_error C);
  update_canonical_form mps i forward "M" >>
  call (deallocate info) >>
  save_multi_two mps i forward >>
  call (deallocate dm_info) >>
  call (deallocate dm) >>
  call (propagate_multi_wfn i (n_sites (me e)) mps forward) >>
  ret error.

(** The expectation reported for every operator: the sum over the targets
    of the partition weight times the value on that target, accumulated in
    a [long double] and stored as a [double]. *)
Fixpoint average (partition_weights : list D)
    (values : list (OpExpr Op D * list D))
  : M (World D) (list (OpExpr Op D * D)) :=
  match values with
  | [] => ret []
  | (op, vs) :: values' =>
      do x <- deref (weighted_sum (of_Q 0) partition_weights vs);
      do rest <- average partition_weights values';
      ret ((op, to_double x) :: rest)
  end.

Definition update_multi_two_dot (e : t) (i : Z) (forward propagate : bool)
    (bra_bond_dim ket_bond_dim : Z) : M (World D) Iteration :=
  let mket := ket (me e) in
  let mbra := bra (me e) in
  do nroots <- get_nroots mket;
  get_nroots mbra >>
  call (frame_activate 0) >>
  for_each (mpss (me e)) (fun mps =>
    obtain_multi_two_dot C mps i (Pos.eqb mps mket)) >>
  call (multi_eff_ham FuseTypes.FuseLR false) >>
  call expect >>
  do '(values, nflop, tmult) <- ask (multi_expect_result C);
  call (deallocate h_eff) >>
  do '(bra_error, ket_error) <-
    (if propagate then
       split_all (multi_split_one e i forward bra_bond_dim ket_bond_dim)
         mbra (mpss (me e)) (of_Q 0, of_Q 0)
     else ret (of_Q 0, of_Q 0));
  for_each (old_wfns_of (me e)) (fun mps =>
    deallocate_old_wfns mps nroots) >>
  do expectations <- average (partition_weights e) values;
  ret {| it_expectations := expectations; it_bra_error := bra_error;
         it_ket_error := ket_error; it_tmult := tmult; it_nflop := nflop |}.

Definition blocking (e : t) (i : Z) (forward propagate : bool)
    (bra_bond_dim ket_bond_dim : Z) : M (World D) Iteration :=
  call (move_to i) >>
  if dot (me e) =? 2 then
    do c0 <- get_canonical_form (ket (me e)) i;
    do multi <-
      (if Ascii.eqb c0 "M" then ret true
       else do c1 <- get_canonical_form (ket (me e)) (i + 1);
            ret (Ascii.eqb c1 "M"));
    if multi
    then update_multi_two_dot e i forward propagate bra_bond_dim ket_bond_dim
    else update_two_dot e i forward propagate bra_bond_dim ket_bond_dim
  else throw (runtime_error "1 site not yet implemented").

(** The object with other [expectations]. *)
Definition with_expectations (e : t)
    (expectations : list (list (OpExpr Op D * D))) : t :=
  {| me := me e; bra_bond_dim := bra_bond_dim e;
     ket_bond_dim := ket_bond_dim e; expectations := expectations;
     forward := forward e; trunc_type := trunc_type e; iprint := iprint e;
     cutoff := cutoff e; beta := beta e;
     partition_weights := partition_weights e |}.

(** The loop of [sweep] over the chain positions, threading
    [expectations]: [expectations[i] = r.expectations]. *)
Fixpoint sweep_steps (e : t) (forward : bool) (bra_bond_dim ket_bond_dim : Z)
    (range : list Z) (expectations : list (list (OpExpr Op D * D)))
  : M (World D) (list (list (OpExpr Op D * D))) :=
  match range with
  | [] => ret expectations
  | i :: range' =>
      call check_signal >>
      do r <- blocking e i forward true bra_bond_dim ket_bond_dim;
      if (0 <=? i) && (i <? Z.of_nat (length expectations)) then
        sweep_steps e forward bra_bond_dim ket_bond_dim range'
          (<[Z.to_nat i := it_expectations r]> expectations)
      else undefined
  end.

Definition sweep (e : t) (forward : bool) (bra_bond_dim ket_bond_dim : Z)
  : M (World D) t :=
  call prepare >>
  do c <- ask (center C);
  let range := sweep_range forward c (n_sites (me e)) (dot (me e)) in
  do expectations <-
    sweep_steps e forward bra_bond_dim ket_bond_dim range (expectations e);
  ret (with_expectations e expectations).

(** Returns the value and the object as [solve] leaves it. *)
Definition solve (e : t) (propagate forward : bool) : M (World D) (D * t) :=
  let e0 := with_expectations e (map (fun _ => []) (expectations e)) in
  if propagate then
    do e1 <- sweep e0 forward (bra_bond_dim e0) (ket_bond_dim e0);
    let forward := negb forward in
    ret (of_Q 0,
         {| me := me e1; bra_bond_dim := bra_bond_dim e1;
            ket_bond_dim := ket_bond_dim e1;
            expectations := expectations e1; forward := forward;
            trunc_type := trunc_type e1; iprint := iprint e1;
            cutoff := cutoff e1; beta := beta e1;
            partition_weights := partition_weights e1 |})
  else
    do c <- ask (center C);
    do r <- blocking e0 c forward false (bra_bond_dim e0) (ket_bond_dim e0);
    assert (negb (length (it_expectations r) =? 0)%nat) >>
    do x <- deref (head (it_expectations r));
    ret (x.2, e0).
End Expect.
End Expect.

(** ** More of the vocabulary of the drivers' logs *)

Section DriverLog.
Context {D : Type}.

(** The moves of the environment, the preparations of a sweep, the
    additions of noise and the normalizations of a site tensor, in a
    log. *)
Definition is_move_to (c : Call D) : bool :=
  match c with move_to _ => true | _ => false end.

Definition is_prepare (c : Call D) : bool :=
  match c with prepare => true | _ => false end.

Definition is_noise (c : Call D) : bool :=
  match c with
  | wavefunction_add_noise _ _ | perturbative_noise_two_dot _ _ => true
  | _ => false
  end.

Definition is_normalize (c : Call D) : bool :=
  match c with normalize_tensor _ _ => true | _ => false end.


(** The writes of a tensor, a wavefunction or a bond basis to storage. *)
Definition is_store (c : Call D) : bool :=
  match c with
  | save_tensor _ _ | save_wavefunction _ _
  | save_left_dims _ _ | save_right_dims _ _ => true
  | _ => false
  end.
End DriverLog.

(** ** The interpretations of the arithmetic used below *)

(** Integers, with a constant exponential and the same operations for
    both types: enough to run the drivers on concrete inputs. *)
#[local] Instance Numeric_Z : Numeric Z := {|
  of_Q := fun q => (Qnum q / Z.pos (Qden q))%Z;
  of_Z := fun z => z;
  dadd := Z.add;
  dsub := Z.sub;
  dmul := Z.mul;
  ddiv := Z.div;
  dneg := Z.opp;
  dabs := Z.abs;
  dltb := Z.ltb;
  deqb := Z.eqb;
  ladd := Z.add;
  lsub := Z.sub;
  lmul := Z.mul;
  ldiv := Z.div;
  lneg := Z.opp;
  lexp := fun _ => 1;
  to_double := fun z => z
|}.

(** Binary floating point, as far as the partition weights need it.  A
    finite number of either type is a rational; an operation yields the
    exact result rounded to nearest, ties to even, at 53 bits of
    precision for [double] and at [p] bits for [long double]: 64 in the
    x87 format of the x86 ABIs, 53 where [long double] is [double].  The
    range of the exponents, the infinities, NaN and the sign of zero are
    not modelled, and [x / 0] is left at 0: this interpretation is for
    runs that stay away from them. *)
Module Rounded.
#[local] Open Scope Z_scope.

(** The integer nearest to [n / d], ties to even, for [0 <= n] and
    [0 < d]. *)
Definition nearest (n d : Z) : Z :=
  let k := n / d in
  let r := n mod d in
  match 2 * r ?= d with
  | Lt => k
  | Gt => k + 1
  | Eq => if Z.even k then k else k + 1
  end.

(** [m * 2 ^ e] *)
Definition scaled (m e : Z) : Q :=
  if 0 <=? e then inject_Z (m * 2 ^ e)
  else Qred (Qmake m (Z.to_pos (2 ^ (- e)))).

(** The magnitude [n / d] at [p] bits: the exponent [e] is the one that
    puts [n / d / 2 ^ e] between [2 ^ (p - 1)] and [2 ^ p]. *)
Definition round_magnitude (p : positive) (n d : Z) : Q :=
  let e0 := Z.log2 n - Z.log2 d - Z.pos p in
  let at_exponent e :=
    if 0 <=? e then nearest n (d * 2 ^ e) else nearest (n * 2 ^ (- e)) d in
  let e :=
    if (if 0 <=? e0 then n / (d * 2 ^ e0) else n * 2 ^ (- e0) / d)
       <? 2 ^ Z.pos p
    then e0 else e0 + 1 in
  scaled (at_exponent e) e.

Definition round (p : positive) (q : Q) : Q :=
  match Qnum q with
  | 0 => 0%Q
  | Z.pos n => round_magnitude p (Z.pos n) (Z.pos (Qden q))
  | Z.neg n => Qopp (round_magnitude p (Z.pos n) (Z.pos (Qden q)))
  end.

(** A stand-in for [expl], which the rationals cannot follow: the rounded
    sum of the series up to the power 20.  At 0, where [expl] returns 1,
    it is exact. *)
Fixpoint exp_series (n : nat) (x term : Q) (k : Z) : Q :=
  match n with
  | O => 0%Q
  | Datatypes.S n' =>
      (term + exp_series n' x (term * x / inject_Z k) (k + 1))%Q
  end.

Definition Qltb (x y : Q) : bool :=
  match (x ?= y)%Q with Lt => true | _ => false end.

Definition arithmetic (p : positive) : Numeric Q := {|
  of_Q := round 53;
  of_Z := fun z => round 53 (inject_Z z);
  dadd := fun x y => round 53 (x + y)%Q;
  dsub := fun x y => round 53 (x - y)%Q;
  dmul := fun x y => round 53 (x * y)%Q;
  ddiv := fun x y => round 53 (x / y)%Q;
  dneg := Qopp;
  dabs := Qabs;
  dltb := Qltb;
  deqb := Qeq_bool;
  ladd := fun x y => round p (x + y)%Q;
  lsub := fun x y => round p (x - y)%Q;
  lmul := fun x y => round p (x * y)%Q;
  ldiv := fun x y => round p (x / y)%Q;
  lneg := Qopp;
  lexp := fun x => round p (exp_series 21 x 1%Q 1);
  to_double := round 53
|}.
End Rounded.

(** The x87 format: 64 bits of precision for [long double]. *)
#[local] Instance Numeric_x87 : Numeric Q := Rounded.arithmetic 64.

(** ** Concrete inputs *)

Module EngineExample.
Import ParallelTensorFunctions.

(** Integer labels that fuse to a single label. *)
Definition QLabel_Z : @QLabel Z := {|
  qneg := Z.opp;
  qadd := Z.add;
  qcount := fun _ => 1;
  qget := fun s _ => s;
  qltb := Z.ltb
|}.

(** Operators 1, 2, 3 and the identity 9; matrices named by numbers. *)
Definition lop : gmap positive positive := {[1%positive := 11%positive]}.
Definition rop : gmap positive positive :=
  {[2%positive := 12%positive; 9%positive := 19%positive]}.

Definition string12 : OpString positive Z :=
  {| a := 1%positive; b := Some 2%positive; conj := 0; factor := 5 |}.

Definition engine_world : World (D:=Z) (S:=Z) (Mat:=positive) (CInfo:=nat) :=
  {| cinfo := 0%nat; calls := [] |}.

(** The perturbative-noise product of [string12] into the group
    [[21; 22]], tracing the right block, in a given batching mode. *)
Definition partial_run (mode : SeqTypes.t) (expr : OpExpr positive Z)
  : M (World (D:=Z) (S:=Z) (Mat:=positive) (CInfo:=nat)) unit :=
  tensor_product_partial_multiply (H0:=QLabel_Z) lop rop (fun _ => 0)
    9%positive mode 0 expr true 20%positive 0 [(0, 0)] [[7%nat]] [0]
    [21%positive; 22%positive].

(** An operator tensor with three operators, the first not yet
    allocated, and the definition of operator 1 as the sum of operators
    2 and 3, which the rule finds not local. *)
Definition tensor : OperatorTensor (Op:=positive) (Mat:=positive) :=
  {| lmat := Some []; rmat := None;
     ops := [(1%positive, mkSparseMatrix 31%positive false);
             (2%positive, mkSparseMatrix 32%positive true);
             (3%positive, mkSparseMatrix 33%positive true)] |}.

Definition string_of (o : positive) : OpString positive Z :=
  {| a := o; b := None; conj := 0; factor := 1 |}.

(** A product whose second factor has no matrix in [rop]. *)
Definition string13 : OpString positive Z :=
  {| a := 1%positive; b := Some 3%positive; conj := 0; factor := 5 |}.

Definition transform_run
  : M (World (D:=Z) (S:=Z) (Mat:=positive) (CInfo:=nat))
      (OperatorTensor * Z) :=
  numerical_transform SeqTypes.Simple (fun o => o) (fun _ => 1)
    (fun e _ => e) (fun _ => 0) (fun e _ => (false, e)) a tensor
    [1%positive] [Sum [string_of 2; string_of 3]].

(** A tensor with five operators, two of them not yet allocated, on the
    worker 0.  The name 6 is the operator 1 with the factor -1, its
    owner is the worker 1; every other operator is owned here.  The
    product by a scalar multiplies the factor of every summand; the
    ownership rule keeps, of a sum, the summands that do not involve the
    operator 3, and finds an expression local when its owner is this
    worker. *)
Definition wide_tensor : OperatorTensor (Op:=positive) (Mat:=positive) :=
  {| lmat := Some []; rmat := None;
     ops := [(1%positive, mkSparseMatrix 31%positive false);
             (2%positive, mkSparseMatrix 32%positive true);
             (3%positive, mkSparseMatrix 33%positive true);
             (4%positive, mkSparseMatrix 34%positive false);
             (5%positive, mkSparseMatrix 35%positive true)] |}.

Definition abs_of (o : positive) : positive :=
  match o with 6%positive => 1%positive | _ => o end.

Definition factor_of (o : positive) : Z :=
  match o with 6%positive => -1 | _ => 1 end.

Definition owner_of (o : positive) : Z :=
  match o with 1%positive => 1 | _ => 0 end.

Definition scale_string (f : Z) (x : OpString positive Z)
  : OpString positive Z :=
  {| a := a x; b := b x; conj := conj x; factor := factor x * f |}.

Fixpoint scale (e : OpExpr positive Z) (f : Z) : OpExpr positive Z :=
  match e with
  | Prod x => Prod (scale_string f x)
  | Sum strings => Sum (map (scale_string f) strings)
  | ExprRef l op => ExprRef l (scale op f)
  | Zero | Elem _ => e
  end.

Definition localize (e : OpExpr positive Z) (owner : Z)
  : bool * OpExpr positive Z :=
  (owner =? 0,
   match e with
   | Sum strings =>
       Sum (List.filter (fun x => negb (Pos.eqb (a x) 3)) strings)
   | _ => e
   end).

Definition conjugate_of (o : positive) : OpString positive Z :=
  {| a := o; b := None; conj := 1; factor := 1 |}.

(** The name 6 defined as the sum of the operators 2, 3 and the conjugate
    of 5, the name 4 as a reference, already local, to the operator 3,
    and the name 5 as zero. *)
Definition localizing_run
  : M (World (D:=Z) (S:=Z) (Mat:=positive) (CInfo:=nat))
      (OperatorTensor * Z) :=
  numerical_transform SeqTypes.Simple abs_of factor_of scale owner_of
    localize a wide_tensor [6%positive; 4%positive; 5%positive]
    [Sum [string_of 2; string_of 3; conjugate_of 5];
     ExprRef true (Sum [string_of 3]); Zero].
End EngineExample.

Module Example.

(** Collaborators that answer with constants; the center of the
    environment is the site it was last moved to. *)
Definition last_move (l : list (Call Z)) : Z :=
  fold_left (fun c x => match x with move_to i => i | _ => c end) l 0.

Definition collaborators : Collaborators positive Z Z := {|
  tensor_loaded := fun _ _ _ => false;
  center := last_move;
  eigs_result := fun _ => (-7, 3, 100, 1);
  multi_eigs_result := fun _ => ([-7; -6], 3, 100, 1);
  delta_quanta_result := fun _ => [(0, 1)];
  split_error := fun _ => 0;
  expo_apply_result := fun _ => (-7, 1, 4, 100, 1);
  rk4_apply_result := fun _ => (3, (-7, 1, 4, 100, 1));
  multiply_result := fun _ => (1, 100, 1);
  expect_result := fun _ => ([(Zero, 2)], 100, 1);
  multi_expect_result := fun _ => ([(Zero, [2; 4])], 100, 1)
|}.

(** A chain of four sites; the ket is object 1, the bra object 2. *)
Definition environment (dot : Z) (bra ket : ptr) : MovingEnvironment Z :=
  {| n_sites := 4; dot := dot; bra := bra; ket := ket; const_e := 0 |}.

Definition chain (cf : string) (nroots : option Z) : MPS :=
  {| canonical_form := list_ascii_of_string cf; nroots := nroots |}.

Definition world : World Z :=
  {| objs := {[1%positive := chain "CCRR" None;
               2%positive := chain "CCRR" None]};
     calls := [] |}.

Definition multi_world : World Z :=
  {| objs := {[1%positive := chain "MMRR" (Some 2)]}; calls := [] |}.

Definition dmrg : DMRG.t (D:=Z) (S:=Z) :=
  DMRG.new (environment 2 1%positive 1%positive) [100] [0].

Definition te (mode : TETypes.t) (pattern : TruncPatternTypes.t)
  : ImaginaryTE.t (D:=Z) :=
  let t := ImaginaryTE.new (environment 2 1%positive 1%positive) [100] mode
             1 in
  {| ImaginaryTE.me := ImaginaryTE.me t;
     ImaginaryTE.bond_dims := ImaginaryTE.bond_dims t;
     ImaginaryTE.noises := ImaginaryTE.noises t;
     ImaginaryTE.errors := ImaginaryTE.errors t;
     ImaginaryTE.energies := ImaginaryTE.energies t;
     ImaginaryTE.normsqs := ImaginaryTE.normsqs t;
     ImaginaryTE.noise_type := ImaginaryTE.noise_type t;
     ImaginaryTE.trunc_type := ImaginaryTE.trunc_type t;
     ImaginaryTE.trunc_pattern := pattern;
     ImaginaryTE.forward := ImaginaryTE.forward t;
     ImaginaryTE.mode := mode;
     ImaginaryTE.n_sub_sweeps := ImaginaryTE.n_sub_sweeps t;
     ImaginaryTE.weights := ImaginaryTE.weights t;
     ImaginaryTE.iprint := ImaginaryTE.iprint t;
     ImaginaryTE.cutoff := ImaginaryTE.cutoff t |}.

Definition compress (bra ket : ptr) : Compress.t (D:=Z) :=
  Compress.new (environment 2 bra ket) [50] [100] [0].

(** The sweeps prepared so far. *)
Definition sweeps_prepared (l : list (Call Z)) : Z :=
  Z.of_nat (length (List.filter is_prepare l)).

(** Collaborators of a state average over two roots.  With the first
    ones the lowest energy is -7 in every sweep while the second energy
    sinks by 1 from sweep to sweep; with the others the lowest energy
    sinks by 1 from sweep to sweep while the second stays at -6. *)
Definition second_sinking : Collaborators positive Z Z := {|
  tensor_loaded := tensor_loaded collaborators;
  center := center collaborators;
  eigs_result := eigs_result collaborators;
  multi_eigs_result := fun l => ([-7; - sweeps_prepared l], 3, 100, 1);
  delta_quanta_result := delta_quanta_result collaborators;
  split_error := split_error collaborators;
  expo_apply_result := expo_apply_result collaborators;
  rk4_apply_result := rk4_apply_result collaborators;
  multiply_result := multiply_result collaborators;
  expect_result := expect_result collaborators;
  multi_expect_result := multi_expect_result collaborators
|}.

Definition first_sinking : Collaborators positive Z Z := {|
  tensor_loaded := tensor_loaded collaborators;
  center := center collaborators;
  eigs_result := eigs_result collaborators;
  multi_eigs_result := fun l => ([-7 - sweeps_prepared l; -6], 3, 100, 1);
  delta_quanta_result := delta_quanta_result collaborators;
  split_error := split_error collaborators;
  expo_apply_result := expo_apply_result collaborators;
  rk4_apply_result := rk4_apply_result collaborators;
  multiply_result := multiply_result collaborators;
  expect_result := expect_result collaborators;
  multi_expect_result := multi_expect_result collaborators
|}.

(** A compression whose bond dimension of the ket grows over three
    sweeps while that of the bra is 50 throughout. *)
Definition growing_ket : Compress.t (D:=Z) :=
  Compress.new (environment 2 2%positive 1%positive) [50] [100; 200; 300]
    [0].

(** The object a constructor returned, on inputs for which it does. *)
Definition constructed {A : Type} (r : outcome unit A)
  : match r with Ok _ _ => A | _ => unit end :=
  match r with Ok a _ => a | _ => tt end.

Definition expectation (bra ket : ptr) : Expect.t (Op:=positive) (D:=Z) :=
  constructed (Expect.new (environment 2 bra ket) 50 100 tt).




End Example.

Module CoverageExample.
Import Example.

(** A time evolution on the chain of four sites, in a given mode and with
    a given number of sub-sweeps. *)
Definition evolution (mode : TETypes.t) (n_sub_sweeps : Z)
  : ImaginaryTE.t (D:=Z) :=
  ImaginaryTE.new (environment 2 1%positive 1%positive) [100] mode
    n_sub_sweeps.

(** Collaborators whose eigensolver finds a lower energy the further the
    environment has moved: minus the site it was last moved to. *)
Definition descending : Collaborators positive Z Z := {|
  tensor_loaded := tensor_loaded collaborators;
  center := center collaborators;
  eigs_result := fun l => (- last_move l, 3, 100, 1);
  multi_eigs_result := multi_eigs_result collaborators;
  delta_quanta_result := delta_quanta_result collaborators;
  split_error := split_error collaborators;
  expo_apply_result := expo_apply_result collaborators;
  rk4_apply_result := rk4_apply_result collaborators;
  multiply_result := multiply_result collaborators;
  expect_result := expect_result collaborators;
  multi_expect_result := multi_expect_result collaborators
|}.

(** The chain after a step to site 1. *)
Definition moved_world : World Z :=
  {| objs := {[1%positive := chain "LCRR" None]}; calls := [move_to 1] |}.


(** A symbolic vector with the operators 1 and 2 and a zero between
    them; operator 1 is available and owned here, both are repeated.  The
    target of operator 1 has no data yet. *)
Definition entries : list (OpExpr positive Z) :=
  [Elem 1%positive; Zero; Elem 2%positive].

Definition key_of (x : OpExpr positive Z) : positive :=
  match x with Elem e => e | _ => 1%positive end.

Definition source_ops
  : list (positive * ParallelTensorFunctions.SparseMatrix (Mat:=positive)) :=
  [(1%positive, ParallelTensorFunctions.mkSparseMatrix 41%positive true);
   (2%positive, ParallelTensorFunctions.mkSparseMatrix 42%positive true)].

Definition target_ops
  : list (positive * ParallelTensorFunctions.SparseMatrix (Mat:=positive)) :=
  [(1%positive, ParallelTensorFunctions.mkSparseMatrix 51%positive false);
   (2%positive, ParallelTensorFunctions.mkSparseMatrix 52%positive true)].

Definition machine
  : ParallelTensorOps.Machine (D:=Z) (S:=Z) (Mat:=positive) (CInfo:=nat) :=
  {| ParallelTensorOps.installed := 0%nat; ParallelTensorOps.events := [] |}.
End CoverageExample.

(** * Properties *)

(** ** Running a computation *)

Section RunFacts.
Context {St : Type}.

Lemma bind_Ok {A B} (m : M St A) (k : A -> M St B) s b s' :
  bind m k s = Ok b s' <-> exists a s1, m s = Ok a s1 /\ k a s1 = Ok b s'.
Proof.
  unfold bind. split.
  - destruct (m s) as [a s1| | |] eqn:E; try discriminate.
    intros Hk. exists a, s1. auto.
  - intros (a & s1 & -> & Hk). exact Hk.
Qed.

Lemma assert_Ok (c : bool) (s s' : St) u :
  assert c s = Ok u s' <-> c = true /\ s' = s.
Proof.
  unfold assert. destruct c; split.
  - intros [= _ <-]. auto.
  - intros [_ ->]. destruct u. reflexivity.
  - discriminate.
  - intros [[=] _].
Qed.

Lemma map_at_Ok {A} (o : option A) (s s' : St) x :
  map_at o s = Ok x s' <-> o = Some x /\ s' = s.
Proof.
  unfold map_at, ret, throw. destruct o; split.
  - intros [= <- <-]. auto.
  - intros [[= <-] ->]. reflexivity.
  - discriminate.
  - intros [[=] _].
Qed.

Lemma deref_Ok {A} (o : option A) (s s' : St) x :
  deref o s = Ok x s' <-> o = Some x /\ s' = s.
Proof.
  unfold deref, ret, undefined. destruct o; split.
  - intros [= <- <-]. auto.
  - intros [[= <-] ->]. reflexivity.
  - discriminate.
  - intros [[=] _].
Qed.

Lemma preserves_ret {A X} (f : St -> X) (a : A) : preserves f (ret a).
Proof. intros s a' s' [= _ <-]. reflexivity. Qed.

Lemma preserves_bind {A B X} (f : St -> X) (m : M St A) (k : A -> M St B) :
  preserves f m -> (forall a, preserves f (k a)) -> preserves f (bind m k).
Proof.
  intros Hm Hk s b s' Hrun. apply bind_Ok in Hrun as (a & s1 & H1 & H2).
  rewrite (Hk _ _ _ _ H2). eapply Hm, H1.
Qed.

Lemma preserves_assert {X} (f : St -> X) (c : bool) : preserves f (assert c).
Proof. intros s a s' Hrun. apply assert_Ok in Hrun as [_ ->]. reflexivity. Qed.

Lemma preserves_deref {A X} (f : St -> X) (o : option A) :
  preserves f (deref o).
Proof. intros s a s' Hrun. apply deref_Ok in Hrun as [_ ->]. reflexivity. Qed.

Lemma preserves_map_at {A X} (f : St -> X) (o : option A) :
  preserves f (map_at o).
Proof. intros s a s' Hrun. apply map_at_Ok in Hrun as [_ ->]. reflexivity. Qed.

Lemma preserves_throw {A X} (f : St -> X) (e : exn) :
  preserves f (throw e : M St A).
Proof. intros s a s'. discriminate. Qed.

Lemma preserves_undefined {A X} (f : St -> X) :
  preserves f (undefined : M St A).
Proof. intros s a s'. discriminate. Qed.

Lemma preserves_when {X} (f : St -> X) (c : bool) (m : M St unit) :
  preserves f m -> preserves f (when c m).
Proof. intros Hm. destruct c; [exact Hm | apply preserves_ret]. Qed.

Lemma preserves_for_each {A X} (f : St -> X) (xs : list A)
    (body : A -> M St unit) :
  (forall x, preserves f (body x)) -> preserves f (for_each xs body).
Proof.
  intros Hbody. induction xs as [|x xs IH]; cbn [for_each].
  - apply preserves_ret.
  - apply preserves_bind; [apply Hbody | intros _; exact IH].
Qed.

Lemma returns_ret {A} (a : A) (R : A -> Prop) :
  R a -> returns (ret a : M St A) R.
Proof. intros HR s a' s' [= <- _]. exact HR. Qed.

Lemma returns_bind {A B} (m : M St A) (k : A -> M St B) (R1 : A -> Prop)
    (R : B -> Prop) :
  returns m R1 -> (forall a, R1 a -> returns (k a) R) ->
  returns (bind m k) R.
Proof.
  intros Hm Hk s b s' Hrun. apply bind_Ok in Hrun as (a & s1 & H1 & H2).
  eapply Hk; [eapply Hm, H1 | exact H2].
Qed.

Lemma returns_any {A} (m : M St A) : returns m (fun _ => True).
Proof. intros s a s' _. exact I. Qed.

Lemma hoare_bind {A B} (P Q R : St -> Prop) (m : M St A) (k : A -> M St B) :
  hoare P m Q -> (forall a, hoare Q (k a) R) -> hoare P (bind m k) R.
Proof.
  intros Hm Hk s b s' HP Hrun.
  apply bind_Ok in Hrun as (a & s1 & H1 & H2).
  eapply Hk; [eapply Hm; eassumption | eassumption].
Qed.


Lemma hoare_preserves {A X} (f : St -> X) (R : X -> Prop) (m : M St A) :
  preserves f m -> hoare (fun s => R (f s)) m (fun s => R (f s)).
Proof. intros Hm s a s' HP Hrun. rewrite (Hm _ _ _ Hrun). exact HP. Qed.

(** A relation between states that every iteration respects is respected
    by the whole loop. *)
Lemma for_each_Ok {A} (R : St -> St -> Prop) (xs : list A)
    (body : A -> M St unit) :
  (forall s, R s s) ->
  (forall s1 s2 s3, R s1 s2 -> R s2 s3 -> R s1 s3) ->
  (forall x s s', body x s = Ok tt s' -> R s s') ->
  forall s s', for_each xs body s = Ok tt s' -> R s s'.
Proof.
  intros Hrefl Htrans Hbody.
  induction xs as [|x xs IH]; intros s s'; cbn [for_each].
  - intros [= <-]. apply Hrefl.
  - intros Hrun. apply bind_Ok in Hrun as ([] & s1 & Hx & Hrun).
    eapply Htrans; [eapply Hbody, Hx | eapply IH, Hrun].
Qed.
End RunFacts.

(** ** The contraction engine *)

Module EngineFacts.
Import ParallelTensorFunctions.

Section Multiply.
Context {Op D S Mat CInfo : Type} `{Countable Op}.
Variable lop rop : gmap Op Mat.

Abbreviation World := (@World D S Mat CInfo).
Abbreviation Call := (@Call D S Mat CInfo).

Lemma engine_call_Ok (c : Call) (w w' : World) u :
  call c w = Ok u w' <->
  w' = {| cinfo := cinfo w; calls := calls w ++ [c] |}.
Proof.
  unfold call. split.
  - intros [= _ <-]. reflexivity.
  - intros ->. destruct u. reflexivity.
Qed.

Lemma allreduces_app (l1 l2 : list Call) :
  allreduces (l1 ++ l2) = allreduces l1 ++ allreduces l2.
Proof. apply List.filter_app. Qed.

(** What a product does: the block multiplication when both factors are
    there, a failed assertion otherwise. *)
Lemma multiply_prod_run op cmat vmat (opdq : S) (w : World) :
  multiply_prod lop rop op cmat vmat opdq w
  = if prod_ready lop rop op
    then Ok tt {| cinfo := cinfo w;
                  calls := calls w ++ prod_call lop rop cmat vmat opdq op |}
    else AssertFail.
Proof.
  unfold multiply_prod, prod_ready, prod_call, mem.
  destruct (b op) as [bo|]; [|reflexivity]. cbn [mbind option_bind].
  destruct (lop !! a op) as [lmat|] eqn:El, (rop !! bo) as [rmat|] eqn:Er.
  - rewrite !bool_decide_eq_true_2 by eauto. reflexivity.
  - rewrite (bool_decide_eq_false_2 (is_Some None))
      by (intros [? [=]]).
    rewrite bool_decide_eq_true_2 by eauto. reflexivity.
  - rewrite (bool_decide_eq_false_2 (is_Some None))
      by (intros [? [=]]).
    reflexivity.
  - rewrite (bool_decide_eq_false_2 (is_Some None))
      by (intros [? [=]]).
    reflexivity.
Qed.

Lemma multiply_prods_run strings cmat vmat (opdq : S) :
  forall w : World,
    for_each strings (fun x => multiply_prod lop rop x cmat vmat opdq) w
    = if forallb (prod_ready lop rop) strings
      then Ok tt {| cinfo := cinfo w;
                    calls := calls w ++
                      flat_map (prod_call lop rop cmat vmat opdq) strings |}
      else AssertFail.
Proof.
  induction strings as [|x strings IH]; intros w; cbn [for_each forallb
    flat_map].
  - rewrite app_nil_r. destruct w; reflexivity.
  - unfold bind at 1. rewrite multiply_prod_run.
    destruct (prod_ready lop rop x); [|reflexivity]. cbn [andb].
    rewrite IH. cbn [cinfo calls]. rewrite <- app_assoc. reflexivity.
Qed.

(** A call made with [all_reduce] off, on any expression. *)
Lemma multiply_inner_run expr cmat vmat (opdq : S) :
  forall w : World,
    tensor_product_multiply lop rop expr cmat vmat opdq false w
    = if all_ready lop rop expr
      then Ok tt {| cinfo := cinfo w;
                    calls := calls w ++
                      product_calls lop rop expr cmat vmat opdq |}
      else AssertFail.
Proof.
  induction expr as [|e|op|strings|l expr IH]; intros w;
    cbn [tensor_product_multiply all_ready product_calls].
  - rewrite app_nil_r. destruct w; reflexivity.
  - reflexivity.
  - apply multiply_prod_run.
  - apply multiply_prods_run.
  - unfold bind. rewrite IH.
    destruct (all_ready lop rop expr); [|reflexivity].
    cbn [when ret]. reflexivity.
Qed.

Lemma prod_call_no_allreduce cmat vmat (opdq : S) (op : OpString Op D) :
  allreduces (prod_call (CInfo:=CInfo) lop rop cmat vmat opdq op) = [].
Proof.
  unfold prod_call.
  destruct (lop !! a op), (b op ≫= (rop !!.)); reflexivity.
Qed.

Lemma product_calls_no_allreduce (expr : OpExpr Op D) cmat vmat
    (opdq : S) :
  allreduces (product_calls (CInfo:=CInfo) lop rop expr cmat vmat opdq)
  = [].
Proof.
  induction expr as [|e|op|strings|l expr IH]; cbn [product_calls];
    try reflexivity; try assumption.
  - apply prod_call_no_allreduce.
  - induction strings as [|x strings IHs]; cbn [flat_map]; [reflexivity|].
    rewrite allreduces_app, prod_call_no_allreduce, IHs. reflexivity.
Qed.

(** C3.  In the parallel [tensor_product_multiply], from a state with the
    log [calls w].  A [Sum], whatever [all_reduce] was passed, issues the
    block multiplication of every summand in turn, each from the same
    input [cmat] into the same output [vmat], and nothing else: no
    all-reduce; it stops on a failed assertion when a summand lacks a
    factor or a matrix.  An [ExprRef] first runs the call on its inner
    expression with [all_reduce] off, which issues the block
    multiplications of the inner expression and no all-reduce, however
    deep the [ExprRef]s below, and then issues one all-reduce of the
    output, as the last call, exactly when [all_reduce] was requested.  A
    [Zero] returns at once and leaves everything as it was. *)
Theorem tensor_product_multiply_nodes :
  (forall strings cmat vmat (opdq : S) all_reduce (w : World),
      tensor_product_multiply lop rop (Sum strings) cmat vmat opdq
        all_reduce w
      = (if forallb (prod_ready lop rop) strings
         then Ok tt {| cinfo := cinfo w;
                       calls := calls w ++
                         flat_map (prod_call lop rop cmat vmat opdq)
                           strings |}
         else AssertFail)
      /\ allreduces
           (flat_map (prod_call (CInfo:=CInfo) lop rop cmat vmat opdq)
              strings)
         = [])
  /\ (forall l expr cmat vmat (opdq : S) all_reduce (w : World),
      let inner :=
        product_calls (CInfo:=CInfo) lop rop expr cmat vmat opdq in
      tensor_product_multiply lop rop expr cmat vmat opdq false w
      = (if all_ready lop rop expr
         then Ok tt {| cinfo := cinfo w; calls := calls w ++ inner |}
         else AssertFail)
      /\ allreduces inner = []
      /\ tensor_product_multiply lop rop (ExprRef l expr) cmat vmat opdq
           all_reduce w
         = if all_ready lop rop expr
           then Ok tt {| cinfo := cinfo w;
                         calls := calls w ++ inner ++
                           (if all_reduce then [comm_allreduce_sum vmat]
                            else []) |}
           else AssertFail)
  /\ (forall cmat vmat (opdq : S) all_reduce (w : World),
      tensor_product_multiply lop rop Zero cmat vmat opdq all_reduce w
      = Ok tt w).
Proof.
  split; [|split].
  - intros strings cmat vmat opdq all_reduce w. split.
    + cbn [tensor_product_multiply]. apply multiply_prods_run.
    + apply (product_calls_no_allreduce (Sum strings)).
  - intros l expr cmat vmat opdq all_reduce w. cbv zeta.
    split; [apply multiply_inner_run|].
    split; [apply product_calls_no_allreduce|].
    cbn [tensor_product_multiply]. unfold bind.
    rewrite multiply_inner_run.
    destruct (all_ready lop rop expr); [|reflexivity].
    destruct all_reduce; cbn [when].
    + unfold call. cbn [cinfo calls]. rewrite <- app_assoc. reflexivity.
    + rewrite app_nil_r. reflexivity.
  - reflexivity.
Qed.
End Multiply.

Section Partial.
Context {Op D S Mat CInfo : Type} `{Countable Op} `{!@QLabel S}.
Variable lop rop : gmap Op Mat.
Variable q_label : Op -> S.
Variable i_op : Op.
Variable mode : SeqTypes.t.
Variable root : Z.

Abbreviation World := (@World D S Mat CInfo).
Abbreviation Call := (@Call D S Mat CInfo).

Lemma put_cinfo_Ok (cmat : Mat) (c : CInfo) (w w' : World) u :
  put_cinfo cmat c w = Ok u w' <->
  w' = {| cinfo := c; calls := calls w ++ [set_cinfo cmat c] |}.
Proof.
  unfold put_cinfo. split.
  - intros [= _ <-]. reflexivity.
  - intros ->. destruct u. reflexivity.
Qed.

(** The body of the loop over the fused labels: install the connection
    info, multiply. *)
Lemma partial_step_quiet (vmats : list Mat) (cinfos : list (list CInfo))
    (iv ij k c : Z) lmat rmat cmat (opdq : S) (f : D) (w w' : World) :
  (do vmat <- deref (vmats !! Z.to_nat iv);
   do ci <- deref (cinfos !! Z.to_nat ij ≫= (.!! Z.to_nat k));
   put_cinfo cmat ci >>
   call (opf_tensor_product_multiply c lmat rmat cmat vmat opdq f)) w
    = Ok tt w' ->
  allreduces (calls w') = allreduces (calls w).
Proof.
  intros Hrun.
  apply bind_Ok in Hrun as (vmat & w1 & Hv & Hrun).
  apply deref_Ok in Hv as [_ ->].
  apply bind_Ok in Hrun as (ci & w2 & Hc & Hrun).
  apply deref_Ok in Hc as [_ ->].
  apply bind_Ok in Hrun as ([] & w3 & Hp & Hrun).
  apply put_cinfo_Ok in Hp as ->. apply engine_call_Ok in Hrun as ->. cbn [calls].
  rewrite !allreduces_app. cbn [allreduces List.filter is_allreduce].
  rewrite !app_nil_r. reflexivity.
Qed.

Lemma partial_multiply_prod_quiet op trace_right cmat (dq : S) psubsl cinfos
    vdqs vmats (w w' : World) :
  partial_multiply_prod lop rop q_label i_op op trace_right cmat dq psubsl
    cinfos vdqs vmats w = Ok tt w' ->
  allreduces (calls w') = allreduces (calls w).
Proof.
  unfold partial_multiply_prod. destruct (b op) as [bo|].
  2:{ intros Hrun. apply assert_Ok in Hrun as [[=] _]. }
  intros Hrun.
  apply bind_Ok in Hrun as (old & w1 & Hg & Hrun).
  injection Hg as _ <-.
  apply bind_Ok in Hrun as ([] & w2 & Hbody & Hrun).
  apply put_cinfo_Ok in Hrun as ->. cbn [calls].
  rewrite allreduces_app. cbn [allreduces List.filter is_allreduce].
  rewrite app_nil_r.
  destruct trace_right.
  - apply bind_Ok in Hbody as ([] & w3 & Ha & Hbody).
    apply assert_Ok in Ha as [_ ->].
    apply bind_Ok in Hbody as (lmat & w4 & Hl & Hbody).
    apply map_at_Ok in Hl as [_ ->].
    apply bind_Ok in Hbody as (rmat & w5 & Hr & Hbody).
    apply map_at_Ok in Hr as [_ ->].
    revert Hbody.
    apply (for_each_Ok
             (fun w w' : World => allreduces (calls w') = allreduces (calls w)));
      [reflexivity | intros ? ? ? H1 H2; congruence |].
    intros k s s'. apply partial_step_quiet.
  - apply bind_Ok in Hbody as ([] & w3 & Ha & Hbody).
    apply assert_Ok in Ha as [_ ->].
    apply bind_Ok in Hbody as (lmat & w4 & Hl & Hbody).
    apply map_at_Ok in Hl as [_ ->].
    apply bind_Ok in Hbody as (rmat & w5 & Hr & Hbody).
    apply map_at_Ok in Hr as [_ ->].
    revert Hbody.
    apply (for_each_Ok
             (fun w w' : World => allreduces (calls w') = allreduces (calls w)));
      [reflexivity | intros ? ? ? H1 H2; congruence |].
    intros k s s'. apply partial_step_quiet.
Qed.

(** The perturbative-noise path never issues an all-reduce. *)
Lemma partial_multiply_quiet expr trace_right cmat (dq : S) psubsl cinfos
    vdqs vmats :
  forall w w' : World,
    tensor_product_partial_multiply lop rop q_label i_op mode root expr
      trace_right cmat dq psubsl cinfos vdqs vmats w = Ok tt w' ->
    allreduces (calls w') = allreduces (calls w).
Proof.
  induction expr as [|e|op|strings|l expr IH]; intros w w'; cbn.
  - intros [= <-]. reflexivity.
  - discriminate.
  - apply partial_multiply_prod_quiet.
  - apply (for_each_Ok
             (fun w w' : World => allreduces (calls w') = allreduces (calls w)));
      [reflexivity | intros ? ? ? H1 H2; congruence |].
    intros x s s'. apply partial_multiply_prod_quiet.
  - intros Hrun. apply bind_Ok in Hrun as ([] & w1 & Hin & Hrun).
    rewrite <- (IH _ _ Hin).
    destruct (SeqTypes.eqb mode SeqTypes.Auto); cbn in Hrun.
    + injection Hrun as <-. reflexivity.
    + apply engine_call_Ok in Hrun as ->. cbn [calls]. rewrite allreduces_app.
      apply app_nil_r.
Qed.

(** C5, amended.  At an [ExprRef], [tensor_product_partial_multiply] first
    runs on the inner expression; then, unless the batching mode is [Auto],
    it issues one reduce-sum of the output group to the root worker, as its
    last call; in [Auto] mode it issues nothing more.  In no mode does the
    call issue an all-reduce. *)
Theorem partial_multiply_ExprRef l expr trace_right cmat (dq : S) psubsl
    cinfos vdqs vmats (w w' : World) :
  tensor_product_partial_multiply lop rop q_label i_op mode root
    (ExprRef l expr) trace_right cmat dq psubsl cinfos vdqs vmats w
    = Ok tt w' ->
  exists w1,
    tensor_product_partial_multiply lop rop q_label i_op mode root expr
      trace_right cmat dq psubsl cinfos vdqs vmats w = Ok tt w1
    /\ cinfo w' = cinfo w1
    /\ calls w' = calls w1 ++
         (if SeqTypes.eqb mode SeqTypes.Auto then []
          else [comm_reduce_sum_group vmats root])
    /\ allreduces (calls w') = allreduces (calls w).
Proof.
  intros Hrun.
  pose proof (partial_multiply_quiet _ _ _ _ _ _ _ _ _ _ Hrun) as Hquiet.
  cbn in Hrun. apply bind_Ok in Hrun as ([] & w1 & Hin & Hrun).
  exists w1. split; [exact Hin|].
  destruct (SeqTypes.eqb mode SeqTypes.Auto); cbn in Hrun.
  - injection Hrun as <-. rewrite app_nil_r. auto.
  - apply engine_call_Ok in Hrun as ->. auto.
Qed.
End Partial.

Section Transform.
Context {Op D S Mat CInfo : Type} `{Countable Op} `{!Numeric D}.
Variable mode : SeqTypes.t.
Variable abs_value : Op -> Op.
Variable op_factor : Op -> D.
Variable expr_scale : OpExpr Op D -> D -> OpExpr Op D.
Variable owner : Op -> Z.
Variable localize_expr : OpExpr Op D -> Z -> bool * OpExpr Op D.
Variable get_op : OpString Op D -> Op.

Abbreviation World := (@World D S Mat CInfo).
Abbreviation Call := (@Call D S Mat CInfo).
Abbreviation SparseMatrix := (@SparseMatrix Mat).
Abbreviation summands := (summands abs_value op_factor expr_scale owner
                            localize_expr).
Abbreviation contributes := (contributes abs_value op_factor expr_scale owner
                               localize_expr).
Abbreviation pass_calls := (pass_calls (S:=S) (CInfo:=CInfo) abs_value
                              op_factor expr_scale owner localize_expr
                              get_op).
Abbreviation passes_calls := (passes_calls (S:=S) (CInfo:=CInfo) mode
                                abs_value op_factor expr_scale owner
                                localize_expr get_op).
Abbreviation reduce_calls := (reduce_calls (S:=S) (CInfo:=CInfo) abs_value
                                owner localize_expr).

Variable aops : list (Op * SparseMatrix).

(** The expression the accumulation reads is what the definition stands
    for on this worker, and the flag the closing loop reads tells whether
    that is all of it. *)
Lemma local_expr_localized nm e :
  local_expr abs_value op_factor expr_scale owner localize_expr nm e
  = localized abs_value op_factor expr_scale owner localize_expr (nm, e).
Proof.
  unfold local_expr, localized. cbn [fst snd].
  destruct (expr_scale e _); reflexivity.
Qed.

Lemma summands_local_expr nm e :
  summands (nm, e)
  = if is_Zero e then []
    else match local_expr abs_value op_factor expr_scale owner localize_expr
                 nm e with
         | Sum strings => strings
         | _ => []
         end.
Proof.
  rewrite local_expr_localized. unfold ParallelTensorFunctions.summands.
  cbn [fst snd].
  destruct e; cbn [is_Zero]; try reflexivity;
    destruct (localized _ _ _ _ _ _); reflexivity.
Qed.

Lemma nonzero_match {X} (e : OpExpr Op D) (x y : X) :
  is_Zero e = false -> match e with Zero => x | _ => y end = y.
Proof. destruct e; [discriminate|reflexivity..]. Qed.

Lemma is_local_def_complete nm e :
  is_local_def abs_value owner localize_expr nm e
  = complete_on_owner abs_value owner localize_expr (nm, e).
Proof. destruct e; reflexivity. Qed.

Lemma pass_Ok (i : Z) (Hi : 0 <= i) defs :
  forall found (w w' : World) r,
    pass abs_value op_factor expr_scale owner localize_expr get_op aops i
      defs found w = Ok r w' ->
    r = found || contributes defs i
    /\ cinfo w' = cinfo w
    /\ calls w' = calls w ++ pass_calls aops defs i.
Proof.
  induction defs as [|[nm e] defs IH]; intros found w w' r; cbn [pass].
  - intros [= <- <-]. cbn. rewrite orb_false_r, app_nil_r. auto.
  - unfold ParallelTensorFunctions.contributes,
      ParallelTensorFunctions.pass_calls.
    cbn [existsb flat_map].
    fold (contributes defs i). fold (pass_calls aops defs i).
    rewrite (summands_local_expr nm e). cbn [fst snd].
    destruct (is_Zero e) eqn:Ez.
    { intros Hrun. apply IH in Hrun as (-> & -> & ->).
      rewrite lookup_nil. cbn [length app].
      replace (i <? Z.of_nat 0) with false by (symmetry; apply Z.ltb_ge; lia).
      auto. }
    destruct (local_expr abs_value op_factor expr_scale owner localize_expr
                nm e) as [|?|?|strings|? ?] eqn:El.
    + intros Hrun. apply IH in Hrun as (-> & -> & ->).
      rewrite lookup_nil. cbn [length app].
      replace (i <? Z.of_nat 0) with false by (symmetry; apply Z.ltb_ge; lia).
      auto.
    + intros Hrun. apply bind_Ok in Hrun as ([] & ? & Ha & _).
      apply assert_Ok in Ha as [[=] _].
    + intros Hrun. apply bind_Ok in Hrun as ([] & ? & Ha & _).
      apply assert_Ok in Ha as [[=] _].
    + intros Hrun. apply bind_Ok in Hrun as ([] & w1 & Hadd & Hrun).
      apply IH in Hrun as (-> & -> & ->).
      destruct (i <? Z.of_nat (length strings)) eqn:Elt.
      * apply bind_Ok in Hadd as (x & w2 & Hx & Hadd).
        apply deref_Ok in Hx as [Hx ->].
        apply bind_Ok in Hadd as ([] & w3 & Ha & Hadd).
        apply assert_Ok in Ha as [_ ->].
        apply bind_Ok in Hadd as (dst & w4 & Hd & Hadd).
        apply map_at_Ok in Hd as [Hd ->].
        apply bind_Ok in Hadd as (src & w5 & Hs & Hadd).
        apply map_at_Ok in Hs as [Hs ->].
        apply engine_call_Ok in Hadd as ->. cbn [calls cinfo].
        rewrite Hx, Hd, Hs, <- app_assoc, orb_assoc. auto.
      * injection Hadd as <-.
        assert (strings !! Z.to_nat i = None) as ->
          by (apply lookup_ge_None; lia).
        rewrite orb_assoc. auto.
    + intros Hrun. apply bind_Ok in Hrun as ([] & ? & Ha & _).
      apply assert_Ok in Ha as [[=] _].
Qed.

Lemma passes_Ok defs n :
  forall (i : Z) (w w' : World) p,
    0 <= i ->
    passes mode abs_value op_factor expr_scale owner localize_expr get_op
      aops defs n i w = Ok p w' ->
    i <= p <= i + Z.of_nat n
    /\ (forall j, i <= j < p - 1 -> contributes defs j = true)
    /\ (p < i + Z.of_nat n -> contributes defs (p - 1) = false)
    /\ cinfo w' = cinfo w
    /\ calls w' = calls w ++
         passes_calls aops defs (zseq i (Z.to_nat (p - i))).
Proof.
  induction n as [|n IH]; intros i w w' p Hi; cbn [passes].
  - intros [= <- <-]. replace (i - i) with 0 by lia. cbn.
    rewrite app_nil_r. repeat split; auto; lia.
  - intros Hrun. apply bind_Ok in Hrun as (found & w1 & Hpass & Hrun).
    apply pass_Ok in Hpass as (-> & Hc1 & Hl1); [|exact Hi].
    cbn [orb] in Hrun.
    destruct (contributes defs i) eqn:Ec; cbn [negb] in Hrun.
    + apply bind_Ok in Hrun as ([] & w2 & Hsimple & Hrun).
      apply IH in Hrun as (Hp & Hbefore & Hstop & Hc2 & Hl2); [|lia].
      assert (calls w2 = calls w1 ++
                (if SeqTypes.eqb mode SeqTypes.Simple
                 then [seq_simple_perform] else [])
              /\ cinfo w2 = cinfo w1) as [Hl Hc].
      { destruct (SeqTypes.eqb mode SeqTypes.Simple); cbn in Hsimple.
        - apply engine_call_Ok in Hsimple as ->. auto.
        - injection Hsimple as <-. rewrite app_nil_r. auto. }
      split; [lia|]. split.
      { intros j Hj. destruct (Z.eq_dec j i) as [->|]; [exact Ec|].
        apply Hbefore. lia. }
      split.
      { intros Hlt. apply Hstop. lia. }
      split; [congruence|].
      replace (Z.to_nat (p - i))
        with (Datatypes.S (Z.to_nat (p - (i + 1)))) by lia.
      cbn [zseq]. unfold ParallelTensorFunctions.passes_calls at 1.
      cbn [flat_map].
      fold (passes_calls aops defs (zseq (i + 1) (Z.to_nat (p - (i + 1))))).
      rewrite Ec. cbn [andb].
      rewrite Hl2, Hl, Hl1, <- !app_assoc. reflexivity.
    + injection Hrun as <- <-.
      replace (i + 1 - i) with 1 by lia.
      change (Z.to_nat 1) with 1%nat. cbn [zseq].
      unfold ParallelTensorFunctions.passes_calls. cbn [flat_map].
      rewrite Ec. cbn [andb]. rewrite !app_nil_r.
      split; [lia|]. split; [intros j Hj; lia|].
      split; [intros _; replace (i + 1 - 1) with i by lia; exact Ec|].
      auto.
Qed.

Lemma allocate_loop_Ok (l : list (Op * SparseMatrix)) :
  forall w w' : World,
    for_each l (fun '(_, m) =>
      when (negb (has_data m)) (call (allocate (mat m)))) w = Ok tt w' ->
    cinfo w' = cinfo w /\ calls w' = calls w ++ allocate_calls l.
Proof.
  induction l as [|[k m] l IH]; intros w w'; cbn [for_each].
  - intros [= <-]. cbn. rewrite app_nil_r. auto.
  - intros Hrun. apply bind_Ok in Hrun as ([] & w1 & Hm & Hrun).
    apply IH in Hrun as [-> ->].
    unfold allocate_calls. cbn [flat_map snd].
    destruct (has_data m); cbn in Hm.
    + injection Hm as <-. auto.
    + apply engine_call_Ok in Hm as ->. cbn [calls cinfo].
      rewrite <- app_assoc. auto.
Qed.

Lemma reduce_to_owners_Ok defs :
  forall w w' : World,
    reduce_to_owners abs_value owner localize_expr aops defs w = Ok tt w' ->
    cinfo w' = cinfo w /\ calls w' = calls w ++ reduce_calls aops defs.
Proof.
  unfold reduce_to_owners.
  induction defs as [|[nm e] defs IH]; intros w w'; cbn [for_each].
  - intros [= <-]. cbn. rewrite app_nil_r. auto.
  - intros Hrun. apply bind_Ok in Hrun as ([] & w1 & Hd & Hrun).
    apply IH in Hrun as [-> ->].
    unfold ParallelTensorFunctions.reduce_calls. cbn [flat_map fst snd].
    fold (reduce_calls aops defs).
    rewrite is_local_def_complete in Hd.
    destruct (is_Zero e) eqn:Ez.
    { destruct e; try discriminate Ez. injection Hd as <-. auto. }
    rewrite (nonzero_match e _ _ Ez).
    destruct (complete_on_owner abs_value owner localize_expr (nm, e));
      cbn in Hd.
    + injection Hd as <-. auto.
    + apply bind_Ok in Hd as (m & w2 & Hm & Hd).
      apply map_at_Ok in Hm as [Hm ->].
      apply engine_call_Ok in Hd as ->. cbn [calls cinfo].
      rewrite Hm, <- app_assoc. auto.
Qed.
End Transform.

Section TransformClaim.
Context {Op D S Mat CInfo : Type} `{Countable Op} `{!Numeric D}.
Variable mode : SeqTypes.t.
Variable abs_value : Op -> Op.
Variable op_factor : Op -> D.
Variable expr_scale : OpExpr Op D -> D -> OpExpr Op D.
Variable owner : Op -> Z.
Variable localize_expr : OpExpr Op D -> Z -> bool * OpExpr Op D.
Variable get_op : OpString Op D -> Op.

Abbreviation World := (@World D S Mat CInfo).
Abbreviation contributes := (contributes abs_value op_factor expr_scale owner
                               localize_expr).
Abbreviation passes_calls := (passes_calls (S:=S) (CInfo:=CInfo) mode
                                abs_value op_factor expr_scale owner
                                localize_expr get_op).
Abbreviation reduce_calls := (reduce_calls (S:=S) (CInfo:=CInfo) abs_value
                                owner localize_expr).

(** C4.  [numerical_transform] is a total function: its accumulation loop
    is a recursion on the passes left, one per entry of [a->ops] at most.
    Whenever it returns, the number [p] of passes it entered is at most the
    number of entries; every pass before the last one entered had a
    definition with a summand of that index; if the loop stopped before
    the entries ran out, no definition had a summand of the index of the
    last pass; pass [i] added, in place, the [i]-th local summand of every
    non-zero definition that has one; and after the loop every non-zero
    definition that is not local was reduce-summed to the owner of its
    target.  The local summands of a definition are those of the sum that
    its expression, divided by the factor of its name, is localized to for
    the owner of the name, or wraps when it is an [ExprRef] already; a
    definition is local by the flag of its [ExprRef], or else by the flag
    the ownership rule gives its expression. *)
Theorem numerical_transform_passes a names exprs (w w' : World) a' p :
  numerical_transform mode abs_value op_factor expr_scale owner
    localize_expr get_op a names exprs w = Ok (a', p) w' ->
  let defs := combine names exprs in
  0 <= p <= Z.of_nat (length (ops a))
  /\ (forall i, 0 <= i < p - 1 -> contributes defs i = true)
  /\ (p < Z.of_nat (length (ops a)) -> contributes defs (p - 1) = false)
  /\ calls w' =
       calls w ++ allocate_calls (ops a)
         ++ passes_calls (ops a') defs (zrange p)
         ++ (if SeqTypes.eqb mode SeqTypes.Auto then [seq_auto_perform]
             else [])
         ++ reduce_calls (ops a') defs.
Proof.
  intros Hrun defs. unfold numerical_transform in Hrun. fold defs in Hrun.
  apply bind_Ok in Hrun as ([] & w1 & Halloc & Hrun).
  apply allocate_loop_Ok in Halloc as [Hc1 Hl1].
  apply bind_Ok in Hrun as ([] & w2 & Ha & Hrun).
  apply assert_Ok in Ha as [_ ->].
  apply bind_Ok in Hrun as ([] & w2 & Ha & Hrun).
  apply assert_Ok in Ha as [_ ->].
  apply bind_Ok in Hrun as (n & w3 & Hpasses & Hrun).
  apply passes_Ok in Hpasses as (Hp & Hbefore & Hstop & Hc3 & Hl3); [|lia].
  apply bind_Ok in Hrun as ([] & w4 & Hauto & Hrun).
  apply bind_Ok in Hrun as ([] & w5 & Hred & Hrun).
  apply reduce_to_owners_Ok in Hred as [Hc5 Hl5].
  injection Hrun as <- <- <-.
  assert (calls w4 = calls w3 ++
            (if SeqTypes.eqb mode SeqTypes.Auto then [seq_auto_perform]
             else [])) as Hl4.
  { destruct (SeqTypes.eqb mode SeqTypes.Auto); cbn in Hauto.
    - apply engine_call_Ok in Hauto as ->. reflexivity.
    - injection Hauto as <-. rewrite app_nil_r. reflexivity. }
  rewrite length_map in Hp, Hstop. rewrite Z.sub_0_r in Hl3.
  assert (forall x y : @OperatorTensor Op Mat,
             ops x = ops y ->
             ops (if bool_decide (lmat a = None) then x else y) = ops y)
    as -> by (intros x y Hxy; destruct (bool_decide _); auto).
  2: reflexivity. cbn [ops].
  split; [lia|]. split; [exact Hbefore|]. split; [exact Hstop|].
  rewrite Hl5, Hl4, Hl3, Hl1, <- !app_assoc. reflexivity.
Qed.
End TransformClaim.
End EngineFacts.

(** ** More of the contraction engine *)

Module EngineCoverage.
Import ParallelTensorFunctions EngineFacts.

Section MultiplyLog.
Context {Op D S Mat CInfo : Type} `{Countable Op}.
Variable lop rop : gmap Op Mat.

Abbreviation World := (@World D S Mat CInfo).
Abbreviation Call := (@Call D S Mat CInfo).

(** X13.  What [tensor_product_multiply] does, for every expression: if
    every product of the expression has its second factor and a matrix
    for each factor in [lop] and [rop], and no bare operator stands where
    a product is expected, the call returns, having issued the block
    multiplications of the products from left to right and then, exactly
    when [all_reduce] was passed with an [ExprRef], one all-reduce of the
    output; the connection info is untouched.  Otherwise the call stops on
    a failed assertion: it never throws [out_of_range] from the lookups,
    which come after the assertion of membership.  In particular a sum or
    a product passed with [all_reduce] is not all-reduced. *)
Theorem tensor_product_multiply_run expr cmat vmat (opdq : S) all_reduce
    (w : World) :
  tensor_product_multiply lop rop expr cmat vmat opdq all_reduce w
  = if all_ready lop rop expr
    then Ok tt {| cinfo := cinfo w;
                  calls := calls w ++
                    product_calls lop rop expr cmat vmat opdq ++
                    (if all_reduce && is_ExprRef expr
                     then [comm_allreduce_sum vmat] else []) |}
    else AssertFail.
Proof.
  revert all_reduce w.
  induction expr as [|e|op|strings|l expr IH]; intros all_reduce w;
    cbn [tensor_product_multiply all_ready product_calls is_ExprRef].
  - rewrite andb_false_r, !app_nil_r. destruct w; reflexivity.
  - reflexivity.
  - rewrite multiply_prod_run, andb_false_r, app_nil_r. reflexivity.
  - rewrite multiply_prods_run, andb_false_r, app_nil_r. reflexivity.
  - unfold bind. rewrite IH.
    destruct (all_ready lop rop expr); [|reflexivity].
    rewrite andb_false_l, app_nil_r, andb_true_r.
    destruct all_reduce; cbn [when]; [|rewrite app_nil_r; reflexivity].
    unfold call. cbn [cinfo calls]. rewrite <- app_assoc. reflexivity.
Qed.
End MultiplyLog.

Section TransformTensor.
Context {Op D S Mat CInfo : Type} `{Countable Op} `{!Numeric D}.
Variable mode : SeqTypes.t.
Variable abs_value : Op -> Op.
Variable op_factor : Op -> D.
Variable expr_scale : OpExpr Op D -> D -> OpExpr Op D.
Variable owner : Op -> Z.
Variable localize_expr : OpExpr Op D -> Z -> bool * OpExpr Op D.
Variable get_op : OpString Op D -> Op.

Abbreviation World := (@World D S Mat CInfo).

(** X19.  A [numerical_transform] that returns was given as many names as
    expressions and a tensor with exactly one of its two symbolic vectors
    set.  It leaves exactly that one set, holding the names, and the other
    null; the tensor has the same operators with the same matrices, in
    the same order, and every one of them has data; the connection info
    is untouched. *)
Theorem numerical_transform_tensor a names exprs (w w' : World) a' p :
  numerical_transform mode abs_value op_factor expr_scale owner
    localize_expr get_op a names exprs w = Ok (a', p) w' ->
  length names = length exprs
  /\ ((lmat a = None /\ rmat a <> None
       /\ lmat a' = None /\ rmat a' = Some names)
      \/ (rmat a = None /\ lmat a <> None
          /\ rmat a' = None /\ lmat a' = Some names))
  /\ map fst (ops a') = map fst (ops a)
  /\ map (fun e => mat e.2) (ops a') = map (fun e => mat e.2) (ops a)
  /\ Forall (fun e => has_data e.2 = true) (ops a')
  /\ cinfo w' = cinfo w.
Proof.
  intros Hrun. unfold numerical_transform in Hrun.
  apply bind_Ok in Hrun as ([] & w1 & Halloc & Hrun).
  apply allocate_loop_Ok in Halloc as [Hc1 _].
  apply bind_Ok in Hrun as ([] & w2 & Hlen & Hrun).
  apply assert_Ok in Hlen as [Hlen ->].
  apply bool_decide_eq_true in Hlen.
  apply bind_Ok in Hrun as ([] & w2 & Hxor & Hrun).
  apply assert_Ok in Hxor as [Hxor ->].
  apply bind_Ok in Hrun as (n & w3 & Hpasses & Hrun).
  apply passes_Ok in Hpasses as (_ & _ & _ & Hc3 & _); [|lia].
  apply bind_Ok in Hrun as ([] & w4 & Hauto & Hrun).
  apply bind_Ok in Hrun as ([] & w5 & Hred & Hrun).
  apply reduce_to_owners_Ok in Hred as [Hc5 _].
  injection Hrun as <- <- <-.
  assert (cinfo w4 = cinfo w3) as Hc4.
  { destruct (SeqTypes.eqb mode SeqTypes.Auto); cbn in Hauto.
    - apply engine_call_Ok in Hauto as ->. reflexivity.
    - injection Hauto as <-. reflexivity. }
  split; [exact Hlen|].
  split.
  { destruct (lmat a) as [l|] eqn:El, (rmat a) as [r|] eqn:Er;
      try discriminate Hxor.
    - right. rewrite bool_decide_eq_false_2 by discriminate.
      cbn [lmat rmat]. repeat split; congruence.
    - left. rewrite bool_decide_eq_true_2 by reflexivity.
      cbn [lmat rmat]. repeat split; congruence. }
  assert (ops (if bool_decide (lmat a = None)
               then mkOperatorTensor (lmat a) (Some names)
                      (map (fun '(k, m) => (k, mkSparseMatrix (mat m) true))
                         (ops a))
               else mkOperatorTensor (Some names) (rmat a)
                      (map (fun '(k, m) => (k, mkSparseMatrix (mat m) true))
                         (ops a)))
          = map (fun '(k, m) => (k, mkSparseMatrix (mat m) true)) (ops a))
    as -> by (destruct (bool_decide _); reflexivity).
  split.
  { rewrite map_map. apply map_ext. intros [k m]. reflexivity. }
  split.
  { rewrite map_map. apply map_ext. intros [k m]. reflexivity. }
  split; [|congruence].
  apply Forall_forall. intros e He.
  apply list_elem_of_In, in_map_iff in He as ([k m] & <- & _). reflexivity.
Qed.
End TransformTensor.

Section Completes.
Context {St : Type}.

Lemma completes_ret {A} (R : St -> St -> Prop) (a : A) :
  (forall s, R s s) -> completes R (ret a).
Proof. intros Hrefl s. apply Hrefl. Qed.

Lemma completes_bind {A B} (R1 R2 R3 : St -> St -> Prop) (m : M St A)
    (k : A -> M St B) :
  (forall s1 s2 s3, R1 s1 s2 -> R2 s2 s3 -> R3 s1 s3) ->
  completes R1 m -> (forall a, completes R2 (k a)) ->
  completes R3 (bind m k).
Proof.
  intros Hcomp Hm Hk s. unfold bind. specialize (Hm s).
  destruct (m s) as [a s1|e s1| |]; try exact Hm.
  specialize (Hk a s1). destruct (k a s1) as [b s2|e s2| |]; try exact Hk.
  eapply Hcomp; eassumption.
Qed.

Lemma completes_deref {A} (R : St -> St -> Prop) (o : option A) :
  (forall s, R s s) -> completes R (deref o).
Proof. intros Hrefl s. destruct o; [apply Hrefl|exact I]. Qed.

Lemma completes_for_each {A} (R : St -> St -> Prop) (xs : list A)
    (body : A -> M St unit) :
  (forall s, R s s) ->
  (forall s1 s2 s3, R s1 s2 -> R s2 s3 -> R s1 s3) ->
  (forall x, completes R (body x)) ->
  completes R (for_each xs body).
Proof.
  intros Hrefl Htrans Hbody. induction xs as [|x xs IH]; cbn [for_each].
  - apply completes_ret, Hrefl.
  - eapply completes_bind; [exact Htrans|apply Hbody|intros _; exact IH].
Qed.

End Completes.

Section PartialLog.
Context {Op D S Mat CInfo : Type} `{Countable Op} `{!@QLabel S}.
Variable lop rop : gmap Op Mat.
Variable q_label : Op -> S.
Variable i_op : Op.
Variable mode : SeqTypes.t.
Variable root : Z.

Abbreviation World := (@World D S Mat CInfo).
Abbreviation Call := (@Call D S Mat CInfo).

(** The reduce-sums of a group are as before. *)
Abbreviation same_reduces :=
  (fun w w' : World =>
     List.filter is_reduce_group (calls w')
     = List.filter is_reduce_group (calls w)).

Lemma same_reduces_refl (w : World) : same_reduces w w.
Proof. reflexivity. Qed.

Lemma same_reduces_trans (w1 w2 w3 : World) :
  same_reduces w1 w2 -> same_reduces w2 w3 -> same_reduces w1 w3.
Proof. cbv beta. congruence. Qed.

(** The body of the loop over the fused labels. *)
Lemma partial_step_completes (vmats : list Mat) (cinfos : list (list CInfo))
    (iv ij k c : Z) lmat rmat cmat (opdq : S) (f : D) :
  completes same_reduces
    (do vmat <- deref (vmats !! Z.to_nat iv);
     do ci <- deref (cinfos !! Z.to_nat ij ≫= (.!! Z.to_nat k));
     put_cinfo cmat ci >>
     call (opf_tensor_product_multiply c lmat rmat cmat vmat opdq f)).
Proof.
  eapply completes_bind;
    [apply same_reduces_trans
    |apply completes_deref, same_reduces_refl|intros vmat].
  eapply completes_bind;
    [apply same_reduces_trans
    |apply completes_deref, same_reduces_refl|intros ci].
  intros w. cbn. rewrite !List.filter_app. cbn. rewrite !app_nil_r.
  reflexivity.
Qed.

(** Lookups that follow the assertion of membership do not throw. *)
Lemma guarded_lookups_complete {A} (R : World -> World -> Prop)
    (k k' : Op) (body : Mat -> Mat -> M World A) :
  (forall x y, completes R (body x y)) ->
  completes R
    (assert (mem lop k && mem rop k') >>
     do x <- map_at (lop !! k);
     do y <- map_at (rop !! k');
     body x y).
Proof.
  intros Hbody w. unfold bind, assert, mem.
  destruct (lop !! k) as [x|];
    [|rewrite (bool_decide_eq_false_2 (is_Some None))
        by (intros [? [=]]); exact I].
  destruct (rop !! k') as [y|];
    [|rewrite (bool_decide_eq_false_2 (is_Some None))
        by (intros [? [=]]); rewrite andb_false_r; exact I].
  rewrite !bool_decide_eq_true_2 by eauto. cbn. apply Hbody.
Qed.

(** Saving the connection info, running a body and putting the saved one
    back. *)
Lemma restore_completes (body : M World unit) (cmat : Mat) :
  completes same_reduces body ->
  completes (fun w w' : World => cinfo w' = cinfo w /\ same_reduces w w')
    (do old_cinfo <- get_cinfo; body >> put_cinfo cmat old_cinfo).
Proof.
  intros Hbody w. unfold bind, get_cinfo. specialize (Hbody w).
  destruct (body w) as [u w1|e w1| |]; try exact Hbody.
  cbn [put_cinfo cinfo calls]. split; [reflexivity|].
  rewrite List.filter_app. cbn. rewrite app_nil_r. exact Hbody.
Qed.

(** A product: the calls in between may install other connection infos;
    the one found at the start is put back at the end. *)
Lemma partial_multiply_prod_completes op trace_right cmat (dq : S) psubsl
    cinfos vdqs vmats :
  completes (fun w w' : World => cinfo w' = cinfo w /\ same_reduces w w')
    (partial_multiply_prod lop rop q_label i_op op trace_right cmat dq
       psubsl cinfos vdqs vmats).
Proof.
  unfold partial_multiply_prod. destruct (b op) as [bo|];
    [|intros w; exact I].
  apply restore_completes.
  destruct trace_right.
  - apply guarded_lookups_complete. intros lmat rmat.
    apply completes_for_each;
      [apply same_reduces_refl|apply same_reduces_trans|].
    intros k. apply partial_step_completes.
  - apply guarded_lookups_complete. intros lmat rmat.
    apply completes_for_each;
      [apply same_reduces_refl|apply same_reduces_trans|].
    intros k. apply partial_step_completes.
Qed.

(** X14.  [tensor_product_partial_multiply] never throws: its lookups in
    [lop] and [rop] come after the assertions of membership.  Whenever it
    returns, the connection info of [cmat], overwritten for each block
    multiplication, is the one that was installed before the call; and
    the call has issued one reduce-sum of the output group to the root for
    each [ExprRef] the expression is wrapped in, none in [Auto] mode. *)
Theorem partial_multiply_restores_cinfo expr trace_right cmat (dq : S)
    psubsl cinfos vdqs vmats (w : World) :
  match tensor_product_partial_multiply lop rop q_label i_op mode root expr
          trace_right cmat dq psubsl cinfos vdqs vmats w with
  | Ok _ w' =>
      cinfo w' = cinfo w
      /\ List.filter is_reduce_group (calls w')
         = List.filter is_reduce_group (calls w) ++
             replicate (if SeqTypes.eqb mode SeqTypes.Auto then 0%nat
                        else ref_depth expr)
               (comm_reduce_sum_group vmats root)
  | Thrown _ _ => False
  | AssertFail | Undefined => True
  end.
Proof.
  revert w.
  induction expr as [|e|op|strings|l expr IH]; intros w;
    cbn [tensor_product_partial_multiply ref_depth].
  - cbn. destruct (SeqTypes.eqb mode SeqTypes.Auto); cbn;
      rewrite app_nil_r; auto.
  - exact I.
  - pose proof (partial_multiply_prod_completes op trace_right cmat dq
                  psubsl cinfos vdqs vmats w) as Hprod.
    destruct (partial_multiply_prod _ _ _ _ _ _ _ _ _ _ _ _ w)
      as [[] w1|e w1| |]; try exact Hprod.
    destruct Hprod as [Hc Hr]. split; [exact Hc|].
    rewrite Hr. destruct (SeqTypes.eqb mode SeqTypes.Auto); cbn;
      rewrite app_nil_r; reflexivity.
  - assert (completes
              (fun w w' : World => cinfo w' = cinfo w /\ same_reduces w w')
              (for_each strings (fun x =>
                 partial_multiply_prod lop rop q_label i_op x trace_right
                   cmat dq psubsl cinfos vdqs vmats))) as Hsum.
    { apply completes_for_each.
      - intros s. split; reflexivity.
      - intros s1 s2 s3 [Hc1 Hr1] [Hc2 Hr2]. split; congruence.
      - intros x. apply partial_multiply_prod_completes. }
    specialize (Hsum w).
    destruct (for_each strings _ w) as [[] w1|e w1| |]; try exact Hsum.
    destruct Hsum as [Hc Hr]. split; [exact Hc|].
    rewrite Hr. destruct (SeqTypes.eqb mode SeqTypes.Auto); cbn;
      rewrite app_nil_r; reflexivity.
  - unfold bind. specialize (IH w).
    destruct (tensor_product_partial_multiply _ _ _ _ _ _ expr _ _ _ _ _ _ _
                w) as [[] w1|e w1| |]; try exact IH.
    destruct IH as [Hc Hr].
    destruct (SeqTypes.eqb mode SeqTypes.Auto); cbn [negb when ret].
    + split; [exact Hc|exact Hr].
    + cbn [call cinfo calls]. split; [exact Hc|].
      rewrite List.filter_app, Hr. cbn [List.filter is_reduce_group].
      rewrite <- app_assoc. f_equal.
      change (Datatypes.S (ref_depth expr)) with (1 + ref_depth expr)%nat.
      rewrite Nat.add_comm, replicate_add. reflexivity.
Qed.
End PartialLog.

Section DiagonalLog.
Import ParallelTensorOps.
Context {Op D S Mat CInfo : Type} `{Countable Op}.
Variable lop rop : gmap Op Mat.
Variable mode : SeqTypes.t.

Abbreviation Machine := (@Machine D S Mat CInfo).
Abbreviation Event := (@Event D S Mat CInfo).

Lemma diagonal_prod_run op dmat (opdq : S) (s : Machine) :
  diagonal_prod lop rop op dmat opdq s
  = if prod_ready lop rop op
    then Ok tt {| installed := installed s;
                  events := events s ++
                    diagonal_call lop rop dmat opdq op |}
    else AssertFail.
Proof.
  unfold diagonal_prod, prod_ready, diagonal_call, mem.
  destruct (b op) as [bo|]; [|reflexivity]. cbn [mbind option_bind].
  destruct (lop !! a op) as [lmat|] eqn:El, (rop !! bo) as [rmat|] eqn:Er.
  - rewrite !bool_decide_eq_true_2 by eauto. reflexivity.
  - rewrite (bool_decide_eq_false_2 (is_Some None))
      by (intros [? [=]]).
    rewrite bool_decide_eq_true_2 by eauto. reflexivity.
  - rewrite (bool_decide_eq_false_2 (is_Some None))
      by (intros [? [=]]).
    reflexivity.
  - rewrite (bool_decide_eq_false_2 (is_Some None))
      by (intros [? [=]]).
    reflexivity.
Qed.

Lemma diagonal_prods_run strings dmat (opdq : S) :
  forall s : Machine,
    for_each strings (fun x => diagonal_prod lop rop x dmat opdq) s
    = if forallb (prod_ready lop rop) strings
      then Ok tt {| installed := installed s;
                    events := events s ++
                      flat_map (diagonal_call lop rop dmat opdq) strings |}
      else AssertFail.
Proof.
  induction strings as [|x strings IH]; intros s;
    cbn [for_each forallb flat_map].
  - rewrite app_nil_r. destruct s; reflexivity.
  - unfold bind at 1. rewrite diagonal_prod_run.
    destruct (prod_ready lop rop x); [|reflexivity]. cbn [andb].
    rewrite IH. cbn [installed events]. rewrite <- app_assoc. reflexivity.
Qed.

(** X15.  What [tensor_product_diagonal] does, for every expression: it
    returns exactly when every product of the expression has its second
    factor and a matrix for each factor, and no bare operator stands where
    a product is expected; otherwise it stops on a failed assertion, and
    it never throws.  When it returns it has issued the diagonals of the
    products from left to right and, unless the batching mode is [Auto],
    one all-reduce of the output for every [ExprRef] the expression is
    wrapped in, after the diagonals of that [ExprRef]; it has issued
    nothing else. *)
Theorem tensor_product_diagonal_run expr dmat (opdq : S) (s : Machine) :
  match tensor_product_diagonal lop rop mode expr dmat opdq s with
  | Ok _ s' =>
      all_ready lop rop expr = true
      /\ installed s' = installed s
      /\ events s'
         = events s ++ diagonal_calls lop rop expr dmat opdq ++
             replicate (if SeqTypes.eqb mode SeqTypes.Auto then 0%nat
                        else ref_depth expr)
               (engine (comm_allreduce_sum dmat))
  | AssertFail => all_ready lop rop expr = false
  | Thrown _ _ | Undefined => False
  end.
Proof.
  revert s.
  induction expr as [|e|op|strings|l expr IH]; intros s;
    cbn [tensor_product_diagonal all_ready diagonal_calls ref_depth].
  - cbn. destruct (SeqTypes.eqb mode SeqTypes.Auto); cbn;
      rewrite app_nil_r; auto.
  - reflexivity.
  - rewrite diagonal_prod_run.
    destruct (prod_ready lop rop op); [|reflexivity].
    cbn [installed events].
    destruct (SeqTypes.eqb mode SeqTypes.Auto); cbn [replicate];
      rewrite app_nil_r; auto.
  - rewrite diagonal_prods_run.
    destruct (forallb (prod_ready lop rop) strings); [|reflexivity].
    cbn [installed events].
    destruct (SeqTypes.eqb mode SeqTypes.Auto); cbn [replicate];
      rewrite app_nil_r; auto.
  - unfold bind. specialize (IH s).
    destruct (tensor_product_diagonal lop rop mode expr dmat opdq s)
      as [u s1|e s1| |]; try exact IH.
    destruct IH as (Hready & Hinst & Hev).
    destruct (SeqTypes.eqb mode SeqTypes.Auto); cbn [negb when ret].
    + auto.
    + cbn [emit installed events]. split; [exact Hready|].
      split; [exact Hinst|]. rewrite Hev, <- !app_assoc. do 2 f_equal.
      change (Datatypes.S (ref_depth expr)) with (1 + ref_depth expr)%nat.
      rewrite Nat.add_comm, replicate_add. reflexivity.
Qed.
End DiagonalLog.

Section MultiLog.
Import ParallelTensorOps.
Context {Op D S Mat CInfo : Type} `{Countable Op}.
Variable lop rop : gmap Op Mat.

Abbreviation Machine := (@Machine D S Mat CInfo).
Abbreviation Event := (@Event D S Mat CInfo).

(** The products of an expression on each pair of matrices of the two
    groups, in order. *)
Abbreviation group_calls expr opdq cmats vmats :=
  (flat_map (fun cv : Mat * Mat =>
               map engine (product_calls lop rop expr cv.1 cv.2 opdq))
     (zip cmats vmats)).

(** The engine's product, run from here on an expression that is not an
    [ExprRef]. *)
Lemma lift_multiply_run expr cmat vmat (opdq : S) (s : Machine) :
  is_ExprRef expr = false ->
  lift (tensor_product_multiply lop rop expr cmat vmat opdq false) s
  = if all_ready lop rop expr
    then Ok tt {| installed := installed s;
                  events := events s ++
                    map engine (product_calls lop rop expr cmat vmat opdq) |}
    else AssertFail.
Proof.
  intros Hexpr. unfold lift.
  destruct expr as [|e|op|strings|l expr]; try discriminate Hexpr;
    cbn [tensor_product_multiply all_ready product_calls].
  - cbn. rewrite app_nil_r. reflexivity.
  - reflexivity.
  - rewrite multiply_prod_run. destruct (prod_ready lop rop op); reflexivity.
  - rewrite multiply_prods_run.
    destruct (forallb (prod_ready lop rop) strings); reflexivity.
Qed.

(** The loop over the matrices of the groups, from the matrix [k] on. *)
Lemma multi_loop_run expr (opdq : S) cmats vmats :
  is_ExprRef expr = false ->
  forall (n k : nat) (s : Machine),
    (k + n)%nat = length cmats ->
    match
      for_each (zseq (Z.of_nat k) n) (fun i =>
        do cmat <- deref (cmats !! Z.to_nat i);
        do vmat <- deref (vmats !! Z.to_nat i);
        lift (tensor_product_multiply lop rop expr cmat vmat opdq false)) s
    with
    | Ok _ s' =>
        installed s' = installed s
        /\ events s'
           = events s ++
               group_calls expr opdq (drop k cmats) (drop k vmats)
        /\ (n <> 0%nat ->
            (length cmats <= length vmats)%nat
            /\ all_ready lop rop expr = true)
    | Thrown _ _ => False
    | AssertFail | Undefined => True
    end.
Proof.
  intros Hexpr. induction n as [|n IH]; intros k s Hk; cbn [zseq for_each].
  - cbn [ret]. split; [reflexivity|].
    rewrite drop_ge by lia. cbn. rewrite app_nil_r.
    split; [reflexivity|congruence].
  - unfold bind at 1. unfold bind at 1. rewrite Nat2Z.id.
    destruct (cmats !! k) as [cmat|] eqn:Ec.
    2:{ apply lookup_ge_None in Ec. lia. }
    cbn [deref ret]. unfold bind at 1.
    destruct (vmats !! k) as [vmat|] eqn:Ev; [|exact I].
    cbn [deref ret]. rewrite lift_multiply_run by exact Hexpr.
    destruct (all_ready lop rop expr) eqn:Eready; [|exact I].
    replace (Z.of_nat k + 1) with (Z.of_nat (Datatypes.S k)) by lia.
    match goal with
    | |- match for_each _ _ ?s1 with _ => _ end =>
        specialize (IH (Datatypes.S k) s1 ltac:(lia)); revert IH;
          destruct (for_each _ _ s1) as [u s2|e s2| |]; intros IH;
          try exact IH
    end.
    destruct IH as (Hinst & Hev & Hlen). cbn [installed events] in Hinst, Hev.
    split; [exact Hinst|]. split.
    + rewrite Hev, <- app_assoc.
      rewrite (drop_S cmats cmat k Ec), (drop_S vmats vmat k Ev).
      reflexivity.
    + intros _. split; [|reflexivity].
      apply lookup_lt_Some in Ev. destruct n as [|n]; [lia|].
      apply Hlen. discriminate.
Qed.

(** X16.  [tensor_product_multi_multiply] never throws.  Whenever it
    returns it has issued, for each matrix of the input group in turn,
    the block multiplications of the products of the expression into the
    matrix of the output group at the same position, and then, exactly
    when [all_reduce] was passed with an [ExprRef], one all-reduce of the
    whole output group; the connection info is untouched.  Unless the
    expression is a [Zero] under its [ExprRef]s, the output group has a
    matrix for every matrix of the input group, and, if the input group is
    not empty, every product has its second factor and its matrices. *)
Theorem tensor_product_multi_multiply_run expr cmats vmats (opdq : S)
    all_reduce (s : Machine) :
  match tensor_product_multi_multiply lop rop expr cmats vmats opdq
          all_reduce s with
  | Ok _ s' =>
      installed s' = installed s
      /\ events s'
         = events s ++ group_calls expr opdq cmats vmats ++
             (if all_reduce && is_ExprRef expr
              then [comm_allreduce_sum_group vmats] else [])
      /\ (is_Zero (unwrap expr) = false ->
          (length cmats <= length vmats)%nat
          /\ (cmats <> [] -> all_ready lop rop expr = true))
  | Thrown _ _ => False
  | AssertFail | Undefined => True
  end.
Proof.
  revert all_reduce s.
  assert (forall expr : OpExpr Op D,
             is_ExprRef expr = false -> is_Zero expr = false ->
             forall s : Machine,
               match
                 for_each (zrange (Z.of_nat (length cmats))) (fun i =>
                   do cmat <- deref (cmats !! Z.to_nat i);
                   do vmat <- deref (vmats !! Z.to_nat i);
                   lift (tensor_product_multiply lop rop expr cmat vmat
                           opdq false)) s
               with
               | Ok _ s' =>
                   installed s' = installed s
                   /\ events s'
                      = events s ++ group_calls expr opdq cmats vmats ++ []
                   /\ (is_Zero (unwrap expr) = false ->
                       (length cmats <= length vmats)%nat
                       /\ (cmats <> [] -> all_ready lop rop expr = true))
               | Thrown _ _ => False
               | AssertFail | Undefined => True
               end) as Hloop.
  { intros expr0 Href Hzero s. unfold zrange. rewrite Nat2Z.id.
    pose proof (multi_loop_run expr0 opdq cmats vmats Href (length cmats)
                  0%nat s eq_refl) as Hrun.
    cbn [Z.of_nat] in Hrun. revert Hrun.
    destruct (for_each _ _ s) as [u s1|e s1| |]; intros Hrun; try exact Hrun.
    destruct Hrun as (Hinst & Hev & Hlen). rewrite !drop_0 in Hev.
    split; [exact Hinst|]. split; [rewrite app_nil_r; exact Hev|].
    intros _. destruct cmats as [|c cs].
    - split; [cbn; lia|congruence].
    - destruct Hlen as [Hlen Hready]; [discriminate|]. auto. }
  induction expr as [|e|op|strings|l expr IH]; intros all_reduce s;
    cbn [tensor_product_multi_multiply].
  - cbn [ret is_ExprRef]. rewrite andb_false_r.
    split; [reflexivity|]. split; [|discriminate]. clear Hloop.
    induction (zip cmats vmats) as [|cv l IHl]; cbn; [|exact IHl].
    rewrite app_nil_r. reflexivity.
  - rewrite andb_false_r. apply (Hloop (Elem e)); reflexivity.
  - rewrite andb_false_r. apply (Hloop (Prod op)); reflexivity.
  - rewrite andb_false_r. apply (Hloop (Sum strings)); reflexivity.
  - unfold bind. specialize (IH false s). revert IH.
    destruct (tensor_product_multi_multiply lop rop expr cmats vmats opdq
                false s) as [u s1|e s1| |]; intros IH; try exact IH.
    destruct IH as (Hinst & Hev & Hlen). cbn [andb] in Hev.
    rewrite app_nil_r in Hev. cbn [is_ExprRef unwrap product_calls].
    rewrite andb_true_r.
    destruct all_reduce; cbn [when ret emit installed events].
    + split; [exact Hinst|]. split; [|exact Hlen].
      rewrite Hev, <- app_assoc. reflexivity.
    + split; [exact Hinst|]. split; [|exact Hlen].
      rewrite Hev, app_nil_r. reflexivity.
Qed.
End MultiLog.

Section Rotation.
Import ParallelTensorOps.
Context {Op D S Mat CInfo : Type} `{Countable Op}.
Variable mode : SeqTypes.t.
Variable abs_value : OpExpr Op D -> Op.
Variable available own repeat : Op -> bool.
Variable owner : Op -> Z.

Abbreviation Machine := (@Machine D S Mat CInfo).
Abbreviation Event := (@Event D S Mat CInfo).
Abbreviation SparseMatrix := (@SparseMatrix Mat).
Abbreviation keys := (keys abs_value).

Lemma emit_Ok (e : Event) (s s' : Machine) u :
  emit e s = Ok u s' <->
  s' = {| installed := installed s; events := events s ++ [e] |}.
Proof.
  unfold emit. split.
  - intros [= _ <-]. reflexivity.
  - intros ->. destruct u. reflexivity.
Qed.

(** Allocating the matrix of a key changes the entry of that key only,
    and only its data. *)
Lemma ops_find_allocate (l : list (Op * SparseMatrix)) k k' :
  ops_find (ops_allocate l k) k'
  = if bool_decide (k = k')
    then (fun m => mkSparseMatrix (mat m) true) <$> ops_find l k'
    else ops_find l k'.
Proof.
  induction l as [|[k0 m] l IH]; cbn [ops_allocate ops_find].
  - destruct (bool_decide (k = k')); reflexivity.
  - destruct (decide (k0 = k)) as [->|Hne0].
    + rewrite bool_decide_eq_true_2 by reflexivity. cbn [ops_find].
      destruct (decide (k = k')) as [->|Hne].
      * rewrite !bool_decide_eq_true_2 by reflexivity. reflexivity.
      * rewrite !bool_decide_eq_false_2 by exact Hne. reflexivity.
    + rewrite (bool_decide_eq_false_2 (k0 = k)) by exact Hne0.
      cbn [ops_find]. destruct (decide (k0 = k')) as [->|Hne'].
      * rewrite bool_decide_eq_true_2 by reflexivity.
        rewrite bool_decide_eq_false_2 by congruence. reflexivity.
      * rewrite (bool_decide_eq_false_2 (k0 = k')) by exact Hne'.
        exact IH.
Qed.

Lemma ops_find_allocate_mat (l : list (Op * SparseMatrix)) k k' :
  mat <$> ops_find (ops_allocate l k) k' = mat <$> ops_find l k'.
Proof.
  rewrite ops_find_allocate. destruct (bool_decide (k = k')); [|reflexivity].
  destruct (ops_find l k'); reflexivity.
Qed.

Lemma ops_find_allocated_mat (l : list (Op * SparseMatrix)) ks k' :
  mat <$> ops_find (fold_left ops_allocate ks l) k' = mat <$> ops_find l k'.
Proof.
  revert l. induction ks as [|k ks IH]; intros l; cbn [fold_left].
  - reflexivity.
  - rewrite IH. apply ops_find_allocate_mat.
Qed.

(** The events below read the matrices of [c->ops] only, which an
    allocation leaves as they are. *)
Lemma allocations_mat (l l' : list (Op * SparseMatrix)) ks :
  (forall k, mat <$> ops_find l' k = mat <$> ops_find l k) ->
  allocations (Op:=Op) (D:=D) (S:=S) (CInfo:=CInfo) l' ks
  = allocations l ks.
Proof.
  intros Hmat. unfold allocations. induction ks as [|k ks IH];
    cbn [flat_map]; [reflexivity|].
  rewrite IH. f_equal. specialize (Hmat k).
  destruct (ops_find l' k), (ops_find l k); cbn in Hmat; congruence.
Qed.

Lemma rotations_mat trace_right (aops l l' : list (Op * SparseMatrix))
    (mpst_bra mpst_ket : Mat) ks :
  (forall k, mat <$> ops_find l' k = mat <$> ops_find l k) ->
  rotations (Op:=Op) (D:=D) (S:=S) (CInfo:=CInfo) trace_right aops l'
    mpst_bra mpst_ket ks
  = rotations trace_right aops l mpst_bra mpst_ket ks.
Proof.
  intros Hmat. unfold rotations. induction ks as [|k ks IH];
    cbn [flat_map]; [reflexivity|].
  rewrite IH. f_equal. specialize (Hmat k).
  destruct (ops_find aops k); [|reflexivity].
  destruct (ops_find l' k), (ops_find l k); cbn in Hmat; congruence.
Qed.

Lemma broadcasts_mat (l l' : list (Op * SparseMatrix)) ks :
  (forall k, mat <$> ops_find l' k = mat <$> ops_find l k) ->
  broadcasts (Op:=Op) (D:=D) (S:=S) (CInfo:=CInfo) owner l' ks
  = broadcasts owner l ks.
Proof.
  intros Hmat. unfold broadcasts. induction ks as [|k ks IH];
    cbn [flat_map]; [reflexivity|].
  rewrite IH. f_equal. specialize (Hmat k).
  destruct (ops_find l' k), (ops_find l k); cbn in Hmat; congruence.
Qed.

Lemma keys_cons x data :
  keys (x :: data) = if is_Zero x then keys data else abs_value x :: keys data.
Proof.
  unfold ParallelTensorOps.keys. cbn [List.filter].
  destruct (is_Zero x); reflexivity.
Qed.

(** The first loop. *)
Lemma rotate_entries_Ok trace_right (aops : list (Op * SparseMatrix))
    (mpst_bra mpst_ket : Mat) data :
  forall (cops cops' : list (Op * SparseMatrix)) (s s' : Machine),
    rotate_entries abs_value available own trace_right aops mpst_bra
      mpst_ket data cops s = Ok cops' s' ->
    cops' = fold_left ops_allocate (List.filter available (keys data)) cops
    /\ NoDup (List.filter available (keys data))
    /\ Forall (fun k => exists m,
                 ops_find cops k = Some m /\ has_data m = false)
         (List.filter available (keys data))
    /\ Forall (fun k => is_Some (ops_find aops k)
                        /\ is_Some (ops_find cops k))
         (List.filter own (keys data))
    /\ installed s' = installed s
    /\ exists first,
         events s' = events s ++ first
         /\ List.filter is_allocate first
            = allocations cops (List.filter available (keys data))
         /\ List.filter is_rotate first
            = rotations trace_right aops cops mpst_bra mpst_ket
                (List.filter own (keys data))
         /\ Forall (fun e => is_allocate e || is_rotate e = true) first.
Proof.
  induction data as [|x data IH]; intros cops cops' s s';
    cbn [rotate_entries].
  - intros [= <- <-]. cbn. split; [reflexivity|].
    split; [constructor|]. split; [constructor|]. split; [constructor|].
    split; [reflexivity|]. exists []. rewrite app_nil_r.
    repeat split; constructor.
  - rewrite keys_cons. destruct (is_Zero x); [apply IH|].
    set (pa := abs_value x). intros Hrun.
    apply bind_Ok in Hrun as (cops1 & s1 & Halloc & Hrun).
    apply bind_Ok in Hrun as (u & s2 & Hrot & Hrun).
    apply IH in Hrun
      as (-> & Hnodup & Hfresh & Hown & Hinst & first & Hev & Hal & Hro
          & Hkinds).
    assert (forall k, mat <$> ops_find cops1 k = mat <$> ops_find cops k)
      as Hmat.
    { destruct (available pa).
      - apply bind_Ok in Halloc as (m & s3 & _ & Halloc).
        apply bind_Ok in Halloc as (u1 & s4 & _ & Halloc).
        apply bind_Ok in Halloc as (u2 & s5 & _ & Halloc).
        injection Halloc as <- _. intros k. apply ops_find_allocate_mat.
      - injection Halloc as <- _. reflexivity. }
    rewrite (allocations_mat cops cops1 _ Hmat) in Hal.
    rewrite (rotations_mat _ _ cops cops1 _ _ _ Hmat) in Hro.
    assert (forall k, is_Some (ops_find cops1 k) -> is_Some (ops_find cops k))
      as Hsome.
    { intros k [m Hm]. specialize (Hmat k). rewrite Hm in Hmat.
      destruct (ops_find cops k); [eauto|discriminate Hmat]. }
    assert (exists after,
               events s2 = events s1 ++ after
               /\ installed s2 = installed s1
               /\ after
                  = rotations trace_right aops cops mpst_bra mpst_ket
                      (if own pa then [pa] else [])
               /\ (own pa = true ->
                   is_Some (ops_find aops pa)
                   /\ is_Some (ops_find cops pa))) as Hrot'.
    { destruct (own pa).
      - apply bind_Ok in Hrot as (ma & s3 & Hma & Hrot).
        apply map_at_Ok in Hma as [Hma ->].
        apply bind_Ok in Hrot as (mc & s4 & Hmc & Hrot).
        apply map_at_Ok in Hmc as [Hmc ->].
        apply emit_Ok in Hrot as ->. cbn [events installed].
        eexists. split; [reflexivity|]. split; [reflexivity|].
        split; [|intros _; split; [eauto|apply Hsome; eauto]].
        unfold rotations. cbn [flat_map]. rewrite Hma.
        specialize (Hmat pa). rewrite Hmc in Hmat.
        destruct (ops_find cops pa) as [m0|]; [|discriminate Hmat].
        injection Hmat as Hmat. rewrite Hmat, app_nil_r. reflexivity.
      - injection Hrot as _ <-. exists []. rewrite app_nil_r.
        repeat split; auto; discriminate. }
    destruct Hrot' as (after & Hev2 & Hinst2 & Hafter & Hown1).
    assert (Forall (fun e : Event => is_allocate e || is_rotate e = true)
              after
            /\ List.filter is_allocate after = []
            /\ List.filter is_rotate after = after) as (Hk2 & Ha2 & Hr2).
    { rewrite Hafter. unfold rotations. destruct (own pa); cbn [flat_map];
        [|repeat split; constructor].
      destruct (ops_find aops pa), (ops_find cops pa); cbn;
        repeat split; repeat constructor. }
    cbn [List.filter].
    destruct (available pa) eqn:Eav.
    + apply bind_Ok in Halloc as (m & s3 & Hm & Halloc).
      apply map_at_Ok in Hm as [Hm ->].
      apply bind_Ok in Halloc as (u1 & s4 & Hdata & Halloc).
      apply assert_Ok in Hdata as [Hdata ->].
      apply negb_true_iff in Hdata.
      apply bind_Ok in Halloc as (u2 & s5 & Hemit & Halloc).
      apply emit_Ok in Hemit as ->. injection Halloc as <- <-.
      cbn [events installed] in Hev2, Hinst2.
      assert (pa ∉ List.filter available (keys data)) as Hnew.
      { intros Hin.
        apply (proj1 (Forall_forall _ _) Hfresh) in Hin as (m' & Hm' & Hd').
        rewrite ops_find_allocate, bool_decide_eq_true_2, Hm in Hm'
          by reflexivity.
        injection Hm' as <-. discriminate Hd'. }
      split; [reflexivity|]. split; [constructor; assumption|].
      split.
      { constructor; [eauto|].
        apply Forall_forall. intros k Hk.
        apply (proj1 (Forall_forall _ _) Hfresh) in Hk as Hk'.
        destruct Hk' as (m' & Hm' & Hd').
        rewrite ops_find_allocate, bool_decide_eq_false_2 in Hm'
          by (intros ->; contradiction).
        eauto. }
      split.
      { destruct (own pa) eqn:Eown; cbn [List.filter]; rewrite ?Eown.
        - constructor; [apply Hown1; reflexivity|].
          eapply Forall_impl; [exact Hown|]. cbv beta.
          intros k [Ha Hc]. split; [exact Ha|apply Hsome, Hc].
        - eapply Forall_impl; [exact Hown|]. cbv beta.
          intros k [Ha Hc]. split; [exact Ha|apply Hsome, Hc]. }
      split; [congruence|].
      exists (engine (allocate (mat m)) :: after ++ first).
      split.
      { rewrite Hev, Hev2, <- !app_assoc. reflexivity. }
      split.
      { cbn [List.filter is_allocate]. rewrite List.filter_app, Ha2, Hal.
        unfold allocations at 2. cbn [flat_map]. rewrite Hm. reflexivity. }
      split.
      { cbn [List.filter is_rotate]. rewrite List.filter_app, Hr2, Hro, Hafter.
        unfold rotations. destruct (own pa); cbn [flat_map app];
          rewrite ?app_nil_r; reflexivity. }
      constructor; [reflexivity|]. apply Forall_app. auto.
    + injection Halloc as <- <-.
      split; [reflexivity|]. split; [exact Hnodup|]. split; [exact Hfresh|].
      split.
      { destruct (own pa) eqn:Eown; cbn [List.filter]; rewrite ?Eown.
        - constructor; [apply Hown1; reflexivity|exact Hown].
        - exact Hown. }
      split; [congruence|].
      exists (after ++ first).
      split.
      { rewrite Hev, Hev2, <- !app_assoc. reflexivity. }
      split.
      { rewrite List.filter_app, Ha2, Hal. reflexivity. }
      split.
      { rewrite List.filter_app, Hr2, Hro, Hafter.
        unfold rotations. destruct (own pa); cbn [flat_map app];
          rewrite ?app_nil_r; reflexivity. }
      apply Forall_app. auto.
Qed.
(** The second loop. *)
Lemma broadcast_entries_Ok data (cops : list (Op * SparseMatrix)) :
  forall s s' : Machine,
    broadcast_entries abs_value repeat owner data cops s = Ok tt s' ->
    installed s' = installed s
    /\ events s'
       = events s ++ broadcasts owner cops (List.filter repeat (keys data))
    /\ Forall (fun k => is_Some (ops_find cops k))
         (List.filter repeat (keys data)).
Proof.
  unfold broadcast_entries.
  induction data as [|x data IH]; intros s s'; cbn [for_each].
  - intros [= <-]. cbn. rewrite app_nil_r. repeat split; constructor.
  - rewrite keys_cons. intros Hrun.
    apply bind_Ok in Hrun as (u & s1 & Hx & Hrun).
    apply IH in Hrun as (Hinst & Hev & Hsome).
    destruct (is_Zero x).
    { injection Hx as _ <-. auto. }
    cbn [List.filter]. destruct (repeat (abs_value x)); cbn [when] in Hx.
    + apply bind_Ok in Hx as (m & s2 & Hm & Hx).
      apply map_at_Ok in Hm as [Hm ->]. apply emit_Ok in Hx as ->.
      cbn [installed events] in Hinst, Hev.
      split; [exact Hinst|]. split; [|constructor; eauto].
      rewrite Hev, <- app_assoc. unfold broadcasts at 2. cbn [flat_map].
      rewrite Hm. reflexivity.
    + injection Hx as _ <-. auto.
Qed.

(** X17.  A rotation ([left_rotate] over [a->lmat], [right_rotate] over
    [a->rmat]) that returns has worked in three phases, in this order:
    for the non-zero entries of the symbolic vector in turn, the
    allocation of the target matrix when the target is available here and
    the rotation into it when it is owned here; then, in [Auto] mode, one
    flush of the batch; then the broadcasts, from their owners, of the
    targets that are repeated.  No available target occurs twice among the
    entries, and none had data before the call: the assertion before each
    allocation fails otherwise.  The call changes [c->ops] only by giving
    data to the available targets. *)
Theorem rotate_phases (trace_right : bool) data
    (aops cops cops' : list (Op * SparseMatrix)) (mpst_bra mpst_ket : Mat)
    (s s' : Machine) :
  (if trace_right
   then right_rotate mode abs_value available own repeat owner data aops
          mpst_bra mpst_ket cops
   else left_rotate mode abs_value available own repeat owner data aops
          mpst_bra mpst_ket cops) s = Ok cops' s' ->
  exists entries first,
    data = Some entries
    /\ NoDup (List.filter available (keys entries))
    /\ Forall (fun k => exists m,
                 ops_find cops k = Some m /\ has_data m = false)
         (List.filter available (keys entries))
    /\ Forall (fun k => is_Some (ops_find aops k)
                        /\ is_Some (ops_find cops k))
         (List.filter own (keys entries))
    /\ Forall (fun k => is_Some (ops_find cops k))
         (List.filter repeat (keys entries))
    /\ cops'
       = fold_left ops_allocate (List.filter available (keys entries)) cops
    /\ installed s' = installed s
    /\ events s'
       = events s ++ first ++
           (if SeqTypes.eqb mode SeqTypes.Auto
            then [engine seq_auto_perform] else []) ++
           broadcasts owner cops (List.filter repeat (keys entries))
    /\ List.filter is_allocate first
       = allocations cops (List.filter available (keys entries))
    /\ List.filter is_rotate first
       = rotations trace_right aops cops mpst_bra mpst_ket
           (List.filter own (keys entries))
    /\ Forall (fun e => is_allocate e || is_rotate e = true) first.
Proof.
  intros Hrun.
  assert (rotate mode abs_value available own repeat owner trace_right data
            aops mpst_bra mpst_ket cops s = Ok cops' s') as Hrot
    by (destruct trace_right; exact Hrun).
  clear Hrun. unfold rotate in Hrot.
  apply bind_Ok in Hrot as (entries & s0 & Hdata & Hrot).
  apply deref_Ok in Hdata as [-> ->].
  apply bind_Ok in Hrot as (cops1 & s1 & Hloop & Hrot).
  apply bind_Ok in Hrot as (u & s2 & Hauto & Hrot).
  apply bind_Ok in Hrot as ([] & s3 & Hbcast & Hrot).
  injection Hrot as <- <-.
  apply rotate_entries_Ok in Hloop
    as (-> & Hnodup & Hfresh & Hown & Hinst1 & first & Hev1 & Hal & Hro
        & Hkinds).
  apply broadcast_entries_Ok in Hbcast as (Hinst3 & Hev3 & Hsome).
  rewrite (broadcasts_mat cops _ _ (ops_find_allocated_mat cops _)) in Hev3.
  assert (installed s2 = installed s1
          /\ events s2
             = events s1 ++
                 (if SeqTypes.eqb mode SeqTypes.Auto
                  then [engine seq_auto_perform] else [])) as [Hinst2 Hev2].
  { destruct (SeqTypes.eqb mode SeqTypes.Auto); cbn [when] in Hauto.
    - apply emit_Ok in Hauto as ->. auto.
    - injection Hauto as _ <-. rewrite app_nil_r. auto. }
  exists entries, first. split; [reflexivity|]. split; [exact Hnodup|].
  split; [exact Hfresh|]. split; [exact Hown|].
  split.
  { eapply Forall_impl; [exact Hsome|]. cbv beta. intros k [m Hm].
    pose proof (ops_find_allocated_mat cops
                  (List.filter available (keys entries)) k) as Hmat.
    rewrite Hm in Hmat. destruct (ops_find cops k); [eauto|discriminate]. }
  split; [reflexivity|]. split; [congruence|].
  split; [rewrite Hev3, Hev2, Hev1, <- !app_assoc; reflexivity|].
  auto.
Qed.
End Rotation.
End EngineCoverage.

(** ** The sweep drivers *)

Module DriverFacts.
Section Calls.
Context {Op D S : Type} `{!Numeric D}.
Variable C : Collaborators Op D S.

Abbreviation World := (World D).
Abbreviation Call := (Call D).

Lemma call_Ok (c : Call) (w w' : World) u :
  call c w = Ok u w' <->
  w' = {| objs := objs w; calls := calls w ++ [c] |}.
Proof.
  unfold call. split.
  - intros [= _ <-]. reflexivity.
  - intros ->. destruct u. reflexivity.
Qed.

Lemma preserves_call_objs (c : Call) : preserves (@objs D) (call c).
Proof. intros w a w' Hrun. apply call_Ok in Hrun as ->. reflexivity. Qed.

Lemma preserves_call_filter (p : Call -> bool) (c : Call) :
  p c = false ->
  preserves (fun w : World => List.filter p (calls w)) (call c).
Proof.
  intros Hp w a w' Hrun. apply call_Ok in Hrun as ->. cbn [calls].
  rewrite List.filter_app. cbn. rewrite Hp. apply app_nil_r.
Qed.

Lemma hoare_call_filter (p : Call -> bool) (c : Call) (l : list Call) :
  p c = true ->
  hoare (fun w : World => List.filter p (calls w) = l) (call c)
    (fun w => List.filter p (calls w) = l ++ [c]).
Proof.
  intros Hp w a w' Hl Hrun. apply call_Ok in Hrun as ->. cbn [calls].
  rewrite List.filter_app, Hl. cbn. rewrite Hp. reflexivity.
Qed.

Lemma preserves_ask {A X} (f : World -> X) (g : list Call -> A) :
  preserves f (ask g).
Proof. intros w a w' [= _ <-]. reflexivity. Qed.

Lemma preserves_get_canonical_form {X} (f : World -> X) mps i :
  preserves f (get_canonical_form mps i).
Proof.
  intros w a w'. unfold get_canonical_form.
  destruct (objs w !! mps); [|discriminate].
  destruct (_ && _); [|discriminate]. intros [= _ <-]. reflexivity.
Qed.

Lemma preserves_get_nroots {X} (f : World -> X) mps :
  preserves f (get_nroots mps).
Proof.
  intros w a w'. unfold get_nroots.
  destruct (objs w !! mps) as [o|]; [|discriminate].
  destruct (nroots o); [|discriminate]. intros [= _ <-]. reflexivity.
Qed.

Lemma preserves_set_canonical_form {X} (g : list Call -> X) mps i c :
  preserves (fun w : World => g (calls w)) (set_canonical_form mps i c).
Proof.
  intros w a w'. unfold set_canonical_form.
  destruct (objs w !! mps); [|discriminate].
  destruct (_ && _); [|discriminate]. intros [= _ <-]. reflexivity.
Qed.
End Calls.

(** Proves [preserves f m] for straight-line driver code: [f] is either
    [objs] or a filter of the log that the calls of [m] do not pass. *)
Ltac preserves_step :=
  first
    [ apply preserves_ret
    | apply preserves_assert
    | apply preserves_deref
    | apply preserves_throw
    | apply preserves_undefined
    | apply preserves_ask
    | apply preserves_get_canonical_form
    | apply preserves_get_nroots
    | apply preserves_set_canonical_form
    | apply preserves_call_objs
    | apply preserves_call_filter; reflexivity
    | apply preserves_bind; [|intros ?]
    | apply preserves_when
    | apply preserves_for_each; intros ?
    | match goal with
      | |- preserves _ (match ?x with _ => _ end) => destruct x
      end ].

Ltac preserves_tac :=
  repeat first
    [ preserves_step
    | progress unfold obtain_two_dot, obtain_multi_two_dot, save_two,
        save_multi_two, deallocate_old_wfns, for_down,
        update_canonical_form, ImaginaryTE.rk4_density_matrix,
        Expect.split_one ].

(** Runs the pieces of a sequence that leave [f] alone, up to the first
    one that does not. *)
Ltac skip_preserved f R :=
  repeat first
    [ eapply hoare_bind;
        [ apply (hoare_preserves f R); solve [preserves_tac] | intros ? ]
    | match goal with
      | |- hoare _ (match ?x with _ => _ end) _ => destruct x
      end ].

Section Blocking.
Context {Op D S : Type} `{!Numeric D}.
Variable C : Collaborators Op D S.

(** C6.  In each of the four drivers a blocking step asked of a
    configuration that is not two-site throws the [runtime_error]
    "1 site not yet implemented".  The throw comes right after the
    environment was moved to the site; no object was touched, and the
    state is there for a handler.  A throw is not a failed assertion. *)
Theorem blocking_single_site :
  (forall (d : DMRG.t) i forward bond_dim noise thrd (w : World D),
      dot (DMRG.me d) <> 2 ->
      DMRG.blocking C d i forward bond_dim noise thrd w
      = Thrown (runtime_error "1 site not yet implemented")
          {| objs := objs w; calls := calls w ++ [move_to i] |})
  /\ (forall (te : ImaginaryTE.t) i forward advance beta bond_dim noise
             (w : World D),
      dot (ImaginaryTE.me te) <> 2 ->
      ImaginaryTE.blocking C te i forward advance beta bond_dim noise w
      = Thrown (runtime_error "1 site not yet implemented")
          {| objs := objs w; calls := calls w ++ [move_to i] |})
  /\ (forall (c : Compress.t) i forward bra_bond_dim ket_bond_dim noise
             (w : World D),
      dot (Compress.me c) <> 2 ->
      Compress.blocking C c i forward bra_bond_dim ket_bond_dim noise w
      = Thrown (runtime_error "1 site not yet implemented")
          {| objs := objs w; calls := calls w ++ [move_to i] |})
  /\ (forall (e : Expect.t) i forward propagate bra_bond_dim ket_bond_dim
             (w : World D),
      dot (Expect.me e) <> 2 ->
      Expect.blocking C e i forward propagate bra_bond_dim ket_bond_dim w
      = Thrown (runtime_error "1 site not yet implemented")
          {| objs := objs w; calls := calls w ++ [move_to i] |})
  /\ (forall (A : Type) what (w : World D),
      Thrown (A:=A) (runtime_error what) w <> AssertFail).
Proof.
  repeat split.
  - intros d i forward bond_dim noise thrd w Hdot.
    unfold DMRG.blocking, bind, call.
    destruct (Z.eqb_spec (dot (DMRG.me d)) 2); [contradiction|reflexivity].
  - intros te i forward advance beta bond_dim noise w Hdot.
    unfold ImaginaryTE.blocking, bind, call.
    destruct (Z.eqb_spec (dot (ImaginaryTE.me te)) 2);
      [contradiction|reflexivity].
  - intros c i forward bra_bond_dim ket_bond_dim noise w Hdot.
    unfold Compress.blocking, bind, call.
    destruct (Z.eqb_spec (dot (Compress.me c)) 2);
      [contradiction|reflexivity].
  - intros e i forward propagate bra_bond_dim ket_bond_dim w Hdot.
    unfold Expect.blocking, bind, call.
    destruct (Z.eqb_spec (dot (Expect.me e)) 2);
      [contradiction|reflexivity].
  - discriminate.
Qed.
End Blocking.

Section CanonicalForm.
Context {Op D S : Type} `{!Numeric D}.
Variable C : Collaborators Op D S.

Lemma canonical_length c center n :
  (center < n)%nat -> length (canonical c center n) = n.
Proof.
  intros Hc. unfold canonical.
  rewrite !length_app, !length_replicate. cbn. lia.
Qed.

Lemma canonical_lookup c center n j :
  (center < n)%nat ->
  canonical c center n !! j =
    if decide (j < center)%nat then Some "L"%char
    else if decide (j = center) then Some c
    else if decide (j < n)%nat then Some "R"%char
    else None.
Proof.
  intros Hc. unfold canonical.
  destruct (decide (j < center)%nat) as [Hlt|Hge].
  - rewrite lookup_app_l by (rewrite length_replicate; lia).
    apply lookup_replicate_2. exact Hlt.
  - rewrite lookup_app_r by (rewrite length_replicate; lia).
    rewrite length_replicate.
    destruct (decide (j = center)) as [->|Hne].
    + rewrite Nat.sub_diag. reflexivity.
    + destruct (j - center)%nat as [|k] eqn:Ek; [lia|]. cbn.
      destruct (decide (j < n)%nat) as [Hjn|Hjn].
      * apply lookup_replicate_2. lia.
      * apply lookup_ge_None. rewrite length_replicate. lia.
Qed.

(** A step changes the two tags it names and no other. *)
Lemma step_tags_lookup forward c i cf :
  (i + 1 < length cf)%nat ->
  length (step_tags forward c i cf) = length cf
  /\ step_tags forward c i cf !! i
     = Some (if forward then "L"%char else c)
  /\ step_tags forward c i cf !! Datatypes.S i
     = Some (if forward then c else "R"%char)
  /\ (forall j, j <> i -> j <> Datatypes.S i ->
        step_tags forward c i cf !! j = cf !! j).
Proof.
  intros Hi. unfold step_tags. destruct forward.
  - split; [rewrite !length_insert; reflexivity|]. split.
    { rewrite list_lookup_insert_ne by lia.
      apply list_lookup_insert_eq. lia. }
    split.
    { apply list_lookup_insert_eq. rewrite length_insert. lia. }
    intros j Hj1 Hj2. rewrite !list_lookup_insert_ne by lia. reflexivity.
  - split; [rewrite !length_insert; reflexivity|]. split.
    { rewrite list_lookup_insert_ne by lia.
      apply list_lookup_insert_eq. lia. }
    split.
    { apply list_lookup_insert_eq. rewrite length_insert. lia. }
    intros j Hj1 Hj2. rewrite !list_lookup_insert_ne by lia. reflexivity.
Qed.

(** From a form ready for the step, the step leaves the canonical form
    with the center moved. *)
Lemma step_tags_canonical forward c i cf :
  (i + 1 < length cf)%nat ->
  two_dot_ready i cf ->
  step_tags forward c i cf
  = canonical c (if forward then Datatypes.S i else i) (length cf).
Proof.
  intros Hi Hready.
  destruct (step_tags_lookup forward c i cf Hi) as (Hlen & Hi0 & Hi1 & Hoth).
  apply list_eq. intros j.
  rewrite canonical_lookup by (destruct forward; lia).
  destruct (Hready j) as [HL HR].
  destruct (decide (j = i)) as [->|Hji].
  { rewrite Hi0. destruct forward.
    - destruct (decide (i < Datatypes.S i)%nat); [reflexivity|lia].
    - destruct (decide (i < i)%nat); [lia|].
      destruct (decide (i = i)); [reflexivity|lia]. }
  destruct (decide (j = Datatypes.S i)) as [->|Hji1].
  { rewrite Hi1. destruct forward.
    - destruct (decide (Datatypes.S i < Datatypes.S i)%nat); [lia|].
      destruct (decide (Datatypes.S i = Datatypes.S i)); [reflexivity|lia].
    - destruct (decide (Datatypes.S i < i)%nat); [lia|].
      destruct (decide (Datatypes.S i = i)); [lia|].
      destruct (decide (Datatypes.S i < length cf)%nat); [reflexivity|lia]. }
  rewrite Hoth by assumption.
  destruct (decide (j < i)%nat) as [Hlt|Hge].
  { rewrite HL by exact Hlt.
    destruct forward;
      (destruct (decide (j < _)%nat); [reflexivity|lia]). }
  assert (Datatypes.S i < j)%nat as Hgt by lia.
  destruct forward.
  - destruct (decide (j < Datatypes.S i)%nat); [lia|].
    destruct (decide (j = Datatypes.S i)); [lia|].
    destruct (decide (j < length cf)%nat) as [Hjn|Hjn].
    + apply HR. lia.
    + apply lookup_ge_None. lia.
  - destruct (decide (j < i)%nat); [lia|].
    destruct (decide (j = i)); [lia|].
    destruct (decide (j < length cf)%nat) as [Hjn|Hjn].
    + apply HR. lia.
    + apply lookup_ge_None. lia.
Qed.

(** What [update_canonical_form] does to the objects. *)
Lemma update_canonical_form_objs mps i forward c (O : gmap ptr MPS) :
  hoare (fun w : World D => objs w = O)
    (update_canonical_form mps i forward c)
    (fun w => exists o,
       O !! mps = Some o
       /\ 0 <= i /\ (Z.to_nat i + 1 < length (canonical_form o))%nat
       /\ objs w = <[mps := mkMPS (step_tags forward c (Z.to_nat i)
                                     (canonical_form o)) (nroots o)]> O).
Proof.
  intros w a w' HO Hrun. unfold update_canonical_form in Hrun.
  assert (exists w1 c1 c2,
             objs w1 = O
             /\ (set_canonical_form mps i c1 >>
                 set_canonical_form mps (i + 1) c2) w1 = Ok a w'
             /\ step_tags forward c (Z.to_nat i)
                = (fun cf => <[Datatypes.S (Z.to_nat i) := c2]>
                               (<[Z.to_nat i := c1]> cf)))
    as (w1 & c1 & c2 & HO1 & Hset & Htags).
  { destruct forward.
    - apply bind_Ok in Hrun as ([] & w1 & H1 & Hrun).
      apply call_Ok in H1 as ->.
      apply bind_Ok in Hrun as ([] & w2 & H2 & Hrun).
      apply call_Ok in H2 as ->.
      apply bind_Ok in Hrun as ([] & w3 & H3 & Hrun).
      apply call_Ok in H3 as ->.
      eexists _, _, _. split; [|split; [exact Hrun|reflexivity]].
      exact HO.
    - apply bind_Ok in Hrun as ([] & w1 & H1 & Hrun).
      apply call_Ok in H1 as ->.
      apply bind_Ok in Hrun as ([] & w2 & H2 & Hrun).
      apply call_Ok in H2 as ->.
      apply bind_Ok in Hrun as ([] & w3 & H3 & Hrun).
      apply call_Ok in H3 as ->.
      eexists _, _, _. split; [|split; [exact Hrun|reflexivity]].
      exact HO. }
  rewrite Htags. clear Hrun Htags.
  apply bind_Ok in Hset as ([] & w2 & Hs1 & Hs2).
  unfold set_canonical_form in Hs1, Hs2. rewrite HO1 in Hs1.
  destruct (O !! mps) as [o|] eqn:Eo; [|discriminate].
  destruct (Z.leb_spec 0 i) as [Hi0|]; [|discriminate].
  destruct (Z.ltb_spec i (Z.of_nat (length (canonical_form o))))
    as [Hi1|]; [|discriminate].
  cbn [andb] in Hs1. injection Hs1 as <-. cbn [objs calls] in Hs2.
  rewrite lookup_insert_eq in Hs2. cbn [canonical_form nroots] in Hs2.
  rewrite length_insert in Hs2.
  destruct (Z.leb_spec 0 (i + 1)); [|discriminate].
  destruct (Z.ltb_spec (i + 1) (Z.of_nat (length (canonical_form o))))
    as [Hi2|]; [|discriminate].
  cbn [andb] in Hs2. injection Hs2 as _ <-. cbn [objs].
  exists o. split; [reflexivity|]. split; [exact Hi0|]. split; [lia|].
  rewrite insert_insert_eq.
  replace (Z.to_nat (i + 1)) with (Datatypes.S (Z.to_nat i)) by lia.
  reflexivity.
Qed.

Lemma preserves_collect_quanta {X} (f : World D -> X) (d : DMRG.t) ks :
  (forall c : Call D, preserves f (call c)) ->
  preserves f (DMRG.collect_quanta C d ks).
Proof.
  intros Hcall. induction ks as [|k ks IH]; cbn [DMRG.collect_quanta].
  - apply preserves_ret.
  - apply preserves_bind; [apply Hcall|intros _].
    apply preserves_bind; [apply preserves_ask|intros q].
    apply preserves_bind; [exact IH|intros qs]. apply preserves_ret.
Qed.

Lemma update_two_dot_objs (d : DMRG.t) i forward bond_dim noise thrd
    (O : gmap ptr MPS) :
  hoare (fun w : World D => objs w = O)
    (DMRG.update_two_dot C d i forward bond_dim noise thrd)
    (fun w => exists o,
       O !! ket (DMRG.me d) = Some o
       /\ 0 <= i /\ (Z.to_nat i + 1 < length (canonical_form o))%nat
       /\ objs w = <[ket (DMRG.me d) :=
                       mkMPS (step_tags forward "C" (Z.to_nat i)
                                (canonical_form o)) (nroots o)]> O).
Proof.
  unfold DMRG.update_two_dot.
  skip_preserved (@objs D) (fun x : gmap ptr MPS => x = O).
  eapply hoare_bind; [apply update_canonical_form_objs | intros ?].
  apply (hoare_preserves (@objs D)
           (fun x => exists o, _ /\ _ /\ _ /\ x = _)).
  preserves_tac.
Qed.

Lemma update_multi_two_dot_objs (d : DMRG.t) i forward bond_dim noise thrd
    (O : gmap ptr MPS) :
  hoare (fun w : World D => objs w = O)
    (DMRG.update_multi_two_dot C d i forward bond_dim noise thrd)
    (fun w => exists o,
       O !! ket (DMRG.me d) = Some o
       /\ 0 <= i /\ (Z.to_nat i + 1 < length (canonical_form o))%nat
       /\ objs w = <[ket (DMRG.me d) :=
                       mkMPS (step_tags forward "M" (Z.to_nat i)
                                (canonical_form o)) (nroots o)]> O).
Proof.
  unfold DMRG.update_multi_two_dot.
  skip_preserved (@objs D) (fun x : gmap ptr MPS => x = O).
  eapply hoare_bind.
  { apply (hoare_preserves (@objs D) (fun x : gmap ptr MPS => x = O)).
    apply preserves_collect_quanta. apply preserves_call_objs. }
  intros ?.
  skip_preserved (@objs D) (fun x : gmap ptr MPS => x = O).
  eapply hoare_bind; [apply update_canonical_form_objs | intros ?].
  apply (hoare_preserves (@objs D)
           (fun x => exists o, _ /\ _ /\ _ /\ x = _)).
  preserves_tac.
Qed.

(** The two updates [blocking] chooses between: each changes the two tags
    of the ket at [i] and [i + 1] and nothing else of the objects. *)
Lemma update_two_dot_tags (multi : bool) (d : DMRG.t) i forward
    bond_dim noise thrd (w w' : World D) r :
  (if multi then DMRG.update_multi_two_dot C d i forward bond_dim noise thrd
   else DMRG.update_two_dot C d i forward bond_dim noise thrd) w = Ok r w' ->
  let c := if multi then "M"%char else "C"%char in
  let k := Z.to_nat i in
  exists o cf',
    objs w !! ket (DMRG.me d) = Some o
    /\ objs w' = <[ket (DMRG.me d) := mkMPS cf' (nroots o)]> (objs w)
    /\ 0 <= i
    /\ (k + 1 < length (canonical_form o))%nat
    /\ length cf' = length (canonical_form o)
    /\ cf' !! k = Some (if forward then "L"%char else c)
    /\ cf' !! Datatypes.S k = Some (if forward then c else "R"%char)
    /\ (forall j, j <> k -> j <> Datatypes.S k ->
          cf' !! j = canonical_form o !! j)
    /\ (two_dot_ready k (canonical_form o) ->
          cf' = canonical c (if forward then Datatypes.S k else k)
                  (length (canonical_form o))).
Proof.
  intros Hrun c k.
  assert (exists o,
             objs w !! ket (DMRG.me d) = Some o
             /\ 0 <= i /\ (k + 1 < length (canonical_form o))%nat
             /\ objs w' = <[ket (DMRG.me d) :=
                             mkMPS (step_tags forward c k (canonical_form o))
                               (nroots o)]> (objs w))
    as (o & Ho & Hi & Hlen & Hobjs).
  { destruct multi.
    - exact (update_multi_two_dot_objs d i forward bond_dim noise thrd
               (objs w) w r w' eq_refl Hrun).
    - exact (update_two_dot_objs d i forward bond_dim noise thrd
               (objs w) w r w' eq_refl Hrun). }
  destruct (step_tags_lookup forward c k (canonical_form o) Hlen)
    as (Hl & H0 & H1 & Hoth).
  exists o, (step_tags forward c k (canonical_form o)).
  repeat (split; [assumption|]).
  intros Hready. apply step_tags_canonical; assumption.
Qed.

Lemma get_canonical_form_Ok mps i (w w' : World D) c :
  get_canonical_form mps i w = Ok c w' ->
  w' = w
  /\ exists o,
       objs w !! mps = Some o
       /\ 0 <= i <= Z.of_nat (length (canonical_form o))
       /\ c = default Ascii.zero (canonical_form o !! Z.to_nat i).
Proof.
  unfold get_canonical_form.
  destruct (objs w !! mps) as [o|]; [|discriminate].
  destruct (_ && _) eqn:E; [|discriminate].
  intros [= <- <-]. split; [reflexivity|]. exists o.
  apply andb_true_iff in E as [E1 E2].
  apply Z.leb_le in E1. apply Z.leb_le in E2. auto.
Qed.

(** C1.  A two-dot blocking step of DMRG at site [i], single-target or
    state-averaged, that completes leaves every object but the ket as it
    was and changes two tags of the ket and no other: going forward,
    tag [i] becomes [L] and tag [i + 1] the center tag; going backward,
    tag [i] becomes the center tag and tag [i + 1] becomes [R]; the center
    tag is [M] when the step found an [M] at one of the two sites (several
    targets) and [C] otherwise.  From a canonical form with [L] on the left
    of the two sites and [R] on their right, the result is the canonical
    form [L...L C R...R] (or [L...L M R...R]) whose center is at the
    updated position. *)
Theorem two_dot_step_canonical_form (d : DMRG.t) i forward bond_dim noise
    thrd (w w' : World D) r :
  DMRG.blocking C d i forward bond_dim noise thrd w = Ok r w' ->
  let k := Z.to_nat i in
  exists o cf',
    dot (DMRG.me d) = 2
    /\ objs w !! ket (DMRG.me d) = Some o
    /\ objs w' = <[ket (DMRG.me d) := mkMPS cf' (nroots o)]> (objs w)
    /\ 0 <= i
    /\ (k + 1 < length (canonical_form o))%nat
    /\ length cf' = length (canonical_form o)
    /\ let c := center_tag (canonical_form o) k in
       cf' !! k = Some (if forward then "L"%char else c)
       /\ cf' !! Datatypes.S k = Some (if forward then c else "R"%char)
       /\ (forall j, j <> k -> j <> Datatypes.S k ->
             cf' !! j = canonical_form o !! j)
       /\ (two_dot_ready k (canonical_form o) ->
             cf' = canonical c (if forward then Datatypes.S k else k)
                     (length (canonical_form o))).
Proof.
  intros Hrun k. unfold DMRG.blocking in Hrun.
  apply bind_Ok in Hrun as ([] & w1 & Hmove & Hrun).
  apply call_Ok in Hmove.
  destruct (Z.eqb_spec (dot (DMRG.me d)) 2) as [Hdot|]; [|discriminate].
  apply bind_Ok in Hrun as (c0 & w2 & Hc0 & Hrun).
  apply get_canonical_form_Ok in Hc0 as (-> & o & Ho & Hi & ->).
  apply bind_Ok in Hrun as (multi & w3 & Hmulti & Hrun).
  assert (w3 = w1
          /\ (if multi then "M"%char else "C"%char)
             = center_tag (canonical_form o) k) as [-> Hc].
  { unfold center_tag. fold k in Hmulti.
    destruct (Ascii.eqb (default Ascii.zero (canonical_form o !! k)) "M").
    - injection Hmulti as <- <-. auto.
    - apply bind_Ok in Hmulti as (c1 & w4 & Hc1 & Hmulti).
      apply get_canonical_form_Ok in Hc1 as (-> & o' & Ho' & _ & ->).
      injection Hmulti as <- <-. split; [reflexivity|].
      rewrite Ho in Ho'. injection Ho' as <-.
      replace (Z.to_nat (i + 1)) with (Datatypes.S k) by lia.
      cbn [orb]. reflexivity. }
  assert (objs w1 = objs w) as Hobjs1 by (rewrite Hmove; reflexivity).
  assert ((if multi
           then DMRG.update_multi_two_dot C d i forward bond_dim noise thrd
           else DMRG.update_two_dot C d i forward bond_dim noise thrd) w1
          = Ok r w') as Hrun' by (destruct multi; exact Hrun).
  destruct (update_two_dot_tags multi d i forward bond_dim noise thrd w1 w' r
              Hrun')
    as (o' & cf' & Ho' & Hobjs & Hi0 & Hlen & Hlen' & Hk & HSk & Hoth & Hcan).
  rewrite Ho in Ho'. injection Ho' as <-. rewrite Hobjs1 in Ho, Hobjs.
  fold k in Hlen, Hk, HSk, Hoth, Hcan. rewrite Hc in Hk, HSk, Hcan.
  exists o, cf'. cbv zeta. auto 12.
Qed.
End CanonicalForm.

Section TimeEvolution.
Context {Op D S : Type} `{!Numeric D}.
Variable C : Collaborators Op D S.

Lemma te_update_two_dot_objs (te : ImaginaryTE.t) i forward advance beta
    bond_dim noise (O : gmap ptr MPS) :
  hoare (fun w : World D => objs w = O)
    (ImaginaryTE.update_two_dot C te i forward advance beta bond_dim noise)
    (fun w => exists o,
       O !! ket (ImaginaryTE.me te) = Some o
       /\ 0 <= i /\ (Z.to_nat i + 1 < length (canonical_form o))%nat
       /\ objs w = <[ket (ImaginaryTE.me te) :=
                       mkMPS (step_tags forward "C" (Z.to_nat i)
                                (canonical_form o)) (nroots o)]> O).
Proof.
  unfold ImaginaryTE.update_two_dot.
  skip_preserved (@objs D) (fun x : gmap ptr MPS => x = O).
  eapply hoare_bind; [apply update_canonical_form_objs | intros ?].
  apply (hoare_preserves (@objs D)
           (fun x => exists o, _ /\ _ /\ _ /\ x = _)).
  preserves_tac.
Qed.

(** For a site index, which is not negative, the remainders the code
    tests tell even from odd. *)
Lemma bdim_no_truncation pattern i bond_dim :
  0 <= i ->
  ImaginaryTE.bdim pattern i bond_dim
  = if ImaginaryTE.no_truncation pattern i then -1 else bond_dim.
Proof.
  intros Hi. unfold ImaginaryTE.bdim, ImaginaryTE.no_truncation.
  rewrite Z.rem_mod_nonneg by lia. rewrite Zmod_even.
  rewrite <- Z.negb_even.
  destruct pattern, (Z.even i); reflexivity.
Qed.

Lemma te_update_two_dot_splits (te : ImaginaryTE.t) i forward advance beta
    bond_dim noise (l : list (Call D)) :
  hoare (fun w : World D => List.filter is_split (calls w) = l)
    (ImaginaryTE.update_two_dot C te i forward advance beta bond_dim noise)
    (fun w' =>
       List.filter is_split (calls w')
       = l ++ [split_density_matrix (ket (ImaginaryTE.me te)) i
                 (ImaginaryTE.bdim (ImaginaryTE.trunc_pattern te) i bond_dim)
                 forward false (ImaginaryTE.cutoff te)
                 (ImaginaryTE.trunc_type te)]).
Proof.
  unfold ImaginaryTE.update_two_dot.
  skip_preserved (fun w : World D => List.filter is_split (calls w))
    (fun x : list (Call D) => x = l).
  eapply hoare_bind; [apply hoare_call_filter; reflexivity | intros ?].
  apply (hoare_preserves
           (fun w : World D => List.filter is_split (calls w))
           (fun x => x = l ++ _)).
  preserves_tac.
Qed.

(** C8.  A two-dot update of ImaginaryTE that completes makes one split.
    With the pattern [TruncAfterOdd] at an even site, or [TruncAfterEven]
    at an odd site, the split is asked to keep [-1] states, which no bond
    dimension is: no truncation; at every other position and with no
    pattern it is asked to keep the bond dimension the caller gave. *)
Theorem truncation_pattern (te : ImaginaryTE.t) i forward advance beta
    bond_dim noise (w w' : World D) r :
  0 <= bond_dim < 65536 ->
  ImaginaryTE.update_two_dot C te i forward advance beta bond_dim noise w
    = Ok r w' ->
  let pattern := ImaginaryTE.trunc_pattern te in
  exists k,
    List.filter is_split (calls w')
    = List.filter is_split (calls w) ++
        [split_density_matrix (ket (ImaginaryTE.me te)) i k forward false
           (ImaginaryTE.cutoff te) (ImaginaryTE.trunc_type te)]
    /\ k = (if ImaginaryTE.no_truncation pattern i then -1 else bond_dim)
    /\ (k = -1 <->
        (pattern = TruncPatternTypes.TruncAfterOdd /\ Z.even i = true)
        \/ (pattern = TruncPatternTypes.TruncAfterEven /\ Z.odd i = true)).
Proof.
  intros Hbd Hrun pattern.
  destruct (te_update_two_dot_objs te i forward advance beta bond_dim noise
              (objs w) w r w' eq_refl Hrun) as (o & _ & Hi & _).
  exists (ImaginaryTE.bdim pattern i bond_dim). split.
  - exact (te_update_two_dot_splits te i forward advance beta bond_dim noise
             _ w r w' eq_refl Hrun).
  - rewrite bdim_no_truncation by exact Hi. split; [reflexivity|].
    unfold ImaginaryTE.no_truncation. fold pattern.
    destruct pattern, (Z.even i) eqn:Ee; rewrite <- ?Z.negb_even, ?Ee;
      cbn; split; intros H; try lia; try tauto;
      try (destruct H as [[? ?]|[? ?]]; congruence);
      try (left; split; congruence); try (right; split; congruence).
Qed.

Lemma at_boundary_spec n_sites i forward :
  ImaginaryTE.at_boundary n_sites i forward = true <->
  (forward = true /\ i + 1 = n_sites - 1) \/ (forward = false /\ i = 0).
Proof.
  unfold ImaginaryTE.at_boundary.
  destruct forward; cbn [andb negb orb].
  - rewrite orb_false_r, Z.eqb_eq. intuition congruence.
  - rewrite Z.eqb_eq. intuition congruence.
Qed.









End TimeEvolution.

Section Aliasing.
Context {Op D S : Type} `{!Numeric D}.
Variable C : Collaborators Op D S.

Lemma obtain_two_dot_obtains mps i reduced (l : list (Call D)) :
  hoare (fun w : World D => List.filter is_obtain (calls w) = l)
    (obtain_two_dot C mps i reduced)
    (fun w' => exists c,
       List.filter is_obtain (calls w') = l ++ [c]
       /\ (c = contract_two_dot i mps reduced \/ c = load_tensor mps i)).
Proof.
  intros w a w' Hl Hrun. unfold obtain_two_dot, bind, ask in Hrun.
  destruct (_ && _).
  - apply call_Ok in Hrun as ->. cbn [calls].
    exists (contract_two_dot i mps reduced).
    rewrite List.filter_app, Hl. auto.
  - unfold call in Hrun. injection Hrun as _ <-. cbn [calls].
    exists (load_tensor mps i).
    rewrite !List.filter_app, Hl. cbn. rewrite app_nil_r. auto.
Qed.

Lemma expect_split_one_splits (e : Expect.t) i forward bra_bond_dim
    ket_bond_dim mps (l : list (Call D)) :
  hoare (fun w : World D => List.filter is_split (calls w) = l)
    (Expect.split_one C e i forward bra_bond_dim ket_bond_dim mps)
    (fun w' =>
       List.filter is_split (calls w')
       = l ++ [split_density_matrix mps i
                 (if Pos.eqb mps (bra (Expect.me e)) then bra_bond_dim
                  else ket_bond_dim)
                 forward false (Expect.cutoff e) (Expect.trunc_type e)]).
Proof.
  unfold Expect.split_one.
  skip_preserved (fun w : World D => List.filter is_split (calls w))
    (fun x : list (Call D) => x = l).
  eapply hoare_bind; [apply hoare_call_filter; reflexivity | intros ?].
  apply (hoare_preserves
           (fun w : World D => List.filter is_split (calls w))
           (fun x => x = l ++ _)).
  preserves_tac.
Qed.

Lemma expect_update_two_dot_alias (e : Expect.t) i forward propagate
    bra_bond_dim ket_bond_dim :
  bra (Expect.me e) = ket (Expect.me e) ->
  Expect.update_two_dot C e i forward propagate bra_bond_dim ket_bond_dim
  = (call (frame_activate 0) >>
     for_each [bra (Expect.me e)] (fun mps =>
       obtain_two_dot C mps i (Pos.eqb mps (bra (Expect.me e)))) >>
     call (eff_ham FuseTypes.FuseLR false) >>
     call expect >>
     do '(expectations, nflop, tmult) <- ask (expect_result C);
     call (deallocate h_eff) >>
     do '(bra_error, ket_error) <-
       (if propagate then
          Expect.split_all
            (Expect.split_one C e i forward bra_bond_dim ket_bond_dim)
            (bra (Expect.me e)) [bra (Expect.me e)] (of_Q 0, of_Q 0)
        else ret (of_Q 0, of_Q 0));
     for_each [bra (Expect.me e)] (fun mps =>
       call (deallocate (wfn_info mps)) >> call (deallocate (wfn mps))) >>
     ret {| Expect.it_expectations := expectations;
            Expect.it_bra_error := bra_error;
            Expect.it_ket_error := ket_error;
            Expect.it_tmult := tmult; Expect.it_nflop := nflop |}).
Proof.
  intros Halias. unfold Expect.update_two_dot, Expect.mpss, Expect.old_wfns_of.
  rewrite <- Halias, Pos.eqb_refl. reflexivity.
Qed.

Lemma expect_alias_obtains (e : Expect.t) i forward propagate bra_bond_dim
    ket_bond_dim (l : list (Call D)) :
  bra (Expect.me e) = ket (Expect.me e) ->
  hoare (fun w : World D => List.filter is_obtain (calls w) = l)
    (Expect.update_two_dot C e i forward propagate bra_bond_dim ket_bond_dim)
    (fun w' => exists c,
       List.filter is_obtain (calls w') = l ++ [c]
       /\ (c = contract_two_dot i (bra (Expect.me e)) true
           \/ c = load_tensor (bra (Expect.me e)) i)).
Proof.
  intros Halias. rewrite expect_update_two_dot_alias by exact Halias.
  cbn [for_each Expect.split_all]. rewrite Pos.eqb_refl.
  skip_preserved (fun w : World D => List.filter is_obtain (calls w))
    (fun x : list (Call D) => x = l).
  eapply hoare_bind.
  { eapply hoare_bind; [apply obtain_two_dot_obtains | intros ?].
    apply (hoare_preserves
             (fun w : World D => List.filter is_obtain (calls w))
             (fun x => exists c, x = l ++ [c] /\ _)).
    preserves_tac. }
  intros ?.
  apply (hoare_preserves
           (fun w : World D => List.filter is_obtain (calls w))
           (fun x => exists c, x = l ++ [c] /\ _)).
  preserves_tac.
Qed.

Lemma expect_alias_splits (e : Expect.t) i forward propagate bra_bond_dim
    ket_bond_dim (l : list (Call D)) :
  bra (Expect.me e) = ket (Expect.me e) ->
  hoare (fun w : World D => List.filter is_split (calls w) = l)
    (Expect.update_two_dot C e i forward propagate bra_bond_dim ket_bond_dim)
    (fun w' =>
       List.filter is_split (calls w')
       = l ++ (if propagate
               then [split_density_matrix (bra (Expect.me e)) i bra_bond_dim
                       forward false (Expect.cutoff e) (Expect.trunc_type e)]
               else [])).
Proof.
  intros Halias. rewrite expect_update_two_dot_alias by exact Halias.
  cbn [for_each Expect.split_all]. rewrite Pos.eqb_refl.
  skip_preserved (fun w : World D => List.filter is_split (calls w))
    (fun x : list (Call D) => x = l).
  destruct propagate.
  - eapply hoare_bind.
    { eapply hoare_bind.
      { unfold Expect.split_one. rewrite Pos.eqb_refl.
        skip_preserved (fun w : World D => List.filter is_split (calls w))
          (fun x : list (Call D) => x = l).
        eapply hoare_bind; [apply hoare_call_filter; reflexivity | intros ?].
        apply (hoare_preserves
                 (fun w : World D => List.filter is_split (calls w))
                 (fun x => x = l ++ _)).
        preserves_tac. }
      intros ?.
      apply (hoare_preserves
               (fun w : World D => List.filter is_split (calls w))
               (fun x => x = l ++ _)).
      preserves_tac. }
    intros ?.
    apply (hoare_preserves
             (fun w : World D => List.filter is_split (calls w))
             (fun x => x = l ++ _)).
    preserves_tac.
  - rewrite app_nil_r.
    apply (hoare_preserves
             (fun w : World D => List.filter is_split (calls w))
             (fun x => x = l)).
    preserves_tac.
Qed.

Lemma expect_alias_objs (e : Expect.t) i forward propagate bra_bond_dim
    ket_bond_dim (O : gmap ptr MPS) :
  bra (Expect.me e) = ket (Expect.me e) ->
  hoare (fun w : World D => objs w = O)
    (Expect.update_two_dot C e i forward propagate bra_bond_dim ket_bond_dim)
    (fun w' =>
       if propagate
       then exists o,
              O !! bra (Expect.me e) = Some o
              /\ 0 <= i /\ (Z.to_nat i + 1 < length (canonical_form o))%nat
              /\ objs w' = <[bra (Expect.me e) :=
                               mkMPS (step_tags forward "C" (Z.to_nat i)
                                        (canonical_form o)) (nroots o)]> O
       else objs w' = O).
Proof.
  intros Halias. rewrite expect_update_two_dot_alias by exact Halias.
  cbn [for_each Expect.split_all]. rewrite Pos.eqb_refl.
  skip_preserved (@objs D) (fun x : gmap ptr MPS => x = O).
  destruct propagate.
  - eapply hoare_bind.
    { eapply hoare_bind.
      { unfold Expect.split_one.
        skip_preserved (@objs D) (fun x : gmap ptr MPS => x = O).
        eapply hoare_bind; [apply update_canonical_form_objs | intros ?].
        apply (hoare_preserves (@objs D)
                 (fun x => exists o, _ /\ _ /\ _ /\ x = _)).
        preserves_tac. }
      intros ?.
      apply (hoare_preserves (@objs D)
               (fun x => exists o, _ /\ _ /\ _ /\ x = _)).
      preserves_tac. }
    intros ?.
    apply (hoare_preserves (@objs D)
             (fun x => exists o, _ /\ _ /\ _ /\ x = _)).
    preserves_tac.
  - apply (hoare_preserves (@objs D) (fun x : gmap ptr MPS => x = O)).
    preserves_tac.
Qed.

(** C10.  A two-dot update of Compress whose bra and ket are the same
    object fails the assertion it starts with, whatever else it is given:
    the bra and the ket must be distinct.  A two-dot update of Expect whose
    bra and ket are the same object goes over that object once: an update
    that completes has rebuilt or loaded its two-site tensor once and,
    when it propagates, has split it once, with the bond dimension of the
    bra, and has written its two tags. *)
Theorem bra_ket_aliasing :
  (forall (c : Compress.t) i forward bra_bond_dim ket_bond_dim noise
          (w : World D),
      bra (Compress.me c) = ket (Compress.me c) ->
      Compress.update_two_dot C c i forward bra_bond_dim ket_bond_dim noise w
      = AssertFail)
  /\ (forall (e : Expect.t) i forward propagate bra_bond_dim ket_bond_dim
             (w w' : World D) r,
      bra (Expect.me e) = ket (Expect.me e) ->
      Expect.update_two_dot C e i forward propagate bra_bond_dim ket_bond_dim
        w = Ok r w' ->
      Expect.mpss (Expect.me e) = [bra (Expect.me e)]
      /\ (exists c,
            List.filter is_obtain (calls w')
            = List.filter is_obtain (calls w) ++ [c]
            /\ (c = contract_two_dot i (bra (Expect.me e)) true
                \/ c = load_tensor (bra (Expect.me e)) i))
      /\ List.filter is_split (calls w')
         = List.filter is_split (calls w) ++
             (if propagate
              then [split_density_matrix (bra (Expect.me e)) i bra_bond_dim
                      forward false (Expect.cutoff e) (Expect.trunc_type e)]
              else [])
      /\ (if propagate
          then exists o,
                 objs w !! bra (Expect.me e) = Some o
                 /\ objs w' = <[bra (Expect.me e) :=
                                  mkMPS (step_tags forward "C" (Z.to_nat i)
                                           (canonical_form o)) (nroots o)]>
                                (objs w)
          else objs w' = objs w)).
Proof.
  split.
  - intros c i forward bra_bond_dim ket_bond_dim noise w Halias.
    unfold Compress.update_two_dot, bind, assert.
    rewrite Halias, Pos.eqb_refl. reflexivity.
  - intros e i forward propagate bra_bond_dim ket_bond_dim w w' r Halias Hrun.
    split.
    { unfold Expect.mpss. rewrite Halias, Pos.eqb_refl. reflexivity. }
    split.
    { exact (expect_alias_obtains e i forward propagate bra_bond_dim
               ket_bond_dim _ Halias w r w' eq_refl Hrun). }
    split.
    { exact (expect_alias_splits e i forward propagate bra_bond_dim
               ket_bond_dim _ Halias w r w' eq_refl Hrun). }
    pose proof (expect_alias_objs e i forward propagate bra_bond_dim
                  ket_bond_dim _ Halias w r w' eq_refl Hrun) as Hobjs.
    destruct propagate; [|exact Hobjs].
    destruct Hobjs as (o & Ho & _ & _ & Hw). eauto.
Qed.
End Aliasing.

Section Thermal.
Context {Op D S : Type} `{!Numeric D}.
Variable C : Collaborators Op D S.






End Thermal.

Section Convergence.
Context {Op D S : Type} `{!Numeric D}.
Variable C : Collaborators Op D S.

(** The test the code makes after sweep [iw] is the stop rule. *)
Lemma dmrg_converged_stop_rule (d : @DMRG.t D S) tol iw (w w' : World D) b :
  dltb (of_Z 0) tol = true ->
  length (DMRG.energies d) = Datatypes.S iw ->
  DMRG.converged d tol iw w = Ok b w' ->
  w' = w
  /\ b = DMRG.stop_rule tol (DMRG.energies d) (DMRG.noises d)
           (DMRG.bond_dims d) iw.
Proof.
  intros Htol Hlen. unfold DMRG.converged, DMRG.stop_rule.
  rewrite Hlen, Htol, andb_true_r.
  destruct iw as [|iw].
  { cbn. intros [= <- <-]. auto. }
  replace (2 <=? Datatypes.S (Datatypes.S iw))%nat with true
    by (symmetry; apply Nat.leb_le; lia).
  replace (Datatypes.S (Datatypes.S iw) - 1)%nat with (Datatypes.S iw) by lia.
  replace (Datatypes.S (Datatypes.S iw) - 2)%nat with iw by lia.
  intros Hrun.
  apply bind_Ok in Hrun as (e1 & w1 & H1 & Hrun).
  apply deref_Ok in H1 as [-> ->].
  apply bind_Ok in Hrun as (e2 & w2 & H2 & Hrun).
  apply deref_Ok in H2 as [-> ->].
  destruct (dltb (dabs (dsub e1 e2)) tol).
  2:{ injection Hrun as <- <-. split; [reflexivity|].
      repeat (destruct (_ : option _); try reflexivity). }
  apply bind_Ok in Hrun as (n & w3 & H3 & Hrun).
  apply deref_Ok in H3 as [-> ->].
  apply bind_Ok in Hrun as (nb & w4 & H4 & Hrun).
  apply deref_Ok in H4 as [-> ->].
  destruct (deqb n nb).
  2:{ injection Hrun as <- <-. split; [reflexivity|].
      repeat (destruct (_ : option _); try reflexivity). }
  apply bind_Ok in Hrun as (bd & w5 & H5 & Hrun).
  apply deref_Ok in H5 as [-> ->].
  apply bind_Ok in Hrun as (bb & w6 & H6 & Hrun).
  apply deref_Ok in H6 as [-> ->].
  injection Hrun as <- <-. auto.
Qed.

(** The stop rule at sweep [iw] reads the energies up to [iw] only. *)
Lemma dmrg_stop_rule_prefix (tol : D) es more noises bond_dims iw :
  (iw < length es)%nat ->
  DMRG.stop_rule tol (es ++ more) noises bond_dims iw
  = DMRG.stop_rule tol es noises bond_dims iw.
Proof.
  intros Hiw. unfold DMRG.stop_rule. destruct iw as [|iw]; [reflexivity|].
  rewrite !lookup_app_l by lia. reflexivity.
Qed.

Lemma dmrg_sweeps_stop tol n :
  dltb (of_Z 0) tol = true ->
  forall iw (d : DMRG.t) forward (w w' : World D) d' forward',
    length (DMRG.energies d) = iw ->
    DMRG.sweeps C tol n iw d forward w = Ok (d', forward') w' ->
    exists new,
      DMRG.energies d' = DMRG.energies d ++ new
      /\ DMRG.noises d' = DMRG.noises d
      /\ DMRG.bond_dims d' = DMRG.bond_dims d
      /\ (length new <= n)%nat
      /\ (forall j, (iw <= j)%nat -> (Datatypes.S j < iw + length new)%nat ->
            DMRG.stop_rule tol (DMRG.energies d') (DMRG.noises d')
              (DMRG.bond_dims d') j = false)
      /\ ((length new < n)%nat ->
            exists j, (iw + length new)%nat = Datatypes.S j
                      /\ DMRG.stop_rule tol (DMRG.energies d')
                           (DMRG.noises d') (DMRG.bond_dims d') j = true).
Proof.
  intros Htol. induction n as [|n IH];
    intros iw d forward w w' d' forward' Hlen; cbn [DMRG.sweeps].
  - intros [= <- <- <-]. exists []. rewrite app_nil_r. cbn.
    repeat split; auto; intros; lia.
  - intros Hrun.
    apply bind_Ok in Hrun as (bd & w1 & H1 & Hrun).
    apply deref_Ok in H1 as [_ ->].
    apply bind_Ok in Hrun as (nz & w2 & H2 & Hrun).
    apply deref_Ok in H2 as [_ ->].
    apply bind_Ok in Hrun as (th & w3 & H3 & Hrun).
    apply deref_Ok in H3 as [_ ->].
    apply bind_Ok in Hrun as (res & w4 & Hsweep & Hrun).
    apply bind_Ok in Hrun as (conv & w5 & Hconv & Hrun).
    apply dmrg_converged_stop_rule in Hconv as [-> Hrule]; [|exact Htol|].
    2:{ cbn [DMRG.energies]. rewrite length_app. cbn. lia. }
    cbn [DMRG.energies DMRG.noises DMRG.bond_dims] in Hrule.
    destruct conv.
    + injection Hrun as <- <- <-.
      cbn [DMRG.energies DMRG.noises DMRG.bond_dims].
      exists [res.1]. cbn [length].
      split; [reflexivity|]. split; [reflexivity|]. split; [reflexivity|].
      split; [lia|]. split; [intros j Hj1 Hj2; lia|].
      intros _. exists iw. split; [lia|]. symmetry. exact Hrule.
    + apply IH in Hrun as (new & He & Hn & Hb & Hlen' & Hbefore & Hstop).
      2:{ cbn [DMRG.energies]. rewrite length_app. cbn. lia. }
      cbn [DMRG.energies DMRG.noises DMRG.bond_dims] in He, Hn, Hb.
      exists (res.1 :: new). cbn [length].
      split; [rewrite He, <- app_assoc; reflexivity|].
      split; [exact Hn|]. split; [exact Hb|]. split; [lia|]. split.
      * intros j Hj1 Hj2. destruct (decide (j = iw)) as [->|Hne].
        { rewrite He, Hn, Hb, dmrg_stop_rule_prefix
            by (rewrite length_app; cbn; lia).
          symmetry. exact Hrule. }
        apply Hbefore; lia.
      * intros Hlt. destruct Hstop as (j & Hj & Hrule'); [lia|].
        exists j. split; [lia|exact Hrule'].
Qed.

Lemma compress_converged_stop_rule (c : Compress.t) tol iw (w w' : World D)
    b :
  dltb (of_Z 0) tol = true ->
  length (Compress.norms c) = Datatypes.S iw ->
  Compress.converged c tol iw w = Ok b w' ->
  w' = w
  /\ b = Compress.stop_rule tol (Compress.norms c) (Compress.noises c)
           (Compress.bra_bond_dims c) iw.
Proof.
  intros Htol Hlen. unfold Compress.converged, Compress.stop_rule.
  rewrite Hlen, Htol, andb_true_r.
  destruct iw as [|iw].
  { cbn. intros [= <- <-]. auto. }
  replace (2 <=? Datatypes.S (Datatypes.S iw))%nat with true
    by (symmetry; apply Nat.leb_le; lia).
  replace (Datatypes.S (Datatypes.S iw) - 1)%nat with (Datatypes.S iw) by lia.
  replace (Datatypes.S (Datatypes.S iw) - 2)%nat with iw by lia.
  intros Hrun.
  apply bind_Ok in Hrun as (e1 & w1 & H1 & Hrun).
  apply deref_Ok in H1 as [-> ->].
  apply bind_Ok in Hrun as (e2 & w2 & H2 & Hrun).
  apply deref_Ok in H2 as [-> ->].
  destruct (dltb (dabs (dsub e1 e2)) tol).
  2:{ injection Hrun as <- <-. split; [reflexivity|].
      repeat (destruct (_ : option _); try reflexivity). }
  apply bind_Ok in Hrun as (n & w3 & H3 & Hrun).
  apply deref_Ok in H3 as [-> ->].
  apply bind_Ok in Hrun as (nb & w4 & H4 & Hrun).
  apply deref_Ok in H4 as [-> ->].
  destruct (deqb n nb).
  2:{ injection Hrun as <- <-. split; [reflexivity|].
      repeat (destruct (_ : option _); try reflexivity). }
  apply bind_Ok in Hrun as (bd & w5 & H5 & Hrun).
  apply deref_Ok in H5 as [-> ->].
  apply bind_Ok in Hrun as (bb & w6 & H6 & Hrun).
  apply deref_Ok in H6 as [-> ->].
  injection Hrun as <- <-. auto.
Qed.

Lemma compress_stop_rule_prefix (tol : D) ns more noises bond_dims iw :
  (iw < length ns)%nat ->
  Compress.stop_rule tol (ns ++ more) noises bond_dims iw
  = Compress.stop_rule tol ns noises bond_dims iw.
Proof.
  intros Hiw. unfold Compress.stop_rule. destruct iw as [|iw]; [reflexivity|].
  rewrite !lookup_app_l by lia. reflexivity.
Qed.

Lemma compress_sweeps_stop tol n :
  dltb (of_Z 0) tol = true ->
  forall iw (c : Compress.t) forward (w w' : World D) c' forward',
    length (Compress.norms c) = iw ->
    Compress.sweeps C tol n iw c forward w = Ok (c', forward') w' ->
    exists new,
      Compress.norms c' = Compress.norms c ++ new
      /\ Compress.noises c' = Compress.noises c
      /\ Compress.bra_bond_dims c' = Compress.bra_bond_dims c
      /\ (length new <= n)%nat
      /\ (forall j, (iw <= j)%nat -> (Datatypes.S j < iw + length new)%nat ->
            Compress.stop_rule tol (Compress.norms c') (Compress.noises c')
              (Compress.bra_bond_dims c') j = false)
      /\ ((length new < n)%nat ->
            exists j, (iw + length new)%nat = Datatypes.S j
                      /\ Compress.stop_rule tol (Compress.norms c')
                           (Compress.noises c') (Compress.bra_bond_dims c') j
                         = true).
Proof.
  intros Htol. induction n as [|n IH];
    intros iw c forward w w' c' forward' Hlen; cbn [Compress.sweeps].
  - intros [= <- <- <-]. exists []. rewrite app_nil_r. cbn.
    repeat split; auto; intros; lia.
  - intros Hrun.
    apply bind_Ok in Hrun as (bd & w1 & H1 & Hrun).
    apply deref_Ok in H1 as [_ ->].
    apply bind_Ok in Hrun as (nz & w2 & H2 & Hrun).
    apply deref_Ok in H2 as [_ ->].
    apply bind_Ok in Hrun as (kd & w3 & H3 & Hrun).
    apply deref_Ok in H3 as [_ ->].
    apply bind_Ok in Hrun as (res & w4 & Hsweep & Hrun).
    apply bind_Ok in Hrun as (conv & w5 & Hconv & Hrun).
    apply compress_converged_stop_rule in Hconv as [-> Hrule];
      [|exact Htol|].
    2:{ cbn [Compress.norms]. rewrite length_app. cbn. lia. }
    cbn [Compress.norms Compress.noises Compress.bra_bond_dims] in Hrule.
    destruct conv.
    + injection Hrun as <- <- <-.
      cbn [Compress.norms Compress.noises Compress.bra_bond_dims].
      exists [res]. cbn [length].
      split; [reflexivity|]. split; [reflexivity|]. split; [reflexivity|].
      split; [lia|]. split; [intros j Hj1 Hj2; lia|].
      intros _. exists iw. split; [lia|]. symmetry. exact Hrule.
    + apply IH in Hrun as (new & He & Hn & Hb & Hlen' & Hbefore & Hstop).
      2:{ cbn [Compress.norms]. rewrite length_app. cbn. lia. }
      cbn [Compress.norms Compress.noises Compress.bra_bond_dims]
        in He, Hn, Hb.
      exists (res :: new). cbn [length].
      split; [rewrite He, <- app_assoc; reflexivity|].
      split; [exact Hn|]. split; [exact Hb|]. split; [lia|]. split.
      * intros j Hj1 Hj2. destruct (decide (j = iw)) as [->|Hne].
        { rewrite He, Hn, Hb, compress_stop_rule_prefix
            by (rewrite length_app; cbn; lia).
          symmetry. exact Hrule. }
        apply Hbefore; lia.
      * intros Hlt. destruct Hstop as (j & Hj & Hrule'); [lia|].
        exists j. split; [lia|exact Hrule'].
Qed.

(** C2, amended.  For a positive tolerance, a run of [DMRG::solve]
    that returns made its sweeps one after the other and stopped before
    the sweeps asked for ran out exactly when a sweep met the stop rule:
    the last of the energies of the sweep, which is the energy of the
    last root and the best energy only when there is one root, is within
    [tol] of the last of those of the sweep before, and the noise and the
    bond dimension of the sweep equal the last ones of their schedules.
    The same holds for [Compress::solve], with the norm in place of the
    energy and the schedule of the bond dimensions of the bra alone: that
    of the ket is not looked at. *)
Theorem solve_stops_when_converged tol :
  dltb (of_Z 0) tol = true ->
  (forall (d : DMRG.t) n_sweeps forward (w w' : World D) e d',
      DMRG.solve C d n_sweeps forward tol w = Ok (e, d') w' ->
      stops_exactly_when (Z.to_nat n_sweeps) (length (DMRG.energies d'))
        (DMRG.stop_rule tol (DMRG.energies d') (DMRG.noises d')
           (DMRG.bond_dims d')))
  /\ (forall (c : Compress.t) n_sweeps forward (w w' : World D) norm c',
      Compress.solve C c n_sweeps forward tol w = Ok (norm, c') w' ->
      stops_exactly_when (Z.to_nat n_sweeps) (length (Compress.norms c'))
        (Compress.stop_rule tol (Compress.norms c') (Compress.noises c')
           (Compress.bra_bond_dims c'))).
Proof.
  intros Htol. split.
  - intros d n_sweeps forward w w' e d' Hrun. unfold DMRG.solve in Hrun.
    apply bind_Ok in Hrun as (bds & w1 & _ & Hrun).
    apply bind_Ok in Hrun as (nzs & w2 & _ & Hrun).
    apply bind_Ok in Hrun as ([d1 forward'] & w3 & Hsweeps & Hrun).
    apply bind_Ok in Hrun as (e' & w4 & _ & Hrun).
    injection Hrun as _ <- _.
    cbn [DMRG.energies DMRG.noises DMRG.bond_dims].
    apply (dmrg_sweeps_stop tol _ Htol) in Hsweeps
      as (new & He & _ & _ & Hlen & Hbefore & Hstop); [|reflexivity].
    cbn [DMRG.energies app] in He. rewrite He in *.
    split; [exact Hlen|]. split.
    + intros iw Hiw. apply Hbefore; lia.
    + intros Hlt. destruct (Hstop Hlt) as (j & Hj & Hrule).
      exists j. split; [lia|exact Hrule].
  - intros c n_sweeps forward w w' norm c' Hrun.
    unfold Compress.solve in Hrun.
    apply bind_Ok in Hrun as (bds & w1 & _ & Hrun).
    apply bind_Ok in Hrun as (kds & w2 & _ & Hrun).
    apply bind_Ok in Hrun as (nzs & w3 & _ & Hrun).
    apply bind_Ok in Hrun as ([c1 forward'] & w4 & Hsweeps & Hrun).
    apply bind_Ok in Hrun as (n' & w5 & _ & Hrun).
    injection Hrun as _ <- _.
    cbn [Compress.norms Compress.noises Compress.bra_bond_dims].
    apply (compress_sweeps_stop tol _ Htol) in Hsweeps
      as (new & He & _ & _ & Hlen & Hbefore & Hstop); [|reflexivity].
    cbn [Compress.norms app] in He. rewrite He in *.
    split; [exact Hlen|]. split.
    + intros iw Hiw. apply Hbefore; lia.
    + intros Hlt. destruct (Hstop Hlt) as (j & Hj & Hrule).
      exists j. split; [lia|exact Hrule].
Qed.
End Convergence.
End DriverFacts.

(** ** Concrete runs *)

Module EngineRuns.
Import ParallelTensorFunctions EngineFacts EngineExample.

(** A sum of two products under an [ExprRef], with the all-reduce asked
    for: two block multiplications, then the one all-reduce.  The same sum
    passed bare issues no all-reduce though one was asked for, and a sum
    with a product whose second factor has no matrix stops on the
    assertion. *)
Lemma tensor_product_multiply_nodes_witness :
  tensor_product_multiply lop rop (ExprRef true (Sum [string12; string12]))
    20%positive 21%positive 0 true engine_world
  = Ok tt {| cinfo := 0%nat;
             calls := [opf_tensor_product_multiply 0 11%positive 12%positive
                         20%positive 21%positive 0 5;
                       opf_tensor_product_multiply 0 11%positive 12%positive
                         20%positive 21%positive 0 5;
                       comm_allreduce_sum 21%positive] |}
  /\ tensor_product_multiply lop rop (Sum [string12; string12]) 20%positive
       21%positive 0 true engine_world
     = Ok tt {| cinfo := 0%nat;
                calls := [opf_tensor_product_multiply 0 11%positive
                            12%positive 20%positive 21%positive 0 5;
                          opf_tensor_product_multiply 0 11%positive
                            12%positive 20%positive 21%positive 0 5] |}
  /\ tensor_product_multiply lop rop (Sum [string12; string13]) 20%positive
       21%positive 0 true engine_world
     = AssertFail.
Proof.
  pose proof (tensor_product_multiply_nodes (D:=Z) (S:=Z) (CInfo:=nat) lop
                rop) as (Hsum & Href & _).
  split; [|split].
  - destruct (Href true (Sum [string12; string12]) 20%positive 21%positive 0
                true engine_world) as (_ & _ & ->).
    vm_compute. reflexivity.
  - destruct (Hsum [string12; string12] 20%positive 21%positive 0 true
                engine_world) as [-> _].
    vm_compute. reflexivity.
  - destruct (Hsum [string12; string13] 20%positive 21%positive 0 true
                engine_world) as [-> _].
    vm_compute. reflexivity.
Defined.

(** In [Auto] mode the [ExprRef] of the perturbative-noise path returns
    without a reduce-sum: the log ends with the product. *)
Lemma partial_multiply_ExprRef_Auto_no_reduce :
  ~ (forall w',
        partial_run SeqTypes.Auto (ExprRef false (Prod string12)) engine_world
        = Ok tt w' ->
        exists w1,
          partial_run SeqTypes.Auto (Prod string12) engine_world = Ok tt w1
          /\ calls w' = calls w1 ++
               [comm_reduce_sum_group [21%positive; 22%positive] 0]).
Proof.
  intros Hclaim.
  destruct (Hclaim _ eq_refl) as (w1 & H1 & Hcalls).
  vm_compute in H1. injection H1 as <-. vm_compute in Hcalls.
  discriminate Hcalls.
Qed.

(** In [Simple] mode the same call ends with the reduce-sum to the
    root. *)
Lemma partial_multiply_ExprRef_witness :
  exists w',
    partial_run SeqTypes.Simple (ExprRef false (Prod string12)) engine_world
    = Ok tt w'
    /\ exists w1,
         partial_run SeqTypes.Simple (Prod string12) engine_world = Ok tt w1
         /\ calls w' = calls w1 ++
              [comm_reduce_sum_group [21%positive; 22%positive] 0]
         /\ allreduces (calls w') = [].
Proof.
  eexists.
  assert (partial_run SeqTypes.Simple (ExprRef false (Prod string12))
            engine_world = Ok tt _) as Hrun
    by (vm_compute; reflexivity).
  split; [exact Hrun|].
  destruct (partial_multiply_ExprRef (H0:=QLabel_Z) lop rop (fun _ => 0)
              9%positive SeqTypes.Simple 0 false (Prod string12) true
              20%positive 0 [(0, 0)] [[7%nat]] [0] [21%positive; 22%positive]
              engine_world _ Hrun) as (w1 & H1 & _ & Hcalls & Hquiet).
  exists w1. split; [exact H1|]. split; [exact Hcalls|exact Hquiet].
Defined.

(** Five operators and three definitions.  The first definition, divided
    by the factor -1 of its name, keeps two of its three summands on this
    worker and is owned elsewhere; the second is a local reference with
    one summand; the third is zero.  Two passes add a summand each time,
    the third finds none and ends the loop, short of the five entries; the
    result of the first definition alone is reduced to its owner. *)
Lemma numerical_transform_passes_witness :
  exists a' w',
    localizing_run engine_world = Ok (a', 3) w'
    /\ 0 <= 3 <= Z.of_nat (length (ops wide_tensor))
    /\ calls w'
       = [allocate 31%positive; allocate 34%positive;
          opf_iadd 31%positive 32%positive (-1) false;
          opf_iadd 34%positive 33%positive 1 false; seq_simple_perform;
          opf_iadd 31%positive 35%positive (-1) true; seq_simple_perform;
          comm_reduce_sum 31%positive 1].
Proof.
  eexists _, _.
  assert (localizing_run engine_world = Ok (_, 3) _) as Hrun
    by (vm_compute; reflexivity).
  split; [exact Hrun|].
  destruct (numerical_transform_passes SeqTypes.Simple abs_of factor_of
              scale owner_of localize a wide_tensor
              [6%positive; 4%positive; 5%positive]
              [Sum [string_of 2; string_of 3; conjugate_of 5];
               ExprRef true (Sum [string_of 3]); Zero]
              engine_world _ _ 3 Hrun)
    as (Hp & _ & _ & Hcalls).
  split; [exact Hp|]. rewrite Hcalls. vm_compute. reflexivity.
Defined.
End EngineRuns.

Module DriverRuns.
Import DriverFacts Example.

(** From [CCRR], a forward step at site 0 leaves [LCRR]; from [MMRR], a
    backward state-averaged step at site 0 leaves [MRRR]. *)
Lemma two_dot_step_canonical_form_witness :
  (exists r w',
     DMRG.blocking collaborators dmrg 0 true 100 0 1 world = Ok r w'
     /\ two_dot_ready 0 (list_ascii_of_string "CCRR")
     /\ objs w' = <[1%positive := chain "LCRR" None]> (objs world))
  /\ (exists r w',
        DMRG.blocking collaborators dmrg 0 false 100 0 1 multi_world
        = Ok r w'
        /\ two_dot_ready 0 (list_ascii_of_string "MMRR")
        /\ objs w' = <[1%positive := chain "MRRR" (Some 2)]>
                       (objs multi_world)).
Proof.
  assert (forall cf, length cf = 4%nat -> cf !! 2%nat = Some "R"%char ->
                     cf !! 3%nat = Some "R"%char -> two_dot_ready 0 cf)
    as Hready.
  { intros cf Hlen H2 H3 j. split; [lia|]. intros Hj.
    destruct j as [|[|[|[|j]]]]; try lia; assumption. }
  split.
  - eexists _, _.
    assert (DMRG.blocking collaborators dmrg 0 true 100 0 1 world = Ok _ _)
      as Hrun by (vm_compute; reflexivity).
    split; [exact Hrun|].
    split; [apply Hready; reflexivity|].
    destruct (two_dot_step_canonical_form collaborators dmrg 0 true 100 0 1
                world _ _ Hrun)
      as (o & cf' & _ & Ho & Hobjs & _ & _ & _ & _ & _ & _ & Hcanonical).
    change (Some (chain "CCRR" None) = Some o) in Ho. injection Ho as <-.
    rewrite Hobjs, Hcanonical; [reflexivity|].
    apply Hready; reflexivity.
  - eexists _, _.
    assert (DMRG.blocking collaborators dmrg 0 false 100 0 1 multi_world
            = Ok _ _) as Hrun by (vm_compute; reflexivity).
    split; [exact Hrun|].
    split; [apply Hready; reflexivity|].
    destruct (two_dot_step_canonical_form collaborators dmrg 0 false 100 0 1
                multi_world _ _ Hrun)
      as (o & cf' & _ & Ho & Hobjs & _ & _ & _ & _ & _ & _ & Hcanonical).
    change (Some (chain "MMRR" (Some 2)) = Some o) in Ho. injection Ho as <-.
    rewrite Hobjs, Hcanonical; [reflexivity|].
    apply Hready; reflexivity.
Defined.

(** Five sweeps asked for, the same energy (or norm) in each: the second
    sweep meets the stop rule and the loop ends there, for the ground-state
    search and for the compression alike. *)
Lemma solve_stops_when_converged_witness :
  dltb (of_Z 0) 1 = true
  /\ (exists e d' w',
        DMRG.solve collaborators dmrg 5 true 1 world = Ok (e, d') w'
        /\ DMRG.energies d' = [[-7]; [-7]]
        /\ stops_exactly_when 5 2
             (DMRG.stop_rule 1 (DMRG.energies d') (DMRG.noises d')
                (DMRG.bond_dims d')))
  /\ (exists norm c' w',
        Compress.solve collaborators (compress 2%positive 1%positive) 5 true
          1 world = Ok (norm, c') w'
        /\ Compress.norms c' = [1; 1]
        /\ stops_exactly_when 5 2
             (Compress.stop_rule 1 (Compress.norms c') (Compress.noises c')
                (Compress.bra_bond_dims c'))).
Proof.
  split; [reflexivity|]. split.
  - eexists _, _, _.
    assert (DMRG.solve collaborators dmrg 5 true 1 world = Ok (_, _) _)
      as Hrun by (vm_compute; reflexivity).
    split; [exact Hrun|]. split; [reflexivity|].
    exact (proj1 (solve_stops_when_converged collaborators 1 eq_refl)
             dmrg 5 true world _ _ _ Hrun).
  - eexists _, _, _.
    assert (Compress.solve collaborators (compress 2%positive 1%positive) 5
              true 1 world = Ok (_, _) _)
      as Hrun by (vm_compute; reflexivity).
    split; [exact Hrun|]. split; [reflexivity|].
    exact (proj2 (solve_stops_when_converged collaborators 1 eq_refl)
             (compress 2%positive 1%positive) 5 true world _ _ _ Hrun).
Defined.

(** The stop rule as the specification words it does not tell when the
    loops stop.  A state average whose best energy is the same in every
    sweep, with the schedules at their final values from the first sweep
    on, runs all three sweeps asked for, the second energy having changed
    by the tolerance.  One whose best energy changes by the tolerance from
    sweep to sweep stops after the second sweep, the second energy having
    stayed.  A compression stops after the second of three sweeps while
    the bond dimension of the ket is not the final one of its schedule. *)
Lemma solve_departs_from_spec_stop_rule :
  (exists e d' w',
     DMRG.solve second_sinking dmrg 3 true 1 multi_world = Ok (e, d') w'
     /\ DMRG.energies d' = [[-7; -1]; [-7; -2]; [-7; -3]]
     /\ DMRG.spec_stop_rule 1 (DMRG.energies d') (DMRG.noises d')
          (DMRG.bond_dims d') 1 = true
     /\ ~ stops_exactly_when 3 (length (DMRG.energies d'))
            (DMRG.spec_stop_rule 1 (DMRG.energies d') (DMRG.noises d')
               (DMRG.bond_dims d')))
  /\ (exists e d' w',
        DMRG.solve first_sinking dmrg 3 true 1 multi_world = Ok (e, d') w'
        /\ DMRG.energies d' = [[-8; -6]; [-9; -6]]
        /\ DMRG.spec_stop_rule 1 (DMRG.energies d') (DMRG.noises d')
             (DMRG.bond_dims d') 1 = false
        /\ ~ stops_exactly_when 3 (length (DMRG.energies d'))
               (DMRG.spec_stop_rule 1 (DMRG.energies d') (DMRG.noises d')
                  (DMRG.bond_dims d')))
  /\ (exists norm c' w',
        Compress.solve collaborators growing_ket 3 true 1 world
        = Ok (norm, c') w'
        /\ Compress.norms c' = [1; 1]
        /\ Compress.ket_bond_dims c' = [100; 200; 300]
        /\ Compress.spec_stop_rule 1 (Compress.norms c')
             (Compress.noises c') (Compress.bra_bond_dims c')
             (Compress.ket_bond_dims c') 1 = false
        /\ ~ stops_exactly_when 3 (length (Compress.norms c'))
               (Compress.spec_stop_rule 1 (Compress.norms c')
                  (Compress.noises c') (Compress.bra_bond_dims c')
                  (Compress.ket_bond_dims c'))).
Proof.
  split; [|split]; eexists _, _, _.
  - split; [vm_compute; reflexivity|]. split; [reflexivity|].
    split; [reflexivity|].
    intros (_ & Hbefore & _). specialize (Hbefore 1%nat).
    cbn [DMRG.energies length] in Hbefore.
    assert (2 < 3)%nat as Hlt by lia. apply Hbefore in Hlt.
    vm_compute in Hlt. discriminate Hlt.
  - split; [vm_compute; reflexivity|]. split; [reflexivity|].
    split; [reflexivity|].
    intros (_ & _ & Hstop). cbn [DMRG.energies length] in Hstop.
    destruct Hstop as (iw & Hiw & Hrule); [lia|].
    assert (iw = 1%nat) as -> by lia.
    vm_compute in Hrule. discriminate Hrule.
  - split; [vm_compute; reflexivity|]. split; [reflexivity|].
    split; [reflexivity|]. split; [reflexivity|].
    intros (_ & _ & Hstop). cbn [Compress.norms length] in Hstop.
    destruct Hstop as (iw & Hiw & Hrule); [lia|].
    assert (iw = 1%nat) as -> by lia.
    vm_compute in Hrule. discriminate Hrule.
Qed.

(** A one-site configuration: the blocking step of DMRG throws. *)
Lemma blocking_single_site_witness :
  dot (environment 1 1%positive 1%positive) <> 2
  /\ DMRG.blocking collaborators
       (DMRG.new (S:=Z) (environment 1 1%positive 1%positive) [100] [0])
       0 true 100 0 1 world
     = Thrown (runtime_error "1 site not yet implemented")
         {| objs := objs world; calls := [move_to 0] |}.
Proof.
  assert (dot (environment 1 1%positive 1%positive) <> 2) as Hdot
    by (cbn; lia).
  split; [exact Hdot|].
  exact (proj1 (blocking_single_site collaborators)
           (DMRG.new (environment 1 1%positive 1%positive) [100] [0])
           0 true 100 0 1 world Hdot).
Defined.



(** [TruncAfterOdd] at the even site 0: the split is asked for [-1]
    states; at the odd site 1 for the 100 of the caller. *)
Lemma truncation_pattern_witness :
  0 <= 100 < 65536
  /\ (exists r w',
        ImaginaryTE.update_two_dot collaborators
          (te TETypes.RK4 TruncPatternTypes.TruncAfterOdd) 0 true true 1 100
          0 world = Ok r w'
        /\ List.filter is_split (calls w')
           = [split_density_matrix 1%positive 0 (-1) true false 0
                TruncationTypes.Physical])
  /\ (exists r w',
        ImaginaryTE.update_two_dot collaborators
          (te TETypes.RK4 TruncPatternTypes.TruncAfterOdd) 1 true true 1 100
          0 world = Ok r w'
        /\ List.filter is_split (calls w')
           = [split_density_matrix 1%positive 1 100 true false 0
                TruncationTypes.Physical]).
Proof.
  assert (0 <= 100 < 65536) as Hbd by lia.
  split; [exact Hbd|]. split; eexists _, _.
  - assert (ImaginaryTE.update_two_dot collaborators
              (te TETypes.RK4 TruncPatternTypes.TruncAfterOdd) 0 true true 1
              100 0 world = Ok _ _) as Hrun by (vm_compute; reflexivity).
    split; [exact Hrun|].
    destruct (truncation_pattern collaborators
                (te TETypes.RK4 TruncPatternTypes.TruncAfterOdd) 0 true true
                1 100 0 world _ _ Hbd Hrun) as (k & Hsplit & -> & _).
    exact Hsplit.
  - assert (ImaginaryTE.update_two_dot collaborators
              (te TETypes.RK4 TruncPatternTypes.TruncAfterOdd) 1 true true 1
              100 0 world = Ok _ _) as Hrun by (vm_compute; reflexivity).
    split; [exact Hrun|].
    destruct (truncation_pattern collaborators
                (te TETypes.RK4 TruncPatternTypes.TruncAfterOdd) 1 true true
                1 100 0 world _ _ Hbd Hrun) as (k & Hsplit & -> & _).
    exact Hsplit.
Defined.



(** A compression of an object onto itself fails its assertion; an
    expectation between an object and itself splits the object once, with
    the bond dimension of the bra. *)
Lemma bra_ket_aliasing_witness :
  bra (environment 2 1%positive 1%positive)
  = ket (environment 2 1%positive 1%positive)
  /\ Compress.update_two_dot collaborators (compress 1%positive 1%positive)
       0 true 50 100 0 world = AssertFail
  /\ exists r w',
       Expect.update_two_dot collaborators (expectation 1%positive 1%positive)
         0 true true 50 100 world = Ok r w'
       /\ List.filter is_split (calls w')
          = [split_density_matrix 1%positive 0 50 true false 0
               TruncationTypes.Physical]
       /\ objs w' = <[1%positive := chain "LCRR" None]> (objs world).
Proof.
  split; [reflexivity|]. split.
  { exact (proj1 (bra_ket_aliasing collaborators)
             (compress 1%positive 1%positive) 0 true 50 100 0 world eq_refl). }
  eexists _, _.
  assert (Expect.update_two_dot collaborators
            (expectation 1%positive 1%positive) 0 true true 50 100 world
          = Ok _ _) as Hrun by (vm_compute; reflexivity).
  split; [exact Hrun|].
  destruct (proj2 (bra_ket_aliasing collaborators)
              (expectation 1%positive 1%positive) 0 true true 50 100 world _
              _ eq_refl Hrun) as (_ & _ & Hsplit & o & Ho & Hobjs).
  split; [exact Hsplit|].
  change (Some (chain "CCRR" None) = Some o) in Ho. injection Ho as <-.
  rewrite Hobjs. reflexivity.
Defined.

(** With two distinct objects the same update splits both, the bra with
    its bond dimension and the ket with its own. *)
Lemma expect_distinct_run :
  exists r w',
    Expect.update_two_dot collaborators (expectation 2%positive 1%positive)
      0 true true 50 100 world = Ok r w'
    /\ List.filter is_split (calls w')
       = [split_density_matrix 2%positive 0 50 true false 0
            TruncationTypes.Physical;
          split_density_matrix 1%positive 0 100 true false 0
            TruncationTypes.Physical].
Proof. eexists _, _. split; vm_compute; reflexivity. Qed.
End DriverRuns.

(** ** More of the sweep drivers *)

Module DriverCoverage.
Import DriverFacts.

(** Decides the comparisons of integers in the goal, then closes it by
    linear arithmetic. *)
Ltac compare_step :=
  match goal with
  | |- context [?x =? ?y] => destruct (Z.eqb_spec x y) as [?Heq|?Hne]
  | |- context [?x <? ?y] => destruct (Z.ltb_spec x y) as [?Hlt|?Hge]
  | |- context [?x <=? ?y] => destruct (Z.leb_spec x y) as [?Hle|?Hgt]
  end.

Ltac compare_lia :=
  repeat compare_step;
  cbn [andb orb negb]; try reflexivity; try lia; try (exfalso; lia).

Section Inversion.
Context {Op D S : Type} `{!Numeric D}.
Variable C : Collaborators Op D S.

Lemma ask_Ok {A} (f : list (Call D) -> A) (w w' : World D) a :
  ask f w = Ok a w' <-> a = f (calls w) /\ w' = w.
Proof.
  unfold ask. split.
  - intros [= <- <-]. auto.
  - intros [-> ->]. reflexivity.
Qed.

Lemma ret_Ok {St A} (a a' : A) (s s' : St) :
  ret a s = Ok a' s' <-> a' = a /\ s' = s.
Proof.
  unfold ret. split.
  - intros [= <- <-]. auto.
  - intros [-> ->]. reflexivity.
Qed.

(** The bookkeeping after a split, spelled out: the calls it makes and
    the two tags it writes. *)
Lemma update_canonical_form_Ok mps i forward c (w w' : World D) u :
  update_canonical_form mps i forward c w = Ok u w' ->
  exists o,
    objs w !! mps = Some o
    /\ 0 <= i /\ (Z.to_nat i + 1 < length (canonical_form o))%nat
    /\ w' = {| objs := <[mps := mkMPS (step_tags forward c (Z.to_nat i)
                                         (canonical_form o)) (nroots o)]>
                         (objs w);
               calls := calls w ++
                 (if forward
                  then [extract_state_info mps i forward;
                        set_left_dims mps (i + 1); save_left_dims mps (i + 1)]
                  else [extract_state_info mps (i + 1) forward;
                        set_right_dims mps (i + 1);
                        save_right_dims mps (i + 1)]) |}.
Proof.
  intros Hrun.
  destruct (update_canonical_form_objs mps i forward c (objs w) w u w'
              eq_refl Hrun) as (o & Ho & Hi & Hlen & Hobjs).
  exists o. split; [exact Ho|]. split; [exact Hi|]. split; [exact Hlen|].
  destruct w' as [objs' calls']. cbn [objs] in Hobjs. subst objs'. f_equal.
  unfold update_canonical_form in Hrun.
  assert (forall m j x (s s' : World D) v,
             set_canonical_form m j x s = Ok v s' -> calls s' = calls s)
    as Hset.
  { intros m j x s s' v. unfold set_canonical_form.
    destruct (objs s !! m); [|discriminate].
    destruct (_ && _); [|discriminate]. intros [= _ <-]. reflexivity. }
  destruct forward.
  - apply bind_Ok in Hrun as ([] & w1 & H1 & Hrun). apply call_Ok in H1 as ->.
    apply bind_Ok in Hrun as ([] & w2 & H2 & Hrun). apply call_Ok in H2 as ->.
    apply bind_Ok in Hrun as ([] & w3 & H3 & Hrun). apply call_Ok in H3 as ->.
    apply bind_Ok in Hrun as ([] & w4 & H4 & Hrun).
    apply Hset in H4, Hrun. cbn [calls] in *.
    rewrite Hrun, H4, <- !app_assoc. reflexivity.
  - apply bind_Ok in Hrun as ([] & w1 & H1 & Hrun). apply call_Ok in H1 as ->.
    apply bind_Ok in Hrun as ([] & w2 & H2 & Hrun). apply call_Ok in H2 as ->.
    apply bind_Ok in Hrun as ([] & w3 & H3 & Hrun). apply call_Ok in H3 as ->.
    apply bind_Ok in Hrun as ([] & w4 & H4 & Hrun).
    apply Hset in H4, Hrun. cbn [calls] in *.
    rewrite Hrun, H4, <- !app_assoc. reflexivity.
Qed.

(** The rebuilding or loading of a two-site tensor, spelled out. *)
Lemma obtain_two_dot_Ok mps i reduced (w w' : World D) u :
  obtain_two_dot C mps i reduced w = Ok u w' ->
  w' = {| objs := objs w;
          calls := calls w ++
            (if tensor_loaded C (calls w) mps i
                && tensor_loaded C (calls w) mps (i + 1)
             then [contract_two_dot i mps reduced]
             else [load_tensor mps i; clear_tensor mps (i + 1)]) |}.
Proof.
  unfold obtain_two_dot, bind, ask, call.
  destruct (_ && _); intros [= _ <-]; cbn [objs calls];
    rewrite <- ?app_assoc; reflexivity.
Qed.
End Inversion.

(** Takes a run that returned apart, piece by piece, leaving the state
    it ended in spelled out. *)
Ltac inv_run H :=
  lazymatch type of H with
  | bind ?m ?k ?w = Ok _ _ =>
      let a := fresh "a" in
      let w1 := fresh "w" in
      let H1 := fresh "H" in
      apply bind_Ok in H as (a & w1 & H1 & H);
      inv_run H1; cbv beta in H; cbn [objs calls] in H; inv_run H
  | call ?c ?w = Ok _ ?w1 =>
      apply call_Ok in H; subst w1; cbn [objs calls] in *
  | ret ?a ?w = Ok _ ?w1 =>
      apply ret_Ok in H;
      let H1 := fresh "H" in
      destruct H as [H H1]; subst w1; cbn [objs calls] in *
  | ask ?f ?w = Ok ?a ?w1 =>
      apply ask_Ok in H;
      let H1 := fresh "H" in
      destruct H as [H H1]; subst w1
  | assert ?c ?w = Ok _ ?w1 =>
      apply assert_Ok in H;
      let H1 := fresh "H" in
      destruct H as [H H1]; subst w1
  | deref ?o ?w = Ok _ ?w1 =>
      apply deref_Ok in H;
      let H1 := fresh "H" in
      destruct H as [H H1]; subst w1
  | when ?c ?m ?w = Ok _ _ => unfold when in H; inv_run H
  | obtain_two_dot _ _ _ _ ?w = Ok _ ?w1 =>
      apply obtain_two_dot_Ok in H; subst w1; cbn [objs calls] in *
  | update_canonical_form _ _ _ _ ?w = Ok _ ?w1 =>
      let o := fresh "o" in
      let Ho := fresh "Ho" in
      let Hi := fresh "Hi" in
      let Hlen := fresh "Hlen" in
      apply update_canonical_form_Ok in H as (o & Ho & Hi & Hlen & H);
      subst w1; cbn [objs calls] in *
  | save_two _ _ ?w = Ok _ _ => unfold save_two in H; inv_run H
  | save_multi_two _ _ _ ?w = Ok _ _ => unfold save_multi_two in H; inv_run H
  | for_each (_ :: _) _ ?w = Ok _ _ => cbn [for_each] in H; inv_run H
  | for_each [] _ ?w = Ok _ _ => cbn [for_each] in H; inv_run H
  | (match ?x with _ => _ end) ?w = Ok _ _ =>
      let E := fresh "E" in
      destruct x eqn:E; try discriminate E; try discriminate H; inv_run H
  | throw _ _ = Ok _ _ => discriminate H
  | undefined _ = Ok _ _ => discriminate H
  | _ => idtac
  end.

(** Computes the filters of a log that is spelled out. *)
Ltac filter_log :=
  rewrite ?List.filter_app;
  repeat match goal with
         | |- context [List.filter _ (if ?c then _ else _)] => destruct c
         end;
  cbn [List.filter is_split is_density_matrix is_evolution is_obtain
         is_propagate is_move_to is_prepare is_noise is_normalize];
  rewrite ?app_nil_r, <- ?app_assoc.

(** Splits the boolean facts in the context into their parts. *)
Ltac split_bools :=
  repeat match goal with
         | H : andb _ _ = true |- _ => apply andb_true_iff in H as [? ?]
         | H : negb _ = true |- _ => apply negb_true_iff in H
         | H : negb _ = false |- _ => apply negb_false_iff in H
         end.

Section Ranges.

Lemma last_zseq start len :
  last (zseq start (Datatypes.S len)) = Some (start + Z.of_nat len).
Proof.
  revert start. induction len as [|len IH]; intros start.
  - cbn. f_equal. lia.
  - change (zseq start (Datatypes.S (Datatypes.S len)))
      with (start :: zseq (start + 1) (Datatypes.S len)).
    rewrite last_cons, IH. f_equal. lia.
Qed.

Lemma length_zseq start len : length (zseq start len) = len.
Proof.
  revert start. induction len as [|len IH]; intros start; cbn; auto.
Qed.

Lemma zseq_lookup start len (j : nat) :
  (j < len)%nat -> zseq start len !! j = Some (start + Z.of_nat j).
Proof.
  revert start j. induction len as [|len IH]; intros start j Hj; [lia|].
  destruct j as [|j]; cbn.
  - f_equal. lia.
  - rewrite IH by lia. f_equal. lia.
Qed.

(** A sweep that visits any site ends, going forward, at the last two-site
    position and, going backward, at site 0. *)
Lemma sweep_range_last forward center n_sites dot i :
  last (sweep_range forward center n_sites dot) = Some i ->
  i = if forward then n_sites - dot else 0.
Proof.
  unfold sweep_range. destruct forward.
  - destruct (Z.to_nat (n_sites - dot + 1 - center)) as [|len] eqn:E;
      [discriminate|].
    rewrite last_zseq. intros [= <-]. lia.
  - unfold zrange.
    destruct (Z.to_nat (center + 1)) as [|len]; [discriminate|].
    cbn [zseq rev]. rewrite last_snoc. intros [= <-]. reflexivity.
Qed.

Lemma rev_reverse {A} (l : list A) : rev l = reverse l.
Proof. unfold reverse. apply rev_alt. Qed.

(** The positions of a sweep are consecutive, ascending going forward and
    descending going backward, and start at the center. *)
Lemma sweep_range_consecutive forward center n_sites dot (j : nat) a b :
  sweep_range forward center n_sites dot !! j = Some a ->
  sweep_range forward center n_sites dot !! Datatypes.S j = Some b ->
  b = if forward then a + 1 else a - 1.
Proof.
  unfold sweep_range. destruct forward.
  - intros Ha Hb.
    pose proof (lookup_lt_Some _ _ _ Hb) as Hlt. rewrite length_zseq in Hlt.
    rewrite zseq_lookup in Ha, Hb by lia.
    injection Ha as <-. injection Hb as <-. lia.
  - unfold zrange. rewrite rev_reverse. intros Ha Hb.
    pose proof (lookup_lt_Some _ _ _ Hb) as Hlt.
    rewrite length_reverse, length_zseq in Hlt.
    rewrite reverse_lookup in Ha, Hb by (rewrite length_zseq; lia).
    rewrite length_zseq in Ha, Hb.
    rewrite zseq_lookup in Ha, Hb by lia.
    injection Ha as <-. injection Hb as <-. lia.
Qed.

Lemma sweep_range_head forward center n_sites dot i :
  head (sweep_range forward center n_sites dot) = Some i -> i = center.
Proof.
  unfold sweep_range. destruct forward.
  - destruct (Z.to_nat _); [discriminate|]. cbn. congruence.
  - unfold zrange. rewrite rev_reverse, head_reverse.
    destruct (Z.to_nat (center + 1)) as [|len] eqn:E; [discriminate|].
    rewrite last_zseq. intros [= <-]. lia.
Qed.
End Ranges.

Section TangentSpace.
Context {Op D S : Type} `{!Numeric D}.
Variable C : Collaborators Op D S.

(** The part every two-dot update starts with always returns. *)
Lemma obtain_two_dot_returns mps i reduced (w : World D) :
  exists w', obtain_two_dot C mps i reduced w = Ok tt w'
             /\ objs w' = objs w.
Proof.
  unfold obtain_two_dot, bind, ask, call.
  destruct (_ && _); eexists; split; reflexivity.
Qed.

Lemma te_boundary_sub_sweep_asserts (te : ImaginaryTE.t) i forward beta
    bond_dim noise (w : World D) :
  ImaginaryTE.mode te = TETypes.TangentSpace ->
  ImaginaryTE.at_boundary (n_sites (ImaginaryTE.me te)) i forward = true ->
  ImaginaryTE.update_two_dot C te i forward false beta bond_dim noise w
  = AssertFail.
Proof.
  intros Hmode Hb.
  unfold ImaginaryTE.update_two_dot, ImaginaryTE.effective_mode.
  rewrite Hmode, Hb. cbn [TETypes.eqb andb negb].
  destruct (obtain_two_dot_returns (ket (ImaginaryTE.me te)) i false
              {| objs := objs w; calls := calls w ++ [frame_activate 0] |})
    as (w1 & H1 & _).
  unfold bind at 1. unfold call at 1. unfold bind at 1. rewrite H1.
  reflexivity.
Qed.

(** A loop over the chain positions that returns made every step of it
    return. *)
Lemma te_sweep_steps_Ok (te : ImaginaryTE.t) forward advance beta bond_dim
    noise range :
  forall (w w' : World D) rs,
    ImaginaryTE.sweep_steps C te forward advance beta bond_dim noise range w
    = Ok rs w' ->
    length rs = length range
    /\ Forall (fun i => exists w1 r w2,
                 ImaginaryTE.blocking C te i forward advance beta bond_dim
                   noise w1 = Ok r w2) range.
Proof.
  induction range as [|i range IH]; intros w w' rs; cbn [ImaginaryTE.sweep_steps].
  - intros [= <- <-]. split; [reflexivity|constructor].
  - intros Hrun. apply bind_Ok in Hrun as ([] & w1 & _ & Hrun).
    apply bind_Ok in Hrun as (r & w2 & Hstep & Hrun).
    apply bind_Ok in Hrun as (rs' & w3 & Hrest & Hrun).
    injection Hrun as <- <-. apply IH in Hrest as [Hlen Hall].
    split; [cbn; congruence|]. constructor; [|exact Hall]. eauto.
Qed.

Lemma te_sub_sweep_never_returns (te : ImaginaryTE.t) forward beta bond_dim
    noise (w w' : World D) r :
  ImaginaryTE.mode te = TETypes.TangentSpace ->
  ImaginaryTE.sweep C te forward false beta bond_dim noise w <> Ok r w'.
Proof.
  intros Hmode Hrun. unfold ImaginaryTE.sweep in Hrun.
  apply bind_Ok in Hrun as ([] & w1 & _ & Hrun).
  apply bind_Ok in Hrun as (c & w2 & _ & Hrun).
  apply bind_Ok in Hrun as (rs & w3 & Hsteps & Hrun).
  apply te_sweep_steps_Ok in Hsteps as [Hlen Hall].
  apply bind_Ok in Hrun as (e & w4 & He & _).
  apply deref_Ok in He as [He _].
  destruct (last (sweep_range forward c (n_sites (ImaginaryTE.me te))
                    (dot (ImaginaryTE.me te)))) as [i|] eqn:Elast.
  2:{ apply last_None in Elast. rewrite Elast in Hlen.
      destruct rs; [discriminate He|discriminate Hlen]. }
  pose proof (sweep_range_last _ _ _ _ _ Elast) as Hi.
  apply last_Some in Elast as (l' & Elast). rewrite Elast in Hall.
  apply Forall_app in Hall as [_ Hall].
  apply Forall_inv in Hall as (w5 & r5 & w6 & Hblock).
  unfold ImaginaryTE.blocking in Hblock.
  apply bind_Ok in Hblock as ([] & w7 & _ & Hblock).
  destruct (Z.eqb_spec (dot (ImaginaryTE.me te)) 2) as [Hdot|];
    [|discriminate].
  rewrite te_boundary_sub_sweep_asserts in Hblock; [discriminate|exact Hmode|].
  apply at_boundary_spec. destruct forward; [left|right]; split; auto; lia.
Qed.

(** X1.  In [TangentSpace] mode a two-dot update of ImaginaryTE at a chain
    boundary that is asked not to advance the time fails the assertion
    [mode == TETypes::RK4], whatever the state it starts from: the
    tangent-space scheme does not allow several sweeps for one time
    step. *)
Theorem tangent_space_sub_sweep_asserts (te : ImaginaryTE.t) i forward beta
    bond_dim noise (w : World D) :
  ImaginaryTE.mode te = TETypes.TangentSpace ->
  (forward = true /\ i + 1 = n_sites (ImaginaryTE.me te) - 1)
  \/ (forward = false /\ i = 0) ->
  ImaginaryTE.update_two_dot C te i forward false beta bond_dim noise w
  = AssertFail.
Proof.
  intros Hmode Hb. apply at_boundary_spec in Hb.
  apply te_boundary_sub_sweep_asserts; assumption.
Qed.

Lemma preserves_te_blocking_prepare (te : ImaginaryTE.t) i forward advance
    beta bond_dim noise :
  preserves (fun w : World D => List.filter is_prepare (calls w))
    (ImaginaryTE.blocking C te i forward advance beta bond_dim noise).
Proof.
  unfold ImaginaryTE.blocking, ImaginaryTE.update_two_dot. preserves_tac.
Qed.

Lemma preserves_te_sweep_steps_prepare (te : ImaginaryTE.t) forward advance
    beta bond_dim noise range :
  preserves (fun w : World D => List.filter is_prepare (calls w))
    (ImaginaryTE.sweep_steps C te forward advance beta bond_dim noise range).
Proof.
  induction range as [|i range IH]; cbn [ImaginaryTE.sweep_steps].
  - apply preserves_ret.
  - apply preserves_bind; [apply preserves_call_filter; reflexivity|intros _].
    apply preserves_bind; [apply preserves_te_blocking_prepare|intros r].
    apply preserves_bind; [exact IH|intros rs]. apply preserves_ret.
Qed.

Lemma te_sweep_prepare (te : ImaginaryTE.t) forward advance beta bond_dim
    noise (w w' : World D) r :
  ImaginaryTE.sweep C te forward advance beta bond_dim noise w = Ok r w' ->
  List.filter is_prepare (calls w')
  = List.filter is_prepare (calls w) ++ [prepare].
Proof.
  intros Hrun. revert Hrun.
  generalize (eq_refl (List.filter is_prepare (calls w))).
  generalize (List.filter is_prepare (calls w)) at 2 3 as l.
  intros l Hl Hrun. revert w r w' Hl Hrun. unfold ImaginaryTE.sweep.
  eapply hoare_bind; [apply hoare_call_filter; reflexivity|intros _].
  apply (hoare_preserves
           (fun w : World D => List.filter is_prepare (calls w))
           (fun x => x = l ++ _)).
  apply preserves_bind; [apply preserves_ask|intros c].
  apply preserves_bind; [apply preserves_te_sweep_steps_prepare|intros rs].
  preserves_tac.
Qed.

Lemma preserves_read_canonical_form {X} (f : World D -> X) mps :
  preserves f (ImaginaryTE.read_canonical_form mps).
Proof.
  intros w a w'. unfold ImaginaryTE.read_canonical_form.
  destruct (objs w !! mps); [|discriminate]. intros [= _ <-]. reflexivity.
Qed.

Lemma preserves_te_normalize_prepare (te : ImaginaryTE.t) :
  preserves (fun w : World D => List.filter is_prepare (calls w))
    (ImaginaryTE.normalize te).
Proof.
  unfold ImaginaryTE.normalize.
  apply preserves_bind; [apply preserves_read_canonical_form|intros cf].
  preserves_tac.
Qed.

Lemma xorb_odd_succ (f : bool) (n : nat) :
  xorb (negb f) (Nat.odd n) = xorb f (Nat.odd (Datatypes.S n)).
Proof.
  rewrite Nat.odd_succ, <- Nat.negb_odd. destruct f, (Nat.odd n); reflexivity.
Qed.

(** The sub-sweeps of one time step. *)
Lemma te_sub_sweeps_Ok beta iw n :
  forall isw (te : ImaginaryTE.t) fwd (w w' : World D) te' fwd',
    ImaginaryTE.sub_sweeps C beta iw n isw te fwd w = Ok (te', fwd') w' ->
    let k := ImaginaryTE.n_sub_sweeps te - 1 in
    let advanced := if (isw <=? k) && (k <? isw + Z.of_nat n)
                    then 1%nat else 0%nat in
    ImaginaryTE.me te' = ImaginaryTE.me te
    /\ ImaginaryTE.mode te' = ImaginaryTE.mode te
    /\ ImaginaryTE.n_sub_sweeps te' = ImaginaryTE.n_sub_sweeps te
    /\ ImaginaryTE.bond_dims te' = ImaginaryTE.bond_dims te
    /\ ImaginaryTE.noises te' = ImaginaryTE.noises te
    /\ fwd' = xorb fwd (Nat.odd n)
    /\ List.filter is_prepare (calls w')
       = List.filter is_prepare (calls w) ++ replicate n prepare
    /\ length (ImaginaryTE.energies te')
       = (length (ImaginaryTE.energies te) + advanced)%nat
    /\ length (ImaginaryTE.normsqs te')
       = (length (ImaginaryTE.normsqs te) + advanced)%nat
    /\ (ImaginaryTE.mode te = TETypes.TangentSpace ->
        (n <= 1)%nat /\ (n = 1%nat -> isw = k)).
Proof.
  induction n as [|n IH]; intros isw te fwd w w' te' fwd';
    cbn [ImaginaryTE.sub_sweeps].
  - intros [= <- <- <-]. set (k := ImaginaryTE.n_sub_sweeps te - 1).
    replace ((isw <=? k) && (k <? isw + Z.of_nat 0)) with false
      by compare_lia.
    rewrite app_nil_r, !Nat.add_0_r, xorb_false_r. cbn.
    repeat split; auto; lia.
  - intros Hrun. set (k := ImaginaryTE.n_sub_sweeps te - 1) in *.
    apply bind_Ok in Hrun as (bd & w1 & Hbd & Hrun).
    apply deref_Ok in Hbd as [_ ->].
    apply bind_Ok in Hrun as (nz & w2 & Hnz & Hrun).
    apply deref_Ok in Hnz as [_ ->].
    apply bind_Ok in Hrun as ([[e nsq] err] & w3 & Hsweep & Hrun).
    pose proof (te_sweep_prepare _ _ _ _ _ _ _ _ _ Hsweep) as Hprep.
    apply IH in Hrun
      as (Hme & Hmode & Hsub & Hbds & Hnzs & Hfwd & Hp & He & Hn & Hts).
    assert (ImaginaryTE.n_sub_sweeps
              (if isw =? k then ImaginaryTE.record_step te e nsq else te)
            = ImaginaryTE.n_sub_sweeps te) as Hsub0
      by (destruct (isw =? k); reflexivity).
    assert (ImaginaryTE.mode
              (if isw =? k then ImaginaryTE.record_step te e nsq else te)
            = ImaginaryTE.mode te) as Hmode0
      by (destruct (isw =? k); reflexivity).
    rewrite Hsub0 in He, Hn, Hts. rewrite Hmode0 in Hts. fold k in He, Hn, Hts.
    split; [rewrite Hme; destruct (isw =? k); reflexivity|].
    split; [congruence|]. split; [congruence|].
    split; [rewrite Hbds; destruct (isw =? k); reflexivity|].
    split; [rewrite Hnzs; destruct (isw =? k); reflexivity|].
    split; [rewrite Hfwd; apply xorb_odd_succ|].
    split.
    { rewrite Hp, Hprep, <- app_assoc. reflexivity. }
    split.
    { rewrite He. destruct (Z.eqb_spec isw k) as [->|Hne].
      - cbn [ImaginaryTE.record_step ImaginaryTE.energies].
        rewrite length_app. cbn [length].
        replace ((k + 1 <=? k) && (k <? k + 1 + Z.of_nat n)) with false
          by compare_lia.
        replace ((k <=? k) && (k <? k + Z.of_nat (Datatypes.S n))) with true
          by compare_lia.
        lia.
      - f_equal. compare_lia. }
    split.
    { rewrite Hn. destruct (Z.eqb_spec isw k) as [->|Hne].
      - cbn [ImaginaryTE.record_step ImaginaryTE.normsqs].
        rewrite length_app. cbn [length].
        replace ((k + 1 <=? k) && (k <? k + 1 + Z.of_nat n)) with false
          by compare_lia.
        replace ((k <=? k) && (k <? k + Z.of_nat (Datatypes.S n))) with true
          by compare_lia.
        lia.
      - f_equal. compare_lia. }
    intros Hts0. destruct (Hts Hts0) as [Hn1 Hk1].
    destruct (Z.eqb_spec isw k) as [Hk|Hk].
    + split; [|intros _; exact Hk].
      destruct n as [|[|n]]; [lia| |lia].
      specialize (Hk1 eq_refl). lia.
    + exfalso. eapply te_sub_sweep_never_returns; [exact Hts0|exact Hsweep].
Qed.

(** The time steps of [solve]. *)
Lemma te_time_steps_Ok beta n :
  forall iw (te : ImaginaryTE.t) fwd (w w' : World D) te' fwd',
    ImaginaryTE.time_steps C beta n iw te fwd w = Ok (te', fwd') w' ->
    let m := Z.to_nat (ImaginaryTE.n_sub_sweeps te) in
    let advanced := if 1 <=? ImaginaryTE.n_sub_sweeps te
                    then 1%nat else 0%nat in
    ImaginaryTE.me te' = ImaginaryTE.me te
    /\ ImaginaryTE.mode te' = ImaginaryTE.mode te
    /\ ImaginaryTE.n_sub_sweeps te' = ImaginaryTE.n_sub_sweeps te
    /\ ImaginaryTE.bond_dims te' = ImaginaryTE.bond_dims te
    /\ ImaginaryTE.noises te' = ImaginaryTE.noises te
    /\ fwd' = xorb fwd (Nat.odd (n * m))
    /\ List.filter is_prepare (calls w')
       = List.filter is_prepare (calls w) ++ replicate (n * m) prepare
    /\ length (ImaginaryTE.energies te')
       = (length (ImaginaryTE.energies te) + n * advanced)%nat
    /\ length (ImaginaryTE.normsqs te')
       = (length (ImaginaryTE.normsqs te) + n * advanced)%nat
    /\ (ImaginaryTE.mode te = TETypes.TangentSpace -> (1 <= n)%nat ->
        ImaginaryTE.n_sub_sweeps te <= 1).
Proof.
  induction n as [|n IH]; intros iw te fwd w w' te' fwd';
    cbn [ImaginaryTE.time_steps].
  - intros [= <- <- <-]. cbn. rewrite app_nil_r, xorb_false_r, !Nat.add_0_r.
    repeat split; auto; lia.
  - intros Hrun.
    apply bind_Ok in Hrun as ([te1 fwd1] & w1 & Hsub & Hrun).
    apply bind_Ok in Hrun as ([] & w2 & Hnorm & Hrun).
    apply te_sub_sweeps_Ok in Hsub
      as (Hme1 & Hmode1 & Hsub1 & Hbds1 & Hnzs1 & Hfwd1 & Hp1 & He1 & Hn1
          & Hts1).
    apply preserves_te_normalize_prepare in Hnorm.
    apply IH in Hrun
      as (Hme & Hmode & Hsub & Hbds & Hnzs & Hfwd & Hp & He & Hn & Hts).
    rewrite Hsub1 in Hfwd, Hp, He, Hn.
    set (m := Z.to_nat (ImaginaryTE.n_sub_sweeps te)) in *.
    split; [congruence|]. split; [congruence|]. split; [congruence|].
    split; [congruence|]. split; [congruence|].
    split.
    { rewrite Hfwd, Hfwd1. cbn [Nat.mul]. rewrite Nat.odd_add.
      rewrite xorb_assoc. reflexivity. }
    split.
    { rewrite Hp, Hnorm, Hp1. cbn [Nat.mul]. rewrite replicate_add.
      rewrite <- app_assoc. reflexivity. }
    assert ((if (0 <=? ImaginaryTE.n_sub_sweeps te - 1)
                && (ImaginaryTE.n_sub_sweeps te - 1 <? 0 + Z.of_nat m)
             then 1%nat else 0%nat)
            = if 1 <=? ImaginaryTE.n_sub_sweeps te then 1%nat else 0%nat)
      as Hadv by (subst m; compare_lia).
    rewrite Hadv in He1, Hn1.
    split; [rewrite He, He1; cbn [Nat.mul]; lia|].
    split; [rewrite Hn, Hn1; cbn [Nat.mul]; lia|].
    intros Hts0 _. destruct (Hts1 Hts0) as [Hm _]. subst m. lia.
Qed.

(** X2.  A call of [ImaginaryTE::solve] that returns was asked for at
    least one time step of at least one sub-sweep each, and in
    [TangentSpace] mode of exactly one; it made every sub-sweep of every
    time step, recorded one energy and one squared norm for each time
    step (from its last sub-sweep), returned the last energy, and left
    the direction flipped once for every sweep made. *)
Theorem imaginary_te_solve_time_steps (te : ImaginaryTE.t) n_sweeps beta
    forward tol (w w' : World D) e te' :
  ImaginaryTE.solve C te n_sweeps beta forward tol w = Ok (e, te') w' ->
  let sweeps := (Z.to_nat n_sweeps
                 * Z.to_nat (ImaginaryTE.n_sub_sweeps te))%nat in
  1 <= n_sweeps
  /\ 1 <= ImaginaryTE.n_sub_sweeps te
  /\ (ImaginaryTE.mode te = TETypes.TangentSpace ->
      ImaginaryTE.n_sub_sweeps te = 1)
  /\ length (ImaginaryTE.energies te') = Z.to_nat n_sweeps
  /\ length (ImaginaryTE.normsqs te') = Z.to_nat n_sweeps
  /\ last (ImaginaryTE.energies te') = Some e
  /\ List.filter is_prepare (calls w')
     = List.filter is_prepare (calls w) ++ replicate sweeps prepare
  /\ ImaginaryTE.forward te' = xorb forward (Nat.odd sweeps).
Proof.
  intros Hrun. unfold ImaginaryTE.solve in Hrun.
  apply bind_Ok in Hrun as (bds & w1 & Hbds & Hrun).
  apply bind_Ok in Hrun as (nzs & w2 & Hnzs & Hrun).
  apply bind_Ok in Hrun as ([te1 fwd1] & w3 & Hsteps & Hrun).
  apply bind_Ok in Hrun as (e' & w4 & He & Hrun).
  apply deref_Ok in He as [He ->]. injection Hrun as <- <- <-.
  cbn [ImaginaryTE.energies ImaginaryTE.normsqs ImaginaryTE.forward] in *.
  apply te_time_steps_Ok in Hsteps
    as (_ & _ & _ & _ & _ & Hfwd & Hp & Hlen & Hlenn & Hts).
  cbn [ImaginaryTE.energies ImaginaryTE.normsqs ImaginaryTE.n_sub_sweeps
         ImaginaryTE.mode length Nat.add] in Hfwd, Hp, Hlen, Hlenn, Hts.
  assert (List.filter is_prepare (calls w2) = List.filter is_prepare (calls w))
    as Hw2.
  { assert (forall (A : Type) (l : list A) (x x' : World D) l',
               grow l n_sweeps x = Ok l' x' -> x' = x) as Hgrow.
    { intros A l x x' l'. unfold grow.
      destruct (_ || _).
      - intros H. apply bind_Ok in H as (y & x1 & Hy & H).
        apply deref_Ok in Hy as [_ ->].
        destruct (n_sweeps <? 0); [discriminate|]. injection H as _ <-.
        reflexivity.
      - intros [= _ <-]. reflexivity. }
    apply Hgrow in Hbds as ->. apply Hgrow in Hnzs as ->. reflexivity. }
  rewrite Hw2 in Hp.
  assert (length (ImaginaryTE.energies te1) <> 0%nat) as Hne.
  { destruct (ImaginaryTE.energies te1); [discriminate He|discriminate]. }
  destruct (Z.leb_spec 1 (ImaginaryTE.n_sub_sweeps te)) as [Hsub|Hsub];
    [|lia].
  assert (1 <= n_sweeps) as Hn by lia.
  split; [exact Hn|]. split; [exact Hsub|].
  split.
  { intros Hmode. specialize (Hts Hmode). lia. }
  split; [lia|]. split; [lia|]. split; [exact He|].
  split; [exact Hp|exact Hfwd].
Qed.

(** X3.  In [TangentSpace] mode a two-dot update of ImaginaryTE that
    returns has applied the exponential with [-beta] to the two-site
    wavefunction and split the plain density matrix.  Away from the chain
    boundaries it has then moved the environment to the site the sweep
    goes to next, applied the exponential with [+beta] to that site and
    normalized it; at a boundary it does none of the three, and it was
    asked to advance the time. *)
Theorem tangent_space_back_step (te : ImaginaryTE.t) i forward advance beta
    bond_dim noise (w w' : World D) r :
  ImaginaryTE.mode te = TETypes.TangentSpace ->
  ImaginaryTE.update_two_dot C te i forward advance beta bond_dim noise w
    = Ok r w' ->
  let boundary :=
    ImaginaryTE.at_boundary (n_sites (ImaginaryTE.me te)) i forward in
  let verbose := 3 <=? ImaginaryTE.iprint te in
  let const_e := const_e (ImaginaryTE.me te) in
  let ket := ket (ImaginaryTE.me te) in
  (boundary = true -> advance = true)
  /\ List.filter is_evolution (calls w')
     = List.filter is_evolution (calls w) ++
         expo_apply (dneg beta) const_e verbose
         :: (if boundary then [] else [expo_apply beta const_e verbose])
  /\ List.filter is_density_matrix (calls w')
     = List.filter is_density_matrix (calls w) ++
         [density_matrix ket forward noise (ImaginaryTE.noise_type te)]
  /\ List.filter is_move_to (calls w')
     = List.filter is_move_to (calls w) ++
         (if boundary then []
          else [move_to (if forward then i + 1 else i - 1)])
  /\ List.filter is_normalize (calls w')
     = List.filter is_normalize (calls w) ++
         (if boundary then []
          else [normalize_tensor ket (if forward then i + 1 else i)]).
Proof.
  intros Hmode Hrun.
  unfold ImaginaryTE.update_two_dot, ImaginaryTE.effective_mode in Hrun.
  rewrite Hmode in Hrun. cbn [TETypes.eqb andb] in Hrun.
  inv_run Hrun.
  all: cbv zeta; unfold ImaginaryTE.at_boundary in *;
    cbn [andb negb orb] in *; rewrite ?orb_false_r in *; split_bools.
  all: repeat match goal with
       | H : ?c = _ |- context [if ?c then _ else _] => rewrite H
       end.
  all: split;
    [intros Hb; destruct advance; [reflexivity|cbn in *; congruence]|].
  all: filter_log; repeat split; reflexivity.
Qed.
End TangentSpace.

Section CompressUpdate.
Context {Op D S : Type} `{!Numeric D}.
Variable C : Collaborators Op D S.

(** X4.  A two-dot update of Compress that returns was given two distinct
    objects and went over the bra first and the ket second: the noise and
    the noise type of the object are applied to the density matrix of the
    bra only, the ket getting zero noise of type [None]; the bra is split
    with the bra bond dimension and the ket with the ket bond dimension;
    and both objects have their two tags written. *)
Theorem compress_update_bra_then_ket (c : Compress.t) i forward bra_bond_dim
    ket_bond_dim noise (w w' : World D) r :
  Compress.update_two_dot C c i forward bra_bond_dim ket_bond_dim noise w
    = Ok r w' ->
  let bra := bra (Compress.me c) in
  let ket := ket (Compress.me c) in
  bra <> ket
  /\ List.filter is_density_matrix (calls w')
     = List.filter is_density_matrix (calls w) ++
         [density_matrix bra forward noise (Compress.noise_type c);
          density_matrix ket forward (of_Q 0) NoiseTypes.None]
  /\ List.filter is_split (calls w')
     = List.filter is_split (calls w) ++
         [split_density_matrix bra i bra_bond_dim forward false
            (Compress.cutoff c) (Compress.trunc_type c);
          split_density_matrix ket i ket_bond_dim forward false
            (Compress.cutoff c) (Compress.trunc_type c)]
  /\ List.filter is_propagate (calls w')
     = List.filter is_propagate (calls w) ++
         [propagate_wfn i (n_sites (Compress.me c)) bra forward;
          propagate_wfn i (n_sites (Compress.me c)) ket forward]
  /\ exists ob ok,
       objs w !! bra = Some ob
       /\ objs w !! ket = Some ok
       /\ objs w'
          = <[ket := mkMPS (step_tags forward "C" (Z.to_nat i)
                              (canonical_form ok)) (nroots ok)]>
              (<[bra := mkMPS (step_tags forward "C" (Z.to_nat i)
                                 (canonical_form ob)) (nroots ob)]>
                 (objs w)).
Proof.
  intros Hrun. cbv zeta.
  unfold Compress.update_two_dot in Hrun.
  apply bind_Ok in Hrun as ([] & w0 & Hne & Hrun).
  apply assert_Ok in Hne as [Hne ->]. apply negb_true_iff in Hne.
  assert (Pos.eqb (ket (Compress.me c)) (bra (Compress.me c)) = false)
    as Hne' by (rewrite Pos.eqb_sym; exact Hne).
  apply Pos.eqb_neq in Hne as Hdiff.
  unfold Compress.split_one in Hrun.
  cbn [for_each Compress.split_all] in Hrun.
  rewrite ?Pos.eqb_refl, ?Hne, ?Hne' in Hrun.
  inv_run Hrun.
  all: rewrite lookup_insert_ne in Ho0 by exact Hdiff.
  all: split; [exact Hdiff|].
  all: split; [filter_log; reflexivity|].
  all: split; [filter_log; reflexivity|].
  all: split; [filter_log; reflexivity|].
  all: eexists _, _; split; [eassumption|]; split; [eassumption|reflexivity].
Qed.
End CompressUpdate.

Section DMRGUpdate.
Context {Op D S : Type} `{!Numeric D}.
Variable C : Collaborators Op D S.

(** X5.  A single-target two-dot update of DMRG that returns has
    decomposed the wavefunction in one of two ways.  By density matrix:
    one density matrix and one split of it; the density matrix is the one
    with perturbative noise, built from the perturbed states, exactly when
    the noise type is [Perturbative] and the noise is not zero, and the
    plain one otherwise.  By SVD: the noise type is [None] or
    [Wavefunction], no density matrix is built, the one split is the SVD of
    the wavefunction, and noise is added to the wavefunction exactly when
    the noise type is [Wavefunction] and the noise is not zero. *)
Theorem dmrg_update_decomposition (d : DMRG.t) i forward bond_dim noise thrd
    (w w' : World D) r :
  DMRG.update_two_dot C d i forward bond_dim noise thrd w = Ok r w' ->
  let ket := ket (DMRG.me d) in
  match DMRG.decomp_type d with
  | DecompositionTypes.DensityMatrix =>
      let perturbed :=
        NoiseTypes.eqb (DMRG.noise_type d) NoiseTypes.Perturbative
        && DMRG.nonzero noise in
      List.filter is_density_matrix (calls w')
      = List.filter is_density_matrix (calls w) ++
          [if perturbed
           then density_matrix_with_perturbative_noise ket forward noise
           else density_matrix ket forward noise (DMRG.noise_type d)]
      /\ List.filter is_noise (calls w')
         = List.filter is_noise (calls w) ++
             (if perturbed then [perturbative_noise_two_dot forward i]
              else [])
      /\ List.filter is_split (calls w')
         = List.filter is_split (calls w) ++
             [split_density_matrix ket i bond_dim forward true
                (DMRG.cutoff d) (DMRG.trunc_type d)]
  | DecompositionTypes.SVD =>
      (DMRG.noise_type d = NoiseTypes.None
       \/ DMRG.noise_type d = NoiseTypes.Wavefunction)
      /\ List.filter is_density_matrix (calls w')
         = List.filter is_density_matrix (calls w)
      /\ List.filter is_noise (calls w')
         = List.filter is_noise (calls w) ++
             (if NoiseTypes.eqb (DMRG.noise_type d) NoiseTypes.Wavefunction
                 && DMRG.nonzero noise
              then [wavefunction_add_noise ket noise] else [])
      /\ List.filter is_split (calls w')
         = List.filter is_split (calls w) ++
             [split_wavefunction_svd ket i bond_dim forward true
                (DMRG.cutoff d) (DMRG.trunc_type d)]
  end.
Proof.
  intros Hrun. cbv zeta. unfold DMRG.update_two_dot in Hrun.
  destruct (DMRG.decomp_type d).
  - inv_run Hrun.
    all: split; [destruct (DMRG.noise_type d); try discriminate; auto|].
    all: repeat split; filter_log; reflexivity.
  - inv_run Hrun.
    all: repeat split; filter_log; reflexivity.
Qed.
End DMRGUpdate.

Section DMRGSweep.
Context {Op D S : Type} `{!Numeric D}.
Variable C : Collaborators Op D S.

Lemma center_tag_cases cf i :
  center_tag cf i = "C"%char \/ center_tag cf i = "M"%char.
Proof. unfold center_tag. destruct (_ || _); auto. Qed.

(** The center tag of a canonical form, seen by a step at the center or
    at the site before it. *)
Lemma center_tag_canonical c center n (i : nat) :
  c = "C"%char \/ c = "M"%char ->
  (center < n)%nat ->
  i = center \/ Datatypes.S i = center ->
  center_tag (canonical c center n) i = c.
Proof.
  intros Hc Hn Hi. unfold center_tag.
  rewrite !canonical_lookup by exact Hn.
  destruct Hi as [->| <-].
  - destruct (decide (center < center)%nat); [lia|].
    destruct (decide (center = center)); [|lia].
    destruct (decide (Datatypes.S center < center)%nat); [lia|].
    destruct (decide (Datatypes.S center = center)); [lia|].
    destruct Hc as [-> | ->]; [|reflexivity].
    destruct (decide (Datatypes.S center < n)%nat); reflexivity.
  - destruct (decide (i < Datatypes.S i)%nat); [|lia].
    destruct (decide (Datatypes.S i < Datatypes.S i)%nat); [lia|].
    destruct (decide (Datatypes.S i = Datatypes.S i)); [|lia].
    destruct Hc as [-> | ->]; reflexivity.
Qed.

Lemma preserves_collect_quanta_filter (p : Call D -> bool) (d : DMRG.t) ks :
  (forall k, p (delta_quanta k) = false) ->
  preserves (fun w : World D => List.filter p (calls w))
    (DMRG.collect_quanta C d ks).
Proof.
  intros Hp. induction ks as [|k ks IH]; cbn [DMRG.collect_quanta].
  - apply preserves_ret.
  - apply preserves_bind; [apply preserves_call_filter, Hp|intros _].
    apply preserves_bind; [apply preserves_ask|intros q].
    apply preserves_bind; [exact IH|intros qs]. apply preserves_ret.
Qed.

Lemma preserves_dmrg_blocking_prepare (d : DMRG.t) i forward bond_dim noise
    thrd :
  preserves (fun w : World D => List.filter is_prepare (calls w))
    (DMRG.blocking C d i forward bond_dim noise thrd).
Proof.
  unfold DMRG.blocking, DMRG.update_two_dot, DMRG.update_multi_two_dot.
  repeat first
    [ apply preserves_collect_quanta_filter; reflexivity
    | preserves_step
    | progress unfold obtain_two_dot, obtain_multi_two_dot, save_two,
        save_multi_two, deallocate_old_wfns, for_down,
        update_canonical_form ].
Qed.

(** What a blocking step of DMRG that returns has done to the objects
    and where it has moved the environment. *)
Lemma dmrg_blocking_Ok (d : DMRG.t) i forward bond_dim noise thrd
    (w w' : World D) r :
  DMRG.blocking C d i forward bond_dim noise thrd w = Ok r w' ->
  dot (DMRG.me d) = 2
  /\ List.filter is_move_to (calls w')
     = List.filter is_move_to (calls w) ++ [move_to i]
  /\ exists o,
       objs w !! ket (DMRG.me d) = Some o
       /\ 0 <= i
       /\ (Z.to_nat i + 1 < length (canonical_form o))%nat
       /\ objs w'
          = <[ket (DMRG.me d) :=
                mkMPS (step_tags forward
                         (center_tag (canonical_form o) (Z.to_nat i))
                         (Z.to_nat i) (canonical_form o)) (nroots o)]>
              (objs w).
Proof.
  intros Hrun. unfold DMRG.blocking in Hrun.
  apply bind_Ok in Hrun as ([] & w1 & Hmove & Hrun).
  apply call_Ok in Hmove.
  destruct (Z.eqb_spec (dot (DMRG.me d)) 2) as [Hdot|]; [|discriminate].
  split; [exact Hdot|].
  apply bind_Ok in Hrun as (c0 & w2 & Hc0 & Hrun).
  apply get_canonical_form_Ok in Hc0 as (-> & o & Ho & Hi & ->).
  apply bind_Ok in Hrun as (multi & w3 & Hmulti & Hrun).
  assert (w3 = w1
          /\ (if multi then "M"%char else "C"%char)
             = center_tag (canonical_form o) (Z.to_nat i)) as [-> Hc].
  { unfold center_tag.
    destruct (Ascii.eqb (default Ascii.zero
                           (canonical_form o !! Z.to_nat i)) "M").
    - injection Hmulti as <- <-. auto.
    - apply bind_Ok in Hmulti as (c1 & w4 & Hc1 & Hmulti).
      apply get_canonical_form_Ok in Hc1 as (-> & o' & Ho' & _ & ->).
      injection Hmulti as <- <-. split; [reflexivity|].
      rewrite Ho in Ho'. injection Ho' as <-.
      replace (Z.to_nat (i + 1)) with (Datatypes.S (Z.to_nat i)) by lia.
      cbn [orb]. reflexivity. }
  assert (objs w1 = objs w) as Hobjs1 by (rewrite Hmove; reflexivity).
  assert (List.filter is_move_to (calls w1)
          = List.filter is_move_to (calls w) ++ [move_to i]) as Hmoves.
  { rewrite Hmove. cbn [calls]. rewrite List.filter_app. reflexivity. }
  assert (List.filter is_move_to (calls w')
          = List.filter is_move_to (calls w1)
          /\ exists o',
               objs w1 !! ket (DMRG.me d) = Some o'
               /\ 0 <= i
               /\ (Z.to_nat i + 1 < length (canonical_form o'))%nat
               /\ objs w'
                  = <[ket (DMRG.me d) :=
                        mkMPS (step_tags forward
                                 (if multi then "M"%char else "C"%char)
                                 (Z.to_nat i) (canonical_form o'))
                          (nroots o')]> (objs w1)) as [Hm Hstep].
  { destruct multi.
    - split.
      { revert Hrun. generalize w1, r, w'.
        change (preserves
                  (fun w : World D => List.filter is_move_to (calls w))
                  (DMRG.update_multi_two_dot C d i forward bond_dim noise
                     thrd)).
        unfold DMRG.update_multi_two_dot.
        repeat first
          [ apply preserves_collect_quanta_filter; reflexivity
          | preserves_step
          | progress unfold obtain_two_dot, obtain_multi_two_dot, save_two,
              save_multi_two, deallocate_old_wfns, for_down,
              update_canonical_form ]. }
      exact (update_multi_two_dot_objs C d i forward bond_dim noise thrd
               (objs w1) w1 r w' eq_refl Hrun).
    - split.
      { revert Hrun. generalize w1, r, w'.
        change (preserves
                  (fun w : World D => List.filter is_move_to (calls w))
                  (DMRG.update_two_dot C d i forward bond_dim noise thrd)).
        unfold DMRG.update_two_dot. preserves_tac. }
      exact (update_two_dot_objs C d i forward bond_dim noise thrd
               (objs w1) w1 r w' eq_refl Hrun). }
  split; [congruence|].
  destruct Hstep as (o' & Ho' & Hi0 & Hlen & Hobjs).
  rewrite Ho in Ho'. injection Ho' as <-.
  rewrite Hobjs1 in Ho, Hobjs. exists o. rewrite <- Hc. auto.
Qed.

(** A canonical form is ready for a step at its center or at the site
    before it. *)
Lemma two_dot_ready_canonical c center n (i : nat) :
  (center < n)%nat ->
  i = center \/ Datatypes.S i = center ->
  two_dot_ready i (canonical c center n).
Proof.
  intros Hn Hi j. rewrite canonical_length by exact Hn.
  rewrite !canonical_lookup by exact Hn. split; intros Hj.
  - destruct (decide (j < center)%nat); [reflexivity|lia].
  - destruct (decide (j < center)%nat); [lia|].
    destruct (decide (j = center)); [lia|].
    destruct (decide (j < n)%nat); [reflexivity|lia].
Qed.

(** The steps of a sweep over consecutive positions: each starts from
    the canonical form the one before left, and the center ends beside the
    last position visited. *)
Lemma dmrg_sweep_steps_Ok (d : DMRG.t) forward bond_dim noise thrd range :
  forall (w w' : World D) rs,
    DMRG.sweep_steps C d forward bond_dim noise thrd range w = Ok rs w' ->
    (forall (j : nat) a b,
        range !! j = Some a -> range !! Datatypes.S j = Some b ->
        b = if forward then a + 1 else a - 1) ->
    length rs = length range
    /\ List.filter is_move_to (calls w')
       = List.filter is_move_to (calls w) ++ map move_to range
    /\ List.filter is_prepare (calls w') = List.filter is_prepare (calls w)
    /\ match range with
       | [] => objs w' = objs w
       | first :: _ =>
           dot (DMRG.me d) = 2
           /\ exists o final,
                objs w !! ket (DMRG.me d) = Some o
                /\ last range = Some final
                /\ 0 <= first /\ 0 <= final
                /\ (Z.to_nat final + 1 < length (canonical_form o))%nat
                /\ (two_dot_ready (Z.to_nat first) (canonical_form o) ->
                    objs w'
                    = <[ket (DMRG.me d) :=
                          mkMPS (canonical
                                   (center_tag (canonical_form o)
                                      (Z.to_nat first))
                                   (Z.to_nat (if forward then final + 1
                                              else final))
                                   (length (canonical_form o)))
                            (nroots o)]> (objs w))
       end.
Proof.
  induction range as [|i range IH]; intros w w' rs; cbn [DMRG.sweep_steps].
  - intros [= <- <-] _. cbn. rewrite app_nil_r. auto.
  - intros Hrun Hcons.
    apply bind_Ok in Hrun as ([] & w0 & Hsig & Hrun).
    apply call_Ok in Hsig as ->.
    apply bind_Ok in Hrun as (r & w1 & Hstep & Hrun).
    apply bind_Ok in Hrun as (rs' & w2 & Hrest & Hrun).
    injection Hrun as <- <-.
    pose proof (preserves_dmrg_blocking_prepare _ _ _ _ _ _ _ _ _ Hstep)
      as Hprep1.
    apply dmrg_blocking_Ok in Hstep
      as (Hdot & Hmove1 & o & Ho & Hi & Hlen & Hobjs1).
    cbn [objs calls] in Ho, Hobjs1, Hmove1, Hprep1.
    rewrite List.filter_app in Hmove1, Hprep1.
    cbn [List.filter is_move_to is_prepare] in Hmove1, Hprep1.
    rewrite app_nil_r in Hmove1, Hprep1.
    apply IH in Hrest as (Hlen' & Hmoves & Hpreps & Hrange).
    2:{ intros j a b Ha Hb. apply (Hcons (Datatypes.S j) a b); assumption. }
    split; [cbn; congruence|].
    split.
    { rewrite Hmoves, Hmove1. cbn [map]. rewrite <- app_assoc. reflexivity. }
    split; [congruence|].
    split; [exact Hdot|].
    set (k := Z.to_nat i) in *.
    set (c := center_tag (canonical_form o) k) in *.
    destruct range as [|i2 range].
    + exists o, i. cbn [last].
      repeat (split; [first [assumption | reflexivity | lia]|]).
      intros Hready. rewrite Hrange, Hobjs1.
      rewrite (step_tags_canonical forward c k _ Hlen Hready).
      replace (Z.to_nat (if forward then i + 1 else i))
        with (if forward then Datatypes.S k else k)
        by (subst k; destruct forward; lia).
      reflexivity.
    + destruct Hrange
        as (_ & o1 & final & Ho1 & Hlast & Hi2 & Hfinal & Hlenf & Hobjs).
      rewrite Hobjs1, lookup_insert_eq in Ho1. injection Ho1 as <-.
      cbn [canonical_form nroots] in Hlenf, Hobjs.
      destruct (step_tags_lookup forward c k (canonical_form o) Hlen)
        as (Hlen1 & _).
      rewrite Hlen1 in Hlenf, Hobjs.
      exists o, final.
      split; [exact Ho|]. split; [rewrite last_cons, Hlast; reflexivity|].
      split; [exact Hi|]. split; [exact Hfinal|]. split; [exact Hlenf|].
      intros Hready.
      pose proof (Hcons 0%nat i i2 eq_refl eq_refl) as Hi2eq.
      rewrite (step_tags_canonical forward c k _ Hlen Hready) in Hobjs.
      assert ((if forward then Datatypes.S k else k)
              < length (canonical_form o))%nat as Hcenter
        by (destruct forward; lia).
      assert (Z.to_nat i2 = (if forward then Datatypes.S k else k)
              \/ Datatypes.S (Z.to_nat i2)
                 = (if forward then Datatypes.S k else k)) as Hnext
        by (subst k; destruct forward; lia).
      rewrite center_tag_canonical in Hobjs;
        [|apply center_tag_cases|exact Hcenter|exact Hnext].
      rewrite Hobjs, Hobjs1, insert_insert_eq; [reflexivity|].
      apply two_dot_ready_canonical; assumption.
Qed.

(** X6.  A sweep of DMRG that returns was made on a two-site
    configuration and visited at least one position: it prepared the
    environment once and moved it to the positions from the center it read
    to the end of the chain, in order, all of them.  If the canonical form
    of the ket had [L] on the left of the center's two sites and [R] on
    their right, the sweep leaves the canonical form [L...L C] after a
    forward sweep and [C R...R] after a backward one (with [M] for [C] for
    several targets), and every other object as it was. *)
Theorem dmrg_sweep_moves_center (d : DMRG.t) forward bond_dim noise thrd
    (w w' : World D) res :
  DMRG.sweep C d forward bond_dim noise thrd w = Ok res w' ->
  let center := center C (calls w ++ [prepare]) in
  let range := sweep_range forward center (n_sites (DMRG.me d)) 2 in
  dot (DMRG.me d) = 2
  /\ range <> []
  /\ List.filter is_prepare (calls w')
     = List.filter is_prepare (calls w) ++ [prepare]
  /\ List.filter is_move_to (calls w')
     = List.filter is_move_to (calls w) ++ map move_to range
  /\ exists o,
       objs w !! ket (DMRG.me d) = Some o
       /\ 0 <= center
       /\ (forward = true -> n_sites (DMRG.me d) <= Z.of_nat (length (canonical_form o)))
       /\ (two_dot_ready (Z.to_nat center) (canonical_form o) ->
           objs w'
           = <[ket (DMRG.me d) :=
                 mkMPS (canonical
                          (center_tag (canonical_form o) (Z.to_nat center))
                          (Z.to_nat (if forward
                                     then n_sites (DMRG.me d) - 1 else 0))
                          (length (canonical_form o)))
                   (nroots o)]> (objs w)).
Proof.
  intros Hrun. cbv zeta. unfold DMRG.sweep in Hrun.
  apply bind_Ok in Hrun as ([] & w0 & Hprep & Hrun).
  apply call_Ok in Hprep as ->.
  apply bind_Ok in Hrun as (c & w1 & Hc & Hrun).
  apply ask_Ok in Hc as [-> ->]. cbn [objs calls] in Hrun.
  apply bind_Ok in Hrun as (rs & w2 & Hsteps & Hrun).
  apply bind_Ok in Hrun as (idx & w3 & Hidx & Hrun).
  apply bind_Ok in Hrun as (r & w4 & Hr & Hrun).
  apply deref_Ok in Hr as [Hr ->]. injection Hrun as _ <-.
  assert (w3 = w2) as ->.
  { revert Hidx. generalize w2, idx, w3.
    change (preserves (fun w : World D => w) (DMRG.best_index rs)).
    unfold DMRG.best_index. destruct rs as [|r0 [|r1 rs']];
      [apply preserves_ret..|].
    apply preserves_bind; [apply preserves_deref|intros e0].
    apply preserves_bind; [|intros es; apply preserves_ret].
    generalize (r1 :: rs'). intros l. induction l as [|x l IH];
      cbn [DMRG.first_energies]; [apply preserves_ret|].
    apply preserves_bind; [apply preserves_deref|intros e].
    apply preserves_bind; [exact IH|intros es; apply preserves_ret]. }
  apply dmrg_sweep_steps_Ok in Hsteps
    as (Hlen & Hmoves & Hpreps & Hrange).
  2:{ intros j a b. apply sweep_range_consecutive. }
  cbn [objs calls] in Hmoves, Hpreps, Hrange.
  rewrite List.filter_app in Hmoves, Hpreps.
  cbn [List.filter is_move_to is_prepare] in Hmoves, Hpreps.
  rewrite app_nil_r in Hmoves.
  set (center := center C (calls w ++ [prepare])) in *.
  destruct (sweep_range forward center (n_sites (DMRG.me d))
              (dot (DMRG.me d))) as [|first range] eqn:Erange.
  { destruct rs; [|discriminate Hlen]. rewrite lookup_nil in Hr.
    discriminate Hr. }
  destruct Hrange
    as (Hdot & o & final & Ho & Hlast & Hfirst & Hfinal & Hlenf & Hobjs).
  rewrite Hdot in Erange. rewrite Erange.
  assert (first = center) as ->
    by (apply (sweep_range_head forward center (n_sites (DMRG.me d)) 2);
        rewrite Erange; reflexivity).
  rewrite <- Erange in Hlast. apply sweep_range_last in Hlast.
  split; [exact Hdot|]. split; [discriminate|].
  split; [exact Hpreps|]. split; [exact Hmoves|].
  exists o. split; [exact Ho|]. split; [exact Hfirst|].
  split.
  { intros ->. lia. }
  intros Hready. rewrite (Hobjs Hready). subst final.
  destruct forward; [|reflexivity].
  replace (n_sites (DMRG.me d) - 2 + 1) with (n_sites (DMRG.me d) - 1)
    by lia.
  reflexivity.
Qed.
End DMRGSweep.

Section DMRGMulti.
Context {Op D S : Type} `{!Numeric D}.
Variable C : Collaborators Op D S.

Lemma returns_assert (c : bool) :
  returns (assert c : M (World D) unit) (fun _ => c = true).
Proof. intros w u w' Hrun. apply assert_Ok in Hrun as [Hc _]. exact Hc. Qed.

Lemma get_nroots_Ok mps (w w' : World D) n :
  get_nroots mps w = Ok n w' ->
  w' = w /\ exists o, objs w !! mps = Some o /\ nroots o = Some n.
Proof.
  unfold get_nroots. destruct (objs w !! mps) as [o|]; [|discriminate].
  destruct (nroots o) as [k|] eqn:En; [|discriminate].
  intros [= <- <-]. eauto.
Qed.

(** One list of quanta for each root, each holding the quanta that reach
    the cutoff. *)
Lemma collect_quanta_returns (d : DMRG.t) ks :
  returns (DMRG.collect_quanta C d ks)
    (fun qs =>
       length qs = length ks
       /\ Forall (Forall (fun p : S * D =>
                            dltb p.2 (DMRG.quanta_cutoff d) = false)) qs).
Proof.
  induction ks as [|k ks IH]; cbn [DMRG.collect_quanta].
  - apply returns_ret. split; [reflexivity|constructor].
  - eapply returns_bind; [apply returns_any|intros _ _].
    eapply returns_bind; [apply returns_any|intros q _].
    eapply returns_bind; [exact IH|intros qs [Hlen Hall]].
    apply returns_ret. split; [cbn; congruence|].
    constructor; [|exact Hall].
    apply Forall_forall. intros p Hp.
    apply list_elem_of_In, List.filter_In in Hp as [_ Hp].
    apply negb_true_iff in Hp. exact Hp.
Qed.

(** The wavefunctions of the roots can be released only if there is a
    root. *)
Lemma deallocate_old_wfns_returns mps n :
  returns (deallocate_old_wfns (D:=D) mps n) (fun _ => 1 <= n).
Proof.
  unfold deallocate_old_wfns. intros w u w' Hrun.
  apply bind_Ok in Hrun as (u1 & w1 & _ & Hrun).
  destruct (Z.ltb_spec 0 n); [lia|discriminate Hrun].
Qed.

Lemma dmrg_multi_update_returns (d : DMRG.t) i forward bond_dim noise thrd
    n :
  returns
    (call (frame_activate 0) >>
     obtain_multi_two_dot C (ket (DMRG.me d)) i false >>
     call (multi_eff_ham FuseTypes.FuseLR true) >>
     call (eigs (3 <=? DMRG.iprint d) thrd (DMRG.davidson_max_iter d)) >>
     do '(energies, ndav, nflop, tdav) <- ask (multi_eigs_result C);
     do mps_quanta <- DMRG.collect_quanta C d (zrange n);
     assert (negb (NoiseTypes.eqb (DMRG.noise_type d)
                     NoiseTypes.Perturbative)) >>
     assert (match DMRG.decomp_type d with
             | DecompositionTypes.DensityMatrix => true
             | DecompositionTypes.SVD => false
             end) >>
     call (deallocate h_eff) >>
     call (density_matrix_with_multi_target (ket (DMRG.me d)) forward noise
             (DMRG.noise_type d)) >>
     call (multi_split_density_matrix (ket (DMRG.me d)) i bond_dim forward
             true (DMRG.cutoff d) (DMRG.trunc_type d)) >>
     do error <- ask (split_error C);
     update_canonical_form (ket (DMRG.me d)) i forward "M" >>
     call (deallocate info) >>
     save_multi_two (ket (DMRG.me d)) i forward >>
     call (deallocate dm_info) >>
     call (deallocate dm) >>
     deallocate_old_wfns (ket (DMRG.me d)) n >>
     call (propagate_multi_wfn i (n_sites (DMRG.me d)) (ket (DMRG.me d))
             forward) >>
     ret {| DMRG.it_energies :=
              map (fun x => dadd x (const_e (DMRG.me d))) energies;
            DMRG.it_quanta := mps_quanta; DMRG.it_error := error;
            DMRG.it_ndav := ndav; DMRG.it_tdav := tdav;
            DMRG.it_nflop := nflop |})
    (fun r =>
       DMRG.noise_type d <> NoiseTypes.Perturbative
       /\ DMRG.decomp_type d = DecompositionTypes.DensityMatrix
       /\ 1 <= n
       /\ length (DMRG.it_quanta r) = Z.to_nat n
       /\ Forall (Forall (fun p : S * D =>
                            dltb p.2 (DMRG.quanta_cutoff d) = false))
            (DMRG.it_quanta r)).
Proof.
  do 4 (eapply returns_bind; [apply returns_any|intros ? _]).
  eapply returns_bind; [apply returns_any|intros [[[energies ndav] nflop] tdav] _].
  eapply returns_bind; [apply collect_quanta_returns|intros qs [Hlen Hall]].
  eapply returns_bind; [apply returns_assert|intros ? Hnoise].
  eapply returns_bind; [apply returns_assert|intros ? Hdecomp].
  do 9 (eapply returns_bind; [apply returns_any|intros ? _]).
  eapply returns_bind; [apply deallocate_old_wfns_returns|intros ? Hn].
  eapply returns_bind; [apply returns_any|intros ? _].
  apply returns_ret. cbn [DMRG.it_quanta].
  split.
  { intros Heq. rewrite Heq in Hnoise. discriminate Hnoise. }
  split; [destruct (DMRG.decomp_type d); [discriminate Hdecomp|reflexivity]|].
  split; [exact Hn|]. split; [|exact Hall].
  rewrite Hlen. unfold zrange. apply length_zseq.
Qed.

Lemma dmrg_multi_update_density_matrix (d : DMRG.t) i forward bond_dim
    noise thrd (l : list (Call D)) :
  hoare (fun w : World D => List.filter is_density_matrix (calls w) = l)
    (DMRG.update_multi_two_dot C d i forward bond_dim noise thrd)
    (fun w' =>
       List.filter is_density_matrix (calls w')
       = l ++ [density_matrix_with_multi_target (ket (DMRG.me d)) forward
                 noise (DMRG.noise_type d)]).
Proof.
  unfold DMRG.update_multi_two_dot.
  repeat first
    [ eapply hoare_bind;
        [ apply (hoare_preserves
                   (fun w : World D =>
                      List.filter is_density_matrix (calls w))
                   (fun x : list (Call D) => x = l));
          solve [ apply preserves_collect_quanta_filter; reflexivity
                | preserves_tac ]
        | intros ? ]
    | match goal with
      | |- hoare _ (match ?x with _ => _ end) _ => destruct x
      end ].
  eapply hoare_bind; [apply hoare_call_filter; reflexivity | intros ?].
  apply (hoare_preserves
           (fun w : World D => List.filter is_density_matrix (calls w))
           (fun x => x = l ++ _)).
  preserves_tac.
Qed.

Lemma dmrg_multi_update_splits (d : DMRG.t) i forward bond_dim noise thrd
    (l : list (Call D)) :
  hoare (fun w : World D => List.filter is_split (calls w) = l)
    (DMRG.update_multi_two_dot C d i forward bond_dim noise thrd)
    (fun w' =>
       List.filter is_split (calls w')
       = l ++ [multi_split_density_matrix (ket (DMRG.me d)) i bond_dim
                 forward true (DMRG.cutoff d) (DMRG.trunc_type d)]).
Proof.
  unfold DMRG.update_multi_two_dot.
  repeat first
    [ eapply hoare_bind;
        [ apply (hoare_preserves
                   (fun w : World D => List.filter is_split (calls w))
                   (fun x : list (Call D) => x = l));
          solve [ apply preserves_collect_quanta_filter; reflexivity
                | preserves_tac ]
        | intros ? ]
    | match goal with
      | |- hoare _ (match ?x with _ => _ end) _ => destruct x
      end ].
  eapply hoare_bind; [apply hoare_call_filter; reflexivity | intros ?].
  apply (hoare_preserves
           (fun w : World D => List.filter is_split (calls w))
           (fun x => x = l ++ _)).
  preserves_tac.
Qed.

(** X18.  A state-averaged two-dot update of DMRG that returns was made
    with a noise type other than [Perturbative] and with the
    density-matrix decomposition, on an object with at least one root.  It
    reports one list of quanta for each root, holding only quanta whose
    weight is not below [quanta_cutoff]; it has built one density matrix,
    the one over the targets, and made one split of it; and it has added
    no noise to the wavefunction and no perturbative noise. *)
Theorem dmrg_multi_update_requirements (d : DMRG.t) i forward bond_dim noise
    thrd (w w' : World D) r :
  DMRG.update_multi_two_dot C d i forward bond_dim noise thrd w = Ok r w' ->
  let mket := ket (DMRG.me d) in
  DMRG.noise_type d <> NoiseTypes.Perturbative
  /\ DMRG.decomp_type d = DecompositionTypes.DensityMatrix
  /\ (exists o n,
        objs w !! mket = Some o /\ nroots o = Some n /\ 1 <= n
        /\ length (DMRG.it_quanta r) = Z.to_nat n)
  /\ Forall (Forall (fun p : S * D =>
                       dltb p.2 (DMRG.quanta_cutoff d) = false))
       (DMRG.it_quanta r)
  /\ List.filter is_density_matrix (calls w')
     = List.filter is_density_matrix (calls w) ++
         [density_matrix_with_multi_target mket forward noise
            (DMRG.noise_type d)]
  /\ List.filter is_split (calls w')
     = List.filter is_split (calls w) ++
         [multi_split_density_matrix mket i bond_dim forward true
            (DMRG.cutoff d) (DMRG.trunc_type d)]
  /\ List.filter is_noise (calls w') = List.filter is_noise (calls w).
Proof.
  intros Hrun. cbv zeta.
  pose proof (dmrg_multi_update_density_matrix d i forward bond_dim noise
                thrd _ w r w' eq_refl Hrun) as Hdm.
  pose proof (dmrg_multi_update_splits d i forward bond_dim noise thrd _ w r
                w' eq_refl Hrun) as Hsplit.
  assert (List.filter is_noise (calls w') = List.filter is_noise (calls w))
    as Hnoise.
  { revert Hrun. generalize w, r, w'.
    change (preserves (fun w : World D => List.filter is_noise (calls w))
              (DMRG.update_multi_two_dot C d i forward bond_dim noise thrd)).
    unfold DMRG.update_multi_two_dot.
    repeat first
      [ apply preserves_collect_quanta_filter; reflexivity
      | preserves_step
      | progress unfold obtain_two_dot, obtain_multi_two_dot, save_two,
          save_multi_two, deallocate_old_wfns, for_down,
          update_canonical_form ]. }
  unfold DMRG.update_multi_two_dot in Hrun.
  apply bind_Ok in Hrun as (n & w1 & Hn & Hrun).
  apply get_nroots_Ok in Hn as (-> & o & Ho & Hroots).
  apply dmrg_multi_update_returns in Hrun
    as (Hnt & Hdecomp & Hone & Hlen & Hcut).
  split; [exact Hnt|]. split; [exact Hdecomp|].
  split; [exists o, n; auto|]. auto.
Qed.
End DMRGMulti.

Section DMRGBest.
Context {Op D S : Type} `{!Numeric D}.
Variable C : Collaborators Op D S.

(** What [min_element] asks of the comparison: a strict weak ordering. *)
Hypothesis dltb_irrefl : forall x : D, dltb x x = false.
Hypothesis dltb_trans :
  forall x y z : D, dltb x y = true -> dltb y z = true -> dltb x z = true.
Hypothesis dltb_incomparable :
  forall x y z : D, dltb x y = false -> dltb y z = false -> dltb x z = false.

(** [min_element]: the first of the least elements. *)
Lemma min_index_least (l : list D) :
  forall (p : list D) (best_i : nat) (best : D),
    p !! best_i = Some best ->
    (forall (k : nat) ek, p !! k = Some ek ->
       dltb ek best = false /\ ((k < best_i)%nat -> dltb best ek = true)) ->
    exists e,
      (p ++ l) !! min_index dltb best_i best (length p) l = Some e
      /\ forall (k : nat) ek, (p ++ l) !! k = Some ek ->
           dltb ek e = false
           /\ ((k < min_index dltb best_i best (length p) l)%nat ->
               dltb e ek = true).
Proof.
  induction l as [|x l IH]; intros p best_i best Hbest Hleast;
    cbn [min_index].
  - rewrite app_nil_r. exists best. auto.
  - replace (p ++ x :: l) with ((p ++ [x]) ++ l)
      by (rewrite <- app_assoc; reflexivity).
    replace (Datatypes.S (length p)) with (length (p ++ [x]))
      by (rewrite length_app; cbn; lia).
    pose proof (lookup_lt_Some _ _ _ Hbest) as Hbi.
    destruct (dltb x best) eqn:Ex.
    + apply IH.
      * rewrite lookup_app_r by lia. rewrite Nat.sub_diag. reflexivity.
      * intros k ek Hk. apply lookup_app_Some in Hk as [Hk|[Hge Hk]].
        -- destruct (Hleast k ek Hk) as [Hle _].
           pose proof (lookup_lt_Some _ _ _ Hk). split.
           ++ destruct (dltb ek x) eqn:E; [|reflexivity].
              rewrite (dltb_trans _ _ _ E Ex) in Hle. discriminate Hle.
           ++ intros _. destruct (dltb x ek) eqn:E; [reflexivity|].
              rewrite (dltb_incomparable _ _ _ E Hle) in Ex. discriminate Ex.
        -- destruct (k - length p)%nat as [|?] eqn:E; [|discriminate Hk].
           injection Hk as <-. split; [apply dltb_irrefl|lia].
    + apply IH.
      * rewrite lookup_app_l by exact Hbi. exact Hbest.
      * intros k ek Hk. apply lookup_app_Some in Hk as [Hk|[Hge Hk]].
        -- apply Hleast, Hk.
        -- destruct (k - length p)%nat as [|?] eqn:E; [|discriminate Hk].
           injection Hk as <-. split; [exact Ex|lia].
Qed.

Lemma first_energies_Ok (l : list (DMRG.Iteration (D:=D) (S:=S))) :
  forall (w w' : World D) es,
    DMRG.first_energies l w = Ok es w' ->
    w' = w
    /\ Forall2 (fun r e => head (DMRG.it_energies r) = Some e) l es.
Proof.
  induction l as [|r l IH]; intros w w' es; cbn [DMRG.first_energies].
  - intros [= <- <-]. split; [reflexivity|constructor].
  - intros Hrun. apply bind_Ok in Hrun as (e & w1 & He & Hrun).
    apply deref_Ok in He as [He ->].
    apply bind_Ok in Hrun as (es' & w2 & Hes & Hrun).
    apply IH in Hes as [-> Hall]. injection Hrun as <- <-.
    split; [reflexivity|]. constructor; assumption.
Qed.

(** The iterations a loop over the chain positions returns are those of
    its steps. *)
Lemma dmrg_sweep_steps_results (d : DMRG.t (D:=D) (S:=S)) forward bond_dim
    noise thrd range :
  forall (w w' : World D) rs,
    DMRG.sweep_steps C d forward bond_dim noise thrd range w = Ok rs w' ->
    Forall2 (fun i r => exists w1 w2,
               DMRG.blocking C d i forward bond_dim noise thrd w1 = Ok r w2)
      range rs.
Proof.
  induction range as [|i range IH]; intros w w' rs; cbn [DMRG.sweep_steps].
  - intros [= <- <-]. constructor.
  - intros Hrun. apply bind_Ok in Hrun as ([] & w0 & _ & Hrun).
    apply bind_Ok in Hrun as (r & w1 & Hstep & Hrun).
    apply bind_Ok in Hrun as (rs' & w2 & Hrest & Hrun).
    injection Hrun as <- <-. constructor; eauto.
Qed.

(** X7.  When [<] on the energies is a strict weak ordering (as it is on
    floating-point numbers that are not NaN), a sweep of DMRG that returns
    reports the energies and the quanta of one of its blocking steps, the
    first of those whose first energy is the lowest: no step has a first
    energy less than the one reported, and every step before the one
    reported has a greater one. *)
Theorem dmrg_sweep_reports_lowest (d : DMRG.t (D:=D) (S:=S)) forward
    bond_dim noise thrd (w w' : World D) res :
  DMRG.sweep C d forward bond_dim noise thrd w = Ok res w' ->
  let range := sweep_range forward (center C (calls w ++ [prepare]))
                 (n_sites (DMRG.me d)) (dot (DMRG.me d)) in
  exists rs (idx : nat) r,
    Forall2 (fun i r => exists w1 w2,
               DMRG.blocking C d i forward bond_dim noise thrd w1 = Ok r w2)
      range rs
    /\ rs !! idx = Some r
    /\ res = (DMRG.it_energies r, DMRG.it_quanta r)
    /\ forall (j : nat) rj e ej,
         rs !! j = Some rj ->
         head (DMRG.it_energies r) = Some e ->
         head (DMRG.it_energies rj) = Some ej ->
         dltb ej e = false /\ ((j < idx)%nat -> dltb e ej = true).
Proof.
  intros Hrun. cbv zeta. unfold DMRG.sweep in Hrun.
  apply bind_Ok in Hrun as ([] & w0 & Hprep & Hrun).
  apply call_Ok in Hprep as ->.
  apply bind_Ok in Hrun as (c & w1 & Hc & Hrun).
  apply ask_Ok in Hc as [-> ->]. cbn [objs calls] in Hrun.
  apply bind_Ok in Hrun as (rs & w2 & Hsteps & Hrun).
  apply bind_Ok in Hrun as (idx & w3 & Hidx & Hrun).
  apply bind_Ok in Hrun as (r & w4 & Hr & Hrun).
  apply deref_Ok in Hr as [Hr ->]. injection Hrun as <- _.
  apply dmrg_sweep_steps_results in Hsteps.
  exists rs, idx, r. split; [exact Hsteps|]. split; [exact Hr|].
  split; [reflexivity|].
  unfold DMRG.best_index in Hidx.
  destruct rs as [|r0 [|r1 rs']].
  - rewrite lookup_nil in Hr. discriminate.
  - injection Hidx as <- _. intros j rj e ej Hj He Hej.
    destruct j as [|j]; [|rewrite lookup_cons, lookup_nil in Hj; discriminate Hj].
    cbn in Hj, Hr. injection Hj as <-. injection Hr as <-.
    split; [|lia]. rewrite He in Hej. injection Hej as <-.
    apply dltb_irrefl.
  - apply bind_Ok in Hidx as (e0 & w5 & He0 & Hidx).
    apply deref_Ok in He0 as [He0 ->].
    apply bind_Ok in Hidx as (es & w6 & Hes & Hidx).
    apply first_energies_Ok in Hes as [-> Hes]. injection Hidx as <- _.
    destruct (min_index_least es [e0] 0%nat e0 eq_refl)
      as (e & Hidx & Hleast).
    { intros k ek Hk. destruct k as [|k]; [|discriminate Hk].
      injection Hk as <-. split; [apply dltb_irrefl|lia]. }
    cbn [length app] in Hidx, Hleast.
    assert (Forall2 (fun r e => head (DMRG.it_energies r) = Some e)
              (r0 :: r1 :: rs') (e0 :: es)) as Hall
      by (constructor; assumption).
    intros j rj e' ej Hj He Hej.
    destruct (Forall2_lookup_l _ _ _ _ _ Hall Hr) as (x & Hx & Hrx).
    destruct (Forall2_lookup_l _ _ _ _ _ Hall Hj) as (y & Hy & Hry).
    rewrite Hidx in Hx. injection Hx as <-.
    rewrite He in Hrx. injection Hrx as <-.
    rewrite Hej in Hry. injection Hry as <-.
    apply (Hleast j ej Hy).
Qed.
End DMRGBest.

Section DMRGSolve.
Context {Op D S : Type} `{!Numeric D}.
Variable C : Collaborators Op D S.

(** [resize(n_sweeps, v.back())]: what the schedule is after it. *)
Lemma grow_Ok {A} (l l' : list A) n_sweeps (w w' : World D) :
  grow l n_sweeps w = Ok l' w' ->
  w' = w
  /\ 0 <= n_sweeps
  /\ exists tail,
       l' = l ++ tail
       /\ length l' = Nat.max (length l) (Z.to_nat n_sweeps)
       /\ Forall (fun x => last l = Some x) tail.
Proof.
  unfold grow.
  destruct (Z.ltb_spec n_sweeps 0) as [Hneg|Hpos]; cbn [orb].
  - intros Hrun. apply bind_Ok in Hrun as (x & w1 & _ & Hrun).
    discriminate Hrun.
  - destruct (Z.ltb_spec (Z.of_nat (length l)) n_sweeps) as [Hlt|Hge].
    + intros Hrun. apply bind_Ok in Hrun as (x & w1 & Hx & Hrun).
      apply deref_Ok in Hx as [Hx ->]. injection Hrun as <- <-.
      split; [reflexivity|]. split; [exact Hpos|].
      eexists. split; [reflexivity|]. split.
      * rewrite length_app, length_replicate. lia.
      * apply Forall_replicate. exact Hx.
    + intros [= <- <-]. split; [reflexivity|]. split; [exact Hpos|].
      exists []. rewrite app_nil_r. split; [reflexivity|].
      split; [lia|constructor].
Qed.

Lemma dmrg_sweep_prepare (d : DMRG.t) forward bond_dim noise thrd
    (w w' : World D) res :
  DMRG.sweep C d forward bond_dim noise thrd w = Ok res w' ->
  List.filter is_prepare (calls w')
  = List.filter is_prepare (calls w) ++ [prepare].
Proof.
  intros Hrun. unfold DMRG.sweep in Hrun.
  apply bind_Ok in Hrun as ([] & w0 & Hprep & Hrun).
  apply call_Ok in Hprep as ->.
  apply bind_Ok in Hrun as (c & w1 & Hc & Hrun).
  apply ask_Ok in Hc as [-> ->]. cbn [objs calls] in Hrun.
  apply bind_Ok in Hrun as (rs & w2 & Hsteps & Hrun).
  transitivity (List.filter is_prepare (calls w2)).
  - revert Hrun. generalize w2, res, w'.
    change (preserves (fun w : World D => List.filter is_prepare (calls w))
              (do idx <- DMRG.best_index rs;
               do r <- deref (rs !! idx);
               ret (DMRG.it_energies r, DMRG.it_quanta r))).
    apply preserves_bind; [|intros idx; apply preserves_bind;
                             [apply preserves_deref
                             |intros r; apply preserves_ret]].
    unfold DMRG.best_index. destruct rs as [|r0 [|r1 rs']];
      [apply preserves_ret..|].
    apply preserves_bind; [apply preserves_deref|intros e0].
    apply preserves_bind; [|intros es; apply preserves_ret].
    generalize (r1 :: rs'). intros l. induction l as [|x l IH];
      cbn [DMRG.first_energies]; [apply preserves_ret|].
    apply preserves_bind; [apply preserves_deref|intros e].
    apply preserves_bind; [exact IH|intros es; apply preserves_ret].
  - revert Hsteps.
    generalize (sweep_range forward (center C (calls w ++ [prepare]))
                  (n_sites (DMRG.me d)) (dot (DMRG.me d))).
    intros range Hsteps.
    assert (forall w1 w2 rs,
               DMRG.sweep_steps C d forward bond_dim noise thrd range w1
               = Ok rs w2 ->
               List.filter is_prepare (calls w2)
               = List.filter is_prepare (calls w1)) as Hpres.
    { clear. induction range as [|i range IH]; intros w1 w2 rs;
        cbn [DMRG.sweep_steps].
      - intros [= <- <-]. reflexivity.
      - intros Hrun.
        apply bind_Ok in Hrun as ([] & w0 & Hsig & Hrun).
        apply call_Ok in Hsig as ->.
        apply bind_Ok in Hrun as (r & w3 & Hstep & Hrun).
        apply bind_Ok in Hrun as (rs' & w4 & Hrest & Hrun).
        injection Hrun as <- <-.
        apply preserves_dmrg_blocking_prepare in Hstep.
        apply IH in Hrest. rewrite Hrest, Hstep. cbn [calls].
        rewrite List.filter_app. cbn. rewrite app_nil_r. reflexivity. }
    rewrite (Hpres _ _ _ Hsteps). cbn [calls].
    rewrite List.filter_app. reflexivity.
Qed.

Lemma dmrg_converged_Ok (d : @DMRG.t D S) tol iw (w w' : World D) b :
  DMRG.converged d tol iw w = Ok b w' ->
  w' = w /\ (dltb (of_Z 0) tol = false -> b = false).
Proof.
  unfold DMRG.converged.
  destruct (dltb (of_Z 0) tol); rewrite ?andb_false_r, ?andb_true_r.
  2:{ intros [= <- <-]. auto. }
  intros Hrun. split; [|discriminate].
  revert Hrun. generalize w, b, w'.
  change (preserves (fun w : World D => w)
            (if (2 <=? length (DMRG.energies d))%nat
             then
               do e1 <- deref (DMRG.energies d
                                 !! (length (DMRG.energies d) - 1)%nat
                                 ≫= last);
               do e2 <- deref (DMRG.energies d
                                 !! (length (DMRG.energies d) - 2)%nat
                                 ≫= last);
               if dltb (dabs (dsub e1 e2)) tol then
                 do n <- deref (DMRG.noises d !! iw);
                 do nb <- deref (last (DMRG.noises d));
                 if deqb n nb then
                   do b <- deref (DMRG.bond_dims d !! iw);
                   do bb <- deref (last (DMRG.bond_dims d));
                   ret (b =? bb)
                 else ret false
               else ret false
             else ret false)).
  repeat first
    [ apply preserves_ret | apply preserves_deref
    | apply preserves_bind; [|intros ?]
    | match goal with
      | |- preserves _ (if ?c then _ else _) => destruct c
      end ].
Qed.

(** The loop of [solve]: the schedules are read and not written, every
    sweep appends one record and turns the direction round. *)
Lemma dmrg_sweeps_Ok tol n :
  forall iw (d : DMRG.t) forward (w w' : World D) d' forward',
    DMRG.sweeps C tol n iw d forward w = Ok (d', forward') w' ->
    exists new,
      DMRG.energies d' = DMRG.energies d ++ new
      /\ length (DMRG.mps_quanta d')
         = (length (DMRG.mps_quanta d) + length new)%nat
      /\ DMRG.noises d' = DMRG.noises d
      /\ DMRG.bond_dims d' = DMRG.bond_dims d
      /\ (length new <= n)%nat
      /\ (n <> 0%nat -> new <> [])
      /\ (dltb (of_Z 0) tol = false -> length new = n)
      /\ List.filter is_prepare (calls w')
         = List.filter is_prepare (calls w) ++ replicate (length new) prepare
      /\ forward' = xorb forward (Nat.odd (length new)).
Proof.
  induction n as [|n IH]; intros iw d forward w w' d' forward';
    cbn [DMRG.sweeps].
  - intros [= <- <- <-]. exists []. rewrite !app_nil_r. cbn.
    rewrite Nat.add_0_r, xorb_false_r. repeat split; auto.
  - intros Hrun.
    apply bind_Ok in Hrun as (bd & w1 & H1 & Hrun).
    apply deref_Ok in H1 as [_ ->].
    apply bind_Ok in Hrun as (nz & w2 & H2 & Hrun).
    apply deref_Ok in H2 as [_ ->].
    apply bind_Ok in Hrun as (th & w3 & H3 & Hrun).
    apply deref_Ok in H3 as [_ ->].
    apply bind_Ok in Hrun as (res & w4 & Hsweep & Hrun).
    apply dmrg_sweep_prepare in Hsweep.
    apply bind_Ok in Hrun as (conv & w5 & Hconv & Hrun).
    apply dmrg_converged_Ok in Hconv as [-> Hconv].
    destruct conv.
    + injection Hrun as <- <- <-.
      cbn [DMRG.energies DMRG.noises DMRG.bond_dims DMRG.mps_quanta].
      exists [res.1]. cbn [length replicate]. rewrite length_app. cbn [length].
      split; [reflexivity|]. split; [lia|]. split; [reflexivity|].
      split; [reflexivity|]. split; [lia|]. split; [discriminate|].
      split; [intros Htol; specialize (Hconv Htol); discriminate|].
      split; [exact Hsweep|destruct forward; reflexivity].
    + apply IH in Hrun
        as (new & He & Hq & Hn & Hb & Hlen & _ & Htol & Hprep & Hfwd).
      cbn [DMRG.energies DMRG.noises DMRG.bond_dims DMRG.mps_quanta]
        in He, Hq, Hn, Hb.
      rewrite length_app in Hq. cbn [length] in Hq.
      exists (res.1 :: new). cbn [length replicate].
      split; [rewrite He, <- app_assoc; reflexivity|].
      split; [lia|]. split; [exact Hn|]. split; [exact Hb|].
      split; [lia|]. split; [discriminate|].
      split; [intros Ht; rewrite (Htol Ht); reflexivity|].
      split.
      * rewrite Hprep, Hsweep, <- app_assoc. reflexivity.
      * rewrite Hfwd. apply xorb_odd_succ.
Qed.

(** X8.  A [solve] of DMRG that returns was asked for one sweep at
    least.  It has padded the schedules of bond dimensions and noises with
    their last entries up to the number of sweeps (a longer schedule is
    kept whole), made between one and [n_sweeps] sweeps, all of them when
    [tol] is not positive, and recorded one list of energies and one of
    quanta for each; each sweep prepared the environment once and turned
    the direction round, the direction after the last being stored in the
    object; the energy returned is the first of the last sweep's. *)
Theorem dmrg_solve_schedules (d : DMRG.t) n_sweeps forward tol
    (w w' : World D) e d' :
  DMRG.solve C d n_sweeps forward tol w = Ok (e, d') w' ->
  let made := length (DMRG.energies d') in
  1 <= n_sweeps
  /\ (exists tail,
        DMRG.bond_dims d' = DMRG.bond_dims d ++ tail
        /\ length (DMRG.bond_dims d')
           = Nat.max (length (DMRG.bond_dims d)) (Z.to_nat n_sweeps)
        /\ Forall (fun x => last (DMRG.bond_dims d) = Some x) tail)
  /\ (exists tail,
        DMRG.noises d' = DMRG.noises d ++ tail
        /\ length (DMRG.noises d')
           = Nat.max (length (DMRG.noises d)) (Z.to_nat n_sweeps)
        /\ Forall (fun x => last (DMRG.noises d) = Some x) tail)
  /\ (1 <= made <= Z.to_nat n_sweeps)%nat
  /\ (dltb (of_Z 0) tol = false -> made = Z.to_nat n_sweeps)
  /\ length (DMRG.mps_quanta d') = made
  /\ List.filter is_prepare (calls w')
     = List.filter is_prepare (calls w) ++ replicate made prepare
  /\ DMRG.forward d' = xorb forward (Nat.odd made)
  /\ last (DMRG.energies d') ≫= head = Some e.
Proof.
  intros Hrun. cbv zeta. unfold DMRG.solve in Hrun.
  apply bind_Ok in Hrun as (bds & w1 & Hbds & Hrun).
  apply grow_Ok in Hbds as (-> & Hpos & Hbds).
  apply bind_Ok in Hrun as (nzs & w2 & Hnzs & Hrun).
  apply grow_Ok in Hnzs as (-> & _ & Hnzs).
  apply bind_Ok in Hrun as ([d1 forward'] & w3 & Hsweeps & Hrun).
  apply bind_Ok in Hrun as (e' & w4 & He & Hrun).
  apply deref_Ok in He as [He ->]. injection Hrun as <- <- <-.
  cbn [DMRG.energies DMRG.noises DMRG.bond_dims DMRG.mps_quanta
         DMRG.forward] in *.
  apply dmrg_sweeps_Ok in Hsweeps
    as (new & Hen & Hq & Hn & Hb & Hlen & Hne & Htol & Hprep & Hfwd).
  cbn [DMRG.energies DMRG.noises DMRG.bond_dims DMRG.mps_quanta app length]
    in Hen, Hq, Hn, Hb.
  rewrite Hen, Hn, Hb, Hq. rewrite Hen in He.
  assert (new <> []) as Hnew.
  { intros ->. discriminate He. }
  assert (1 <= length new)%nat as Hone
    by (destruct new; [congruence|cbn; lia]).
  split; [lia|]. split; [exact Hbds|]. split; [exact Hnzs|].
  split; [lia|]. split; [exact Htol|]. split; [reflexivity|].
  split; [exact Hprep|]. split; [exact Hfwd|exact He].
Qed.
End DMRGSolve.

Section CompressSolve.
Context {Op D S : Type} `{!Numeric D}.
Variable C : Collaborators Op D S.

Lemma preserves_compress_blocking_prepare (c : Compress.t) i forward
    bra_bond_dim ket_bond_dim noise :
  preserves (fun w : World D => List.filter is_prepare (calls w))
    (Compress.blocking C c i forward bra_bond_dim ket_bond_dim noise).
Proof.
  unfold Compress.blocking, Compress.update_two_dot.
  cbn [for_each Compress.split_all].
  repeat first
    [ preserves_step
    | progress unfold obtain_two_dot, save_two, update_canonical_form,
        Compress.split_one ].
Qed.

Lemma compress_sweep_Ok (c : Compress.t) forward bra_bond_dim ket_bond_dim
    noise (w w' : World D) norm :
  Compress.sweep C c forward bra_bond_dim ket_bond_dim noise w = Ok norm w' ->
  List.filter is_prepare (calls w')
  = List.filter is_prepare (calls w) ++ [prepare].
Proof.
  intros Hrun. unfold Compress.sweep in Hrun.
  apply bind_Ok in Hrun as ([] & w0 & Hprep & Hrun).
  apply call_Ok in Hprep as ->.
  apply bind_Ok in Hrun as (ctr & w1 & Hc & Hrun).
  apply ask_Ok in Hc as [-> ->]. cbn [objs calls] in Hrun.
  apply bind_Ok in Hrun as (ns & w2 & Hsteps & Hrun).
  apply deref_Ok in Hrun as [_ ->].
  revert Hsteps.
  generalize (sweep_range forward (center C (calls w ++ [prepare]))
                (n_sites (Compress.me c)) (dot (Compress.me c))).
  intros range Hsteps.
  assert (forall w1 w2 ns,
             Compress.sweep_steps C c forward bra_bond_dim ket_bond_dim
               noise range w1 = Ok ns w2 ->
             List.filter is_prepare (calls w2)
             = List.filter is_prepare (calls w1)) as Hpres.
  { clear. induction range as [|i range IH]; intros w1 w2 ns;
      cbn [Compress.sweep_steps].
    - intros [= <- <-]. reflexivity.
    - intros Hrun.
      apply bind_Ok in Hrun as ([] & w0 & Hsig & Hrun).
      apply call_Ok in Hsig as ->.
      apply bind_Ok in Hrun as (r & w3 & Hstep & Hrun).
      apply bind_Ok in Hrun as (ns' & w4 & Hrest & Hrun).
      injection Hrun as <- <-.
      apply preserves_compress_blocking_prepare in Hstep.
      apply IH in Hrest. rewrite Hrest, Hstep. cbn [calls].
      rewrite List.filter_app. cbn. rewrite app_nil_r. reflexivity. }
  rewrite (Hpres _ _ _ Hsteps). cbn [calls].
  rewrite List.filter_app. reflexivity.
Qed.

Lemma compress_converged_Ok (c : @Compress.t D) tol iw (w w' : World D) b :
  Compress.converged c tol iw w = Ok b w' ->
  w' = w /\ (dltb (of_Z 0) tol = false -> b = false).
Proof.
  unfold Compress.converged.
  destruct (dltb (of_Z 0) tol); rewrite ?andb_false_r, ?andb_true_r.
  2:{ intros [= <- <-]. auto. }
  intros Hrun. split; [|discriminate].
  revert Hrun. generalize w, b, w'.
  change (preserves (fun w : World D => w)
            (if (2 <=? length (Compress.norms c))%nat
             then
               do n1 <- deref (Compress.norms c
                                 !! (length (Compress.norms c) - 1)%nat);
               do n2 <- deref (Compress.norms c
                                 !! (length (Compress.norms c) - 2)%nat);
               if dltb (dabs (dsub n1 n2)) tol then
                 do n <- deref (Compress.noises c !! iw);
                 do nb <- deref (last (Compress.noises c));
                 if deqb n nb then
                   do b <- deref (Compress.bra_bond_dims c !! iw);
                   do bb <- deref (last (Compress.bra_bond_dims c));
                   ret (b =? bb)
                 else ret false
               else ret false
             else ret false)).
  repeat first
    [ apply preserves_ret | apply preserves_deref
    | apply preserves_bind; [|intros ?]
    | match goal with
      | |- preserves _ (if ?c then _ else _) => destruct c
      end ].
Qed.

(** The loop of [solve]: the schedules are read and not written, every
    sweep appends its norm and turns the direction round. *)
Lemma compress_sweeps_Ok tol n :
  forall iw (c : Compress.t) forward (w w' : World D) c' forward',
    Compress.sweeps C tol n iw c forward w = Ok (c', forward') w' ->
    exists new,
      Compress.norms c' = Compress.norms c ++ new
      /\ Compress.noises c' = Compress.noises c
      /\ Compress.bra_bond_dims c' = Compress.bra_bond_dims c
      /\ Compress.ket_bond_dims c' = Compress.ket_bond_dims c
      /\ (length new <= n)%nat
      /\ (dltb (of_Z 0) tol = false -> length new = n)
      /\ List.filter is_prepare (calls w')
         = List.filter is_prepare (calls w) ++ replicate (length new) prepare
      /\ forward' = xorb forward (Nat.odd (length new)).
Proof.
  induction n as [|n IH]; intros iw c forward w w' c' forward';
    cbn [Compress.sweeps].
  - intros [= <- <- <-]. exists []. rewrite !app_nil_r. cbn.
    rewrite xorb_false_r. repeat split; auto.
  - intros Hrun.
    apply bind_Ok in Hrun as (bd & w1 & H1 & Hrun).
    apply deref_Ok in H1 as [_ ->].
    apply bind_Ok in Hrun as (nz & w2 & H2 & Hrun).
    apply deref_Ok in H2 as [_ ->].
    apply bind_Ok in Hrun as (kd & w3 & H3 & Hrun).
    apply deref_Ok in H3 as [_ ->].
    apply bind_Ok in Hrun as (norm & w4 & Hsweep & Hrun).
    apply compress_sweep_Ok in Hsweep.
    apply bind_Ok in Hrun as (conv & w5 & Hconv & Hrun).
    apply compress_converged_Ok in Hconv as [-> Hconv].
    destruct conv.
    + injection Hrun as <- <- <-.
      cbn [Compress.norms Compress.noises Compress.bra_bond_dims
             Compress.ket_bond_dims].
      exists [norm]. cbn [length replicate].
      split; [reflexivity|]. split; [reflexivity|]. split; [reflexivity|].
      split; [reflexivity|]. split; [lia|].
      split; [intros Htol; specialize (Hconv Htol); discriminate|].
      split; [exact Hsweep|destruct forward; reflexivity].
    + apply IH in Hrun
        as (new & Hnorms & Hn & Hb & Hk & Hlen & Htol & Hprep & Hfwd).
      cbn [Compress.norms Compress.noises Compress.bra_bond_dims
             Compress.ket_bond_dims] in Hnorms, Hn, Hb, Hk.
      exists (norm :: new). cbn [length replicate].
      split; [rewrite Hnorms, <- app_assoc; reflexivity|].
      split; [exact Hn|]. split; [exact Hb|]. split; [exact Hk|].
      split; [lia|].
      split; [intros Ht; rewrite (Htol Ht); reflexivity|].
      split.
      * rewrite Hprep, Hsweep, <- app_assoc. reflexivity.
      * rewrite Hfwd. apply xorb_odd_succ.
Qed.

(** X20.  A [solve] of Compress that returns was asked for one sweep at
    least.  It has padded the three schedules, of the bond dimensions of
    the bra, of those of the ket and of the noises, with their last
    entries up to the number of sweeps, made between one and [n_sweeps]
    sweeps, all of them when [tol] is not positive, and recorded one norm
    for each; each sweep prepared the environment once and turned the
    direction round, the direction after the last being stored in the
    object; the norm returned is that of the last sweep. *)
Theorem compress_solve_schedules (c : Compress.t) n_sweeps forward tol
    (w w' : World D) norm c' :
  Compress.solve C c n_sweeps forward tol w = Ok (norm, c') w' ->
  let made := length (Compress.norms c') in
  1 <= n_sweeps
  /\ (exists tail,
        Compress.bra_bond_dims c' = Compress.bra_bond_dims c ++ tail
        /\ length (Compress.bra_bond_dims c')
           = Nat.max (length (Compress.bra_bond_dims c)) (Z.to_nat n_sweeps)
        /\ Forall (fun x => last (Compress.bra_bond_dims c) = Some x) tail)
  /\ (exists tail,
        Compress.ket_bond_dims c' = Compress.ket_bond_dims c ++ tail
        /\ length (Compress.ket_bond_dims c')
           = Nat.max (length (Compress.ket_bond_dims c)) (Z.to_nat n_sweeps)
        /\ Forall (fun x => last (Compress.ket_bond_dims c) = Some x) tail)
  /\ (exists tail,
        Compress.noises c' = Compress.noises c ++ tail
        /\ length (Compress.noises c')
           = Nat.max (length (Compress.noises c)) (Z.to_nat n_sweeps)
        /\ Forall (fun x => last (Compress.noises c) = Some x) tail)
  /\ (1 <= made <= Z.to_nat n_sweeps)%nat
  /\ (dltb (of_Z 0) tol = false -> made = Z.to_nat n_sweeps)
  /\ List.filter is_prepare (calls w')
     = List.filter is_prepare (calls w) ++ replicate made prepare
  /\ Compress.forward c' = xorb forward (Nat.odd made)
  /\ last (Compress.norms c') = Some norm.
Proof.
  intros Hrun. cbv zeta. unfold Compress.solve in Hrun.
  apply bind_Ok in Hrun as (bds & w1 & Hbds & Hrun).
  apply grow_Ok in Hbds as (-> & Hpos & Hbds).
  apply bind_Ok in Hrun as (kds & w2 & Hkds & Hrun).
  apply grow_Ok in Hkds as (-> & _ & Hkds).
  apply bind_Ok in Hrun as (nzs & w3 & Hnzs & Hrun).
  apply grow_Ok in Hnzs as (-> & _ & Hnzs).
  apply bind_Ok in Hrun as ([c1 forward'] & w4 & Hsweeps & Hrun).
  apply bind_Ok in Hrun as (norm' & w5 & Hnorm & Hrun).
  apply deref_Ok in Hnorm as [Hnorm ->]. injection Hrun as <- <- <-.
  cbn [Compress.norms Compress.noises Compress.bra_bond_dims
         Compress.ket_bond_dims Compress.forward] in *.
  apply compress_sweeps_Ok in Hsweeps
    as (new & Hnorms & Hn & Hb & Hk & Hlen & Htol & Hprep & Hfwd).
  cbn [Compress.norms Compress.noises Compress.bra_bond_dims
         Compress.ket_bond_dims app] in Hnorms, Hn, Hb, Hk.
  rewrite Hnorms, Hn, Hb, Hk. rewrite Hnorms in Hnorm.
  assert (1 <= length new)%nat as Hone
    by (destruct new; [discriminate Hnorm|cbn; lia]).
  split; [lia|]. split; [exact Hbds|]. split; [exact Hkds|].
  split; [exact Hnzs|]. split; [lia|]. split; [exact Htol|].
  split; [exact Hprep|]. split; [exact Hfwd|exact Hnorm].
Qed.
End CompressSolve.

Section SweepReports.
Context {Op D S : Type} `{!Numeric D}.
Variable C : Collaborators Op D S.

(** The running maximum is where it started or one of the entries. *)
Lemma fold_dmax_one {A} (f : A -> D) (l : list A) :
  forall acc,
    let m := fold_left (fun acc r => ImaginaryTE.dmax acc (f r)) l acc in
    m = acc \/ Exists (fun r => m = f r) l.
Proof.
  induction l as [|r l IH]; intros acc; cbn [fold_left].
  - left. reflexivity.
  - cbv zeta in IH. destruct (IH (ImaginaryTE.dmax acc (f r))) as [Hm|Hm].
    + rewrite Hm. unfold ImaginaryTE.dmax.
      destruct (dltb acc (f r)).
      * right. apply Exists_cons_hd. reflexivity.
      * left. reflexivity.
    + right. apply Exists_cons_tl. exact Hm.
Qed.

(** When the comparison is a strict weak ordering, which is what
    [std::max] asks of it, the running maximum is not less than where it
    started nor than any entry. *)
Lemma fold_dmax_bounds {A} (f : A -> D) (l : list A) :
  (forall x : D, dltb x x = false) ->
  (forall x y z : D, dltb x y = true -> dltb y z = true -> dltb x z = true) ->
  (forall x y z : D,
      dltb x y = false -> dltb y z = false -> dltb x z = false) ->
  forall acc,
    let m := fold_left (fun acc r => ImaginaryTE.dmax acc (f r)) l acc in
    dltb m acc = false /\ Forall (fun r => dltb m (f r) = false) l.
Proof.
  intros dltb_irrefl dltb_trans dltb_incomparable.
  induction l as [|r l IH]; intros acc; cbn [fold_left].
  - split; [apply dltb_irrefl|constructor].
  - cbv zeta in IH. destruct (IH (ImaginaryTE.dmax acc (f r)))
      as (Hacc & Hall).
    set (m := fold_left (fun acc r => ImaginaryTE.dmax acc (f r)) l
                (ImaginaryTE.dmax acc (f r))) in *.
    unfold ImaginaryTE.dmax in Hacc.
    destruct (dltb acc (f r)) eqn:Elt.
    + split; [|constructor; assumption].
      destruct (dltb m acc) eqn:E; [|reflexivity].
      rewrite (dltb_trans _ _ _ E Elt) in Hacc. discriminate Hacc.
    + split; [exact Hacc|].
      constructor; [exact (dltb_incomparable _ _ _ Hacc Elt)|exact Hall].
Qed.

Lemma te_sweep_steps_results (te : ImaginaryTE.t) forward advance beta
    bond_dim noise range :
  forall (w w' : World D) rs,
    ImaginaryTE.sweep_steps C te forward advance beta bond_dim noise range w
      = Ok rs w' ->
    Forall2 (fun i r => exists w1 w2,
               ImaginaryTE.blocking C te i forward advance beta bond_dim
                 noise w1 = Ok r w2) range rs.
Proof.
  induction range as [|i range IH]; intros w w' rs;
    cbn [ImaginaryTE.sweep_steps].
  - intros [= <- <-]. constructor.
  - intros Hrun. apply bind_Ok in Hrun as ([] & w0 & _ & Hrun).
    apply bind_Ok in Hrun as (r & w1 & Hstep & Hrun).
    apply bind_Ok in Hrun as (rs' & w2 & Hrest & Hrun).
    injection Hrun as <- <-. constructor; eauto.
Qed.

Lemma compress_sweep_steps_results (c : Compress.t) forward bra_bond_dim
    ket_bond_dim noise range :
  forall (w w' : World D) ns,
    Compress.sweep_steps C c forward bra_bond_dim ket_bond_dim noise range w
      = Ok ns w' ->
    Forall2 (fun i n => exists r w1 w2,
               Compress.blocking C c i forward bra_bond_dim ket_bond_dim
                 noise w1 = Ok r w2
               /\ n = Compress.it_norm r) range ns.
Proof.
  induction range as [|i range IH]; intros w w' ns;
    cbn [Compress.sweep_steps].
  - intros [= <- <-]. constructor.
  - intros Hrun. apply bind_Ok in Hrun as ([] & w0 & _ & Hrun).
    apply bind_Ok in Hrun as (r & w1 & Hstep & Hrun).
    apply bind_Ok in Hrun as (ns' & w2 & Hrest & Hrun).
    injection Hrun as <- <-. constructor; eauto.
Qed.

Lemma last_map {A B} (f : A -> B) (l : list A) :
  last (map f l) = f <$> last l.
Proof.
  induction l as [|x [|y l] IH]; [reflexivity..|].
  change (map f (x :: y :: l)) with (f x :: f y :: map f l).
  rewrite !last_cons_cons. exact IH.
Qed.

Lemma Forall2_last {A B} (P : A -> B -> Prop) (l : list A) (k : list B) b :
  Forall2 P l k -> last k = Some b -> exists a, last l = Some a /\ P a b.
Proof.
  induction 1 as [|x y l k Hxy Hlk IH]; [discriminate|].
  destruct Hlk as [|x' y' l k Hxy' Hlk].
  - intros [= <-]. exists x. auto.
  - intros Hlast. rewrite last_cons_cons in Hlast.
    apply IH in Hlast as (a0 & Ha & HP). exists a0.
    rewrite last_cons_cons. auto.
Qed.

(** X21.  What the sweeps of ImaginaryTE and Compress report is that of
    their last step, where DMRG reports its best one.  A sweep of
    ImaginaryTE that returns gives the energy and the squared norm of the
    blocking step at the last position, the end of the chain in the
    direction of the sweep, and an error that is 0 or the error of one of
    the steps; when [<] is a strict weak ordering, and for this part
    alone, that error is not less than 0 nor than the error of any step.
    A sweep of Compress that returns gives the norm of the blocking step
    at the last position. *)
Theorem sweeps_report_last_step :
  (forall (te : ImaginaryTE.t) forward advance beta bond_dim noise
          (w w' : World D) energy normsq error,
      ImaginaryTE.sweep C te forward advance beta bond_dim noise w
        = Ok (energy, normsq, error) w' ->
      let final := if forward then n_sites (ImaginaryTE.me te) - 2 else 0 in
      exists rs r,
        Forall2 (fun i r => exists w1 w2,
                   ImaginaryTE.blocking C te i forward advance beta bond_dim
                     noise w1 = Ok r w2)
          (sweep_range forward (center C (calls w ++ [prepare]))
             (n_sites (ImaginaryTE.me te)) 2) rs
        /\ (exists w1 w2,
              ImaginaryTE.blocking C te final forward advance beta bond_dim
                noise w1 = Ok r w2)
        /\ energy = ImaginaryTE.it_energy r
        /\ normsq = ImaginaryTE.it_normsq r
        /\ (error = of_Q 0
            \/ Exists (fun r => error = ImaginaryTE.it_error r) rs)
        /\ ((forall x : D, dltb x x = false) ->
            (forall x y z : D,
                dltb x y = true -> dltb y z = true -> dltb x z = true) ->
            (forall x y z : D,
                dltb x y = false -> dltb y z = false -> dltb x z = false) ->
            dltb error (of_Q 0) = false
            /\ Forall (fun r => dltb error (ImaginaryTE.it_error r) = false)
                 rs))
  /\ (forall (c : Compress.t) forward bra_bond_dim ket_bond_dim noise
             (w w' : World D) norm,
      Compress.sweep C c forward bra_bond_dim ket_bond_dim noise w
        = Ok norm w' ->
      let final := if forward then n_sites (Compress.me c) - 2 else 0 in
      exists r w1 w2,
        Compress.blocking C c final forward bra_bond_dim ket_bond_dim noise
          w1 = Ok r w2
        /\ norm = Compress.it_norm r).
Proof.
  split.
  - intros te forward advance beta bond_dim noise w w' energy normsq error
      Hrun. cbv zeta. unfold ImaginaryTE.sweep in Hrun.
    apply bind_Ok in Hrun as ([] & w0 & Hprep & Hrun).
    apply call_Ok in Hprep as ->.
    apply bind_Ok in Hrun as (ctr & w1 & Hc & Hrun).
    apply ask_Ok in Hc as [-> ->]. cbn [objs calls] in Hrun.
    apply bind_Ok in Hrun as (rs & w2 & Hsteps & Hrun).
    apply bind_Ok in Hrun as (e & w3 & He & Hrun).
    apply deref_Ok in He as [He ->].
    apply bind_Ok in Hrun as (n & w4 & Hn & Hrun).
    apply deref_Ok in Hn as [Hn ->]. injection Hrun as <- <- <- <-.
    apply te_sweep_steps_results in Hsteps.
    rewrite last_map in He, Hn.
    destruct (last rs) as [r|] eqn:Hlast; [|discriminate He].
    cbn in He, Hn. injection He as <-. injection Hn as <-.
    destruct (Forall2_last _ _ _ _ Hsteps Hlast) as (i & Hi & Hblock).
    assert (dot (ImaginaryTE.me te) = 2) as Hdot.
    { destruct Hblock as (wa & wb & Hblock).
      unfold ImaginaryTE.blocking in Hblock.
      apply bind_Ok in Hblock as ([] & wc & _ & Hblock).
      destruct (Z.eqb_spec (dot (ImaginaryTE.me te)) 2);
        [assumption|discriminate Hblock]. }
    rewrite Hdot in Hsteps, Hi. apply sweep_range_last in Hi. subst i.
    exists rs, r.
    split; [exact Hsteps|]. split; [exact Hblock|].
    split; [reflexivity|]. split; [reflexivity|].
    split; [exact (fold_dmax_one ImaginaryTE.it_error rs (of_Q 0))|].
    intros Hirr Htrans Hinc.
    exact (fold_dmax_bounds ImaginaryTE.it_error rs Hirr Htrans Hinc
             (of_Q 0)).
  - intros c forward bra_bond_dim ket_bond_dim noise w w' norm Hrun.
    cbv zeta. unfold Compress.sweep in Hrun.
    apply bind_Ok in Hrun as ([] & w0 & Hprep & Hrun).
    apply call_Ok in Hprep as ->.
    apply bind_Ok in Hrun as (ctr & w1 & Hc & Hrun).
    apply ask_Ok in Hc as [-> ->]. cbn [objs calls] in Hrun.
    apply bind_Ok in Hrun as (ns & w2 & Hsteps & Hrun).
    apply deref_Ok in Hrun as [Hlast ->].
    apply compress_sweep_steps_results in Hsteps.
    destruct (Forall2_last _ _ _ _ Hsteps Hlast)
      as (i & Hi & r & wa & wb & Hblock & ->).
    assert (dot (Compress.me c) = 2) as Hdot.
    { unfold Compress.blocking in Hblock.
      apply bind_Ok in Hblock as ([] & wc & _ & Hblock).
      destruct (Z.eqb_spec (dot (Compress.me c)) 2);
        [assumption|discriminate Hblock]. }
    rewrite Hdot in Hi. apply sweep_range_last in Hi. subst i.
    exists r, wa, wb. auto.
Qed.
End SweepReports.

Section ExpectSolve.
Context {Op D S : Type} `{!Numeric D}.
Variable C : Collaborators Op D S.

Lemma preserves_average {X} (f : World D -> X) ws
    (values : list (OpExpr Op D * list D)) :
  preserves f (Expect.average ws values).
Proof.
  induction values as [|[op vs] values IH]; cbn [Expect.average].
  - apply preserves_ret.
  - apply preserves_bind; [apply preserves_deref|intros x].
    apply preserves_bind; [exact IH|intros rest]. apply preserves_ret.
Qed.

Lemma preserves_split_all {X} (f : World D -> X)
    (split : ptr -> M (World D) D) bra l :
  (forall mps, preserves f (split mps)) ->
  forall errors, preserves f (Expect.split_all split bra l errors).
Proof.
  intros Hsplit. induction l as [|mps l IH]; intros errors;
    cbn [Expect.split_all].
  - apply preserves_ret.
  - apply preserves_bind; [apply Hsplit|intros error]. apply IH.
Qed.

(** Proves that a piece of Expect leaves a filter of the log, or the
    objects, alone. *)
Ltac expect_preserves :=
  unfold Expect.update_two_dot, Expect.update_multi_two_dot, Expect.mpss,
    Expect.old_wfns_of;
  repeat first
    [ apply preserves_average
    | apply preserves_split_all; intros ?
    | preserves_step
    | progress unfold obtain_two_dot, obtain_multi_two_dot, save_two,
        save_multi_two, deallocate_old_wfns, for_down,
        update_canonical_form, Expect.split_one, Expect.multi_split_one ].

(** The update made without propagating changes no canonical form and
    no number of roots and makes no call that splits, builds a density
    matrix, propagates, stores, moves the environment or prepares it. *)
Lemma expect_measurement_quiet (e : Expect.t) i forward bra_bond_dim
    ket_bond_dim (multi : bool) (w w' : World D) r :
  (if multi
   then Expect.update_multi_two_dot C e i forward false bra_bond_dim
          ket_bond_dim
   else Expect.update_two_dot C e i forward false bra_bond_dim ket_bond_dim)
    w = Ok r w' ->
  objs w' = objs w
  /\ List.filter is_split (calls w') = List.filter is_split (calls w)
  /\ List.filter is_density_matrix (calls w')
     = List.filter is_density_matrix (calls w)
  /\ List.filter is_propagate (calls w')
     = List.filter is_propagate (calls w)
  /\ List.filter is_store (calls w') = List.filter is_store (calls w)
  /\ List.filter is_move_to (calls w') = List.filter is_move_to (calls w)
  /\ List.filter is_prepare (calls w') = List.filter is_prepare (calls w).
Proof.
  intros Hrun.
  repeat match goal with
         | |- _ /\ _ => split
         end.
  all: revert Hrun; generalize w, r, w'.
  - change (preserves (@objs D)
              (if multi
               then Expect.update_multi_two_dot C e i forward false
                      bra_bond_dim ket_bond_dim
               else Expect.update_two_dot C e i forward false bra_bond_dim
                      ket_bond_dim)).
    destruct multi; expect_preserves.
  - change (preserves (fun w : World D => List.filter is_split (calls w))
              (if multi
               then Expect.update_multi_two_dot C e i forward false
                      bra_bond_dim ket_bond_dim
               else Expect.update_two_dot C e i forward false bra_bond_dim
                      ket_bond_dim)).
    destruct multi; expect_preserves.
  - change (preserves
              (fun w : World D => List.filter is_density_matrix (calls w))
              (if multi
               then Expect.update_multi_two_dot C e i forward false
                      bra_bond_dim ket_bond_dim
               else Expect.update_two_dot C e i forward false bra_bond_dim
                      ket_bond_dim)).
    destruct multi; expect_preserves.
  - change (preserves
              (fun w : World D => List.filter is_propagate (calls w))
              (if multi
               then Expect.update_multi_two_dot C e i forward false
                      bra_bond_dim ket_bond_dim
               else Expect.update_two_dot C e i forward false bra_bond_dim
                      ket_bond_dim)).
    destruct multi; expect_preserves.
  - change (preserves (fun w : World D => List.filter is_store (calls w))
              (if multi
               then Expect.update_multi_two_dot C e i forward false
                      bra_bond_dim ket_bond_dim
               else Expect.update_two_dot C e i forward false bra_bond_dim
                      ket_bond_dim)).
    destruct multi; expect_preserves.
  - change (preserves (fun w : World D => List.filter is_move_to (calls w))
              (if multi
               then Expect.update_multi_two_dot C e i forward false
                      bra_bond_dim ket_bond_dim
               else Expect.update_two_dot C e i forward false bra_bond_dim
                      ket_bond_dim)).
    destruct multi; expect_preserves.
  - change (preserves (fun w : World D => List.filter is_prepare (calls w))
              (if multi
               then Expect.update_multi_two_dot C e i forward false
                      bra_bond_dim ket_bond_dim
               else Expect.update_two_dot C e i forward false bra_bond_dim
                      ket_bond_dim)).
    destruct multi; expect_preserves.
Qed.

(** How [blocking] of Expect chooses the update. *)
Lemma expect_blocking_Ok (e : Expect.t) i forward propagate bra_bond_dim
    ket_bond_dim (w w' : World D) r :
  Expect.blocking C e i forward propagate bra_bond_dim ket_bond_dim w
    = Ok r w' ->
  dot (Expect.me e) = 2
  /\ exists multi : bool,
       (if multi
        then Expect.update_multi_two_dot C e i forward propagate bra_bond_dim
               ket_bond_dim
        else Expect.update_two_dot C e i forward propagate bra_bond_dim
               ket_bond_dim)
         {| objs := objs w; calls := calls w ++ [move_to i] |} = Ok r w'.
Proof.
  intros Hrun. unfold Expect.blocking in Hrun.
  apply bind_Ok in Hrun as ([] & w1 & Hmove & Hrun).
  apply call_Ok in Hmove as ->.
  destruct (Z.eqb_spec (dot (Expect.me e)) 2) as [Hdot|]; [|discriminate].
  split; [exact Hdot|].
  apply bind_Ok in Hrun as (c0 & w2 & Hc0 & Hrun).
  apply get_canonical_form_Ok in Hc0 as (-> & _).
  apply bind_Ok in Hrun as (multi & w3 & Hmulti & Hrun).
  assert (w3 = {| objs := objs w; calls := calls w ++ [move_to i] |}) as ->.
  { destruct (Ascii.eqb c0 "M").
    - injection Hmulti as _ <-. reflexivity.
    - apply bind_Ok in Hmulti as (c1 & w4 & Hc1 & Hmulti).
      apply get_canonical_form_Ok in Hc1 as (-> & _).
      injection Hmulti as _ <-. reflexivity. }
  exists multi. exact Hrun.
Qed.

(** X9.  A [solve] of Expect made without propagating is a measurement
    at the center of the environment: it moves the environment to the
    center it reads and to no other position, leaves the canonical form
    and the number of roots of every MPS as they were, and makes no call
    that splits, builds a density matrix, propagates a wavefunction,
    saves a tensor, a wavefunction or a bond basis, or prepares the
    environment.  The tensors themselves are not left alone: the
    two-site tensor is contracted or loaded and the old wavefunction is
    released, and of these calls the statement says nothing.  The call
    leaves the direction of the object as it was and every list of
    expectations empty: the value measured is returned, not recorded. *)
Theorem expect_solve_measures (e : Expect.t) forward (w w' : World D) x e' :
  Expect.solve C e false forward w = Ok (x, e') w' ->
  dot (Expect.me e) = 2
  /\ objs w' = objs w
  /\ List.filter is_move_to (calls w')
     = List.filter is_move_to (calls w) ++ [move_to (center C (calls w))]
  /\ List.filter is_split (calls w') = List.filter is_split (calls w)
  /\ List.filter is_density_matrix (calls w')
     = List.filter is_density_matrix (calls w)
  /\ List.filter is_propagate (calls w')
     = List.filter is_propagate (calls w)
  /\ List.filter is_store (calls w') = List.filter is_store (calls w)
  /\ List.filter is_prepare (calls w') = List.filter is_prepare (calls w)
  /\ Expect.forward e' = Expect.forward e
  /\ Expect.expectations e'
     = replicate (length (Expect.expectations e)) [].
Proof.
  intros Hrun. unfold Expect.solve in Hrun.
  apply bind_Ok in Hrun as (c & w1 & Hc & Hrun).
  apply ask_Ok in Hc as [-> ->].
  apply bind_Ok in Hrun as (r & w2 & Hblock & Hrun).
  apply bind_Ok in Hrun as ([] & w3 & Hne & Hrun).
  apply assert_Ok in Hne as [_ ->].
  apply bind_Ok in Hrun as (v & w4 & Hv & Hrun).
  apply deref_Ok in Hv as [_ ->]. injection Hrun as _ <- <-.
  apply expect_blocking_Ok in Hblock as (Hdot & multi & Hrun).
  apply expect_measurement_quiet in Hrun
    as (Hobjs & Hsplit & Hdm & Hprop & Hstore & Hmove & Hprep).
  cbn [objs calls Expect.with_expectations Expect.me Expect.forward
         Expect.expectations] in *.
  rewrite List.filter_app in Hsplit, Hdm, Hprop, Hstore, Hmove, Hprep.
  cbn [List.filter is_split is_density_matrix is_propagate is_store
         is_move_to is_prepare] in Hsplit, Hdm, Hprop, Hstore, Hmove, Hprep.
  rewrite app_nil_r in Hsplit, Hdm, Hprop, Hstore, Hprep.
  repeat (split; [assumption|]). split; [reflexivity|].
  induction (Expect.expectations e) as [|v0 l IH]; cbn; [reflexivity|].
  rewrite IH. reflexivity.
Qed.
(** An update of Expect, propagating or not, does not move the
    environment and does not prepare it. *)
Lemma expect_update_stays (e : Expect.t) i forward propagate bra_bond_dim
    ket_bond_dim (multi : bool) (w w' : World D) r :
  (if multi
   then Expect.update_multi_two_dot C e i forward propagate bra_bond_dim
          ket_bond_dim
   else Expect.update_two_dot C e i forward propagate bra_bond_dim
          ket_bond_dim) w = Ok r w' ->
  List.filter is_move_to (calls w') = List.filter is_move_to (calls w)
  /\ List.filter is_prepare (calls w') = List.filter is_prepare (calls w).
Proof.
  intros Hrun. split; revert Hrun; generalize w, r, w'.
  - change (preserves (fun w : World D => List.filter is_move_to (calls w))
              (if multi
               then Expect.update_multi_two_dot C e i forward propagate
                      bra_bond_dim ket_bond_dim
               else Expect.update_two_dot C e i forward propagate
                      bra_bond_dim ket_bond_dim)).
    destruct multi; expect_preserves.
  - change (preserves (fun w : World D => List.filter is_prepare (calls w))
              (if multi
               then Expect.update_multi_two_dot C e i forward propagate
                      bra_bond_dim ket_bond_dim
               else Expect.update_two_dot C e i forward propagate
                      bra_bond_dim ket_bond_dim)).
    destruct multi; expect_preserves.
Qed.

(** The loop of [sweep] over the chain positions: every position is an
    index of [expectations], and only the entries of the positions are
    written. *)
Lemma expect_sweep_steps_Ok (e : Expect.t) forward bra_bond_dim ket_bond_dim
    range :
  forall (exps exps' : list (list (OpExpr Op D * D))) (w w' : World D),
    Expect.sweep_steps C e forward bra_bond_dim ket_bond_dim range exps w
      = Ok exps' w' ->
    length exps' = length exps
    /\ Forall (fun i => 0 <= i < Z.of_nat (length exps)) range
    /\ (forall j : nat, Z.of_nat j ∉ range -> exps' !! j = exps !! j)
    /\ (range <> [] -> dot (Expect.me e) = 2)
    /\ List.filter is_move_to (calls w')
       = List.filter is_move_to (calls w) ++ map move_to range
    /\ List.filter is_prepare (calls w') = List.filter is_prepare (calls w).
Proof.
  induction range as [|i range IH]; intros exps exps' w w';
    cbn [Expect.sweep_steps].
  - intros [= <- <-]. cbn. rewrite app_nil_r.
    repeat split; auto. congruence.
  - intros Hrun.
    apply bind_Ok in Hrun as ([] & w0 & Hsig & Hrun).
    apply call_Ok in Hsig as ->.
    apply bind_Ok in Hrun as (r & w1 & Hstep & Hrun).
    apply expect_blocking_Ok in Hstep as (Hdot & multi & Hstep).
    apply expect_update_stays in Hstep as [Hmove Hprep].
    cbn [objs calls] in Hmove, Hprep.
    rewrite !List.filter_app in Hmove, Hprep.
    cbn [List.filter is_move_to is_prepare] in Hmove, Hprep.
    repeat rewrite app_nil_r in Hmove. repeat rewrite app_nil_r in Hprep.
    destruct (Z.leb_spec 0 i) as [Hi0|]; [|discriminate Hrun].
    destruct (Z.ltb_spec i (Z.of_nat (length exps))) as [Hi1|];
      [|discriminate Hrun].
    cbn [andb] in Hrun.
    apply IH in Hrun as (Hlen & Hall & Hother & _ & Hmoves & Hpreps).
    rewrite length_insert in Hlen, Hall.
    split; [exact Hlen|]. split; [constructor; [lia|exact Hall]|].
    split.
    { intros j Hj. rewrite Hother.
      - apply list_lookup_insert_ne. intros Heq. apply Hj.
        apply elem_of_cons. left. lia.
      - intros Hin. apply Hj. apply elem_of_cons. right. exact Hin. }
    split; [intros _; exact Hdot|].
    split; [|congruence].
    rewrite Hmoves, Hmove. cbn [map]. rewrite <- app_assoc. reflexivity.
Qed.

(** X10.  A [solve] of Expect that propagates returns 0 and stores the
    direction reversed.  It prepares the environment once and moves it to
    every position from the center it reads to the end of the chain, in
    order; every position is an index of [expectations]; the object has as
    many lists of expectations as before, and the list of every position
    that the sweep did not visit is empty. *)
Theorem expect_solve_sweeps (e : Expect.t) forward (w w' : World D) x e' :
  Expect.solve C e true forward w = Ok (x, e') w' ->
  let range := sweep_range forward (center C (calls w ++ [prepare]))
                 (n_sites (Expect.me e)) (dot (Expect.me e)) in
  x = of_Q 0
  /\ Expect.forward e' = negb forward
  /\ (range <> [] -> dot (Expect.me e) = 2)
  /\ List.filter is_prepare (calls w')
     = List.filter is_prepare (calls w) ++ [prepare]
  /\ List.filter is_move_to (calls w')
     = List.filter is_move_to (calls w) ++ map move_to range
  /\ length (Expect.expectations e') = length (Expect.expectations e)
  /\ Forall (fun i => 0 <= i < Z.of_nat (length (Expect.expectations e)))
       range
  /\ forall j : nat,
       (j < length (Expect.expectations e))%nat ->
       Z.of_nat j ∉ range ->
       Expect.expectations e' !! j = Some [].
Proof.
  intros Hrun. cbv zeta. unfold Expect.solve, Expect.sweep in Hrun.
  apply bind_Ok in Hrun as (e1 & w1 & Hsweep & Hrun).
  injection Hrun as <- <- <-.
  apply bind_Ok in Hsweep as ([] & w0 & Hprep & Hsweep).
  apply call_Ok in Hprep as ->.
  apply bind_Ok in Hsweep as (c & w2 & Hc & Hsweep).
  apply ask_Ok in Hc as [-> ->].
  apply bind_Ok in Hsweep as (exps & w3 & Hsteps & Hsweep).
  injection Hsweep as <- <-.
  cbn [objs calls Expect.with_expectations Expect.me Expect.forward
         Expect.expectations Expect.bra_bond_dim Expect.ket_bond_dim]
    in *.
  apply expect_sweep_steps_Ok in Hsteps
    as (Hlen & Hall & Hother & Hdot & Hmoves & Hpreps).
  cbn [objs calls] in Hmoves, Hpreps.
  rewrite List.filter_app in Hmoves, Hpreps.
  cbn [List.filter is_move_to is_prepare] in Hmoves, Hpreps.
  rewrite app_nil_r in Hmoves. rewrite length_map in Hlen, Hall.
  split; [reflexivity|]. split; [reflexivity|]. split; [exact Hdot|].
  split; [exact Hpreps|]. split; [exact Hmoves|]. split; [exact Hlen|].
  split; [exact Hall|].
  intros j Hj Hnot. rewrite (Hother j Hnot), list_lookup_fmap.
  destruct (lookup_lt_is_Some_2 _ _ Hj) as [v ->]. reflexivity.
Qed.
End ExpectSolve.

Section PartitionFunction.
Context {Op D S : Type} `{!Numeric D}.
Variable C : Collaborators Op D S.

End PartitionFunction.
End DriverCoverage.

(** ** More concrete runs *)

Module CoverageRuns.
Import DriverFacts DriverCoverage EngineCoverage Example CoverageExample.

(** The last forward step of a tangent-space sub-sweep that does not
    advance the time. *)
Lemma tangent_space_sub_sweep_asserts_witness :
  ImaginaryTE.mode (evolution TETypes.TangentSpace 2) = TETypes.TangentSpace
  /\ ((true = true
       /\ 2 + 1
          = n_sites (ImaginaryTE.me (evolution TETypes.TangentSpace 2)) - 1)
      \/ (true = false /\ 2 = 0))
  /\ ImaginaryTE.update_two_dot collaborators
       (evolution TETypes.TangentSpace 2) 2 true false 1 100 0 world
     = AssertFail.
Proof.
  assert ((true = true
           /\ 2 + 1
              = n_sites (ImaginaryTE.me (evolution TETypes.TangentSpace 2))
                - 1)
          \/ (true = false /\ 2 = 0)) as Hb
    by (left; split; reflexivity).
  split; [reflexivity|]. split; [exact Hb|].
  exact (tangent_space_sub_sweep_asserts collaborators
           (evolution TETypes.TangentSpace 2) 2 true 1 100 0 world eq_refl
           Hb).
Defined.

(** Two time steps of two sub-sweeps each in [RK4] mode: four sweeps, two
    energies, and the direction as it was. *)
Lemma imaginary_te_solve_time_steps_witness :
  exists e te' w',
    ImaginaryTE.solve collaborators (evolution TETypes.RK4 2) 2 1 true 1
      world = Ok (e, te') w'
    /\ length (ImaginaryTE.energies te') = 2%nat
    /\ List.filter is_prepare (calls w') = [prepare; prepare; prepare; prepare]
    /\ ImaginaryTE.forward te' = true.
Proof.
  eexists _, _, _.
  assert (ImaginaryTE.solve collaborators (evolution TETypes.RK4 2) 2 1 true
            1 world = Ok (_, _) _) as Hrun by (vm_compute; reflexivity).
  split; [exact Hrun|].
  destruct (imaginary_te_solve_time_steps collaborators
              (evolution TETypes.RK4 2) 2 1 true 1 world _ _ _ Hrun)
    as (_ & _ & _ & Hlen & _ & _ & Hprep & Hfwd).
  split; [exact Hlen|]. split; [exact Hprep|exact Hfwd].
Defined.

(** A tangent-space step at the middle of the chain, going forward: the
    exponential is applied backwards to the next site, which is
    normalized. *)
Lemma tangent_space_back_step_witness :
  ImaginaryTE.mode (evolution TETypes.TangentSpace 1) = TETypes.TangentSpace
  /\ exists r w',
       ImaginaryTE.update_two_dot collaborators
         (evolution TETypes.TangentSpace 1) 1 true true 1 100 0 world
       = Ok r w'
       /\ List.filter is_evolution (calls w')
          = [expo_apply (-1) 0 false; expo_apply 1 0 false]
       /\ List.filter is_move_to (calls w') = [move_to 2]
       /\ List.filter is_normalize (calls w')
          = [normalize_tensor 1%positive 2].
Proof.
  split; [reflexivity|]. eexists _, _.
  assert (ImaginaryTE.update_two_dot collaborators
            (evolution TETypes.TangentSpace 1) 1 true true 1 100 0 world
          = Ok _ _) as Hrun by (vm_compute; reflexivity).
  split; [exact Hrun|].
  destruct (tangent_space_back_step collaborators
              (evolution TETypes.TangentSpace 1) 1 true true 1 100 0 world
              _ _ eq_refl Hrun) as (_ & Hevo & _ & Hmove & Hnorm).
  split; [exact Hevo|]. split; [exact Hmove|exact Hnorm].
Defined.

(** A compression of object 1 into object 2: the bra is split with its
    own bond dimension, then the ket with its own. *)
Lemma compress_update_bra_then_ket_witness :
  exists r w',
    Compress.update_two_dot collaborators (compress 2%positive 1%positive) 0
      true 50 100 7 world = Ok r w'
    /\ List.filter is_density_matrix (calls w')
       = [density_matrix 2%positive true 7 NoiseTypes.DensityMatrix;
          density_matrix 1%positive true 0 NoiseTypes.None]
    /\ List.filter is_split (calls w')
       = [split_density_matrix 2%positive 0 50 true false 0
            TruncationTypes.Physical;
          split_density_matrix 1%positive 0 100 true false 0
            TruncationTypes.Physical].
Proof.
  eexists _, _.
  assert (Compress.update_two_dot collaborators
            (compress 2%positive 1%positive) 0 true 50 100 7 world
          = Ok _ _) as Hrun by (vm_compute; reflexivity).
  split; [exact Hrun|].
  destruct (compress_update_bra_then_ket collaborators
              (compress 2%positive 1%positive) 0 true 50 100 7 world _ _
              Hrun) as (_ & Hdm & Hsplit & _).
  split; [exact Hdm|exact Hsplit].
Defined.

(** A DMRG update with the default decomposition and noise type: the
    plain density matrix, no perturbation, one split of it. *)
Lemma dmrg_update_decomposition_witness :
  exists r w',
    DMRG.update_two_dot collaborators dmrg 0 true 100 7 1 world = Ok r w'
    /\ List.filter is_density_matrix (calls w')
       = [density_matrix 1%positive true 7 NoiseTypes.DensityMatrix]
    /\ List.filter is_noise (calls w') = []
    /\ List.filter is_split (calls w')
       = [split_density_matrix 1%positive 0 100 true true 0
            TruncationTypes.Physical].
Proof.
  eexists _, _.
  assert (DMRG.update_two_dot collaborators dmrg 0 true 100 7 1 world
          = Ok _ _) as Hrun by (vm_compute; reflexivity).
  split; [exact Hrun|].
  exact (dmrg_update_decomposition collaborators dmrg 0 true 100 7 1 world
           _ _ Hrun).
Defined.

(** A forward sweep of DMRG from the first site of the chain of four
    sites visits the positions 0, 1 and 2. *)
Lemma dmrg_sweep_moves_center_witness :
  exists res w',
    DMRG.sweep collaborators dmrg true 100 0 1 world = Ok res w'
    /\ List.filter is_prepare (calls w') = [prepare]
    /\ List.filter is_move_to (calls w') = [move_to 0; move_to 1; move_to 2].
Proof.
  eexists _, _.
  assert (DMRG.sweep collaborators dmrg true 100 0 1 world = Ok _ _)
    as Hrun by (vm_compute; reflexivity).
  split; [exact Hrun|].
  destruct (dmrg_sweep_moves_center collaborators dmrg true 100 0 1 world
              _ _ Hrun) as (_ & _ & Hprep & Hmoves & _).
  split; [exact Hprep|exact Hmoves].
Defined.

(** With an eigensolver that finds the energies 0, -1 and -2 at the three
    positions of a forward sweep, the sweep reports the energy -2 of the
    last one. *)
Lemma dmrg_sweep_reports_lowest_witness :
  exists res w',
    DMRG.sweep descending dmrg true 100 0 1 world = Ok res w'
    /\ res.1 = [-2]
    /\ exists (rs : list DMRG.Iteration) (idx : nat) r,
         rs !! idx = Some r
         /\ res = (DMRG.it_energies r, DMRG.it_quanta r)
         /\ forall (j : nat) rj e ej,
              rs !! j = Some rj ->
              head (DMRG.it_energies r) = Some e ->
              head (DMRG.it_energies rj) = Some ej ->
              (ej <? e) = false /\ ((j < idx)%nat -> (e <? ej) = true).
Proof.
  eexists _, _.
  assert (DMRG.sweep descending dmrg true 100 0 1 world = Ok _ _)
    as Hrun by (vm_compute; reflexivity).
  split; [exact Hrun|]. split; [reflexivity|].
  assert (forall x : Z, dltb x x = false) as Hirr
    by (intros x; apply Z.ltb_irrefl).
  assert (forall x y z : Z,
             dltb x y = true -> dltb y z = true -> dltb x z = true)
    as Htrans.
  { intros x y z H1 H2. apply Z.ltb_lt in H1, H2. apply Z.ltb_lt. lia. }
  assert (forall x y z : Z,
             dltb x y = false -> dltb y z = false -> dltb x z = false)
    as Hinc.
  { intros x y z H1 H2. apply Z.ltb_ge in H1, H2. apply Z.ltb_ge. lia. }
  destruct (dmrg_sweep_reports_lowest descending Hirr Htrans Hinc dmrg true
              100 0 1 world _ _ Hrun) as (rs & idx & r & _ & Hr & Hres & H).
  exists rs, idx, r. split; [exact Hr|]. split; [exact Hres|exact H].
Defined.

(** A [solve] of DMRG asked for three sweeps with [tol = 0] and
    schedules of one entry: the schedules are padded to three entries and
    all three sweeps are made. *)
Lemma dmrg_solve_schedules_witness :
  exists e d' w',
    DMRG.solve collaborators dmrg 3 true 0 world = Ok (e, d') w'
    /\ DMRG.bond_dims d' = [100; 100; 100]
    /\ length (DMRG.energies d') = 3%nat
    /\ DMRG.forward d' = false.
Proof.
  eexists _, _, _.
  assert (DMRG.solve collaborators dmrg 3 true 0 world = Ok (_, _) _)
    as Hrun by (vm_compute; reflexivity).
  split; [exact Hrun|].
  destruct (dmrg_solve_schedules collaborators dmrg 3 true 0 world _ _ _
              Hrun) as (_ & _ & _ & _ & Htol & _ & _ & Hfwd & _).
  split; [reflexivity|]. split; [exact (Htol eq_refl)|exact Hfwd].
Defined.

(** A measurement on the chain of four sites: the value 2 the effective
    Hamiltonian gives is returned, the environment is moved to the center
    and nothing is split. *)
Lemma expect_solve_measures_witness :
  exists x e' w',
    Expect.solve collaborators (expectation 1%positive 1%positive) false true
      world = Ok (x, e') w'
    /\ x = 2
    /\ objs w' = objs world
    /\ List.filter is_move_to (calls w') = [move_to 0]
    /\ List.filter is_split (calls w') = []
    /\ Expect.expectations e' = [[]; []; []].
Proof.
  eexists _, _, _.
  assert (Expect.solve collaborators (expectation 1%positive 1%positive)
            false true world = Ok (_, _) _) as Hrun
    by (vm_compute; reflexivity).
  split; [exact Hrun|]. split; [reflexivity|].
  destruct (expect_solve_measures collaborators
              (expectation 1%positive 1%positive) true world _ _ _ Hrun)
    as (_ & Hobjs & Hmove & Hsplit & _ & _ & _ & _ & _ & Hexp).
  split; [exact Hobjs|]. split; [exact Hmove|]. split; [exact Hsplit|].
  exact Hexp.
Defined.

(** A propagating sweep forward from site 1: the positions 1 and 2 are
    visited, the list of position 0 stays empty, and the direction stored
    is backward. *)
Lemma expect_solve_sweeps_witness :
  exists x e' w',
    Expect.solve collaborators (expectation 1%positive 1%positive) true true
      moved_world = Ok (x, e') w'
    /\ x = 0
    /\ Expect.forward e' = false
    /\ List.filter is_move_to (calls w') = [move_to 1; move_to 1; move_to 2]
    /\ Expect.expectations e' !! 0%nat = Some [].
Proof.
  eexists _, _, _.
  assert (Expect.solve collaborators (expectation 1%positive 1%positive)
            true true moved_world = Ok (_, _) _) as Hrun
    by (vm_compute; reflexivity).
  split; [exact Hrun|].
  destruct (expect_solve_sweeps collaborators
              (expectation 1%positive 1%positive) true moved_world _ _ _
              Hrun)
    as (Hx & Hfwd & _ & _ & Hmove & _ & _ & Hrest).
  split; [exact Hx|]. split; [exact Hfwd|]. split; [exact Hmove|].
  apply Hrest; [vm_compute; lia|].
  intros Hin. vm_compute in Hin.
  repeat (apply elem_of_cons in Hin as [Hin|Hin]; [discriminate Hin|]).
  apply elem_of_nil in Hin. exact Hin.
Defined.


(** A state-averaged update over two roots with the default noise type
    and decomposition: two lists of quanta, one density matrix over the
    targets. *)
Lemma dmrg_multi_update_requirements_witness :
  exists r w',
    DMRG.update_multi_two_dot collaborators dmrg 0 true 100 0 1 multi_world
      = Ok r w'
    /\ length (DMRG.it_quanta r) = 2%nat
    /\ List.filter is_density_matrix (calls w')
       = [density_matrix_with_multi_target 1%positive true 0
            NoiseTypes.DensityMatrix].
Proof.
  eexists _, _.
  assert (DMRG.update_multi_two_dot collaborators dmrg 0 true 100 0 1
            multi_world = Ok _ _) as Hrun by (vm_compute; reflexivity).
  split; [exact Hrun|].
  destruct (dmrg_multi_update_requirements collaborators dmrg 0 true 100 0 1
              multi_world _ _ Hrun)
    as (_ & _ & _ & _ & Hdm & _).
  split; [reflexivity|exact Hdm].
Defined.

(** A compression asked for two sweeps with [tol = 0]: both are made,
    and the ket schedule is padded like the others. *)
Lemma compress_solve_schedules_witness :
  exists norm c' w',
    Compress.solve collaborators (compress 2%positive 1%positive) 2 true 0
      world = Ok (norm, c') w'
    /\ Compress.ket_bond_dims c' = [100; 100]
    /\ length (Compress.norms c') = 2%nat
    /\ Compress.forward c' = true.
Proof.
  eexists _, _, _.
  assert (Compress.solve collaborators (compress 2%positive 1%positive) 2
            true 0 world = Ok (_, _) _) as Hrun
    by (vm_compute; reflexivity).
  split; [exact Hrun|].
  destruct (compress_solve_schedules collaborators
              (compress 2%positive 1%positive) 2 true 0 world _ _ _ Hrun)
    as (_ & _ & _ & _ & _ & Htol & _ & Hfwd & _).
  split; [reflexivity|]. split; [exact (Htol eq_refl)|exact Hfwd].
Defined.

(** The transform of the tensor with three operators, the first without
    data: afterwards all three have data, and the left vector holds the
    name. *)
Lemma numerical_transform_tensor_witness :
  exists a' p w',
    EngineExample.transform_run EngineExample.engine_world = Ok (a', p) w'
    /\ ParallelTensorFunctions.lmat a' = Some [1%positive]
    /\ ParallelTensorFunctions.rmat a' = None
    /\ Forall (fun e => ParallelTensorFunctions.has_data e.2 = true)
         (ParallelTensorFunctions.ops a').
Proof.
  eexists _, _, _.
  assert (EngineExample.transform_run EngineExample.engine_world
          = Ok (_, _) _) as Hrun by (vm_compute; reflexivity).
  split; [exact Hrun|].
  destruct (numerical_transform_tensor _ _ _ _ _ _ _ _ _ _ _ _ _ _ Hrun)
    as (_ & _ & _ & _ & Hdata & _).
  split; [reflexivity|]. split; [reflexivity|exact Hdata].
Defined.

(** A forward sweep of a time evolution, and one of a compression, on
    the chain of four sites: what is reported is what the step at
    position 2 gave. *)
Lemma sweeps_report_last_step_witness :
  (exists energy normsq error w' r w1 w2,
      ImaginaryTE.sweep collaborators (evolution TETypes.RK4 1) true true 1
        100 0 world = Ok (energy, normsq, error) w'
      /\ ImaginaryTE.blocking collaborators (evolution TETypes.RK4 1) 2 true
           true 1 100 0 w1 = Ok r w2
      /\ energy = ImaginaryTE.it_energy r
      /\ (error <? 0) = false)
  /\ (exists norm w' r w1 w2,
        Compress.sweep collaborators (compress 2%positive 1%positive) true
          50 100 0 world = Ok norm w'
        /\ Compress.blocking collaborators (compress 2%positive 1%positive)
             2 true 50 100 0 w1 = Ok r w2
        /\ norm = Compress.it_norm r).
Proof.
  assert (forall x : Z, dltb x x = false) as Hirr
    by (intros x; apply Z.ltb_irrefl).
  assert (forall x y z : Z,
             dltb x y = true -> dltb y z = true -> dltb x z = true)
    as Htrans.
  { intros x y z H1 H2. apply Z.ltb_lt in H1, H2. apply Z.ltb_lt. lia. }
  assert (forall x y z : Z,
             dltb x y = false -> dltb y z = false -> dltb x z = false)
    as Hinc.
  { intros x y z H1 H2. apply Z.ltb_ge in H1, H2. apply Z.ltb_ge. lia. }
  pose proof (sweeps_report_last_step collaborators) as [Hte Hcompress].
  split.
  - assert (exists energy normsq error w',
               ImaginaryTE.sweep collaborators (evolution TETypes.RK4 1) true
                 true 1 100 0 world = Ok (energy, normsq, error) w')
      as (energy & normsq & error & w' & Hrun)
      by (eexists _, _, _, _; vm_compute; reflexivity).
    destruct (Hte _ _ _ _ _ _ _ _ _ _ _ Hrun)
      as (rs & r & _ & (w1 & w2 & Hblock) & He & _ & _ & Hbounds).
    destruct (Hbounds Hirr Htrans Hinc) as [Hzero _].
    exists energy, normsq, error, w', r, w1, w2. auto.
  - assert (exists norm w',
               Compress.sweep collaborators (compress 2%positive 1%positive)
                 true 50 100 0 world = Ok norm w')
      as (norm & w' & Hrun) by (eexists _, _; vm_compute; reflexivity).
    destruct (Hcompress _ _ _ _ _ _ _ _ Hrun)
      as (r & w1 & w2 & Hblock & Hnorm).
    exists norm, w', r, w1, w2. auto.
Defined.

(** A left rotation in [Auto] mode: the target of operator 1 is allocated
    and rotated into, the batch is flushed, and the two targets are
    broadcast. *)
Lemma rotate_phases_witness :
  exists cops' s',
    ParallelTensorOps.left_rotate SeqTypes.Auto key_of (Pos.eqb 1)
      (Pos.eqb 1) (fun _ => true) (fun _ => 0) (Some entries) source_ops
      61%positive 62%positive target_ops machine = Ok cops' s'
    /\ cops'
       = [(1%positive,
           ParallelTensorFunctions.mkSparseMatrix 51%positive true);
          (2%positive,
           ParallelTensorFunctions.mkSparseMatrix 52%positive true)]
    /\ ParallelTensorOps.events s'
       = [ParallelTensorOps.engine
            (ParallelTensorFunctions.allocate 51%positive);
          ParallelTensorOps.opf_tensor_rotate 41%positive 51%positive
            61%positive 62%positive false;
          ParallelTensorOps.engine ParallelTensorFunctions.seq_auto_perform;
          ParallelTensorOps.comm_broadcast 51%positive 0;
          ParallelTensorOps.comm_broadcast 52%positive 0].
Proof.
  eexists _, _.
  assert (ParallelTensorOps.left_rotate SeqTypes.Auto key_of (Pos.eqb 1)
            (Pos.eqb 1) (fun _ => true) (fun _ => 0) (Some entries)
            source_ops 61%positive 62%positive target_ops machine
          = Ok _ _) as Hrun by (vm_compute; reflexivity).
  split; [exact Hrun|].
  destruct (rotate_phases SeqTypes.Auto key_of (Pos.eqb 1) (Pos.eqb 1)
              (fun _ => true) (fun _ => 0) false (Some entries) source_ops
              target_ops _ 61%positive 62%positive machine _ Hrun)
    as (d & first & Hd & _ & _ & _ & _ & Hcops & _).
  injection Hd as <-. split; [exact Hcops|reflexivity].
Defined.
End CoverageRuns.
